(** * A shallow embedding of the TOML parser and serializer

    The development follows the JavaScript sources: [_parser.js] (the
    [Scanner] class, the [Utils] object, the parser combinators, the token
    recognizers, the grammar and [ParserFactory]), [parse.js] and
    [stringify.js] (the [Dumper] class).

    Conventions of the embedding.
    - A JavaScript string is the list of its UTF-16 code units ([list N]).
    - The scanner is a record; a parser is a function from a scanner to an
      [outcome]: a normal return with the new scanner, a thrown exception
      together with the scanner as the exception left it (the driver reads
      the position after the catch), or [Diverge] when the fuel that bounds
      loops and recursion ran out.
    - A JavaScript object is the list of its own properties in insertion
      order.  Property names that collide with members of the built-in
      prototypes (constructor, toString, __proto__ and the like) and expando
      properties on arrays and dates are outside the value model.
    - A number is an exact signed decimal; rounding to binary64 is not
      modelled. *)

From Stdlib Require Import Ascii String List NArith ZArith Arith Bool Lia.
Import ListNotations.

Local Open Scope N_scope.
Local Open Scope nat_scope.
Local Open Scope list_scope.

Set Implicit Arguments.
Set Warnings "-register-all".

(** ** Code units and character classes *)

(** A JavaScript string as its UTF-16 code units. *)
Definition jsstring := list N.

Definition cu (c : ascii) : N := N_of_ascii c.

Definition str (s : string) : jsstring := map cu (list_ascii_of_string s).

Definition DQUOTE : N := 34%N.
Definition SQUOTE : N := 39%N.
Definition BACKSLASH : N := 92%N.
Definition LF : N := 10%N.
Definition CR : N := 13%N.
Definition TAB : N := 9%N.
Definition SPACE : N := 32%N.
Definition VT : N := 11%N.
Definition HASH : N := 35%N.

Fixpoint jseq (a b : jsstring) : bool :=
  match a, b with
  | [], [] => true
  | x :: a', y :: b' => N.eqb x y && jseq a' b'
  | _, _ => false
  end.

Definition between (lo hi c : N) : bool := (N.leb lo c && N.leb c hi)%bool.

Definition is_digit (c : N) : bool := between 48 57 c.
Definition is_upper (c : N) : bool := between 65 90 c.
Definition is_lower (c : N) : bool := between 97 122 c.

(** The regular expression class [\s] of ECMAScript. *)
Definition is_space (c : N) : bool :=
  (between 9 13 c || N.eqb c 32 || N.eqb c 160 || N.eqb c 5760
   || between 8192 8202 c || N.eqb c 8232 || N.eqb c 8233 || N.eqb c 8239
   || N.eqb c 8287 || N.eqb c 12288 || N.eqb c 65279)%bool.

(** A regular expression that is one character class, tested against the
    result of [scanner.char()], which is the empty string at the end. *)
Definition test (class : N -> bool) (c : option N) : bool :=
  match c with
  | Some x => class x
  | None => false
  end.

Definition is_char (x : N) (c : option N) : bool := test (N.eqb x) c.

(** [#whitespace = /[ \t]/] *)
Definition whitespace (c : N) : bool := (N.eqb c SPACE || N.eqb c TAB)%bool.

(** [Patterns.BARE_KEY], [Patterns.FLOAT] and [Patterns.END_OF_VALUE]. *)
Definition BARE_KEY (c : N) : bool :=
  (is_upper c || is_lower c || is_digit c || N.eqb c 95 || N.eqb c 45)%bool.

Definition FLOAT (c : N) : bool :=
  (is_digit c || N.eqb c 95 || N.eqb c 46 || N.eqb c 101 || N.eqb c 69
   || N.eqb c 43 || N.eqb c 45)%bool.

Definition END_OF_VALUE (c : N) : bool :=
  (N.eqb c SPACE || N.eqb c TAB || N.eqb c CR || N.eqb c LF || N.eqb c HASH
   || N.eqb c 44 || N.eqb c 125 || N.eqb c 93)%bool.

(** [/[+-]/], [/[0-9_]/], [/[0-9a-f_]/i] and [/[ 0-9TZ.:-]/]. *)
Definition is_sign (c : N) : bool := (N.eqb c 43 || N.eqb c 45)%bool.
Definition is_digit_us (c : N) : bool := (is_digit c || N.eqb c 95)%bool.
Definition is_hex_us (c : N) : bool :=
  (is_digit c || between 97 102 c || between 65 70 c || N.eqb c 95)%bool.
Definition is_date_char (c : N) : bool :=
  (N.eqb c SPACE || is_digit c || N.eqb c 84 || N.eqb c 90 || N.eqb c 46
   || N.eqb c 58 || N.eqb c 45)%bool.

(** ** Rendering numbers in messages *)

Definition digit_char (d : N) : N :=
  if N.ltb d 10 then (48 + d)%N else (87 + d)%N.

Fixpoint render_digits (fuel : nat) (base n : N) (acc : jsstring) : jsstring :=
  match fuel with
  | O => acc
  | S f =>
      let acc' := digit_char (n mod base) :: acc in
      if N.ltb n base then acc' else render_digits f base (n / base) acc'
  end.

(** [n.toString(base)] for a non-negative integer. *)
Definition toStringRadix (base n : N) : jsstring :=
  render_digits (S (N.to_nat (N.log2 n))) base n [].

Definition decimal (n : N) : jsstring := toStringRadix 10 n.
Definition hexadecimal (n : N) : jsstring := toStringRadix 16 n.

(** ** The scanner *)

Record Scanner := mkScanner { source : jsstring; position : nat }.

Definition newScanner (src : jsstring) : Scanner := mkScanner src 0.

(** [char(index)]: [source[position + index] ?? ""]. *)
Definition char (s : Scanner) (index : nat) : option N :=
  nth_error (source s) (position s + index).

(** [slice(start, end)], for [start <= end]. *)
Definition slice (s : Scanner) (start stop : nat) : jsstring :=
  firstn (stop - start) (skipn (position s + start) (source s)).

(** [next(count)] *)
Definition advance (s : Scanner) (count : nat) : Scanner :=
  mkScanner (source s) (position s + count).

Definition eof (s : Scanner) : bool :=
  Nat.leb (length (source s)) (position s).

Definition isCurrentCharEOL (s : Scanner) : bool :=
  (is_char LF (char s 0) || jseq (slice s 0 2) [CR; LF])%bool.

(** Characters left between the cursor and the end of the source. *)
Definition remaining (s : Scanner) : nat := length (source s) - position s.

(** ** Exceptions and outcomes *)

(** The values the code can throw.  [NonError] stands for a thrown value
    that is not an instance of [Error]. *)
Inductive exn :=
| TOMLParseError (message : jsstring)
| RangeError (message : jsstring)
| TypeError (message : jsstring)
| Error (message : jsstring)
| NonError.

Definition instanceofError (e : exn) : bool :=
  match e with
  | NonError => false
  | _ => true
  end.

Definition exn_message (e : exn) : jsstring :=
  match e with
  | TOMLParseError m | RangeError m | TypeError m | Error m => m
  | NonError => []
  end.

Inductive outcome (A : Type) :=
| Ret (a : A) (s : Scanner)
| Throw (e : exn) (s : Scanner)
| Diverge.

Arguments Ret {A} a s.
Arguments Throw {A} e s.
Arguments Diverge {A}.

(** A computation over the scanner. *)
Definition M (A : Type) := Scanner -> outcome A.

Definition ret {A} (a : A) : M A := fun s => Ret a s.

Definition bind {A B} (m : M A) (f : A -> M B) : M B :=
  fun s =>
    match m s with
    | Ret a s' => f a s'
    | Throw e s' => Throw e s'
    | Diverge => Diverge
    end.

Definition throw {A} (e : exn) : M A := fun s => Throw e s.

Definition diverge {A} : M A := fun _ => Diverge.

(** Reading the scanner without moving it. *)
Definition peek {A} (f : Scanner -> A) : M A := fun s => Ret (f s) s.

(** [scanner.next(count)] *)
Definition next (count : nat) : M unit := fun s => Ret tt (advance s count).

Declare Scope toml_scope.
Delimit Scope toml_scope with toml.
Notation "x <- m ;; k" := (bind m (fun x => k))
  (at level 61, m at next level, right associativity) : toml_scope.
Notation "m ;; k" := (bind m (fun _ => k))
  (at level 61, right associativity) : toml_scope.
Local Open Scope toml_scope.

(** The uniform result of a parser: [{ok: true, body}] or [{ok: false}]. *)
Inductive MatchResult (A : Type) :=
| success (body : A)
| failure.

Arguments success {A} body.
Arguments failure {A}.

Definition ok {A} (r : MatchResult A) : bool :=
  match r with
  | success _ => true
  | failure => false
  end.

Definition Parser (A : Type) := M (MatchResult A).

(** ** Scanner.nextUntilChar *)

(** The three ways the code calls [nextUntilChar]: [{inline: true}], the
    default [{comment: true}] and [{comment: false}]. *)
Record SkipOptions := mkOptions { inline : bool; comment : bool }.

Definition opt_inline : SkipOptions := mkOptions true false.
Definition opt_default : SkipOptions := mkOptions false true.
Definition opt_nocomment : SkipOptions := mkOptions false false.

(** [while (this.#whitespace.test(this.char()) && !this.eof()) this.next()] *)
Fixpoint skip_inline (fuel : nat) : M unit :=
  match fuel with
  | O => diverge
  | S f =>
      go <- peek (fun s => test whitespace (char s 0) && negb (eof s))%bool ;;
      if go then next 1 ;; skip_inline f else ret tt
  end.

(** [while (!this.isCurrentCharEOL() && !this.eof()) this.next()] *)
Fixpoint skip_comment (fuel : nat) : M unit :=
  match fuel with
  | O => diverge
  | S f =>
      go <- peek (fun s => negb (isCurrentCharEOL s) && negb (eof s))%bool ;;
      if go then next 1 ;; skip_comment f else ret tt
  end.

(** The loop of the full mode. *)
Fixpoint skip_full (fuel : nat) (with_comment : bool) : M unit :=
  match fuel with
  | O => diverge
  | S f =>
      at_end <- peek eof ;;
      if at_end then ret tt
      else
        blank <- peek (fun s => test whitespace (char s 0)
                                || isCurrentCharEOL s)%bool ;;
        if blank then next 1 ;; skip_full f with_comment
        else
          hash <- peek (fun s => with_comment && is_char HASH (char s 0))%bool ;;
          if hash then skip_comment f ;; skip_full f with_comment
          else ret tt
  end.

Definition invalid_whitespace_message (c : option N) : jsstring :=
  str "Contains invalid whitespaces: `\u"
  ++ match c with Some x => hexadecimal x | None => str "NaN" end
  ++ str "`".

Definition nextUntilChar (fuel : nat) (options : SkipOptions) : M unit :=
  (if inline options then skip_inline fuel
   else skip_full fuel (comment options)) ;;
  bad <- peek (fun s => negb (isCurrentCharEOL s)
                        && test is_space (char s 0))%bool ;;
  if bad then
    c <- peek (fun s => char s 0) ;;
    throw (TOMLParseError (invalid_whitespace_message c))
  else ret tt.

(** ** Parsed values *)

(** A JavaScript number: not-a-number, an infinity, or the exact decimal
    [(-1)^negative * digits * 10^exponent] (a zero keeps its sign).  The
    decimal is the one that was read or that is written; it stands for the
    number of the engine where that number is the decimal itself or prints
    as it: for an integer up to [2^53], and for a decimal of at most 15
    significant digits within the range of the finite numbers.  Rounding to
    the nearest binary number beyond that, overflow and underflow are not
    represented. *)
Inductive number :=
| NaN
| Infinity (negative : bool)
| Decimal (negative : bool) (digits : N) (exponent : Z).

Definition isNaN (x : number) : bool :=
  match x with NaN => true | _ => false end.

(** A [Date] object through what its UTC getters return; [UTCMonth] counts
    from zero as [getUTCMonth] does. *)
Record Date := mkDate {
  UTCFullYear : N;
  UTCMonth : N;
  UTCDate : N;
  UTCHours : N;
  UTCMinutes : N;
  UTCSeconds : N;
  UTCMilliseconds : N
}.

Inductive value :=
| Undefined
| Str (s : jsstring)
| Num (n : number)
| Bool (b : bool)
| DateV (d : Date)
| Arr (items : list value)
| Obj (props : list (jsstring * value))
| Null.

Definition properties := list (jsstring * value).

(** [obj[key]] on own properties. *)
Fixpoint get (props : properties) (key : jsstring) : value :=
  match props with
  | [] => Undefined
  | (k, v) :: rest => if jseq k key then v else get rest key
  end.

(** [obj[key] = v]: an existing property keeps its place, a new one goes
    last. *)
Fixpoint set (props : properties) (key : jsstring) (v : value) : properties :=
  match props with
  | [] => [(key, v)]
  | (k, w) :: rest =>
      if jseq k key then (k, v) :: rest else (k, w) :: set rest key v
  end.

(** [!x] *)
Definition falsy (x : value) : bool :=
  match x with
  | Undefined | Null => true
  | Str [] => true
  | Num NaN => true
  | Num (Decimal _ 0%N _) => true
  | Bool false => true
  | _ => false
  end.

(** Modelled from the spec: the deep-merge collaborator, imported by
    [_parser.js] from the collections package and absent from the sources.
    It recursively merges two nested mappings, the right one overriding the
    left one at matching leaf keys, concatenates nothing and never fails. *)
Fixpoint deepMerge (record other : value) {struct other} : value :=
  match other with
  | Obj others =>
      match record with
      | Obj props =>
          Obj ((fix entries (l : properties) (acc : properties) : properties :=
                  match l with
                  | [] => acc
                  | (k, rhs) :: rest =>
                      let merged :=
                        match get props k with
                        | Obj lhs =>
                            match rhs with
                            | Obj _ => deepMerge (Obj lhs) rhs
                            | _ => rhs
                            end
                        | _ => rhs
                        end in
                      entries rest (set acc k merged)
                  end) others props)
      | _ => other
      end
  | _ => other
  end.

(** ** Utils *)

(** Names that an object inherits from [Object.prototype].  All are
    methods but [__proto__], an accessor that reads and replaces the
    prototype of the object. *)
Definition prototype_names : list jsstring :=
  map str [ "__proto__"; "constructor"; "hasOwnProperty"; "isPrototypeOf";
            "propertyIsEnumerable"; "toLocaleString"; "toString"; "valueOf";
            "__defineGetter__"; "__defineSetter__"; "__lookupGetter__";
            "__lookupSetter__" ]%string.

(** [Utils.unflat(keys, values = {}, cObj)].  The recursion takes the last
    key and continues with [keys.slice(0, -1)], that is, it walks the
    reversed list of keys.  The assignment [out[key] = cObj] adds no own
    property when the key is [__proto__]: it goes to the accessor, and the
    members that [out] then inherits from [cObj] are not represented. *)
Fixpoint unflat_from_last (reversed : list jsstring) (values cObj : value)
    : value :=
  match reversed with
  | [] => cObj
  | key :: rest =>
      let cObj' := if falsy cObj then values else cObj in
      unflat_from_last rest values
        (if jseq key (str "__proto__") then Obj [] else Obj [(key, cObj')])
  end.

(** The default value [{}] of the parameter [values] replaces
    [undefined]. *)
Definition default_values (values : value) : value :=
  match values with
  | Undefined => Obj []
  | _ => values
  end.

Definition unflat (keys : list jsstring) (values cObj : value) : value :=
  unflat_from_last (rev keys) (default_values values) cObj.

Inductive BlockType := Block_t | Table_t | TableArray_t.

Definition is_TableArray (t : BlockType) : bool :=
  match t with TableArray_t => true | _ => false end.

Definition is_Table (t : BlockType) : bool :=
  match t with Table_t => true | _ => false end.

(** The record [{type, key, value}] a top-level construct produces; a Block
    has no key. *)
Record BlockRecord := mkBlock {
  block_type : BlockType;
  block_key : list jsstring;
  block_value : value
}.

(** A canonical array index: [0] or digits without a leading zero, below
    [2^32 - 1]. *)
Fixpoint digits_value (l : jsstring) (acc : N) : option N :=
  match l with
  | [] => Some acc
  | c :: rest =>
      if is_digit c then digits_value rest (acc * 10 + (c - 48))%N else None
  end.

Definition array_index (key : jsstring) : option nat :=
  match key with
  | [] => None
  | c :: rest =>
      if (N.eqb c 48 && negb (Nat.eqb (length rest) 0))%bool then None
      else
        match digits_value key 0%N with
        | Some i => if N.ltb i 4294967295 then Some (N.to_nat i) else None
        | None => None
        end
  end.

Definition replace_nth (l : list value) (i : nat) (v : value) : list value :=
  firstn i l ++ v :: skipn (S i) l.

(** [items[items.length - 1]] *)
Definition last_item (items : list value) : value :=
  nth (length items - 1) items Undefined.

Definition undefined_read_message (key : jsstring) : jsstring :=
  str "Cannot read properties of undefined (reading '" ++ key ++ str "')".

Definition null_read_message (key : jsstring) : jsstring :=
  str "Cannot read properties of null (reading '" ++ key ++ str "')".

(** The target has an own property under the key.  Own properties of
    arrays, dates and primitives other than elements and [length] are not
    represented. *)
Definition own (target : value) (k0 : jsstring) : bool :=
  match target with
  | Obj props => existsb (fun kv => jseq (fst kv) k0) props
  | _ => false
  end.

(** What [target[k0]] finds on the prototype chain when the target has no
    own property under the key: a method that every object inherits from
    [Object.prototype], or, under [__proto__], the prototype itself.  The
    members that arrays, strings, numbers and dates inherit from their own
    prototypes ([push], [charAt], [toFixed], [getTime], ...) depend on the
    engine and are not represented. *)
Inductive inherited_member := Method | Prototype.

Definition inherited (target : value) (k0 : jsstring)
    : option inherited_member :=
  if own target k0 then None
  else if jseq k0 (str "__proto__") then Some Prototype
  else if existsb (jseq k0) prototype_names then Some Method
  else None.

(** The call [Utils.deepAssignWithTable(prototype, table)] that follows a
    read of [__proto__]: the target is a built-in prototype, [above]
    prototypes away from [Object.prototype] (none for the prototype of a
    plain object, one for that of an array, a date or the wrapper of a
    primitive).  The call fails at the end of the key, on the methods of
    [Object.prototype] and on [Object.prototype.__proto__], which is
    [null]; [None] stands for a write that lands on the prototype, which
    all objects of the kind share and which the value model does not
    hold. *)
Fixpoint in_prototype (above : nat) (key : list jsstring) : option exn :=
  match key with
  | [] => Some (Error (str "Unexpected key length"))
  | k1 :: rest =>
      if jseq k1 (str "__proto__") then
        match above with
        | O => Some (Error (str "Unexpected assign"))
        | S n => in_prototype n rest
        end
      else if existsb (jseq k1) prototype_names
      then Some (Error (str "Unexpected assign"))
      else None
  end.

Definition prototypes_above (target : value) : nat :=
  match target with
  | Obj _ => 0
  | _ => 1
  end.

(** [target[k0]] where nothing is inherited, for a target that is neither
    [undefined] nor [null]: own properties of an object, elements and
    [length] of an array or a string. *)
Definition property (target : value) (k0 : jsstring) : value :=
  match target with
  | Obj props => get props k0
  | Arr items =>
      match array_index k0 with
      | Some i => nth i items Undefined
      | None => if jseq k0 (str "length")
                then Num (Decimal false (N.of_nat (length items)) 0)
                else Undefined
      end
  | Str s =>
      match array_index k0 with
      | Some i => match nth_error s i with
                  | Some c => Str [c]
                  | None => Undefined
                  end
      | None => if jseq k0 (str "length")
                then Num (Decimal false (N.of_nat (length s)) 0)
                else Undefined
      end
  | _ => Undefined
  end.

(** [target[k0] = v] where the value model can hold the result: a property
    of a plain object or an element of an array.  An index at or beyond the
    length extends the array; the holes this leaves read as [undefined] and
    are held as [Undefined] elements.  Assignments to the wrapper of a
    primitive are lost, as they are in JavaScript; expando properties of
    arrays and dates are not represented. *)
Definition store (target : value) (k0 : jsstring) (v : value) : value :=
  match target with
  | Obj props => Obj (set props k0 v)
  | Arr items =>
      match array_index k0 with
      | Some i =>
          if Nat.ltb i (length items) then Arr (replace_nth items i v)
          else Arr (items ++ List.repeat Undefined (i - length items) ++ [v])
      | None => target
      end
  | _ => target
  end.

(** [Object.assign(target, src)] *)
Definition Object_assign (target src : value) : value :=
  match src with
  | Obj props => fold_left (fun t kv => store t (fst kv) (snd kv)) props target
  | _ => target
  end.

(** [Utils.deepAssignWithTable(target, table)], returning the target as the
    call leaves it.  An inherited method is no object and is refused; under
    [__proto__] the call goes on in the prototype, where it fails or writes
    outside the target, which then is as it was. *)
Fixpoint deepAssignWithTable (target : value) (type : BlockType)
    (key : list jsstring) (v : value) {struct key} : exn + value :=
  match key with
  | [] => inl (Error (str "Unexpected key length"))
  | k0 :: rest =>
      match target with
      | Undefined => inl (TypeError (undefined_read_message k0))
      | Null => inl (TypeError (null_read_message k0))
      | _ =>
          match inherited target k0 with
          | Some Method => inl (Error (str "Unexpected assign"))
          | Some Prototype =>
              match in_prototype (prototypes_above target) rest with
              | Some e => inl e
              | None => inr target
              end
          | None =>
              match property target k0 with
              | Undefined =>
                  inr (Object_assign target
                         (unflat key (if is_Table type then v else Arr [v])
                            Undefined))
              | Arr items =>
                  if (is_TableArray type && Nat.eqb (length key) 1)%bool
                  then inr (store target k0 (Arr (items ++ [v])))
                  else
                    match
                      deepAssignWithTable (last_item items) type rest v
                    with
                    | inl e => inl e
                    | inr last' =>
                        inr (store target k0
                               (Arr (replace_nth items (length items - 1)
                                       last')))
                    end
              | (Obj _ | DateV _) as sub =>
                  match deepAssignWithTable sub type rest v with
                  | inl e => inl e
                  | inr sub' => inr (store target k0 sub')
                  end
              | _ => inl (Error (str "Unexpected assign"))
              end
          end
      end
  end.

(** ** Parser combinators and generators *)

Definition quoted (s : jsstring) : jsstring := DQUOTE :: s ++ [DQUOTE].

(** The pushes of [scanner.char()] onto an accumulator that is joined at the
    end: the empty string at the end of input adds nothing. *)
Definition chars (c : option N) : jsstring :=
  match c with
  | Some x => [x]
  | None => []
  end.

Fixpoint or {A} (parsers : list (Parser A)) : Parser A :=
  match parsers with
  | [] => ret failure
  | parse :: rest =>
      result <- parse ;;
      if ok result then ret result else or rest
  end.

Definition character (fuel : nat) (literal : jsstring) : Parser unit :=
  nextUntilChar fuel opt_inline ;;
  same <- peek (fun s => jseq (slice s 0 (length literal)) literal) ;;
  if same then
    next (length literal) ;;
    nextUntilChar fuel opt_inline ;;
    ret (success tt)
  else ret failure.

Fixpoint join_loop {A} (fuel : nat) (parser : Parser A)
    (Separator : Parser unit) (separator : jsstring) (out : list A)
    : M (list A) :=
  match fuel with
  | O => diverge
  | S f =>
      at_end <- peek eof ;;
      if at_end then ret out
      else
        sep <- Separator ;;
        if ok sep then
          result <- parser ;;
          match result with
          | success body => join_loop f parser Separator separator (out ++ [body])
          | failure =>
              throw (TOMLParseError
                       (str "Invalid token after " ++ quoted separator))
          end
        else ret out
  end.

Definition join {A} (fuel : nat) (parser : Parser A) (separator : jsstring)
    : Parser (list A) :=
  first <- parser ;;
  match first with
  | failure => ret failure
  | success body =>
      out <- join_loop fuel parser (character fuel separator) separator [body] ;;
      ret (success out)
  end.

Definition kv (fuel : nat) (keyParser : Parser (list jsstring))
    (separator : jsstring) (valueParser : Parser value) : Parser value :=
  key <- keyParser ;;
  match key with
  | failure => ret failure
  | success keys =>
      sep <- character fuel separator ;;
      if ok sep then
        v <- valueParser ;;
        match v with
        | success body => ret (success (unflat keys body Undefined))
        | failure =>
            throw (TOMLParseError
                     (str "Value of key/value pair is invalid data format"))
        end
      else
        throw (TOMLParseError
                 (str "key/value pair doesn't have " ++ quoted separator))
  end.

Definition merge (parser : Parser (list value)) : Parser value :=
  result <- parser ;;
  match result with
  | failure => ret failure
  | success records => ret (success (fold_left deepMerge records (Obj [])))
  end.

Fixpoint repeat_loop {A} (fuel : nat) (parser : Parser A) (body : list A)
    : M (list A) :=
  match fuel with
  | O => diverge
  | S f =>
      at_end <- peek eof ;;
      if at_end then ret body
      else
        result <- parser ;;
        match result with
        | success b =>
            nextUntilChar f opt_default ;;
            repeat_loop f parser (body ++ [b])
        | failure => ret body
        end
  end.

Definition repeat {A} (fuel : nat) (parser : Parser A) : Parser (list A) :=
  body <- repeat_loop fuel parser [] ;;
  if Nat.eqb (length body) 0 then ret failure else ret (success body).

Definition surround {A} (fuel : nat) (left : jsstring) (parser : Parser A)
    (right : jsstring) : Parser A :=
  l <- character fuel left ;;
  if ok l then
    result <- parser ;;
    match result with
    | success body =>
        r <- character fuel right ;;
        if ok r then ret (success body)
        else
          throw (TOMLParseError
                   (str "Not closed by " ++ quoted right
                    ++ str " after started with " ++ quoted left))
    | failure =>
        throw (TOMLParseError (str "Invalid token after " ++ quoted left))
    end
  else ret failure.

(** ** Parser components *)

(** The loop shared by Integer, Float, DateTime and LocalTime:
    [while (CLASS.test(scanner.char()) && !scanner.eof())
       { acc.push(scanner.char()); scanner.next(); }] *)
Fixpoint scan_while (fuel : nat) (class : N -> bool) (acc : jsstring)
    : M jsstring :=
  match fuel with
  | O => diverge
  | S f =>
      c <- peek (fun s => char s 0) ;;
      at_end <- peek eof ;;
      if (test class c && negb at_end)%bool then
        next 1 ;; scan_while f class (acc ++ chars c)
      else ret acc
  end.

(** [while (scanner.char() && Patterns.BARE_KEY.test(scanner.char()))] *)
Fixpoint BareKey_loop (fuel : nat) (acc : jsstring) : M jsstring :=
  match fuel with
  | O => diverge
  | S f =>
      c <- peek (fun s => char s 0) ;;
      match c with
      | Some x =>
          if BARE_KEY x then next 1 ;; BareKey_loop f (acc ++ [x])
          else ret acc
      | None => ret acc
      end
  end.

Definition BareKey (fuel : nat) : Parser jsstring :=
  nextUntilChar fuel opt_inline ;;
  c <- peek (fun s => char s 0) ;;
  if test BARE_KEY c then
    key <- BareKey_loop fuel [] ;;
    ret (success key)
  else ret failure.

Definition hex_value (c : N) : option N :=
  if is_digit c then Some (c - 48)%N
  else if between 97 102 c then Some (c - 87)%N
  else if between 65 70 c then Some (c - 55)%N
  else None.

Fixpoint hex_prefix (l : jsstring) (acc : option N) : option N :=
  match l with
  | [] => acc
  | c :: rest =>
      match hex_value c with
      | Some d =>
          hex_prefix rest
            (Some (match acc with Some a => a * 16 + d | None => d end)%N)
      | None => acc
      end
  end.

(** [parseInt("0x" + digits, 16)]: the value of the longest prefix of hex
    digits, [None] (not-a-number) when there is none. *)
Definition parseInt16 (digits : jsstring) : option N := hex_prefix digits None.

(** [String.fromCodePoint(codePoint)] *)
Definition fromCodePoint (codePoint : option N) : exn + jsstring :=
  match codePoint with
  | None => inl (RangeError (str "Invalid code point NaN"))
  | Some cp =>
      if N.ltb 1114111 cp
      then inl (RangeError (str "Invalid code point " ++ decimal cp))
      else if N.ltb cp 65536 then inr [cp]
      else inr [55296 + (cp - 65536) / 1024; 56320 + (cp - 65536) mod 1024]%N
  end.

Definition EscapeSequence : Parser jsstring :=
  backslash <- peek (fun s => is_char BACKSLASH (char s 0)) ;;
  if backslash then
    next 1 ;;
    c <- peek (fun s => char s 0) ;;
    if is_char 98 c then next 1 ;; ret (success [8%N])
    else if is_char 116 c then next 1 ;; ret (success [9%N])
    else if is_char 110 c then next 1 ;; ret (success [10%N])
    else if is_char 102 c then next 1 ;; ret (success [12%N])
    else if is_char 114 c then next 1 ;; ret (success [13%N])
    else if (is_char 117 c || is_char 85 c)%bool then
      let codePointLen := if is_char 117 c then 4 else 6 in
      digits <- peek (fun s => slice s 1 (1 + codePointLen)) ;;
      match fromCodePoint (parseInt16 digits) with
      | inl e => throw e
      | inr decoded => next (codePointLen + 1) ;; ret (success decoded)
      end
    else if is_char DQUOTE c then next 1 ;; ret (success [DQUOTE])
    else if is_char BACKSLASH c then next 1 ;; ret (success [BACKSLASH])
    else
      throw (TOMLParseError
               (str "Invalid escape sequence: " ++ BACKSLASH :: chars c))
  else ret failure.

Definition not_closed (kind acc : jsstring) : exn :=
  TOMLParseError (kind ++ str " string is not closed:" ++ LF :: acc).

Fixpoint BasicString_loop (fuel : nat) (acc : jsstring) : M jsstring :=
  match fuel with
  | O => diverge
  | S f =>
      go <- peek (fun s => negb (is_char DQUOTE (char s 0))
                           && negb (eof s))%bool ;;
      if go then
        eol <- peek (fun s => is_char LF (char s 0)) ;;
        if eol then
          throw (TOMLParseError (str "Single-line string cannot contain EOL"))
        else
          escapedChar <- EscapeSequence ;;
          match escapedChar with
          | success body => BasicString_loop f (acc ++ body)
          | failure =>
              c <- peek (fun s => char s 0) ;;
              next 1 ;;
              BasicString_loop f (acc ++ chars c)
          end
      else ret acc
  end.

Definition BasicString (fuel : nat) : Parser jsstring :=
  nextUntilChar fuel opt_inline ;;
  open <- peek (fun s => is_char DQUOTE (char s 0)) ;;
  if open then
    next 1 ;;
    acc <- BasicString_loop fuel [] ;;
    at_end <- peek eof ;;
    if at_end then throw (not_closed (str "Single-line") acc)
    else next 1 ;; ret (success acc)
  else ret failure.

Fixpoint LiteralString_loop (fuel : nat) (acc : jsstring) : M jsstring :=
  match fuel with
  | O => diverge
  | S f =>
      go <- peek (fun s => negb (is_char SQUOTE (char s 0))
                           && negb (eof s))%bool ;;
      if go then
        eol <- peek (fun s => is_char LF (char s 0)) ;;
        if eol then
          throw (TOMLParseError (str "Single-line string cannot contain EOL"))
        else
          c <- peek (fun s => char s 0) ;;
          next 1 ;;
          LiteralString_loop f (acc ++ chars c)
      else ret acc
  end.

Definition LiteralString (fuel : nat) : Parser jsstring :=
  nextUntilChar fuel opt_inline ;;
  open <- peek (fun s => is_char SQUOTE (char s 0)) ;;
  if open then
    next 1 ;;
    acc <- LiteralString_loop fuel [] ;;
    at_end <- peek eof ;;
    if at_end then throw (not_closed (str "Single-line") acc)
    else next 1 ;; ret (success acc)
  else ret failure.

(** The trimming of the first newline after the opening delimiter of a
    multi-line string. *)
Definition trim_first_newline : M unit :=
  lf <- peek (fun s => is_char LF (char s 0)) ;;
  if lf then next 1
  else
    crlf <- peek (fun s => jseq (slice s 0 2) [CR; LF]) ;;
    if crlf then next 2 else ret tt.

Definition three (q : N) : jsstring := [q; q; q].

Fixpoint MultilineBasicString_loop (fuel : nat) (acc : jsstring)
    : M jsstring :=
  match fuel with
  | O => diverge
  | S f =>
      go <- peek (fun s => negb (jseq (slice s 0 3) (three DQUOTE))
                           && negb (eof s))%bool ;;
      if go then
        continuation <- peek (fun s =>
          jseq (slice s 0 2) [BACKSLASH; LF]
          || jseq (slice s 0 3) [BACKSLASH; CR; LF])%bool ;;
        if continuation then
          next 1 ;;
          nextUntilChar f opt_nocomment ;;
          MultilineBasicString_loop f acc
        else
          escapedChar <- EscapeSequence ;;
          match escapedChar with
          | success body => MultilineBasicString_loop f (acc ++ body)
          | failure =>
              c <- peek (fun s => char s 0) ;;
              next 1 ;;
              MultilineBasicString_loop f (acc ++ chars c)
          end
      else ret acc
  end.

Definition MultilineBasicString (fuel : nat) : Parser jsstring :=
  nextUntilChar fuel opt_inline ;;
  open <- peek (fun s => jseq (slice s 0 3) (three DQUOTE)) ;;
  if open then
    next 3 ;;
    trim_first_newline ;;
    acc <- MultilineBasicString_loop fuel [] ;;
    at_end <- peek eof ;;
    if at_end then throw (not_closed (str "Multi-line") acc)
    else
      fourth <- peek (fun s => is_char DQUOTE (char s 3)) ;;
      if fourth then next 1 ;; next 3 ;; ret (success (acc ++ [DQUOTE]))
      else next 3 ;; ret (success acc)
  else ret failure.

Fixpoint MultilineLiteralString_loop (fuel : nat) (acc : jsstring)
    : M jsstring :=
  match fuel with
  | O => diverge
  | S f =>
      go <- peek (fun s => negb (jseq (slice s 0 3) (three SQUOTE))
                           && negb (eof s))%bool ;;
      if go then
        c <- peek (fun s => char s 0) ;;
        next 1 ;;
        MultilineLiteralString_loop f (acc ++ chars c)
      else ret acc
  end.

Definition MultilineLiteralString (fuel : nat) : Parser jsstring :=
  nextUntilChar fuel opt_inline ;;
  open <- peek (fun s => jseq (slice s 0 3) (three SQUOTE)) ;;
  if open then
    next 3 ;;
    trim_first_newline ;;
    acc <- MultilineLiteralString_loop fuel [] ;;
    at_end <- peek eof ;;
    if at_end then throw (not_closed (str "Multi-line") acc)
    else
      fourth <- peek (fun s => is_char SQUOTE (char s 3)) ;;
      if fourth then next 1 ;; next 3 ;; ret (success (acc ++ [SQUOTE]))
      else next 3 ;; ret (success acc)
  else ret failure.

Definition symbolPairs : list (jsstring * value) :=
  [ (str "true", Bool true);
    (str "false", Bool false);
    (str "inf", Num (Infinity false));
    (str "+inf", Num (Infinity false));
    (str "-inf", Num (Infinity true));
    (str "nan", Num NaN);
    (str "+nan", Num NaN);
    (str "-nan", Num NaN) ].

Definition Symbols (fuel : nat) : Parser value :=
  nextUntilChar fuel opt_inline ;;
  found <- peek (fun s =>
    find (fun pair => jseq (slice s 0 (length (fst pair))) (fst pair))
      symbolPairs) ;;
  match found with
  | None => ret failure
  | Some (literal, v) => next (length literal) ;; ret (success v)
  end.

Definition DottedKey (fuel : nat) : Parser (list jsstring) :=
  join fuel (or [BareKey fuel; BasicString fuel; LiteralString fuel]) (str ".").

(** *** Numeric literals *)

Fixpoint take_while (class : N -> bool) (l : jsstring) : jsstring :=
  match l with
  | [] => []
  | c :: rest => if class c then c :: take_while class rest else []
  end.

Fixpoint drop_while (class : N -> bool) (l : jsstring) : jsstring :=
  match l with
  | [] => []
  | c :: rest => if class c then drop_while class rest else l
  end.

Definition digits_to_N (l : jsstring) : N :=
  fold_left (fun acc c => acc * 10 + (c - 48))%N l 0%N.

(** An optional sign in front of a numeric string. *)
Definition split_sign (s : jsstring) : bool * jsstring :=
  match s with
  | c :: rest =>
      if N.eqb c 45 then (true, rest)
      else if N.eqb c 43 then (false, rest)
      else (false, s)
  | [] => (false, [])
  end.

(** [parseInt(s)] on a string without leading blanks and without a
    hexadecimal prefix: an optional sign and the longest prefix of decimal
    digits. *)
Definition parseInt (s : jsstring) : number :=
  let (negative, rest) := split_sign s in
  match take_while is_digit rest with
  | [] => NaN
  | ds => Decimal negative (digits_to_N ds) 0
  end.

(** The exponent part of a decimal literal, when it is complete. *)
Definition exponent_part (s : jsstring) : Z :=
  match s with
  | e :: rest =>
      if (N.eqb e 101 || N.eqb e 69)%bool then
        let (negative, rest') := split_sign rest in
        match take_while is_digit rest' with
        | [] => 0%Z
        | ds => let x := Z.of_N (digits_to_N ds) in
                if negative then (- x)%Z else x
        end
      else 0%Z
  | [] => 0%Z
  end.

(** [parseFloat(s)] on a string without leading blanks: the longest prefix
    that is a decimal literal. *)
Definition parseFloat (s : jsstring) : number :=
  let (negative, rest) := split_sign s in
  if jseq (firstn 8 rest) (str "Infinity") then Infinity negative
  else
    let int := take_while is_digit rest in
    let after_int := drop_while is_digit rest in
    let frac := match after_int with
                | c :: r => if N.eqb c 46 then take_while is_digit r else []
                | [] => []
                end in
    let after_frac := match after_int with
                      | c :: r => if N.eqb c 46 then drop_while is_digit r
                                  else after_int
                      | [] => []
                      end in
    match int ++ frac with
    | [] => NaN
    | ds => Decimal negative (digits_to_N ds)
              (exponent_part after_frac - Z.of_nat (length frac))
    end.

Definition not_underscore (c : N) : bool := negb (N.eqb c 95).

(** [/0(?:x|o|b)/i.test(first2)] for a string of length two. *)
Definition radix_prefix (first2 : jsstring) : bool :=
  match first2 with
  | [z; r] =>
      (N.eqb z 48
       && (N.eqb r 120 || N.eqb r 88 || N.eqb r 111 || N.eqb r 79
           || N.eqb r 98 || N.eqb r 66))%bool
  | _ => false
  end.

Definition Integer (fuel : nat) : Parser value :=
  nextUntilChar fuel opt_inline ;;
  first2 <- peek (fun s => slice s 0 2) ;;
  if (Nat.eqb (length first2) 2 && radix_prefix first2)%bool then
    next 2 ;;
    digits <- scan_while fuel is_hex_us [] ;;
    if Nat.eqb (length digits) 0 then ret failure
    else ret (success (Str (first2 ++ digits)))
  else
    c <- peek (fun s => char s 0) ;;
    sign <- (if test is_sign c then next 1 ;; ret (chars c) else ret []) ;;
    acc <- scan_while fuel is_digit_us sign ;;
    if (Nat.eqb (length acc) 0
        || Nat.eqb (length acc) 1 && test is_sign (hd_error acc))%bool
    then ret failure
    else ret (success (Num (parseInt (filter not_underscore acc)))).

(** The lookahead of Float: every character up to the end of the value has
    to belong to the float class.  The scanner does not move. *)
Fixpoint Float_lookahead (fuel : nat) (position : nat) : M bool :=
  match fuel with
  | O => diverge
  | S f =>
      c <- peek (fun s => char s position) ;;
      match c with
      | Some x =>
          if negb (END_OF_VALUE x) then
            if negb (FLOAT x) then ret false
            else Float_lookahead f (position + 1)
          else ret true
      | None => ret true
      end
  end.

Definition Float (fuel : nat) : Parser value :=
  nextUntilChar fuel opt_inline ;;
  valid <- Float_lookahead fuel 0 ;;
  if valid then
    c <- peek (fun s => char s 0) ;;
    sign <- (if test is_sign c then next 1 ;; ret (chars c) else ret []) ;;
    acc <- scan_while fuel FLOAT sign ;;
    if Nat.eqb (length acc) 0 then ret failure
    else
      let float := parseFloat (filter not_underscore acc) in
      if isNaN float then ret failure else ret (success (Num float))
  else ret failure.

(** *** Dates and times *)

(** [/^\d{4}-\d{2}-\d{2}/.test(dateStr)] *)
Definition date_prefix (dateStr : jsstring) : bool :=
  match dateStr with
  | y1 :: y2 :: y3 :: y4 :: d1 :: m1 :: m2 :: d2 :: a1 :: a2 :: _ =>
      (is_digit y1 && is_digit y2 && is_digit y3 && is_digit y4
       && N.eqb d1 45 && is_digit m1 && is_digit m2 && N.eqb d2 45
       && is_digit a1 && is_digit a2)%bool
  | _ => false
  end.

(** [/^(\d{2}):(\d{2}):(\d{2})/.test(timeStr)] *)
Definition time_prefix (timeStr : jsstring) : bool :=
  match timeStr with
  | h1 :: h2 :: c1 :: m1 :: m2 :: c2 :: s1 :: s2 :: _ =>
      (is_digit h1 && is_digit h2 && N.eqb c1 58 && is_digit m1
       && is_digit m2 && N.eqb c2 58 && is_digit s1 && is_digit s2)%bool
  | _ => false
  end.

(** [s.trim()] *)
Definition trim (s : jsstring) : jsstring :=
  rev (drop_while is_space (rev (drop_while is_space s))).

(** A reference host for closed examples: the time zone is UTC and the
    accepted date strings are [YYYY-MM-DD], alone or followed by [T] or a
    blank, [HH:MM:SS], an optional fraction of up to three digits and an
    optional [Z]. *)
Definition two_digits (a b : N) : N := ((a - 48) * 10 + (b - 48))%N.

Definition isoTime (s : jsstring) : option (N * N * N * N) :=
  match s with
  | h1 :: h2 :: c1 :: m1 :: m2 :: c2 :: s1 :: s2 :: rest =>
      if time_prefix s then
        let ms :=
          match rest with
          | [] | [90%N] => Some 0%N
          | dot :: frac =>
              let ds := take_while is_digit frac in
              let tail := drop_while is_digit frac in
              if (N.eqb dot 46 && Nat.leb 1 (length ds)
                  && Nat.leb (length ds) 3
                  && (jseq tail [] || jseq tail [90%N]))%bool
              then Some (digits_to_N (firstn 3 (ds ++ [48; 48]%N)))
              else None
          end in
        match ms with
        | Some x =>
            let h := two_digits h1 h2 in
            let m := two_digits m1 m2 in
            let sec := two_digits s1 s2 in
            if (N.ltb h 24 && N.ltb m 60 && N.ltb sec 60)%bool
            then Some (h, m, sec, x) else None
        | None => None
        end
      else None
  | _ => None
  end.

Definition isoDate (s : jsstring) : option Date :=
  if date_prefix s then
    let year := digits_to_N (firstn 4 s) in
    let month := digits_to_N (firstn 2 (skipn 5 s)) in
    let day := digits_to_N (firstn 2 (skipn 8 s)) in
    if (N.leb 1 month && N.leb month 12 && N.leb 1 day && N.leb day 31)%bool
    then
      match skipn 10 s with
      | [] => Some (mkDate year (month - 1) day 0 0 0 0)
      | sep :: time =>
          if (N.eqb sep 84 || N.eqb sep SPACE)%bool then
            match isoTime time with
            | Some (h, m, sec, ms) =>
                Some (mkDate year (month - 1) day h m sec ms)
            | None => None
            end
          else None
      end
    else None
  else None.

(** ** The serializer *)

Fixpoint join_with (separator : jsstring) (parts : list jsstring) : jsstring :=
  match parts with
  | [] => []
  | [x] => x
  | x :: rest => x ++ separator ++ join_with separator rest
  end.

(** [s.padStart(width, "0")] *)
Definition padStart (width : nat) (s : jsstring) : jsstring :=
  List.repeat 48%N (width - length s) ++ s.

Definition is_high_surrogate (c : N) : bool := between 55296 56319 c.
Definition is_low_surrogate (c : N) : bool := between 56320 57343 c.

Definition unicode_escape (c : N) : jsstring :=
  str "\u" ++ padStart 4 (hexadecimal c).

(** The body of [JSON.stringify(s)] for a string. *)
Fixpoint json_escape (s : jsstring) : jsstring :=
  match s with
  | [] => []
  | c :: rest =>
      if N.eqb c DQUOTE then BACKSLASH :: DQUOTE :: json_escape rest
      else if N.eqb c BACKSLASH then BACKSLASH :: BACKSLASH :: json_escape rest
      else if N.eqb c 8 then str "\b" ++ json_escape rest
      else if N.eqb c 12 then str "\f" ++ json_escape rest
      else if N.eqb c 10 then str "\n" ++ json_escape rest
      else if N.eqb c 13 then str "\r" ++ json_escape rest
      else if N.eqb c 9 then str "\t" ++ json_escape rest
      else if N.ltb c 32 then unicode_escape c ++ json_escape rest
      else if is_high_surrogate c then
        match rest with
        | d :: rest' =>
            if is_low_surrogate d then c :: d :: json_escape rest'
            else unicode_escape c ++ json_escape rest
        | [] => unicode_escape c
        end
      else if is_low_surrogate c then unicode_escape c ++ json_escape rest
      else c :: json_escape rest
  end.

Definition JSON_string (s : jsstring) : jsstring := quoted (json_escape s).

(** [Number::toString] on the decimal model: [digits] without trailing
    zeros are the significant digits [s], [k] their count and [n] the
    position of the decimal point. *)
Definition strip_trailing_zeros (ds : jsstring) : jsstring :=
  rev (drop_while (N.eqb 48) (rev ds)).

Definition Number_toString (x : number) : jsstring :=
  match x with
  | NaN => str "NaN"
  | Infinity negative => (if negative then str "-" else []) ++ str "Infinity"
  | Decimal negative 0%N _ => str "0"
  | Decimal negative m e =>
      let all := decimal m in
      let s := strip_trailing_zeros all in
      let k := Z.of_nat (length s) in
      let n := (Z.of_nat (length all) + e)%Z in
      (if negative then str "-" else [])
      ++ (if (Z.leb k n && Z.leb n 21)%bool then
            s ++ List.repeat 48%N (Z.to_nat (n - k))
          else if (Z.ltb 0 n && Z.leb n 21)%bool then
            firstn (Z.to_nat n) s ++ str "." ++ skipn (Z.to_nat n) s
          else if (Z.ltb (-6) n && Z.leb n 0)%bool then
            str "0." ++ List.repeat 48%N (Z.to_nat (- n)) ++ s
          else
            firstn 1 s
            ++ (if Nat.eqb (length s) 1 then [] else str "." ++ skipn 1 s)
            ++ str "e" ++ (if Z.ltb (n - 1) 0 then str "-" else str "+")
            ++ decimal (Z.to_N (Z.abs (n - 1))))
  end.

Definition printDate (d : Date) : jsstring :=
  decimal (UTCFullYear d) ++ str "-"
  ++ padStart 2 (decimal (UTCMonth d + 1)) ++ str "-"
  ++ padStart 2 (decimal (UTCDate d)) ++ str "T"
  ++ padStart 2 (decimal (UTCHours d)) ++ str ":"
  ++ padStart 2 (decimal (UTCMinutes d)) ++ str ":"
  ++ padStart 2 (decimal (UTCSeconds d)) ++ str "."
  ++ padStart 3 (decimal (UTCMilliseconds d)).

(** [date.toISOString()], which [JSON.stringify] uses for a date. *)
Definition toISOString (d : Date) : jsstring :=
  (if N.leb (UTCFullYear d) 9999 then padStart 4 (decimal (UTCFullYear d))
   else str "+" ++ padStart 6 (decimal (UTCFullYear d)))
  ++ str "-"
  ++ padStart 2 (decimal (UTCMonth d + 1)) ++ str "-"
  ++ padStart 2 (decimal (UTCDate d)) ++ str "T"
  ++ padStart 2 (decimal (UTCHours d)) ++ str ":"
  ++ padStart 2 (decimal (UTCMinutes d)) ++ str ":"
  ++ padStart 2 (decimal (UTCSeconds d)) ++ str "."
  ++ padStart 3 (decimal (UTCMilliseconds d)) ++ str "Z".

Definition print_boolean (b : bool) : jsstring :=
  if b then str "true" else str "false".

(** [JSON.stringify(v)] *)
Fixpoint JSON_stringify (v : value) : jsstring :=
  match v with
  | Undefined | Null => str "null"
  | Str s => JSON_string s
  | Num (Decimal _ _ _ as x) => Number_toString x
  | Num _ => str "null"
  | Bool b => print_boolean b
  | DateV d => quoted (toISOString d)
  | Arr items =>
      str "[" ++ join_with (str ",") (map JSON_stringify items) ++ str "]"
  | Obj props =>
      str "{"
      ++ join_with (str ",")
           ((fix members (l : properties) : list jsstring :=
               match l with
               | [] => []
               | (k, Undefined) :: rest => members rest
               | (k, w) :: rest =>
                   (JSON_string k ++ str ":" ++ JSON_stringify w)
                   :: members rest
               end) props)
      ++ str "}"
  end.

(** [/[^A-Za-z0-9_-]/] on a key. *)
Definition needs_quotes (key : jsstring) : bool :=
  (Nat.eqb (length key) 0 || existsb (fun c => negb (BARE_KEY c)) key)%bool.

Definition joinKeys (keys : list jsstring) : jsstring :=
  join_with (str ".")
    (map (fun k => if needs_quotes k then JSON_string k else k) keys).

Definition isPrimitive (v : value) : bool :=
  match v with
  | DateV _ | Str _ | Num _ | Bool _ => true
  | _ => false
  end.

Definition isArray (v : value) : bool :=
  match v with
  | Arr _ => true
  | _ => false
  end.

Inductive ArrayType := ONLY_PRIMITIVE | ONLY_OBJECT_EXCLUDING_ARRAY | MIXED.

(** [#doGetTypeOfArray]; the cache in front of it does not change what it
    returns. *)
Definition getTypeOfArray (arr : list value) : ArrayType :=
  match arr with
  | [] => ONLY_PRIMITIVE
  | first :: rest =>
      let onlyPrimitive := isPrimitive first in
      if isArray first then MIXED
      else if existsb (fun x => negb (Bool.eqb onlyPrimitive (isPrimitive x))
                                || isArray x)%bool rest
      then MIXED
      else if onlyPrimitive then ONLY_PRIMITIVE
      else ONLY_OBJECT_EXCLUDING_ARRAY
  end.

Definition isSimplySerializable (v : value) : bool :=
  match v with
  | Str _ | Num _ | Bool _ | DateV _ => true
  | Arr items =>
      match getTypeOfArray items with
      | ONLY_OBJECT_EXCLUDING_ARRAY => false
      | _ => true
      end
  | _ => false
  end.

Definition sequence {A} (l : list (exn + A)) : exn + list A :=
  fold_right (fun x acc =>
                match x, acc with
                | inl e, _ => inl e
                | inr _, inl e => inl e
                | inr a, inr rest => inr (a :: rest)
                end) (inr []) l.

Fixpoint printAsInlineValue (v : value) : exn + jsstring :=
  match v with
  | DateV d => inr (quoted (printDate d))
  | Str s => inr (JSON_string s)
  | Num x => inr (Number_toString x)
  | Bool b => inr (print_boolean b)
  | Arr items =>
      match sequence (map printAsInlineValue items) with
      | inl e => inl e
      | inr parts => inr (str "[" ++ join_with (str ",") parts ++ str "]")
      end
  | Obj props =>
      match sequence
              ((fix members (l : properties) : list (exn + jsstring) :=
                  match l with
                  | [] => []
                  | (k, w) :: rest =>
                      match printAsInlineValue w with
                      | inl e => inl e
                      | inr text => inr (joinKeys [k] ++ str " = " ++ text)
                      end :: members rest
                  end) props) with
      | inl e => inl e
      | inr parts => inr (str "{" ++ join_with (str ",") parts ++ str "}")
      end
  | Undefined | Null => inl (Error (str "should never reach"))
  end.

Definition header (keys : list jsstring) : jsstring :=
  str "[" ++ joinKeys keys ++ str "]".

Definition headerGroup (keys : list jsstring) : jsstring :=
  str "[[" ++ joinKeys keys ++ str "]]".

Definition declaration (keys : list jsstring) : jsstring :=
  joinKeys keys ++ str " = ".

Definition numberDeclaration (keys : list jsstring) (x : number) : jsstring :=
  match x with
  | Infinity false => declaration keys ++ str "inf"
  | Infinity true => declaration keys ++ str "-inf"
  | _ => declaration keys ++ Number_toString x
  end.

Definition arrayDeclaration (keys : list jsstring) (v : value) : jsstring :=
  declaration keys ++ JSON_stringify v.

Definition strDeclaration (keys : list jsstring) (s : jsstring) : jsstring :=
  declaration keys ++ JSON_string s.

Definition boolDeclaration (keys : list jsstring) (b : bool) : jsstring :=
  declaration keys ++ print_boolean b.

Definition dateDeclaration (keys : list jsstring) (d : Date) : jsstring :=
  declaration keys ++ printDate d.

(** The line [#printObject] pushes for a simply serializable property. *)
Definition inline_declaration (prop : jsstring) (v : value)
    : exn + list jsstring :=
  match v with
  | DateV d => inr [dateDeclaration [prop] d]
  | Str s => inr [strDeclaration [prop] s]
  | Num x => inr [numberDeclaration [prop] x]
  | Bool b => inr [boolDeclaration [prop] b]
  | Arr items =>
      match getTypeOfArray items with
      | ONLY_PRIMITIVE => inr [arrayDeclaration [prop] v]
      | _ =>
          match sequence (map printAsInlineValue items) with
          | inl e => inl e
          | inr parts =>
              inr [declaration [prop] ++ str "["
                   ++ join_with (str ",") parts ++ str "]"]
          end
      end
  | _ => inr []
  end.

Definition append_lines (a b : exn + list jsstring) : exn + list jsstring :=
  match a, b with
  | inl e, _ => inl e
  | inr _, inl e => inl e
  | inr x, inr y => inr (x ++ y)
  end.

(** [#printObject(obj, keys)].  The source walks the simply serializable
    properties first and the others after them; the two passes below walk the
    properties twice in that order. *)
Fixpoint printObject (obj : value) (keys : list jsstring) {struct obj}
    : exn + list jsstring :=
  match obj with
  | Undefined | Null =>
      inl (TypeError (str "Cannot convert undefined or null to object"))
  | Obj props =>
      append_lines
        ((fix inlineProps (l : properties) : exn + list jsstring :=
            match l with
            | [] => inr []
            | (prop, v) :: rest =>
                append_lines
                  (if isSimplySerializable v then inline_declaration prop v
                   else inr [])
                  (inlineProps rest)
            end) props)
        (append_lines
           ((fix multilineProps (l : properties) : exn + list jsstring :=
               match l with
               | [] => inr []
               | (prop, v) :: rest =>
                   append_lines
                     (if isSimplySerializable v then inr []
                      else
                        match v with
                        | Arr items =>
                            (fix each (elements : list value)
                               : exn + list jsstring :=
                               match elements with
                               | [] => inr []
                               | element :: more =>
                                   append_lines
                                     (inr [[]; headerGroup (keys ++ [prop])])
                                     (append_lines
                                        (printObject element (keys ++ [prop]))
                                        (each more))
                               end) items
                        | Obj _ =>
                            append_lines
                              (inr [[]; header (keys ++ [prop])])
                              (printObject v (keys ++ [prop]))
                        | Null => inr [[]; header (keys ++ [prop])]
                        | _ => inr []
                        end)
                     (multilineProps rest)
               end) props)
           (inr [[]]))
  | _ => inr [[]]
  end.

Definition is_table_header (l : jsstring) : bool :=
  (is_char 91 (nth_error l 0) && negb (is_char 91 (nth_error l 1)))%bool.

(** The first loop of [#format], without key alignment. *)
Fixpoint format_headers (output : list jsstring) : list jsstring :=
  match output with
  | [] => []
  | l :: rest =>
      if is_table_header l then
        match rest with
        | blank :: ((following :: _) as rest') =>
            if (jseq blank []
                && jseq (firstn (length l) following)
                        (removelast l ++ str "."))%bool
            then format_headers rest'
            else l :: format_headers rest
        | _ => l :: format_headers rest
        end
      else l :: format_headers rest
  end.

(** The second loop of [#format]: a blank line followed by a blank line is
    dropped. *)
Fixpoint format_blanks (out : list jsstring) : list jsstring :=
  match out with
  | [] => []
  | l :: rest =>
      match rest with
      | following :: _ =>
          if (jseq l [] && jseq following [])%bool then format_blanks rest
          else l :: format_blanks rest
      | [] => [l]
      end
  end.

(** [stringify(srcObj)], with the default format options. *)
Definition stringify (srcObj : value) : exn + jsstring :=
  match printObject srcObj [] with
  | inl e => inl e
  | inr output => inr (join_with [LF] (format_blanks (format_headers output)))
  end.

(** ** The grammar *)

(** What a call of the function [ParserFactory] builds does: it returns the
    parsed body, throws, or (in the model) runs out of fuel. *)
Inductive result (A : Type) :=
| Returns (a : A)
| Throws (e : exn)
| Diverges.

Arguments Returns {A} a.
Arguments Throws {A} e.
Arguments Diverges {A}.

Section Grammar.

(** [new Date(text)]: the parsing of a date string is left to the host (it
    depends on its time zone and, outside the ISO forms, on the engine);
    [None] is an invalid date, whose time value is not-a-number. *)
Variable newDate : jsstring -> option Date.

Definition DateTime (fuel : nat) : Parser value :=
  nextUntilChar fuel opt_inline ;;
  dateStr <- peek (fun s => slice s 0 10) ;;
  if date_prefix dateStr then
    next 10 ;;
    acc <- scan_while fuel is_date_char [] ;;
    match newDate (trim (dateStr ++ acc)) with
    | Some date => ret (success (DateV date))
    | None =>
        throw (TOMLParseError
                 (str "Invalid date string " ++ quoted (dateStr ++ acc)))
    end
  else ret failure.

Definition LocalTime (fuel : nat) : Parser value :=
  nextUntilChar fuel opt_inline ;;
  timeStr <- peek (fun s => slice s 0 8) ;;
  if time_prefix timeStr then
    next 8 ;;
    dot <- peek (fun s => is_char 46 (char s 0)) ;;
    if dot then
      next 1 ;;
      acc <- scan_while fuel is_digit [46%N] ;;
      ret (success (Str (timeStr ++ acc)))
    else ret (success (Str timeStr))
  else ret failure.

(** The loop of ArrayValue over the parser of its items. *)
Fixpoint ArrayValue_loop (fuel : nat) (Value : Parser value)
    (array : list value) : M (list value) :=
  match fuel with
  | O => diverge
  | S f =>
      at_end <- peek eof ;;
      if at_end then ret array
      else
        nextUntilChar fuel opt_default ;;
        result <- Value ;;
        match result with
        | success body =>
            nextUntilChar f opt_inline ;;
            comma <- peek (fun s => is_char 44 (char s 0)) ;;
            if comma then next 1 ;; ArrayValue_loop f Value (array ++ [body])
            else ret (array ++ [body])
        | failure => ret array
        end
  end.

Definition ArrayValue_of (fuel : nat) (Value : Parser value) : Parser value :=
  nextUntilChar fuel opt_inline ;;
  open <- peek (fun s => is_char 91 (char s 0)) ;;
  if open then
    next 1 ;;
    array <- ArrayValue_loop fuel Value [] ;;
    nextUntilChar fuel opt_default ;;
    close <- peek (fun s => is_char 93 (char s 0)) ;;
    if close then next 1 ;; ret (success (Arr array))
    else throw (TOMLParseError (str "Array is not closed"))
  else ret failure.

Definition Pair_of (fuel : nat) (Value : Parser value) : Parser value :=
  kv fuel (DottedKey fuel) (str "=") Value.

Definition InlineTable_of (fuel : nat) (Value : Parser value) : Parser value :=
  nextUntilChar fuel opt_default ;;
  empty <- peek (fun s => is_char 125 (char s 1)) ;;
  if empty then next 2 ;; ret (success (Obj []))
  else
    pairs <- surround fuel (str "{")
               (join fuel (Pair_of fuel Value) (str ",")) (str "}") ;;
    match pairs with
    | failure => ret failure
    | success body => ret (success (fold_left deepMerge body (Obj [])))
    end.

(** A string recognizer as an alternative of Value. *)
Definition string_value (parser : Parser jsstring) : Parser value :=
  result <- parser ;;
  match result with
  | success body => ret (success (Str body))
  | failure => ret failure
  end.

(** [Value], with the recursion through ArrayValue, InlineTable and Pair
    bounded by the fuel. *)
Fixpoint Value (fuel : nat) (s : Scanner) {struct fuel}
    : outcome (MatchResult value) :=
  match fuel with
  | O => Diverge
  | S f =>
      or [ string_value (MultilineBasicString f);
           string_value (MultilineLiteralString f);
           string_value (BasicString f);
           string_value (LiteralString f);
           Symbols f;
           DateTime f;
           LocalTime f;
           Float f;
           Integer f;
           ArrayValue_of f (Value f);
           InlineTable_of f (Value f) ] s
  end.

Definition ArrayValue (fuel : nat) : Parser value :=
  ArrayValue_of fuel (Value fuel).

Definition InlineTable (fuel : nat) : Parser value :=
  InlineTable_of fuel (Value fuel).

Definition Pair (fuel : nat) : Parser value := Pair_of fuel (Value fuel).

Definition Block (fuel : nat) : Parser BlockRecord :=
  nextUntilChar fuel opt_default ;;
  result <- merge (repeat fuel (Pair fuel)) ;;
  match result with
  | success body => ret (success (mkBlock Block_t [] body))
  | failure => ret failure
  end.

Definition TableHeader (fuel : nat) : Parser (list jsstring) :=
  surround fuel (str "[") (DottedKey fuel) (str "]").

Definition block_or_empty (block : MatchResult BlockRecord) : value :=
  match block with
  | success b => block_value b
  | failure => Obj []
  end.

Definition Table (fuel : nat) : Parser BlockRecord :=
  nextUntilChar fuel opt_default ;;
  header <- TableHeader fuel ;;
  match header with
  | failure => ret failure
  | success key =>
      nextUntilChar fuel opt_default ;;
      block <- Block fuel ;;
      ret (success (mkBlock Table_t key (block_or_empty block)))
  end.

Definition TableArrayHeader (fuel : nat) : Parser (list jsstring) :=
  surround fuel (str "[[") (DottedKey fuel) (str "]]").

Definition TableArray (fuel : nat) : Parser BlockRecord :=
  nextUntilChar fuel opt_default ;;
  header <- TableArrayHeader fuel ;;
  match header with
  | failure => ret failure
  | success key =>
      nextUntilChar fuel opt_default ;;
      block <- Block fuel ;;
      ret (success (mkBlock TableArray_t key (block_or_empty block)))
  end.

(** The fold of Toml over the blocks it parsed. *)
Fixpoint Toml_fold (blocks : list BlockRecord) (body : value) : exn + value :=
  match blocks with
  | [] => inr body
  | block :: rest =>
      match block_type block with
      | Block_t => Toml_fold rest (deepMerge body (block_value block))
      | Table_t | TableArray_t =>
          match deepAssignWithTable body (block_type block) (block_key block)
                  (block_value block) with
          | inl e => inl e
          | inr body' => Toml_fold rest body'
          end
      end
  end.

Definition Toml (fuel : nat) : Parser value :=
  blocks <- repeat fuel (or [Block fuel; TableArray fuel; Table fuel]) ;;
  match blocks with
  | failure => ret failure
  | success records =>
      match Toml_fold records (Obj []) with
      | inl e => throw e
      | inr body => ret (success body)
      end
  end.

(** ** The driver *)

(** [subStr.split("\n")] *)
Fixpoint split_lines (subStr : jsstring) (line : jsstring)
    : list jsstring :=
  match subStr with
  | [] => [line]
  | c :: rest =>
      if N.eqb c LF then line :: split_lines rest []
      else split_lines rest (line ++ [c])
  end.

(** The loop that computes [column]. *)
Fixpoint column_count (count : nat) (lines : list jsstring) : nat :=
  match lines with
  | [] => count
  | line :: rest =>
      if Nat.ltb (length line) count
      then column_count (count - (length line + 1)) rest
      else count
  end.

(** [row] and [column] for [subStr = tomlString.slice(0, position)]. *)
Definition error_row (subStr : jsstring) : nat :=
  length (split_lines subStr []).

Definition error_column (subStr : jsstring) : nat :=
  column_count (length subStr) (split_lines subStr []).

Definition unexpected_character (s : Scanner) : jsstring :=
  str "Unexpected character: " ++ quoted (chars (char s 0)).

Definition parse_error (tomlString : jsstring) (s : Scanner)
    (detail : jsstring) : exn :=
  let subStr := firstn (position s) tomlString in
  TOMLParseError
    (str "Parse error on line " ++ decimal (N.of_nat (error_row subStr))
     ++ str ", column " ++ decimal (N.of_nat (error_column subStr))
     ++ str ": " ++ detail).

(** The error the catch clause keeps. *)
Definition caught (e : exn) : exn :=
  if instanceofError e then e else Error (str "[non-error thrown]").

Definition ParserFactory {A} (parser : Parser A) (tomlString : jsstring)
    : result A :=
  match parser (newScanner tomlString) with
  | Ret parsed s =>
      match parsed with
      | success body =>
          if eof s then Returns body
          else Throws (parse_error tomlString s (unexpected_character s))
      | failure => Throws (parse_error tomlString s (unexpected_character s))
      end
  | Throw e s => Throws (parse_error tomlString s (exn_message (caught e)))
  | Diverge => Diverges
  end.

(** Fuel that is enough for a source text. *)
Definition enough_fuel (tomlString : jsstring) : nat :=
  length tomlString + 2.

(** [parse = ParserFactory(Toml)] *)
Definition parse (tomlString : jsstring) : result value :=
  ParserFactory (Toml (enough_fuel tomlString)) tomlString.

(** [parse(stringify(v))] *)
Definition reparse (v : value) : result value :=
  match stringify v with
  | inl e => Throws e
  | inr text => parse text
  end.

(** ** Vocabulary of the specifications *)

(** The scanner [s'] reads the same source as [s], its cursor is not before
    the cursor of [s], and at least [d] characters of the source lie between
    the two. *)
Definition steps (d : nat) (s s' : Scanner) : Prop :=
  source s' = source s /\ position s <= position s'
  /\ remaining s' + d <= remaining s.

(** What every computation of the parser satisfies: it never moves the
    cursor backwards, a result [a] comes with a progress of at least
    [gain a] characters, and it runs out of fuel only when [limit] is
    smaller than the characters left plus [k]. *)
Definition sound {A} (limit k : nat) (gain : A -> nat) (m : M A) : Prop :=
  forall s,
    match m s with
    | Ret a s' => steps (gain a) s s'
    | Throw _ s' => steps 0 s s'
    | Diverge => limit < remaining s + k
    end.

(** The progress a parser owes: at least one character when it matches. *)
Definition matched {A} (r : MatchResult A) : nat :=
  match r with
  | success _ => 1
  | failure => 0
  end.

Definition still {A} (a : A) : nat := 0.

(** The progress of a literal that matched. *)
Definition literal_gain (literal : jsstring) (r : MatchResult unit) : nat :=
  if ok r then length literal else 0.

(** The contract of a parser function: a match moves the cursor forward, a
    non-match never moves it backwards, and the source stays the same. *)
Definition parser_contract {A} (parser : Parser A) : Prop :=
  forall s,
    match parser s with
    | Ret (success _) s' => source s' = source s /\ position s < position s'
    | Ret failure s' => source s' = source s /\ position s <= position s'
    | Throw _ _ => True
    | Diverge => True
    end.

(** A non-match leaves the cursor where it was when the parser was
    invoked. *)
Definition cursor_untouched_on_failure {A} (parser : Parser A) : Prop :=
  forall s s', parser s = Ret failure s' -> position s' = position s.

(** The number of line breaks in a prefix of the source, and the number of
    characters after the last of them. *)
Definition newlines (subStr : jsstring) : nat :=
  count_occ N.eq_dec subStr LF.

Fixpoint since_newline (subStr : jsstring) (column : nat) : nat :=
  match subStr with
  | [] => column
  | c :: rest => if N.eqb c LF then since_newline rest 0
                 else since_newline rest (S column)
  end.

(** The characters and separators a list of lines stands for. *)
Fixpoint total (lines : list jsstring) : nat :=
  match lines with
  | [] => 0
  | [line] => length line
  | line :: rest => length line + 1 + total rest
  end.

(** [m'] does what [m] does wherever [m] does not run out of fuel. *)
Definition refines {A} (m m' : M A) : Prop :=
  forall s, m s <> Diverge -> m' s = m s.

(** The message of the error the driver throws for a detail at a cursor:
    the line counts from one, the column is the number of characters after
    the last line break. *)
Definition positioned (subStr detail : jsstring) : jsstring :=
  str "Parse error on line " ++ decimal (N.of_nat (S (newlines subStr)))
  ++ str ", column " ++ decimal (N.of_nat (since_newline subStr 0))
  ++ str ": " ++ detail.

(** The input in front of the cursor. *)
Definition rest (s : Scanner) : jsstring :=
  skipn (position s) (source s).

(** Content of a multi-line basic string that is neither a quote nor a
    backslash; blanks that a line continuation skips; what follows them. *)
Definition ordinary (c : N) : bool :=
  (negb (N.eqb c DQUOTE) && negb (N.eqb c BACKSLASH))%bool.

Definition blank (c : N) : bool := (whitespace c || N.eqb c LF)%bool.

Definition quote_ahead (l : jsstring) : bool := is_char DQUOTE (hd_error l).

Definition space_ahead (l : jsstring) : bool := test is_space (hd_error l).

(** The run that a line continuation skips: spaces, tabs and line breaks, a
    line break being a line feed, alone or behind a carriage return. *)
Fixpoint blanks (ws : jsstring) : bool :=
  match ws with
  | [] => true
  | c :: rest =>
      ((blank c || N.eqb c CR && is_char LF (hd_error rest))
       && blanks rest)%bool
  end.

(** A character of the class [\s] that the skip does not pass: neither a
    space, a tab nor the start of a line break. *)
Definition invalid_ahead (l : jsstring) : bool :=
  match l with
  | c :: rest =>
      (is_space c && negb (blank c)
       && negb (N.eqb c CR && is_char LF (hd_error rest)))%bool
  | [] => false
  end.

(** The multi-line strings of the specification: [a], a line feed and [b];
    [a], a backslash, a line feed and [b]; and a line continuation that is
    followed by blanks and a number sign. *)
Definition multiline_two_lines : jsstring :=
  three DQUOTE ++ str "a" ++ [LF] ++ str "b" ++ three DQUOTE.

Definition multiline_continuation : jsstring :=
  three DQUOTE ++ str "a" ++ [BACKSLASH; LF] ++ str "b" ++ three DQUOTE.

Definition multiline_continuation_comment : jsstring :=
  three DQUOTE ++ str "a" ++ [BACKSLASH; LF] ++ str "  #c" ++ [LF]
  ++ str "b" ++ three DQUOTE.

(** A line continuation in front of a carriage return and a line feed, and
    one that a form feed follows. *)
Definition multiline_continuation_crlf : jsstring :=
  three DQUOTE ++ str "a" ++ [BACKSLASH; CR; LF] ++ str "  " ++ [CR; LF]
  ++ str "b" ++ three DQUOTE.

Definition multiline_continuation_form_feed : jsstring :=
  three DQUOTE ++ str "a" ++ [BACKSLASH; LF; 12%N] ++ str "b" ++ three DQUOTE.

(** The table-array example of the specification. *)
Definition two_bins : jsstring :=
  str "[[bin]]" ++ [LF] ++ str "name = " ++ quoted (str "deno") ++ [LF]
  ++ str "[[bin]]" ++ [LF] ++ str "name = " ++ quoted (str "deno_core")
  ++ [LF].


(** A basic string with an escape whose digits are not hexadecimal. *)
Definition bad_unicode_escape : jsstring :=
  str "a = " ++ quoted (str "\uzzzz").

(** The nested mapping a dotted key stands for: [{k1: {k2: ... {kn: v}}}]. *)
Definition nest (keys : list jsstring) (v : value) : value :=
  fold_right (fun k inner => Obj [(k, inner)]) v keys.

(** A key made of digits only: an engine enumerates the array indices among
    the keys of an object first, in numeric order, which the association
    lists of the value model do not do. *)
Definition index_like (k : jsstring) : bool :=
  (negb (jseq k []) && forallb is_digit k)%bool.

(** A key that names an own property only and is enumerated where it was
    inserted. *)
Definition plain_key (k : jsstring) : bool :=
  (negb (existsb (jseq k) prototype_names) && negb (index_like k))%bool.


(** *** Vocabulary of the further properties *)

(** The member access [v[k1][k2]...[kn]] on own properties. *)
Definition lookup (v : value) (path : list jsstring) : value :=
  fold_left property path v.

(** Content of a literal string: no apostrophe and no line feed. *)
Definition literal_char (c : N) : bool :=
  (negb (N.eqb c SQUOTE) && negb (N.eqb c LF))%bool.

(** The [count] code units from [first] on. *)
Fixpoint code_units (first : N) (count : nat) : list N :=
  match count with
  | O => []
  | S n => first :: code_units (N.succ first) n
  end.

(** The four hexadecimal digits written for a code unit are read back as that
    code unit. *)
Definition unicode_escape_decodes (c : N) : bool :=
  (Nat.eqb (length (padStart 4 (hexadecimal c))) 4
   && match parseInt16 (padStart 4 (hexadecimal c)) with
      | Some x => N.eqb x c
      | None => false
      end)%bool.

(** The escapes of one character: the letter behind the backslash and the
    character it stands for. *)
Definition simple_escapes : list (N * N) :=
  [ (98, 8); (116, 9); (110, 10); (102, 12); (114, 13);
    (DQUOTE, DQUOTE); (BACKSLASH, BACKSLASH) ]%N.

(** The text [out] starts with what JSON.stringify writes for the first
    character, or the first surrogate pair, of [text], and the loop of a
    basic string reads that back in some turns. *)
Definition reads_back (out text : jsstring) : Prop :=
  exists (esc decoded r' : jsstring) (turns : nat),
    out = esc ++ json_escape r'
    /\ text = decoded ++ r'
    /\ turns <= length esc
    /\ length r' < length text
    /\ forall fuel acc s more,
         rest s = esc ++ more ->
         BasicString_loop (turns + fuel) acc s
         = BasicString_loop fuel (acc ++ decoded) (advance s (length esc)).

(** What [joinKeys] writes for one key. *)
Definition key_text (k : jsstring) : jsstring :=
  if needs_quotes k then JSON_string k else k.

(** What [joinKeys] writes for the keys after the first. *)
Definition dotted (keys : list jsstring) : jsstring :=
  concat (map (fun k => 46%N :: key_text k) keys).

(** The alternatives of a key segment. *)
Definition key_segment (fuel : nat) : Parser jsstring :=
  or [BareKey fuel; BasicString fuel; LiteralString fuel].

(** [Number.MAX_SAFE_INTEGER]: up to it every integer is a number of its
    own, written with all its digits. *)
Definition MAX_SAFE_INTEGER : N := 9007199254740991.

(** Content of a multi-line literal string without an apostrophe. *)
Definition no_apostrophe (c : N) : bool := negb (N.eqb c SQUOTE).

(** What the serializer writes for an integer. *)
Definition integer_text (negative : bool) (m : N) : jsstring :=
  (if negative then str "-" else []) ++ decimal m.

Fixpoint distinct (keys : list jsstring) : bool :=
  match keys with
  | [] => true
  | k :: others => (negb (existsb (jseq k) others) && distinct others)%bool
  end.

(** The scalars that the serializer writes in a form the parser reads back
    exactly: strings, booleans, the infinities and the safe integers (minus
    zero is written as zero and is left out). *)
Definition scalar (v : value) : bool :=
  match v with
  | Str _ | Bool _ | Num (Infinity _) => true
  | Num (Decimal negative m e) =>
      (Z.eqb e 0 && N.leb m MAX_SAFE_INTEGER
       && (negb negative || negb (N.eqb m 0)))%bool
  | _ => false
  end.

(** What the serializer writes for a scalar. *)
Definition scalar_text (v : value) : jsstring :=
  match v with
  | Str text => JSON_string text
  | Bool b => print_boolean b
  | Num (Infinity negative) => if negative then str "-inf" else str "inf"
  | Num (Decimal negative m _) => integer_text negative m
  | _ => []
  end.

(** The line of a property and the document of a table of scalars. *)
Definition scalar_line (kv : jsstring * value) : jsstring :=
  declaration [fst kv] ++ scalar_text (snd kv) ++ [LF].

Definition scalar_document (props : properties) : jsstring :=
  concat (map scalar_line props).

Definition record (kv : jsstring * value) : value :=
  Obj [(fst kv, snd kv)].

(** The line the serializer writes for a scalar property. *)
Definition scalar_declaration (kv : jsstring * value) : jsstring :=
  declaration [fst kv] ++ scalar_text (snd kv).

(** A value that is neither a primitive nor an array: a table, but also
    [undefined] and [null], which the classification of an array does not
    tell apart from a table. *)
Definition neither_primitive_nor_array (v : value) : bool :=
  (negb (isPrimitive v) && negb (isArray v))%bool.

(** No two adjacent lines are both empty. *)
Fixpoint no_double_blank (lines : list jsstring) : bool :=
  match lines with
  | l :: ((following :: _) as rest) =>
      (negb (jseq l [] && jseq following []) && no_double_blank rest)%bool
  | _ => true
  end.

Definition not_blank (l : jsstring) : bool := negb (jseq l []).

(** A value without [undefined] and [null] in it: a string, a number, a
    boolean, a date, or an array or a table of such values. *)
Fixpoint defined (v : value) : bool :=
  match v with
  | Undefined | Null => false
  | Arr items => forallb defined items
  | Obj props =>
      (fix all (l : properties) : bool :=
         match l with
         | [] => true
         | (_, w) :: rest => (defined w && all rest)%bool
         end) props
  | _ => true
  end.

(** [#printObject] returns on a defined value, and on the elements of a
    defined array. *)
Definition prints (v : value) : Prop :=
  defined v = true ->
  (forall keys, exists lines, printObject v keys = inr lines)
  /\ forall items, v = Arr items ->
       Forall (fun x => forall keys, exists lines,
                 printObject x keys = inr lines) items.

(** Content of a basic string that stands for itself. *)
Definition plain_char (c : N) : bool :=
  (negb (N.eqb c DQUOTE) && negb (N.eqb c BACKSLASH) && negb (N.eqb c LF))%bool.

(** The letters that may follow a backslash. *)
Definition escape_letter (c : N) : bool :=
  (existsb (fun pair => N.eqb (fst pair) c) simple_escapes
   || N.eqb 117 c || N.eqb 85 c)%bool.

(** What the serializer writes for a table of scalars under a header: the
    header line and the lines of the members. *)
Definition section_text (t : jsstring * properties) : jsstring :=
  header [fst t] ++ LF :: scalar_document (snd t).

(** The sections of a document, each behind a blank line. *)
Fixpoint sections_text (tables : list (jsstring * properties)) : jsstring :=
  match tables with
  | [] => []
  | t :: others => LF :: section_text t ++ sections_text others
  end.

(** The sections from the bracket of the first header on. *)
Definition sections_at (tables : list (jsstring * properties)) : jsstring :=
  match tables with
  | [] => []
  | t :: others => section_text t ++ sections_text others
  end.

(** A table of scalars under distinct plain keys. *)
Definition section_ok (t : jsstring * properties) : bool :=
  (distinct (map fst (snd t))
   && forallb (fun kv => plain_key (fst kv)) (snd t)
   && forallb (fun kv => scalar (snd kv)) (snd t))%bool.

(** The document of a table whose members are scalars, followed by tables
    of scalars. *)
Definition table_document (tops : properties)
    (tables : list (jsstring * properties)) : jsstring :=
  scalar_document tops ++ sections_text tables.

(** The lines that [#printObject] pushes for a section, and the lines that
    [#format] keeps of them. *)
Definition section_lines (t : jsstring * properties) : list jsstring :=
  [[]; header [fst t]] ++ map scalar_declaration (snd t) ++ [[]].

Definition section_kept (t : jsstring * properties) : list jsstring :=
  [[]; header [fst t]] ++ map scalar_declaration (snd t).

(** A table of scalars under distinct keys that are own-property names. *)
Definition plain_table (props : properties) : bool :=
  (distinct (map fst props)
   && forallb (fun kv => plain_key (fst kv) && scalar (snd kv)) props)%bool.

(** The member and the parsed block of a section. *)
Definition table_entry (t : jsstring * properties) : jsstring * value :=
  (fst t, Obj (snd t)).

Definition table_record (t : jsstring * properties) : BlockRecord :=
  mkBlock Table_t [fst t] (Obj (snd t)).

(** What may follow the lines of a table: the end of the input, or blank
    lines and the bracket of a header; [n] is the number of blank lines. *)
Definition stop (tail : jsstring) (n : nat) : Prop :=
  (tail = [] /\ n = 0)
  \/ (exists ws more,
        tail = ws ++ 91%N :: more /\ forallb (N.eqb LF) ws = true
        /\ n = length ws).

(** A date whose UTC fields are in their ranges and whose year has four
    digits. *)
Definition printable_date (d : Date) : bool :=
  (N.leb 1000 (UTCFullYear d) && N.leb (UTCFullYear d) 9999
   && N.leb (UTCMonth d) 11
   && N.leb 1 (UTCDate d) && N.leb (UTCDate d) 31
   && N.leb (UTCHours d) 23 && N.leb (UTCMinutes d) 59
   && N.leb (UTCSeconds d) 59 && N.leb (UTCMilliseconds d) 999)%bool.

(** A number is written, padded with zeros, with exactly [width] digits. *)
Definition field_ok (width : nat) (x : N) : bool :=
  (Nat.eqb (length (padStart width (decimal x))) width
   && forallb is_digit (padStart width (decimal x)))%bool.

(** A member that the serializer writes in sections: a table of scalars, or
    a non-empty array of tables of scalars. *)
Inductive entry :=
| TableOf (k : jsstring) (sub : properties)
| ArrayOf (k : jsstring) (first : properties) (others : list properties).

Definition entry_key (e : entry) : jsstring :=
  match e with TableOf k _ | ArrayOf k _ _ => k end.

Definition entry_value (e : entry) : value :=
  match e with
  | TableOf _ sub => Obj sub
  | ArrayOf _ first others => Arr (map Obj (first :: others))
  end.

Definition entry_member (e : entry) : jsstring * value :=
  (entry_key e, entry_value e).

(** The tables of an entry. *)
Definition entry_tables (e : entry) : list properties :=
  match e with
  | TableOf _ sub => [sub]
  | ArrayOf _ first others => first :: others
  end.

(** A section of the document: whether it is an element of an array of
    tables, its key and its members. *)
Definition part : Type := bool * (jsstring * properties).

Definition parts_of (e : entry) : list part :=
  match e with
  | TableOf k sub => [(false, (k, sub))]
  | ArrayOf k first others =>
      map (fun sub => (true, (k, sub))) (first :: others)
  end.

Definition parts (entries : list entry) : list part :=
  concat (map parts_of entries).

Definition part_header (p : part) : jsstring :=
  if fst p then headerGroup [fst (snd p)] else header [fst (snd p)].

Definition part_text (p : part) : jsstring :=
  part_header p ++ LF :: scalar_document (snd (snd p)).

(** The sections of a document, each behind a blank line. *)
Fixpoint parts_text (l : list part) : jsstring :=
  match l with
  | [] => []
  | p :: others => LF :: part_text p ++ parts_text others
  end.

(** The sections from the bracket of the first header on. *)
Definition parts_at (l : list part) : jsstring :=
  match l with
  | [] => []
  | p :: others => part_text p ++ parts_text others
  end.

Definition part_record (p : part) : BlockRecord :=
  mkBlock (if fst p then TableArray_t else Table_t) [fst (snd p)]
    (Obj (snd (snd p))).

Definition part_ok (p : part) : bool := section_ok (snd p).

(** Every table of an entry holds scalars under distinct keys. *)
Definition entry_ok (e : entry) : bool :=
  forallb (fun sub => section_ok (entry_key e, sub)) (entry_tables e).

(** The document of a table whose members are scalars, followed by tables
    and arrays of tables. *)
Definition entries_document (tops : properties) (entries : list entry)
    : jsstring :=
  scalar_document tops ++ parts_text (parts entries).

(** The lines that [#printObject] pushes for a section, and the lines that
    [#format] keeps of them. *)
Definition part_lines (p : part) : list jsstring :=
  [[]; part_header p] ++ map scalar_declaration (snd (snd p)) ++ [[]].

Definition part_kept (p : part) : list jsstring :=
  [[]; part_header p] ++ map scalar_declaration (snd (snd p)).

(** ** Properties of the scanner *)

Lemma eof_false (s : Scanner) :
  eof s = false -> position s < length (source s).
Proof. unfold eof. intros H. apply Nat.leb_gt in H. exact H. Qed.

Lemma eof_true (s : Scanner) :
  eof s = true -> length (source s) <= position s.
Proof. unfold eof. intros H. apply Nat.leb_le in H. exact H. Qed.

Lemma char_some (s : Scanner) (i : nat) (c : N) :
  char s i = Some c -> position s + i < length (source s).
Proof.
  unfold char. intros H. apply nth_error_Some. rewrite H. discriminate.
Qed.

Lemma test_char (class : N -> bool) (s : Scanner) (i : nat) :
  test class (char s i) = true -> position s + i < length (source s).
Proof.
  destruct (char s i) eqn:E; simpl; [intros _ | discriminate].
  eapply char_some; eauto.
Qed.

Ltac bools :=
  repeat match goal with
    | H : (_ && _)%bool = true |- _ => apply andb_prop in H; destruct H
    | H : (_ || _)%bool = false |- _ => apply orb_false_elim in H; destruct H
    | H : negb _ = true |- _ => apply negb_true_iff in H
    | H : negb _ = false |- _ => apply negb_false_iff in H
    end.

Ltac lengths :=
  repeat match goal with
    | H : eof _ = false |- _ => apply eof_false in H
    | H : eof _ = true |- _ => apply eof_true in H
    | H : test _ (char _ _) = true |- _ => apply test_char in H
    | H : is_char _ (char _ _) = true |- _ => apply test_char in H
    | H : char _ _ = Some _ |- _ => apply char_some in H
    end.

Ltac pos :=
  bools; lengths;
  unfold steps, remaining, matched, still, literal_gain in *; simpl in *;
  repeat match goal with H : _ /\ _ |- _ => destruct H end;
  repeat match goal with
    | H : source ?a = source ?b |- _ =>
        lazymatch goal with
        | _ : length (source a) = length (source b) |- _ => fail
        | _ => assert (length (source a) = length (source b))
                 by (rewrite H; reflexivity)
        end
    end;
  first [ lia | congruence | split; [congruence | lia] ].

Ltac pos' := solve [pos].

Ltac reduce :=
  cbv beta iota delta [bind peek ret next throw diverge].

(** Run a sub-computation whose specification is [L]; the cases where it
    throws or diverges are closed at once. *)
Ltac call L :=
  match type of L with
  | sound _ _ _ ?m =>
      match goal with
      | |- context [m ?s] =>
          let H := fresh "H" in
          pose proof (L s) as H;
          destruct (m s) as [? ?|? ?|]; cbv beta iota;
          [ | solve [pos] | solve [pos] ]
      end
  end.

Ltac branch :=
  match goal with
  | |- context [if ?c then _ else _] =>
      lazymatch c with
      | context [if _ then _ else _] => fail
      | _ => destruct c eqn:?
      end
  end.

Lemma sound_weaken {A} (limit k limit' k' : nat) (gain gain' : A -> nat)
    (m : M A) :
  sound limit k gain m ->
  limit' + k <= limit + k' ->
  (forall a, gain' a <= gain a) ->
  sound limit' k' gain' m.
Proof.
  intros H Hk Hg s. specialize (H s).
  destruct (m s) as [a s'|e s'|]; [specialize (Hg a) | | ]; pos.
Qed.

Lemma skip_inline_sound (fuel : nat) : sound fuel 1 still (skip_inline fuel).
Proof.
  induction fuel as [|f IH]; intros s; simpl; reduce.
  - pos.
  - branch; [ | pos].
    specialize (IH (advance s 1)).
    destruct (skip_inline f (advance s 1)); pos.
Qed.

Lemma skip_comment_sound (fuel : nat) : sound fuel 1 still (skip_comment fuel).
Proof.
  induction fuel as [|f IH]; intros s; simpl; reduce.
  - pos.
  - branch; [ | pos].
    specialize (IH (advance s 1)).
    destruct (skip_comment f (advance s 1)); pos.
Qed.

(** A comment starts on a character that is not a line break, so skipping
    it moves the cursor. *)
Lemma skip_comment_moves (fuel : nat) (s : Scanner) :
  isCurrentCharEOL s = false -> eof s = false ->
  match skip_comment fuel s with
  | Ret _ s' => steps 1 s s'
  | Throw _ s' => steps 0 s s'
  | Diverge => fuel < remaining s + 1
  end.
Proof.
  intros Heol Heof. destruct fuel as [|f]; simpl; reduce.
  - pos.
  - rewrite Heol, Heof. simpl.
    pose proof (skip_comment_sound f (advance s 1)) as H.
    destruct (skip_comment f (advance s 1)); pos.
Qed.

Lemma skip_full_sound (fuel : nat) (with_comment : bool) :
  sound fuel 2 still (skip_full fuel with_comment).
Proof.
  induction fuel as [|f IH]; intros s; simpl; reduce.
  - pos.
  - destruct (eof s) eqn:Heof; [pos | ].
    destruct (test whitespace (char s 0) || isCurrentCharEOL s)%bool eqn:Hb.
    + specialize (IH (advance s 1)).
      destruct (skip_full f with_comment (advance s 1)); pos.
    + destruct (with_comment && is_char HASH (char s 0))%bool eqn:Hh; [ | pos].
      apply orb_false_elim in Hb. destruct Hb as [_ Heol].
      pose proof (skip_comment_moves f s Heol Heof) as Hc.
      destruct (skip_comment f s) as [[] s1|e s1|]; [ | pos | pos].
      specialize (IH s1).
      destruct (skip_full f with_comment s1); pos.
Qed.

Lemma nextUntilChar_sound (fuel : nat) (options : SkipOptions) :
  sound fuel 2 still (nextUntilChar fuel options).
Proof.
  intros s. unfold nextUntilChar. reduce.
  destruct (inline options).
  - pose proof (skip_inline_sound fuel s) as H.
    destruct (skip_inline fuel s); [ | pos | pos].
    branch; pos.
  - pose proof (skip_full_sound fuel (comment options) s) as H.
    destruct (skip_full fuel (comment options) s); [ | pos | pos].
    branch; pos.
Qed.

(** ** Specifications of the combinators and recognizers *)

Lemma slice_length (s : Scanner) (n : nat) (l : jsstring) :
  jseq (slice s 0 n) l = true -> length l <= remaining s.
Proof.
  unfold slice. rewrite Nat.add_0_r, Nat.sub_0_r. intros H.
  assert (Hlen : forall a b, jseq a b = true -> length a = length b).
  { induction a as [|x a IH]; destruct b as [|y b]; simpl; try discriminate.
    - reflexivity.
    - intros E. apply andb_prop in E. destruct E as [_ E].
      rewrite (IH _ E). reflexivity. }
  apply Hlen in H. rewrite <- H. unfold remaining.
  rewrite length_firstn, length_skipn. lia.
Qed.

Lemma character_sound (fuel : nat) (literal : jsstring) :
  sound fuel 2 (literal_gain literal) (character fuel literal).
Proof.
  intros s. unfold character. reduce.
  call (nextUntilChar_sound fuel opt_inline).
  branch; [ | pos].
  match goal with H : jseq _ _ = true |- _ => apply slice_length in H end.
  call (nextUntilChar_sound fuel opt_inline).
  unfold literal_gain; simpl. pos.
Qed.

Lemma character_matched (fuel : nat) (literal : jsstring) :
  1 <= length literal ->
  sound fuel 2 matched (character fuel literal).
Proof.
  intros Hl. eapply sound_weaken; [apply character_sound | lia | ].
  intros [[]|]; unfold literal_gain; simpl; lia.
Qed.

Lemma or_sound {A} (limit k : nat) (parsers : list (Parser A)) :
  Forall (sound limit k matched) parsers ->
  sound limit k matched (or parsers).
Proof.
  induction 1 as [|parse rest Hp _ IH]; intros s; simpl; reduce.
  - pos.
  - call Hp.
    match goal with |- context [ok ?r] => destruct r; simpl end; [pos | ].
    specialize (IH s0). destruct (or rest s0); pos.
Qed.

Lemma scan_while_sound (fuel : nat) (class : N -> bool) (acc : jsstring) :
  sound fuel 1 (fun r => length r - length acc) (scan_while fuel class acc).
Proof.
  revert acc. induction fuel as [|f IH]; intros acc s; simpl; reduce.
  - pos.
  - branch; [ | pos].
    destruct (char s 0) as [x|] eqn:Hc; [ | discriminate].
    simpl. call (IH (acc ++ [x])).
    rewrite length_app in *. pos.
Qed.

Lemma BareKey_loop_sound (fuel : nat) (acc : jsstring) :
  sound fuel 1 still (BareKey_loop fuel acc).
Proof.
  revert acc. induction fuel as [|f IH]; intros acc s; simpl; reduce.
  - pos.
  - destruct (char s 0) as [x|] eqn:Hc; [ | pos].
    branch; [ | pos].
    specialize (IH (acc ++ [x]) (advance s 1)).
    destruct (BareKey_loop f (acc ++ [x]) (advance s 1)); pos.
Qed.

Lemma BareKey_sound (fuel : nat) : sound fuel 2 matched (BareKey fuel).
Proof.
  intros s. unfold BareKey. reduce.
  call (nextUntilChar_sound fuel opt_inline).
  destruct (char s0 0) as [x|] eqn:Hc; simpl; [ | pos].
  branch; [ | pos].
  destruct fuel as [|f]; simpl; reduce; [pos | ].
  rewrite Hc. match goal with H : BARE_KEY x = true |- _ => rewrite H end.
  simpl. call (BareKey_loop_sound f [x]). pos.
Qed.

Lemma EscapeSequence_sound (limit k : nat) :
  sound limit k matched EscapeSequence.
Proof.
  intros s. unfold EscapeSequence. reduce.
  branch; [ | pos].
  repeat (branch; [pos | ]).
  branch.
  - destruct (fromCodePoint _); pos.
  - repeat (branch; [pos | ]). pos.
Qed.

Lemma BasicString_loop_sound (fuel : nat) (acc : jsstring) :
  sound fuel 1 still (BasicString_loop fuel acc).
Proof.
  revert acc. induction fuel as [|f IH]; intros acc s; simpl; reduce.
  - pos.
  - branch; [ | pos].
    branch; [pos | ].
    call (EscapeSequence_sound (S f) 1).
    match goal with |- context [match ?r with success _ => _ | failure => _ end]
      => destruct r as [body|] end.
    + call (IH (acc ++ body)). pos.
    + call (IH (acc ++ chars (char s0 0))). pos.
Qed.

Lemma BasicString_sound (fuel : nat) : sound fuel 2 matched (BasicString fuel).
Proof.
  intros s. unfold BasicString. reduce.
  call (nextUntilChar_sound fuel opt_inline).
  branch; [ | pos].
  call (BasicString_loop_sound fuel []).
  branch; pos.
Qed.

Lemma LiteralString_loop_sound (fuel : nat) (acc : jsstring) :
  sound fuel 1 still (LiteralString_loop fuel acc).
Proof.
  revert acc. induction fuel as [|f IH]; intros acc s; simpl; reduce.
  - pos.
  - branch; [ | pos].
    branch; [pos | ].
    call (IH (acc ++ chars (char s 0))). pos.
Qed.

Lemma LiteralString_sound (fuel : nat) :
  sound fuel 2 matched (LiteralString fuel).
Proof.
  intros s. unfold LiteralString. reduce.
  call (nextUntilChar_sound fuel opt_inline).
  branch; [ | pos].
  call (LiteralString_loop_sound fuel []).
  branch; pos.
Qed.

Lemma trim_first_newline_sound (limit k : nat) :
  sound limit k still trim_first_newline.
Proof.
  intros s. unfold trim_first_newline. reduce.
  branch; [pos | ]. branch; pos.
Qed.

Lemma MultilineBasicString_loop_sound (fuel : nat) (acc : jsstring) :
  sound fuel 2 still (MultilineBasicString_loop fuel acc).
Proof.
  revert acc. induction fuel as [|f IH]; intros acc s; simpl; reduce.
  - pos.
  - branch; [ | pos].
    branch.
    + call (nextUntilChar_sound f opt_nocomment).
      call (IH acc). pos.
    + call (EscapeSequence_sound (S f) 2).
      match goal with |- context [match ?r with success _ => _ | failure => _ end]
        => destruct r as [body|] end.
      * call (IH (acc ++ body)). pos.
      * call (IH (acc ++ chars (char s0 0))). pos.
Qed.

Ltac sliced :=
  repeat match goal with
    | H : jseq (slice _ 0 _) _ = true |- _ => apply slice_length in H
    end.

Lemma MultilineBasicString_sound (fuel : nat) :
  sound fuel 2 matched (MultilineBasicString fuel).
Proof.
  intros s. unfold MultilineBasicString. reduce.
  call (nextUntilChar_sound fuel opt_inline).
  branch; [ | pos]. sliced.
  call (trim_first_newline_sound fuel 2).
  call (MultilineBasicString_loop_sound fuel []).
  branch; [pos | ]. branch; pos.
Qed.

Lemma MultilineLiteralString_loop_sound (fuel : nat) (acc : jsstring) :
  sound fuel 1 still (MultilineLiteralString_loop fuel acc).
Proof.
  revert acc. induction fuel as [|f IH]; intros acc s; simpl; reduce.
  - pos.
  - branch; [ | pos].
    call (IH (acc ++ chars (char s 0))). pos.
Qed.

Lemma MultilineLiteralString_sound (fuel : nat) :
  sound fuel 2 matched (MultilineLiteralString fuel).
Proof.
  intros s. unfold MultilineLiteralString. reduce.
  call (nextUntilChar_sound fuel opt_inline).
  branch; [ | pos]. sliced.
  call (trim_first_newline_sound fuel 2).
  call (MultilineLiteralString_loop_sound fuel []).
  branch; [pos | ]. branch; pos.
Qed.

Lemma Symbols_sound (fuel : nat) : sound fuel 2 matched (Symbols fuel).
Proof.
  intros s. unfold Symbols. reduce.
  call (nextUntilChar_sound fuel opt_inline).
  match goal with |- context [find ?f symbolPairs] =>
    destruct (find f symbolPairs) as [[literal v]|] eqn:Hf end; [ | pos].
  apply find_some in Hf. destruct Hf as [Hin Hs]. simpl in Hs.
  apply slice_length in Hs.
  assert (1 <= length literal).
  { simpl in Hin.
    repeat (destruct Hin as [Hin|Hin];
            [injection Hin as <- _; simpl; lia | ]).
    destruct Hin. }
  pos.
Qed.

Lemma slice_bound (s : Scanner) (n : nat) :
  length (slice s 0 n) <= remaining s.
Proof.
  unfold slice, remaining. rewrite length_firstn, length_skipn. lia.
Qed.

Lemma Integer_sound (fuel : nat) : sound fuel 2 matched (Integer fuel).
Proof.
  intros s. unfold Integer. reduce.
  call (nextUntilChar_sound fuel opt_inline).
  pose proof (slice_bound s0 2) as Hb.
  branch.
  - bools. match goal with H : Nat.eqb _ 2 = true |- _ =>
      apply Nat.eqb_eq in H; rewrite H in Hb end.
    call (scan_while_sound fuel is_hex_us []).
    branch; pos.
  - destruct (test is_sign (char s0 0)) eqn:Hsign.
    + destruct (char s0 0) as [x|] eqn:Hc; [ | discriminate]. simpl.
      call (scan_while_sound fuel is_digit_us [x]).
      branch; pos.
    + call (scan_while_sound fuel is_digit_us []).
      branch; [pos | ]. bools.
      match goal with H : Nat.eqb _ 0 = false |- _ =>
        apply Nat.eqb_neq in H end.
      pos.
Qed.

Lemma Float_lookahead_sound (fuel ahead : nat) (s : Scanner) :
  ahead <= remaining s ->
  match Float_lookahead fuel ahead s with
  | Ret _ s' => s' = s
  | Throw _ _ => False
  | Diverge => fuel + ahead < remaining s + 1
  end.
Proof.
  revert ahead. induction fuel as [|f IH]; intros p Hp; simpl; reduce.
  - lia.
  - destruct (char s p) as [x|] eqn:Hc; [ | reflexivity].
    apply char_some in Hc.
    destruct (negb (END_OF_VALUE x)); [ | reflexivity].
    destruct (negb (FLOAT x)); [reflexivity | ].
    assert (Hp' : p + 1 <= remaining s) by (unfold remaining; lia).
    specialize (IH (p + 1) Hp').
    destruct (Float_lookahead f (p + 1) s); [assumption | assumption | lia].
Qed.

Lemma Float_sound (fuel : nat) : sound fuel 2 matched (Float fuel).
Proof.
  intros s. unfold Float. reduce.
  call (nextUntilChar_sound fuel opt_inline).
  pose proof (@Float_lookahead_sound fuel 0 s0 (Nat.le_0_l _)) as Hl.
  destruct (Float_lookahead fuel 0 s0) as [valid s1|e s1|];
    [subst s1 | destruct Hl | pos].
  destruct valid; [ | pos].
  destruct (test is_sign (char s0 0)) eqn:Hsign.
  - destruct (char s0 0) as [x|] eqn:Hc; [ | discriminate]. simpl.
    call (scan_while_sound fuel FLOAT [x]).
    branch; [pos | ]. branch; pos.
  - call (scan_while_sound fuel FLOAT []).
    branch; [pos | ].
    match goal with H : Nat.eqb _ 0 = false |- _ =>
      apply Nat.eqb_neq in H end.
    branch; pos.
Qed.

Lemma date_prefix_length (l : jsstring) :
  date_prefix l = true -> 10 <= length l.
Proof.
  do 10 (destruct l as [|? l]; [discriminate | ]). simpl. lia.
Qed.

Lemma time_prefix_length (l : jsstring) :
  time_prefix l = true -> 8 <= length l.
Proof.
  do 8 (destruct l as [|? l]; [discriminate | ]). simpl. lia.
Qed.

Lemma DateTime_sound (fuel : nat) : sound fuel 2 matched (DateTime fuel).
Proof.
  intros s. unfold DateTime. reduce.
  call (nextUntilChar_sound fuel opt_inline).
  pose proof (slice_bound s0 10) as Hb.
  branch; [ | pos].
  match goal with H : date_prefix _ = true |- _ =>
    apply date_prefix_length in H end.
  call (scan_while_sound fuel is_date_char []).
  destruct (newDate _); pos.
Qed.

Lemma LocalTime_sound (fuel : nat) : sound fuel 2 matched (LocalTime fuel).
Proof.
  intros s. unfold LocalTime. reduce.
  call (nextUntilChar_sound fuel opt_inline).
  pose proof (slice_bound s0 8) as Hb.
  branch; [ | pos].
  match goal with H : time_prefix _ = true |- _ =>
    apply time_prefix_length in H end.
  branch; [ | pos].
  call (scan_while_sound fuel is_digit [46%N]). pos.
Qed.

Ltac on_result_as b :=
  match goal with
  | |- context [match ?r with success _ => _ | failure => _ end] =>
      is_var r; destruct r as [b|]
  | |- context [ok ?r] => is_var r; destruct r as [b|]; simpl
  end.

Ltac on_result := let b := fresh "body" in on_result_as b.

Lemma join_loop_sound {A} (limit k : nat) (parser : Parser A)
    (Separator : Parser unit) (separator : jsstring) :
  sound limit k matched parser ->
  sound limit k matched Separator ->
  forall (fuel : nat) (out : list A) (s : Scanner),
    match join_loop fuel parser Separator separator out s with
    | Ret _ s' => steps 0 s s'
    | Throw _ s' => steps 0 s s'
    | Diverge => fuel < remaining s + 1 \/ limit < remaining s + k
    end.
Proof.
  intros Hp Hs. induction fuel as [|f IH]; intros out s; simpl; reduce.
  - pos.
  - branch; [pos | ].
    call Hs. on_result; [ | pos].
    call Hp. on_result_as item; [ | pos].
    specialize (IH (out ++ [item]) s1).
    destruct (join_loop f parser Separator separator (out ++ [item]) s1); pos.
Qed.

Lemma join_sound {A} (fuel k : nat) (parser : Parser A) (separator : jsstring) :
  sound fuel k matched parser ->
  2 <= k -> 1 <= length separator ->
  sound fuel k matched (join fuel parser separator).
Proof.
  intros Hp Hk Hl s. unfold join. reduce.
  call Hp. on_result_as item; [ | pos].
  assert (Hs : sound fuel k matched (character fuel separator)).
  { eapply sound_weaken; [apply character_matched; assumption | lia | ].
    intros; lia. }
  pose proof (join_loop_sound separator Hp Hs fuel [item] s0) as HL.
  destruct (join_loop fuel parser (character fuel separator) separator
              [item] s0); pos.
Qed.

Lemma kv_sound (fuel limit k : nat) (keyParser : Parser (list jsstring))
    (separator : jsstring) (valueParser : Parser value) :
  sound limit k matched keyParser ->
  sound limit (S k) matched valueParser ->
  limit <= fuel -> 2 <= k ->
  sound limit k matched (kv fuel keyParser separator valueParser).
Proof.
  intros Hkey Hv Hl Hk s. unfold kv. reduce.
  call Hkey. on_result; [ | pos].
  call (character_sound fuel separator).
  on_result; [ | pos].
  call Hv. on_result; pos.
Qed.

Lemma merge_sound (limit k : nat) (parser : Parser (list value)) :
  sound limit k matched parser -> sound limit k matched (merge parser).
Proof.
  intros Hp s. unfold merge. reduce.
  call Hp. on_result; pos.
Qed.

Lemma string_value_sound (limit k : nat) (parser : Parser jsstring) :
  sound limit k matched parser -> sound limit k matched (string_value parser).
Proof.
  intros Hp s. unfold string_value. reduce.
  call Hp. on_result; pos.
Qed.

Lemma repeat_loop_sound {A} (limit k : nat) (parser : Parser A) :
  sound limit k matched parser ->
  forall (fuel : nat) (body : list A) (s : Scanner),
    match repeat_loop fuel parser body s with
    | Ret r s' => steps 0 s s' /\ (length r <> length body -> steps 1 s s')
    | Throw _ s' => steps 0 s s'
    | Diverge => fuel < remaining s + 2 \/ limit < remaining s + k
    end.
Proof.
  intros Hp. induction fuel as [|f IH]; intros body s; simpl; reduce.
  - pos.
  - branch; [split; [pos | intros; congruence] | ].
    call Hp. on_result_as item; [ | split; [pos | intros; congruence]].
    call (nextUntilChar_sound f opt_default).
    specialize (IH (body ++ [item]) s1).
    destruct (repeat_loop f parser (body ++ [item]) s1);
      [split; [pos | intros; pos] | pos | pos].
Qed.

Lemma repeat_sound {A} (fuel k : nat) (parser : Parser A) :
  sound fuel k matched parser -> 2 <= k ->
  sound fuel k matched (repeat fuel parser).
Proof.
  intros Hp Hk s. unfold repeat. reduce.
  pose proof (repeat_loop_sound Hp fuel [] s) as HL.
  destruct (repeat_loop fuel parser [] s) as [r s1|e s1|]; [ | pos | pos].
  destruct HL as [H0 H1].
  destruct r; simpl in *; [pos | ].
  apply H1. discriminate.
Qed.

Lemma surround_sound {A} (fuel k : nat) (left right : jsstring)
    (parser : Parser A) :
  sound fuel k matched parser ->
  2 <= k -> 1 <= length left ->
  sound fuel k matched (surround fuel left parser right).
Proof.
  intros Hp Hk Hl s. unfold surround. reduce.
  call (character_sound fuel left). on_result; [ | pos].
  call Hp. on_result; [ | pos].
  call (character_sound fuel right). on_result; pos.
Qed.

Lemma DottedKey_sound (fuel : nat) : sound fuel 2 matched (DottedKey fuel).
Proof.
  unfold DottedKey. apply join_sound; [ | lia | simpl; lia].
  apply or_sound.
  repeat constructor;
    [apply BareKey_sound | apply BasicString_sound | apply LiteralString_sound].
Qed.

Lemma ArrayValue_loop_sound (limit k : nat) (V : Parser value) :
  sound limit k matched V ->
  forall (fuel : nat) (array : list value) (s : Scanner),
    match ArrayValue_loop fuel V array s with
    | Ret _ s' => steps 0 s s'
    | Throw _ s' => steps 0 s s'
    | Diverge => fuel < remaining s + 2 \/ limit < remaining s + k
    end.
Proof.
  intros Hv. induction fuel as [|f IH]; intros array s; simpl; reduce.
  - pos.
  - branch; [pos | ].
    call (nextUntilChar_sound (S f) opt_default).
    call Hv. on_result_as item; [ | pos].
    call (nextUntilChar_sound f opt_inline).
    branch; [ | pos].
    specialize (IH (array ++ [item]) (advance s2 1)).
    destruct (ArrayValue_loop f V (array ++ [item]) (advance s2 1)); pos.
Qed.

Lemma ArrayValue_of_sound (fuel : nat) (V : Parser value) :
  sound fuel 3 matched V -> sound fuel 2 matched (ArrayValue_of fuel V).
Proof.
  intros Hv s. unfold ArrayValue_of. reduce.
  call (nextUntilChar_sound fuel opt_inline).
  branch; [ | pos].
  pose proof (ArrayValue_loop_sound Hv fuel [] (advance s0 1)) as HL.
  destruct (ArrayValue_loop fuel V [] (advance s0 1)) as [array s1|e s1|];
    [ | pos | pos].
  call (nextUntilChar_sound fuel opt_default).
  branch; pos.
Qed.

Lemma Pair_of_sound (fuel : nat) (V : Parser value) :
  sound fuel 3 matched V -> sound fuel 2 matched (Pair_of fuel V).
Proof.
  intros Hv. unfold Pair_of.
  apply kv_sound; [apply DottedKey_sound | assumption | lia | lia].
Qed.

Lemma InlineTable_of_sound (fuel : nat) (V : Parser value) :
  sound fuel 3 matched V -> sound fuel 2 matched (InlineTable_of fuel V).
Proof.
  intros Hv s. unfold InlineTable_of. reduce.
  call (nextUntilChar_sound fuel opt_default).
  branch; [pos | ].
  assert (Hs : sound fuel 2 matched
                 (surround fuel (str "{")
                    (join fuel (Pair_of fuel V) (str ",")) (str "}"))).
  { apply surround_sound; [ | lia | simpl; lia].
    apply join_sound; [ | lia | simpl; lia].
    apply Pair_of_sound. assumption. }
  call Hs. on_result; pos.
Qed.

Lemma Value_step (f : nat) (s : Scanner) :
  Value (S f) s =
  or [ string_value (MultilineBasicString f);
       string_value (MultilineLiteralString f);
       string_value (BasicString f);
       string_value (LiteralString f);
       Symbols f; DateTime f; LocalTime f; Float f; Integer f;
       ArrayValue_of f (Value f); InlineTable_of f (Value f) ] s.
Proof. reflexivity. Qed.

Lemma Value_sound (fuel : nat) : sound fuel 3 matched (Value fuel).
Proof.
  induction fuel as [|f IH]; intros s.
  - simpl. pos.
  - rewrite Value_step.
    match goal with |- context [or ?l s] =>
      assert (Halts : sound f 2 matched (or l)) end.
    { apply or_sound. repeat constructor.
      - apply string_value_sound, MultilineBasicString_sound.
      - apply string_value_sound, MultilineLiteralString_sound.
      - apply string_value_sound, BasicString_sound.
      - apply string_value_sound, LiteralString_sound.
      - apply Symbols_sound.
      - apply DateTime_sound.
      - apply LocalTime_sound.
      - apply Float_sound.
      - apply Integer_sound.
      - apply ArrayValue_of_sound, IH.
      - apply InlineTable_of_sound, IH. }
    specialize (Halts s).
    match goal with |- context [or ?l s] => destruct (or l s) end; pos.
Qed.

Lemma ArrayValue_sound (fuel : nat) : sound fuel 2 matched (ArrayValue fuel).
Proof. apply ArrayValue_of_sound, Value_sound. Qed.

Lemma InlineTable_sound (fuel : nat) : sound fuel 2 matched (InlineTable fuel).
Proof. apply InlineTable_of_sound, Value_sound. Qed.

Lemma Pair_sound (fuel : nat) : sound fuel 2 matched (Pair fuel).
Proof. apply Pair_of_sound, Value_sound. Qed.

Lemma Block_sound (fuel : nat) : sound fuel 2 matched (Block fuel).
Proof.
  intros s. unfold Block. reduce.
  call (nextUntilChar_sound fuel opt_default).
  assert (Hm : sound fuel 2 matched (merge (repeat fuel (Pair fuel)))).
  { apply merge_sound, repeat_sound; [apply Pair_sound | lia]. }
  call Hm. on_result; pos.
Qed.

Lemma TableHeader_sound (fuel : nat) : sound fuel 2 matched (TableHeader fuel).
Proof.
  unfold TableHeader.
  apply surround_sound; [apply DottedKey_sound | lia | simpl; lia].
Qed.

Lemma TableArrayHeader_sound (fuel : nat) :
  sound fuel 2 matched (TableArrayHeader fuel).
Proof.
  unfold TableArrayHeader.
  apply surround_sound; [apply DottedKey_sound | lia | simpl; lia].
Qed.

Lemma Table_sound (fuel : nat) : sound fuel 2 matched (Table fuel).
Proof.
  intros s. unfold Table. reduce.
  call (nextUntilChar_sound fuel opt_default).
  call (TableHeader_sound fuel). on_result; [ | pos].
  call (nextUntilChar_sound fuel opt_default).
  call (Block_sound fuel). pos.
Qed.

Lemma TableArray_sound (fuel : nat) : sound fuel 2 matched (TableArray fuel).
Proof.
  intros s. unfold TableArray. reduce.
  call (nextUntilChar_sound fuel opt_default).
  call (TableArrayHeader_sound fuel). on_result; [ | pos].
  call (nextUntilChar_sound fuel opt_default).
  call (Block_sound fuel). pos.
Qed.

Lemma Toml_sound (fuel : nat) : sound fuel 2 matched (Toml fuel).
Proof.
  intros s. unfold Toml. reduce.
  assert (Hr : sound fuel 2 matched
                 (repeat fuel (or [Block fuel; TableArray fuel; Table fuel]))).
  { apply repeat_sound; [ | lia]. apply or_sound. repeat constructor;
      [apply Block_sound | apply TableArray_sound | apply Table_sound]. }
  call Hr. on_result; [ | pos].
  destruct (Toml_fold body (Obj [])); pos.
Qed.

(** ** More fuel does not change a result *)

Lemma refines_refl {A} (m : M A) : refines m m.
Proof. intros s _. reflexivity. Qed.

Lemma refines_diverge {A} (m : M A) : refines diverge m.
Proof. intros s H. destruct H. reflexivity. Qed.

Lemma refines_bind {A B} (m m' : M A) (f f' : A -> M B) :
  refines m m' -> (forall a, refines (f a) (f' a)) ->
  refines (bind m f) (bind m' f').
Proof.
  intros Hm Hf s Hd. unfold bind in *. specialize (Hm s).
  destruct (m s) as [a s1|e s1|] eqn:E.
  - rewrite Hm by discriminate. apply Hf. exact Hd.
  - rewrite Hm by discriminate. reflexivity.
  - destruct Hd. reflexivity.
Qed.

Create HintDb mono discriminated.

Ltac mono :=
  repeat first
    [ apply refines_refl
    | apply refines_diverge
    | solve [eauto 6 with mono]
    | apply refines_bind; [ | intro ]
    | match goal with
      | |- refines (if ?b then _ else _) _ => destruct b
      | |- refines (match ?x with success _ => _ | failure => _ end) _ =>
          destruct x
      | |- refines (match ?x with Some _ => _ | None => _ end) _ =>
          destruct x
      | |- refines (match ?x with inl _ => _ | inr _ => _ end) _ =>
          destruct x
      | |- refines (let (_, _) := ?x in _) _ => destruct x
      end ].

(** The proof for a loop: induction on the fuel of the left side and a
    case analysis of the fuel on the right. *)
Ltac loop_mono fuel :=
  let f := fresh "f" in
  let IH := fresh "IH" in
  let f' := fresh "f'" in
  let H := fresh "H" in
  induction fuel as [|f IH]; intros [|f'] H; intros; simpl;
  [ apply refines_diverge | apply refines_diverge | lia | ];
  apply le_S_n in H; mono.

Lemma skip_inline_mono (fuel : nat) :
  forall fuel', fuel <= fuel' -> refines (skip_inline fuel) (skip_inline fuel').
Proof. loop_mono fuel. Qed.
#[local] Hint Resolve skip_inline_mono : mono.

Lemma skip_comment_mono (fuel : nat) :
  forall fuel', fuel <= fuel' ->
  refines (skip_comment fuel) (skip_comment fuel').
Proof. loop_mono fuel. Qed.
#[local] Hint Resolve skip_comment_mono : mono.

Lemma skip_full_mono (fuel : nat) :
  forall fuel', fuel <= fuel' ->
  forall c, refines (skip_full fuel c) (skip_full fuel' c).
Proof. loop_mono fuel. Qed.
#[local] Hint Resolve skip_full_mono : mono.

Lemma nextUntilChar_mono (fuel fuel' : nat) (options : SkipOptions) :
  fuel <= fuel' ->
  refines (nextUntilChar fuel options) (nextUntilChar fuel' options).
Proof. intros H. unfold nextUntilChar. mono. Qed.
#[local] Hint Resolve nextUntilChar_mono : mono.

Lemma character_mono (fuel fuel' : nat) (literal : jsstring) :
  fuel <= fuel' ->
  refines (character fuel literal) (character fuel' literal).
Proof. intros H. unfold character. mono. Qed.
#[local] Hint Resolve character_mono : mono.

Lemma or_mono {A} (parsers parsers' : list (Parser A)) :
  Forall2 refines parsers parsers' -> refines (or parsers) (or parsers').
Proof. induction 1; simpl; mono. Qed.

Lemma join_loop_mono {A} (parser parser' : Parser A)
    (Separator Separator' : Parser unit) (separator : jsstring) (fuel : nat) :
  refines parser parser' -> refines Separator Separator' ->
  forall fuel', fuel <= fuel' ->
  forall out, refines (join_loop fuel parser Separator separator out)
                (join_loop fuel' parser' Separator' separator out).
Proof. intros Hp Hs. loop_mono fuel. Qed.
#[local] Hint Resolve join_loop_mono : mono.

Lemma join_mono {A} (parser parser' : Parser A) (separator : jsstring)
    (fuel fuel' : nat) :
  refines parser parser' -> fuel <= fuel' ->
  refines (join fuel parser separator) (join fuel' parser' separator).
Proof. intros Hp H. unfold join. mono. Qed.
#[local] Hint Resolve join_mono : mono.

Lemma kv_mono (keyParser keyParser' : Parser (list jsstring))
    (separator : jsstring) (valueParser valueParser' : Parser value)
    (fuel fuel' : nat) :
  refines keyParser keyParser' -> refines valueParser valueParser' ->
  fuel <= fuel' ->
  refines (kv fuel keyParser separator valueParser)
    (kv fuel' keyParser' separator valueParser').
Proof. intros Hk Hv H. unfold kv. mono. Qed.
#[local] Hint Resolve kv_mono : mono.

Lemma merge_mono (parser parser' : Parser (list value)) :
  refines parser parser' -> refines (merge parser) (merge parser').
Proof. intros H. unfold merge. mono. Qed.
#[local] Hint Resolve merge_mono : mono.

Lemma string_value_mono (parser parser' : Parser jsstring) :
  refines parser parser' ->
  refines (string_value parser) (string_value parser').
Proof. intros H. unfold string_value. mono. Qed.
#[local] Hint Resolve string_value_mono : mono.

Lemma repeat_loop_mono {A} (parser parser' : Parser A) (fuel : nat) :
  refines parser parser' ->
  forall fuel', fuel <= fuel' ->
  forall body, refines (repeat_loop fuel parser body)
                 (repeat_loop fuel' parser' body).
Proof. intros Hp. loop_mono fuel. Qed.
#[local] Hint Resolve repeat_loop_mono : mono.

Lemma repeat_mono {A} (parser parser' : Parser A) (fuel fuel' : nat) :
  refines parser parser' -> fuel <= fuel' ->
  refines (repeat fuel parser) (repeat fuel' parser').
Proof. intros Hp H. unfold repeat. mono. Qed.
#[local] Hint Resolve repeat_mono : mono.

Lemma surround_mono {A} (parser parser' : Parser A) (left right : jsstring)
    (fuel fuel' : nat) :
  refines parser parser' -> fuel <= fuel' ->
  refines (surround fuel left parser right)
    (surround fuel' left parser' right).
Proof. intros Hp H. unfold surround. mono. Qed.
#[local] Hint Resolve surround_mono : mono.

Lemma scan_while_mono (fuel : nat) (class : N -> bool) :
  forall fuel', fuel <= fuel' ->
  forall acc, refines (scan_while fuel class acc) (scan_while fuel' class acc).
Proof. loop_mono fuel. Qed.
#[local] Hint Resolve scan_while_mono : mono.

Lemma BareKey_loop_mono (fuel : nat) :
  forall fuel', fuel <= fuel' ->
  forall acc, refines (BareKey_loop fuel acc) (BareKey_loop fuel' acc).
Proof. loop_mono fuel. Qed.
#[local] Hint Resolve BareKey_loop_mono : mono.

Lemma BareKey_mono (fuel fuel' : nat) :
  fuel <= fuel' -> refines (BareKey fuel) (BareKey fuel').
Proof. intros H. unfold BareKey. mono. Qed.
#[local] Hint Resolve BareKey_mono : mono.

Lemma BasicString_loop_mono (fuel : nat) :
  forall fuel', fuel <= fuel' ->
  forall acc,
    refines (BasicString_loop fuel acc) (BasicString_loop fuel' acc).
Proof. loop_mono fuel. Qed.
#[local] Hint Resolve BasicString_loop_mono : mono.

Lemma BasicString_mono (fuel fuel' : nat) :
  fuel <= fuel' -> refines (BasicString fuel) (BasicString fuel').
Proof. intros H. unfold BasicString. mono. Qed.
#[local] Hint Resolve BasicString_mono : mono.

Lemma LiteralString_loop_mono (fuel : nat) :
  forall fuel', fuel <= fuel' ->
  forall acc,
    refines (LiteralString_loop fuel acc) (LiteralString_loop fuel' acc).
Proof. loop_mono fuel. Qed.
#[local] Hint Resolve LiteralString_loop_mono : mono.

Lemma LiteralString_mono (fuel fuel' : nat) :
  fuel <= fuel' -> refines (LiteralString fuel) (LiteralString fuel').
Proof. intros H. unfold LiteralString. mono. Qed.
#[local] Hint Resolve LiteralString_mono : mono.

Lemma MultilineBasicString_loop_mono (fuel : nat) :
  forall fuel', fuel <= fuel' ->
  forall acc, refines (MultilineBasicString_loop fuel acc)
                (MultilineBasicString_loop fuel' acc).
Proof. loop_mono fuel. Qed.
#[local] Hint Resolve MultilineBasicString_loop_mono : mono.

Lemma MultilineBasicString_mono (fuel fuel' : nat) :
  fuel <= fuel' ->
  refines (MultilineBasicString fuel) (MultilineBasicString fuel').
Proof. intros H. unfold MultilineBasicString. mono. Qed.
#[local] Hint Resolve MultilineBasicString_mono : mono.

Lemma MultilineLiteralString_loop_mono (fuel : nat) :
  forall fuel', fuel <= fuel' ->
  forall acc, refines (MultilineLiteralString_loop fuel acc)
                (MultilineLiteralString_loop fuel' acc).
Proof. loop_mono fuel. Qed.
#[local] Hint Resolve MultilineLiteralString_loop_mono : mono.

Lemma MultilineLiteralString_mono (fuel fuel' : nat) :
  fuel <= fuel' ->
  refines (MultilineLiteralString fuel) (MultilineLiteralString fuel').
Proof. intros H. unfold MultilineLiteralString. mono. Qed.
#[local] Hint Resolve MultilineLiteralString_mono : mono.

Lemma Symbols_mono (fuel fuel' : nat) :
  fuel <= fuel' -> refines (Symbols fuel) (Symbols fuel').
Proof. intros H. unfold Symbols. mono. Qed.
#[local] Hint Resolve Symbols_mono : mono.

Lemma DottedKey_mono (fuel fuel' : nat) :
  fuel <= fuel' -> refines (DottedKey fuel) (DottedKey fuel').
Proof.
  intros H. unfold DottedKey. apply join_mono; [ | assumption].
  apply or_mono. repeat constructor; mono.
Qed.
#[local] Hint Resolve DottedKey_mono : mono.

Lemma Integer_mono (fuel fuel' : nat) :
  fuel <= fuel' -> refines (Integer fuel) (Integer fuel').
Proof. intros H. unfold Integer. mono. Qed.
#[local] Hint Resolve Integer_mono : mono.

Lemma Float_lookahead_mono (fuel : nat) :
  forall fuel', fuel <= fuel' ->
  forall ahead,
    refines (Float_lookahead fuel ahead) (Float_lookahead fuel' ahead).
Proof. loop_mono fuel. Qed.
#[local] Hint Resolve Float_lookahead_mono : mono.

Lemma Float_mono (fuel fuel' : nat) :
  fuel <= fuel' -> refines (Float fuel) (Float fuel').
Proof. intros H. unfold Float. mono. Qed.
#[local] Hint Resolve Float_mono : mono.

Lemma DateTime_mono (fuel fuel' : nat) :
  fuel <= fuel' -> refines (DateTime fuel) (DateTime fuel').
Proof. intros H. unfold DateTime. mono. Qed.
#[local] Hint Resolve DateTime_mono : mono.

Lemma LocalTime_mono (fuel fuel' : nat) :
  fuel <= fuel' -> refines (LocalTime fuel) (LocalTime fuel').
Proof. intros H. unfold LocalTime. mono. Qed.
#[local] Hint Resolve LocalTime_mono : mono.

Lemma ArrayValue_loop_mono (V V' : Parser value) (fuel : nat) :
  refines V V' ->
  forall fuel', fuel <= fuel' ->
  forall array, refines (ArrayValue_loop fuel V array)
                  (ArrayValue_loop fuel' V' array).
Proof.
  intros Hv. induction fuel as [|f IH]; intros [|f'] H array;
    [apply refines_diverge | apply refines_diverge | lia | ].
  cbn [ArrayValue_loop]. pose proof (le_S_n _ _ H). mono.
Qed.
#[local] Hint Resolve ArrayValue_loop_mono : mono.

Lemma ArrayValue_of_mono (V V' : Parser value) (fuel fuel' : nat) :
  refines V V' -> fuel <= fuel' ->
  refines (ArrayValue_of fuel V) (ArrayValue_of fuel' V').
Proof. intros Hv H. unfold ArrayValue_of. mono. Qed.
#[local] Hint Resolve ArrayValue_of_mono : mono.

Lemma Pair_of_mono (V V' : Parser value) (fuel fuel' : nat) :
  refines V V' -> fuel <= fuel' ->
  refines (Pair_of fuel V) (Pair_of fuel' V').
Proof. intros Hv H. unfold Pair_of. mono. Qed.
#[local] Hint Resolve Pair_of_mono : mono.

Lemma InlineTable_of_mono (V V' : Parser value) (fuel fuel' : nat) :
  refines V V' -> fuel <= fuel' ->
  refines (InlineTable_of fuel V) (InlineTable_of fuel' V').
Proof. intros Hv H. unfold InlineTable_of. mono. Qed.
#[local] Hint Resolve InlineTable_of_mono : mono.

Lemma Value_mono (fuel : nat) :
  forall fuel', fuel <= fuel' -> refines (Value fuel) (Value fuel').
Proof.
  induction fuel as [|f IH]; intros [|f'] H s Hd;
    [destruct Hd; reflexivity | destruct Hd; reflexivity | lia | ].
  apply le_S_n in H. specialize (IH f' H).
  rewrite Value_step in *. revert s Hd.
  apply or_mono. repeat constructor; mono.
Qed.
#[local] Hint Resolve Value_mono : mono.

Lemma Block_mono (fuel fuel' : nat) :
  fuel <= fuel' -> refines (Block fuel) (Block fuel').
Proof. intros H. unfold Block, Pair. mono. Qed.
#[local] Hint Resolve Block_mono : mono.

Lemma Table_mono (fuel fuel' : nat) :
  fuel <= fuel' -> refines (Table fuel) (Table fuel').
Proof. intros H. unfold Table, TableHeader. mono. Qed.
#[local] Hint Resolve Table_mono : mono.

Lemma TableArray_mono (fuel fuel' : nat) :
  fuel <= fuel' -> refines (TableArray fuel) (TableArray fuel').
Proof. intros H. unfold TableArray, TableArrayHeader. mono. Qed.
#[local] Hint Resolve TableArray_mono : mono.

Lemma Toml_mono (fuel fuel' : nat) :
  fuel <= fuel' -> refines (Toml fuel) (Toml fuel').
Proof.
  intros H. unfold Toml. apply refines_bind.
  - apply repeat_mono; [ | assumption].
    apply or_mono. repeat constructor; mono.
  - intro a. mono.
Qed.

(** ** The driver *)

Lemma split_lines_length (subStr line : jsstring) :
  length (split_lines subStr line) = S (newlines subStr).
Proof.
  revert line. induction subStr as [|c rest IH]; intros line; simpl.
  - reflexivity.
  - unfold newlines in *. simpl.
    destruct (N.eqb_spec c LF) as [->|Hne].
    + simpl. rewrite IH. destruct (N.eq_dec LF LF); congruence.
    + rewrite IH. destruct (N.eq_dec c LF); congruence.
Qed.

Lemma split_lines_nonempty (subStr line : jsstring) :
  split_lines subStr line <> [].
Proof.
  revert line. induction subStr as [|c rest IH]; intros line; simpl.
  - discriminate.
  - destruct (N.eqb c LF); [discriminate | apply IH].
Qed.

Lemma split_lines_total (subStr line : jsstring) :
  total (split_lines subStr line) = length line + length subStr.
Proof.
  revert line. induction subStr as [|c rest IH]; intros line; simpl.
  - lia.
  - destruct (N.eqb c LF).
    + specialize (IH []). simpl in IH.
      destruct (split_lines rest []) eqn:E.
      * destruct (split_lines_nonempty _ _ E).
      * change (total (line :: j :: l)) with (length line + 1 + total (j :: l)).
        rewrite IH. lia.
    + rewrite IH, length_app. simpl. lia.
Qed.

Lemma split_lines_last (subStr line : jsstring) :
  length (last (split_lines subStr line) []) =
  since_newline subStr (length line).
Proof.
  revert line. induction subStr as [|c rest IH]; intros line; simpl.
  - reflexivity.
  - destruct (N.eqb c LF).
    + specialize (IH []). simpl in IH. rewrite <- IH.
      destruct (split_lines rest []) eqn:E; [ | reflexivity].
      destruct (split_lines_nonempty _ _ E).
    + rewrite IH, length_app. simpl. rewrite Nat.add_1_r. reflexivity.
Qed.

Lemma column_count_last (lines : list jsstring) :
  lines <> [] ->
  column_count (total lines) lines = length (last lines []).
Proof.
  induction lines as [|line rest IH]; intros Hne; [congruence | ].
  destruct rest as [|line' rest'].
  - simpl. rewrite Nat.ltb_irrefl. reflexivity.
  - change (total (line :: line' :: rest'))
      with (length line + 1 + total (line' :: rest')).
    change (last (line :: line' :: rest') []) with (last (line' :: rest') []).
    cbn [column_count].
    destruct (Nat.ltb_spec (length line)
                (length line + 1 + total (line' :: rest'))); [ | lia].
    replace (length line + 1 + total (line' :: rest') - (length line + 1))
      with (total (line' :: rest')) by lia.
    apply IH. discriminate.
Qed.

Lemma error_row_spec (subStr : jsstring) :
  error_row subStr = S (newlines subStr).
Proof. apply split_lines_length. Qed.

Lemma error_column_spec (subStr : jsstring) :
  error_column subStr = since_newline subStr 0.
Proof.
  unfold error_column.
  pose proof (split_lines_total subStr []) as Ht. simpl in Ht.
  rewrite <- Ht, column_count_last.
  - apply (split_lines_last subStr []).
  - apply split_lines_nonempty.
Qed.

Lemma parse_error_positioned (tomlString : jsstring) (s : Scanner)
    (detail : jsstring) :
  parse_error tomlString s detail =
  TOMLParseError (positioned (firstn (position s) tomlString) detail).
Proof.
  unfold parse_error, positioned.
  rewrite error_row_spec, error_column_spec. reflexivity.
Qed.

Lemma Toml_terminates (tomlString : jsstring) (fuel : nat) :
  length tomlString + 2 <= fuel ->
  Toml fuel (newScanner tomlString) <> Diverge.
Proof.
  intros Hf Hd. pose proof (Toml_sound fuel (newScanner tomlString)) as H.
  rewrite Hd in H. unfold remaining in H. simpl in H. lia.
Qed.

Lemma parse_never_diverges (tomlString : jsstring) :
  parse tomlString <> Diverges.
Proof.
  unfold parse, ParserFactory.
  pose proof (@Toml_terminates tomlString (enough_fuel tomlString)
                (Nat.le_refl _)) as H.
  destruct (Toml (enough_fuel tomlString) (newScanner tomlString))
    as [[body|] s|e s|]; try discriminate; [ | congruence].
  destruct (eof s); discriminate.
Qed.

Lemma contract_of_sound {A} (limit k : nat) (parser : Parser A) :
  sound limit k matched parser -> parser_contract parser.
Proof.
  intros H s. specialize (H s).
  destruct (parser s) as [[body|] s'|e s'|]; try exact I; pos.
Qed.

(** ** Multi-line basic strings *)

Lemma char_rest (s : Scanner) (i : nat) :
  char s i = nth_error (rest s) i.
Proof. unfold char, rest. rewrite nth_error_skipn. reflexivity. Qed.

Lemma slice_rest (s : Scanner) (n : nat) :
  slice s 0 n = firstn n (rest s).
Proof. unfold slice, rest. rewrite Nat.add_0_r, Nat.sub_0_r. reflexivity. Qed.

Lemma eof_rest (s : Scanner) (c : N) (l : jsstring) :
  rest s = c :: l -> eof s = false.
Proof.
  unfold rest, eof. intros H. apply Nat.leb_gt.
  destruct (Nat.lt_ge_cases (position s) (length (source s))) as [Hlt|Hge];
    [assumption | ].
  rewrite (skipn_all2 _ Hge) in H. discriminate.
Qed.

Lemma rest_advance (s : Scanner) (n : nat) :
  rest (advance s n) = skipn n (rest s).
Proof.
  unfold rest, advance. simpl. rewrite skipn_skipn, Nat.add_comm.
  reflexivity.
Qed.

Lemma rest_advance_app (s : Scanner) (l tail : jsstring) :
  rest s = l ++ tail -> rest (advance s (length l)) = tail.
Proof.
  intros H. rewrite rest_advance, H, skipn_app, skipn_all, Nat.sub_diag.
  reflexivity.
Qed.

Lemma rest_advance_cons (s : Scanner) (c : N) (tail : jsstring) :
  rest s = c :: tail -> rest (advance s 1) = tail.
Proof. intros H. rewrite rest_advance, H. reflexivity. Qed.

Lemma advance_advance (s : Scanner) (n m : nat) :
  advance (advance s n) m = advance s (n + m).
Proof. unfold advance. simpl. rewrite Nat.add_assoc. reflexivity. Qed.

Lemma advance_zero (s : Scanner) : advance s 0 = s.
Proof. destruct s. unfold advance. simpl. rewrite Nat.add_0_r. reflexivity. Qed.

(** On a character that is no blank of any kind the skip stays where it
    is. *)
Lemma nextUntilChar_stays (fuel : nat) (options : SkipOptions) (s : Scanner)
    (c : N) (l : jsstring) :
  rest s = c :: l ->
  is_space c = false ->
  (comment options && N.eqb c HASH)%bool = false ->
  nextUntilChar (S fuel) options s = Ret tt s.
Proof.
  intros Hr Hsp Hh.
  assert (Hc : char s 0 = Some c) by (rewrite char_rest, Hr; reflexivity).
  assert (Hw : whitespace c = false).
  { unfold is_space, whitespace, between, SPACE, TAB in *.
    destruct (N.eqb_spec c 32) as [->|]; [discriminate | ].
    destruct (N.eqb_spec c 9) as [->|]; [discriminate | reflexivity]. }
  assert (Heol : isCurrentCharEOL s = false).
  { unfold isCurrentCharEOL. rewrite Hc, slice_rest, Hr.
    unfold is_char, test, LF, CR.
    destruct (N.eqb_spec 10 c) as [<-|]; [discriminate | ].
    destruct l as [|d l]; simpl.
    - destruct (N.eqb c 13); reflexivity.
    - destruct (N.eqb_spec c 13) as [->|]; [discriminate | reflexivity]. }
  unfold nextUntilChar. reduce.
  destruct (inline options); simpl; reduce.
  - rewrite Hc. cbn [test]. rewrite Hw. cbn [andb]. cbv beta iota.
    rewrite Heol, Hc. cbn [test negb andb]. rewrite Hsp. reflexivity.
  - rewrite (eof_rest s Hr). cbv beta iota. rewrite Hc. cbn [test].
    rewrite Hw, Heol. cbn [orb]. cbv beta iota.
    unfold is_char. rewrite Hc. cbn [test]. rewrite N.eqb_sym, Hh.
    cbv beta iota. rewrite Heol, Hc. cbn [test negb andb]. rewrite Hsp.
    reflexivity.
Qed.

(** The full skip runs over blanks. *)
Lemma skip_full_blanks (ws : jsstring) (fuel : nat) (with_comment : bool)
    (s : Scanner) (tail : jsstring) :
  rest s = ws ++ tail ->
  forallb blank ws = true ->
  skip_full (length ws + fuel) with_comment s
  = skip_full fuel with_comment (advance s (length ws)).
Proof.
  revert s. induction ws as [|c ws IH]; intros s Hr Hb.
  - simpl. rewrite advance_zero. reflexivity.
  - simpl in Hr, Hb. apply andb_prop in Hb. destruct Hb as [Hc Hb].
    assert (Hch : char s 0 = Some c) by (rewrite char_rest, Hr; reflexivity).
    simpl length. simpl Nat.add. cbn [skip_full]. reduce.
    rewrite (eof_rest s Hr).
    assert (Hgo : (test whitespace (char s 0) || isCurrentCharEOL s)%bool
                  = true).
    { rewrite Hch. unfold isCurrentCharEOL. rewrite Hch. cbn [test].
      unfold blank in Hc. apply orb_true_iff in Hc.
      destruct Hc as [Hc|Hc]; [rewrite Hc; reflexivity | ].
      apply N.eqb_eq in Hc. subst c. reflexivity. }
    rewrite Hgo.
    rewrite (IH (advance s 1) (rest_advance_cons s Hr) Hb).
    rewrite advance_advance. reflexivity.
Qed.

(** The full skip runs over spaces, tabs and line breaks. *)
Lemma skip_full_breaks (ws : jsstring) (fuel : nat) (with_comment : bool)
    (s : Scanner) (tail : jsstring) :
  rest s = ws ++ tail ->
  blanks ws = true ->
  skip_full (length ws + fuel) with_comment s
  = skip_full fuel with_comment (advance s (length ws)).
Proof.
  revert s. induction ws as [|c ws IH]; intros s Hr Hb.
  - simpl. rewrite advance_zero. reflexivity.
  - cbn [blanks] in Hb. apply andb_prop in Hb. destruct Hb as [Hc Hb].
    cbn [app] in Hr.
    assert (Hch : char s 0 = Some c) by (rewrite char_rest, Hr; reflexivity).
    simpl length. simpl Nat.add. cbn [skip_full]. reduce.
    rewrite (eof_rest s Hr).
    assert (Hgo : (test whitespace (char s 0) || isCurrentCharEOL s)%bool
                  = true).
    { rewrite Hch. unfold isCurrentCharEOL. rewrite Hch. cbn [test].
      apply orb_true_iff in Hc. destruct Hc as [Hc|Hc].
      - unfold blank in Hc. apply orb_true_iff in Hc.
        destruct Hc as [Hc|Hc]; [rewrite Hc; reflexivity | ].
        apply N.eqb_eq in Hc. subst c. reflexivity.
      - apply andb_prop in Hc. destruct Hc as [Hcr Hlf].
        apply N.eqb_eq in Hcr. subst c.
        destruct ws as [|d ws']; [discriminate | ].
        cbn [hd_error is_char test] in Hlf. apply N.eqb_eq in Hlf. subst d.
        rewrite slice_rest, Hr. reflexivity. }
    rewrite Hgo.
    rewrite (IH (advance s 1) (rest_advance_cons s Hr) Hb).
    rewrite advance_advance. reflexivity.
Qed.

Lemma blanks_behind_break (brk ws : jsstring) :
  brk = [LF] \/ brk = [CR; LF] ->
  blanks ws = true -> blanks (brk ++ ws) = true.
Proof.
  intros [-> | ->] H; cbn [app blanks hd_error]; rewrite H; reflexivity.
Qed.

(** The skip stops on a character of the class of blanks that is neither a
    space, a tab nor the start of a line break, and nextUntilChar throws. *)
Lemma nextUntilChar_invalid (fuel : nat) (with_comment : bool) (s : Scanner)
    (c : N) (tail : jsstring) :
  rest s = c :: tail ->
  invalid_ahead (c :: tail) = true ->
  nextUntilChar (S fuel) (mkOptions false with_comment) s
  = Throw (TOMLParseError (invalid_whitespace_message (Some c))) s.
Proof.
  intros Hr Hbad. cbn [invalid_ahead] in Hbad.
  apply andb_prop in Hbad. destruct Hbad as [Hbad Hcrlf].
  apply andb_prop in Hbad. destruct Hbad as [Hsp Hbl].
  apply negb_true_iff in Hbl, Hcrlf.
  unfold blank in Hbl. apply orb_false_elim in Hbl. destruct Hbl as [Hw Hlf].
  assert (Hc : char s 0 = Some c) by (rewrite char_rest, Hr; reflexivity).
  assert (Hh : N.eqb c HASH = false).
  { destruct (N.eqb_spec c HASH) as [->|]; [discriminate Hsp | reflexivity]. }
  assert (Heol : isCurrentCharEOL s = false).
  { unfold isCurrentCharEOL. rewrite Hc, slice_rest, Hr.
    cbn [is_char test]. rewrite N.eqb_sym, Hlf. cbn [orb].
    destruct tail as [|d tail']; cbn [firstn jseq hd_error is_char test] in *.
    - apply andb_false_r.
    - rewrite andb_true_r. rewrite (N.eqb_sym d LF). exact Hcrlf. }
  unfold nextUntilChar. reduce. change (inline (mkOptions false with_comment))
    with false. cbv iota. cbn [skip_full]. reduce.
  rewrite (eof_rest s Hr). rewrite Hc. cbn [test]. rewrite Hw, Heol.
  cbn [orb]. cbv beta iota.
  unfold is_char. rewrite Hc. cbn [test comment].
  rewrite (N.eqb_sym HASH c), Hh, andb_false_r. cbv beta iota.
  rewrite Heol, Hc. cbn [test negb andb]. rewrite Hsp, Hc. reflexivity.
Qed.

(** The loop of the multi-line basic string runs over ordinary content. *)
Lemma MultilineBasicString_loop_ordinary (body : jsstring) (fuel : nat)
    (acc : jsstring) (s : Scanner) (tail : jsstring) :
  rest s = body ++ tail ->
  forallb ordinary body = true ->
  MultilineBasicString_loop (length body + fuel) acc s
  = MultilineBasicString_loop fuel (acc ++ body) (advance s (length body)).
Proof.
  revert acc s. induction body as [|c body IH]; intros acc s Hr Hb.
  - simpl. rewrite advance_zero, app_nil_r. reflexivity.
  - simpl in Hr, Hb. apply andb_prop in Hb. destruct Hb as [Hc Hb].
    unfold ordinary in Hc. apply andb_prop in Hc. destruct Hc as [Hq Hbs].
    apply negb_true_iff in Hq, Hbs.
    assert (Hch : char s 0 = Some c) by (rewrite char_rest, Hr; reflexivity).
    simpl length. simpl Nat.add. cbn [MultilineBasicString_loop]. reduce.
    rewrite (eof_rest s Hr), !slice_rest, Hr.
    cbn [firstn three jseq]. rewrite Hq. cbn [andb negb]. cbv beta iota.
    rewrite !slice_rest, Hr. cbn [firstn jseq]. rewrite Hbs.
    cbn [andb orb]. cbv beta iota.
    unfold EscapeSequence. reduce. rewrite Hch.
    unfold is_char. cbn [test]. rewrite N.eqb_sym, Hbs. cbv beta iota.
    rewrite Hch.
    rewrite (IH (acc ++ chars (Some c)) (advance s 1)
               (rest_advance_cons s Hr) Hb).
    rewrite advance_advance. cbn [chars]. rewrite <- app_assoc. reflexivity.
Qed.

(** The loop stops in front of the closing delimiter. *)
Lemma MultilineBasicString_loop_closes (fuel : nat) (acc : jsstring)
    (s : Scanner) (tail : jsstring) :
  rest s = three DQUOTE ++ tail ->
  MultilineBasicString_loop (S fuel) acc s = Ret acc s.
Proof.
  intros Hr. cbn [MultilineBasicString_loop]. reduce.
  rewrite slice_rest, Hr. reflexivity.
Qed.

(** A backslash in front of a line break: the loop skips both and the
    spaces, tabs and line breaks that follow, and goes on in front of the
    next character, which may be a number sign. *)
Lemma MultilineBasicString_loop_continuation (brk ws : jsstring) (fuel : nat)
    (acc : jsstring) (s : Scanner) (c : N) (tail : jsstring) :
  rest s = BACKSLASH :: brk ++ ws ++ c :: tail ->
  brk = [LF] \/ brk = [CR; LF] ->
  blanks ws = true ->
  is_space c = false ->
  MultilineBasicString_loop (S (length (brk ++ ws) + S (S fuel))) acc s
  = MultilineBasicString_loop (length (brk ++ ws) + S (S fuel)) acc
      (advance s (1 + length (brk ++ ws))).
Proof.
  intros Hr Hbrk Hb Hsp.
  pose proof (@blanks_behind_break brk ws Hbrk Hb) as Hrun.
  remember (length (brk ++ ws) + S (S fuel)) as g eqn:Hg.
  cbn [MultilineBasicString_loop]. reduce.
  rewrite (eof_rest s Hr), !slice_rest, Hr. cbn [firstn three jseq].
  change (N.eqb BACKSLASH DQUOTE) with false. cbn [andb negb].
  cbv beta iota. rewrite !slice_rest, Hr.
  assert (Hcont : (jseq (firstn 2 (BACKSLASH :: brk ++ ws ++ c :: tail))
                     [BACKSLASH; LF]
                   || jseq (firstn 3 (BACKSLASH :: brk ++ ws ++ c :: tail))
                        [BACKSLASH; CR; LF])%bool = true).
  { destruct Hbrk as [-> | ->]; [reflexivity | ].
    cbn [app firstn]. apply orb_true_r. }
  rewrite Hcont. cbv beta iota.
  assert (Hr1 : rest (advance s 1) = (brk ++ ws) ++ c :: tail).
  { rewrite (rest_advance_cons s Hr), <- app_assoc. reflexivity. }
  assert (Hskip : nextUntilChar g opt_nocomment (advance s 1)
                  = Ret tt (advance s (1 + length (brk ++ ws)))).
  { subst g.
    assert (Hstay := @nextUntilChar_stays (S fuel) opt_nocomment
                       (advance (advance s 1) (length (brk ++ ws))) c tail
                       (@rest_advance_app _ _ _ Hr1) Hsp eq_refl).
    unfold nextUntilChar in *. reduce.
    change (inline opt_nocomment) with false in *.
    change (comment opt_nocomment) with false in *. cbv iota in *.
    rewrite (@skip_full_breaks (brk ++ ws) (S (S fuel)) false (advance s 1)
               (c :: tail) Hr1 Hrun).
    rewrite advance_advance in *. exact Hstay. }
  rewrite Hskip. reflexivity.
Qed.

(** A backslash in front of a line break, and behind the blanks that follow
    a character of the class of blanks that is neither a space, a tab nor
    the start of a line break: the skip throws on it. *)
Lemma MultilineBasicString_loop_invalid_blank (brk ws : jsstring)
    (fuel : nat) (acc : jsstring) (s : Scanner) (c : N) (tail : jsstring) :
  rest s = BACKSLASH :: brk ++ ws ++ c :: tail ->
  brk = [LF] \/ brk = [CR; LF] ->
  blanks ws = true ->
  invalid_ahead (c :: tail) = true ->
  MultilineBasicString_loop (S (length (brk ++ ws) + S (S fuel))) acc s
  = Throw (TOMLParseError (invalid_whitespace_message (Some c)))
      (advance s (1 + length (brk ++ ws))).
Proof.
  intros Hr Hbrk Hb Hbad.
  pose proof (@blanks_behind_break brk ws Hbrk Hb) as Hrun.
  remember (length (brk ++ ws) + S (S fuel)) as g eqn:Hg.
  cbn [MultilineBasicString_loop]. reduce.
  rewrite (eof_rest s Hr), !slice_rest, Hr. cbn [firstn three jseq].
  change (N.eqb BACKSLASH DQUOTE) with false. cbn [andb negb].
  cbv beta iota. rewrite !slice_rest, Hr.
  assert (Hcont : (jseq (firstn 2 (BACKSLASH :: brk ++ ws ++ c :: tail))
                     [BACKSLASH; LF]
                   || jseq (firstn 3 (BACKSLASH :: brk ++ ws ++ c :: tail))
                        [BACKSLASH; CR; LF])%bool = true).
  { destruct Hbrk as [-> | ->]; [reflexivity | ].
    cbn [app firstn]. apply orb_true_r. }
  rewrite Hcont. cbv beta iota.
  assert (Hr1 : rest (advance s 1) = (brk ++ ws) ++ c :: tail).
  { rewrite (rest_advance_cons s Hr), <- app_assoc. reflexivity. }
  assert (Hskip : nextUntilChar g opt_nocomment (advance s 1)
                  = Throw (TOMLParseError (invalid_whitespace_message (Some c)))
                      (advance s (1 + length (brk ++ ws)))).
  { subst g.
    assert (Hthrow := @nextUntilChar_invalid (S fuel) false
                        (advance (advance s 1) (length (brk ++ ws))) c tail
                        (@rest_advance_app _ _ _ Hr1) Hbad).
    unfold nextUntilChar in *. reduce.
    change (inline opt_nocomment) with false in *.
    change (inline (mkOptions false false)) with false in *.
    change (comment opt_nocomment) with false in *.
    change (comment (mkOptions false false)) with false in *. cbv iota in *.
    rewrite (@skip_full_breaks (brk ++ ws) (S (S fuel)) false (advance s 1)
               (c :: tail) Hr1 Hrun).
    rewrite advance_advance in *. exact Hthrow. }
  rewrite Hskip. reflexivity.
Qed.

(** The recognizer around its loop: the opening delimiter, the trimmed
    newline, the closing delimiter and the fourth quote. *)
Lemma MultilineBasicString_frame (fuel : nat) (s : Scanner)
    (newline content tail acc : jsstring) (n : nat) :
  rest s = three DQUOTE ++ newline ++ content ->
  newline = [LF] \/ newline = [CR; LF] ->
  MultilineBasicString_loop (S fuel) [] (advance s (3 + length newline))
  = Ret acc (advance s n) ->
  rest (advance s n) = three DQUOTE ++ tail ->
  MultilineBasicString (S fuel) s
  = Ret (success (if quote_ahead tail then acc ++ [DQUOTE] else acc))
      (advance s (n + (if quote_ahead tail then 4 else 3))).
Proof.
  intros Hr Hnl Hloop Hclose.
  unfold MultilineBasicString. reduce.
  rewrite (@nextUntilChar_stays fuel opt_inline s DQUOTE
             (DQUOTE :: DQUOTE :: newline ++ content) Hr eq_refl eq_refl).
  cbv beta iota. rewrite slice_rest, Hr. cbn [three app firstn jseq].
  change (N.eqb DQUOTE DQUOTE) with true. cbn [andb]. cbv beta iota.
  assert (Hr3 : rest (advance s 3) = newline ++ content)
    by (rewrite rest_advance, Hr; reflexivity).
  assert (Htrim : trim_first_newline (advance s 3)
                  = Ret tt (advance s (3 + length newline))).
  { unfold trim_first_newline. reduce. rewrite char_rest, Hr3.
    destruct Hnl as [-> | ->]; cbn [app nth_error is_char test].
    - change (N.eqb LF LF) with true. cbv beta iota.
      rewrite advance_advance. reflexivity.
    - change (N.eqb LF CR) with false. cbv beta iota.
      rewrite slice_rest, Hr3. cbn [app firstn jseq].
      change (N.eqb CR CR) with true. change (N.eqb LF LF) with true.
      cbn [andb]. cbv beta iota. rewrite advance_advance. reflexivity. }
  rewrite Htrim. cbv beta iota. rewrite Hloop. cbv beta iota.
  rewrite (eof_rest _ Hclose). cbv beta iota.
  rewrite char_rest, Hclose. cbn [three app nth_error].
  unfold quote_ahead. destruct tail as [|q tail']; cbn [hd_error nth_error].
  - cbn. rewrite advance_advance. reflexivity.
  - destruct (is_char DQUOTE (Some q)); cbv beta iota;
      rewrite ?advance_advance; reflexivity.
Qed.

(** An error in the loop leaves the recognizer as it is. *)
Lemma MultilineBasicString_frame_throw (fuel : nat) (s s' : Scanner)
    (newline content : jsstring) (e : exn) :
  rest s = three DQUOTE ++ newline ++ content ->
  newline = [LF] \/ newline = [CR; LF] ->
  MultilineBasicString_loop (S fuel) [] (advance s (3 + length newline))
  = Throw e s' ->
  MultilineBasicString (S fuel) s = Throw e s'.
Proof.
  intros Hr Hnl Hloop.
  unfold MultilineBasicString. reduce.
  rewrite (@nextUntilChar_stays fuel opt_inline s DQUOTE
             (DQUOTE :: DQUOTE :: newline ++ content) Hr eq_refl eq_refl).
  cbv beta iota. rewrite slice_rest, Hr. cbn [three app firstn jseq].
  change (N.eqb DQUOTE DQUOTE) with true. cbn [andb]. cbv beta iota.
  assert (Hr3 : rest (advance s 3) = newline ++ content)
    by (rewrite rest_advance, Hr; reflexivity).
  assert (Htrim : trim_first_newline (advance s 3)
                  = Ret tt (advance s (3 + length newline))).
  { unfold trim_first_newline. reduce. rewrite char_rest, Hr3.
    destruct Hnl as [-> | ->]; cbn [app nth_error is_char test].
    - change (N.eqb LF LF) with true. cbv beta iota.
      rewrite advance_advance. reflexivity.
    - change (N.eqb LF CR) with false. cbv beta iota.
      rewrite slice_rest, Hr3. cbn [app firstn jseq].
      change (N.eqb CR CR) with true. change (N.eqb LF LF) with true.
      cbn [andb]. cbv beta iota. rewrite advance_advance. reflexivity. }
  rewrite Htrim. cbv beta iota. rewrite Hloop. reflexivity.
Qed.

Lemma rest_newScanner (src : jsstring) : rest (newScanner src) = src.
Proof. reflexivity. Qed.

Lemma rest_after (src pre post : jsstring) (n : nat) :
  src = pre ++ post -> n = length pre ->
  rest (advance (newScanner src) n) = post.
Proof.
  intros -> ->. rewrite rest_advance, rest_newScanner, skipn_app, skipn_all,
    Nat.sub_diag. reflexivity.
Qed.

(** Ordinary content up to the closing delimiter. *)
Lemma MultilineBasicString_loop_to_close (body : jsstring) (fuel : nat)
    (acc : jsstring) (s : Scanner) (tail : jsstring) :
  rest s = body ++ three DQUOTE ++ tail ->
  forallb ordinary body = true ->
  length body < fuel ->
  MultilineBasicString_loop fuel acc s
  = Ret (acc ++ body) (advance s (length body)).
Proof.
  intros Hr Hb Hf.
  replace fuel with (length body + S (fuel - length body - 1)) by lia.
  rewrite (@MultilineBasicString_loop_ordinary body _ acc s _ Hr Hb).
  apply (@MultilineBasicString_loop_closes _ _ _ tail).
  apply rest_advance_app. exact Hr.
Qed.

(** Ordinary content, a line continuation, ordinary content again and the
    closing delimiter. *)
Lemma MultilineBasicString_loop_continued (a brk ws b : jsstring)
    (fuel : nat) (acc : jsstring) (s : Scanner) (tail : jsstring) :
  rest s = a ++ BACKSLASH :: brk ++ ws ++ b ++ three DQUOTE ++ tail ->
  forallb ordinary a = true ->
  forallb ordinary b = true ->
  brk = [LF] \/ brk = [CR; LF] ->
  blanks ws = true ->
  space_ahead b = false ->
  length a + length brk + length ws + length b + 3 <= fuel ->
  MultilineBasicString_loop fuel acc s
  = Ret (acc ++ a ++ b)
      (advance s (length a + 1 + length brk + length ws + length b)).
Proof.
  intros Hr Ha Hb Hbrk Hws Hsp Hf.
  replace fuel
    with (length a
          + S (length (brk ++ ws)
               + S (S (fuel - length a - length (brk ++ ws) - 3))))
    by (rewrite length_app; lia).
  rewrite (@MultilineBasicString_loop_ordinary a _ acc s _ Hr Ha).
  pose proof (@rest_advance_app _ _ _ Hr) as Hr1.
  assert (Hnext : exists c rest', b ++ three DQUOTE ++ tail = c :: rest'
                                  /\ is_space c = false).
  { destruct b as [|c b'].
    - exists DQUOTE, (DQUOTE :: DQUOTE :: tail). split; reflexivity.
    - exists c, (b' ++ three DQUOTE ++ tail). split; [reflexivity | ].
      exact Hsp. }
  destruct Hnext as (c & rest' & Hcons & Hc).
  rewrite Hcons in Hr1.
  rewrite (@MultilineBasicString_loop_continuation brk ws _ (acc ++ a)
             (advance s (length a)) c rest' Hr1 Hbrk Hws Hc).
  assert (Hr2 : rest (advance (advance s (length a))
                        (1 + length (brk ++ ws)))
                = b ++ three DQUOTE ++ tail).
  { rewrite Hcons.
    apply (@rest_advance_app (advance s (length a))
             (BACKSLASH :: brk ++ ws) (c :: rest')).
    rewrite Hr1. cbn [app]. rewrite <- app_assoc. reflexivity. }
  rewrite (@MultilineBasicString_loop_to_close b _ (acc ++ a) _ tail Hr2 Hb)
    by (rewrite length_app in *; lia).
  rewrite !advance_advance, <- app_assoc.
  f_equal. unfold advance. f_equal. rewrite length_app. lia.
Qed.

(** Ordinary content, a line continuation and, behind its blanks, a
    character of the class of blanks that the skip does not pass. *)
Lemma MultilineBasicString_loop_rejected (a brk ws : jsstring) (c : N)
    (more : jsstring) (fuel : nat) (acc : jsstring) (s : Scanner) :
  rest s = a ++ BACKSLASH :: brk ++ ws ++ c :: more ->
  forallb ordinary a = true ->
  brk = [LF] \/ brk = [CR; LF] ->
  blanks ws = true ->
  invalid_ahead (c :: more) = true ->
  length a + length brk + length ws + 3 <= fuel ->
  MultilineBasicString_loop fuel acc s
  = Throw (TOMLParseError (invalid_whitespace_message (Some c)))
      (advance s (length a + 1 + length brk + length ws)).
Proof.
  intros Hr Ha Hbrk Hws Hbad Hf.
  replace fuel
    with (length a
          + S (length (brk ++ ws)
               + S (S (fuel - length a - length (brk ++ ws) - 3))))
    by (rewrite length_app; lia).
  rewrite (@MultilineBasicString_loop_ordinary a _ acc s _ Hr Ha).
  pose proof (@rest_advance_app _ _ _ Hr) as Hr1.
  rewrite (@MultilineBasicString_loop_invalid_blank brk ws _ (acc ++ a)
             (advance s (length a)) c more Hr1 Hbrk Hws Hbad).
  rewrite !advance_advance. f_equal. unfold advance. f_equal.
  rewrite length_app. lia.
Qed.

(** ** Own properties *)

Lemma jseq_eq (a b : jsstring) : jseq a b = true <-> a = b.
Proof.
  revert b. induction a as [|x a IH]; destruct b as [|y b]; simpl;
    try (split; [discriminate | discriminate]); [tauto | ].
  rewrite andb_true_iff, N.eqb_eq, IH. split.
  - intros [-> ->]. reflexivity.
  - intros E. injection E as -> ->. split; reflexivity.
Qed.

Lemma jseq_refl (a : jsstring) : jseq a a = true.
Proof. apply jseq_eq. reflexivity. Qed.

Lemma get_set_same (props : properties) (key : jsstring) (v : value) :
  get (set props key v) key = v.
Proof.
  induction props as [|[k w] rest IH]; simpl.
  - rewrite jseq_refl. reflexivity.
  - destruct (jseq k key) eqn:E; simpl; rewrite E; [reflexivity | exact IH].
Qed.

Lemma get_set_other (props : properties) (key other : jsstring) (v : value) :
  jseq key other = false ->
  get (set props key v) other = get props other.
Proof.
  intros Hne. induction props as [|[k w] rest IH]; simpl.
  - rewrite Hne. reflexivity.
  - destruct (jseq k key) eqn:E; simpl.
    + apply jseq_eq in E. subst k. rewrite Hne. reflexivity.
    + rewrite IH. reflexivity.
Qed.

(** ** Properties of the assignment of tables *)

Lemma own_get (props : properties) (k0 : jsstring) :
  own (Obj props) k0 = false -> get props k0 = Undefined.
Proof.
  cbn [own]. induction props as [|[k w] rest IH]; [reflexivity | ].
  cbn [existsb get fst]. intros H. apply orb_false_elim in H.
  destruct H as [Hk H]. rewrite Hk. exact (IH H).
Qed.

(** An own property shadows what the prototype has. *)
Lemma inherited_own (props : properties) (k0 : jsstring) :
  get props k0 <> Undefined -> inherited (Obj props) k0 = None.
Proof.
  intros H. unfold inherited.
  destruct (own (Obj props) k0) eqn:E; [reflexivity | ].
  apply own_get in E. congruence.
Qed.

Lemma plain_key_not_inherited (k : jsstring) :
  plain_key k = true ->
  existsb (jseq k) prototype_names = false
  /\ jseq k (str "__proto__") = false.
Proof.
  unfold plain_key. intros H. apply andb_prop in H. destruct H as [H _].
  apply negb_true_iff in H. split; [exact H | ].
  unfold prototype_names in H. cbn [map existsb] in H.
  apply orb_false_elim in H. apply H.
Qed.

(** A plain key reads nothing from the prototype. *)
Lemma inherited_plain (target : value) (k0 : jsstring) :
  plain_key k0 = true -> inherited target k0 = None.
Proof.
  intros H. destruct (@plain_key_not_inherited k0 H) as [Hn Hp].
  unfold inherited. rewrite Hp, Hn. destruct (own target k0); reflexivity.
Qed.



Lemma unflat_from_last_nest (reversed : list jsstring) (values inner : value) :
  falsy inner = false ->
  forallb plain_key reversed = true ->
  unflat_from_last reversed values inner = nest (rev reversed) inner.
Proof.
  revert inner. induction reversed as [|k l IH]; intros inner H Hk.
  - reflexivity.
  - cbn [forallb] in Hk. apply andb_prop in Hk. destruct Hk as [Hk Hl].
    destruct (@plain_key_not_inherited k Hk) as [_ Hp].
    cbn [unflat_from_last rev]. rewrite H, Hp, IH by (reflexivity || exact Hl).
    unfold nest. rewrite fold_right_app. reflexivity.
Qed.

(** [Utils.unflat(keys, v)] builds the chain of one-member objects of a
    dotted key, around [v] or, for an undefined [v], around the default
    empty object. *)
Lemma unflat_nest (keys : list jsstring) (v : value) :
  keys <> [] ->
  forallb plain_key keys = true ->
  unflat keys v Undefined = nest keys (default_values v).
Proof.
  intros H Hk. unfold unflat.
  destruct (exists_last H) as (init & k & ->).
  rewrite forallb_app in Hk. apply andb_prop in Hk. destruct Hk as [Hi Hk].
  cbn [forallb] in Hk. rewrite andb_true_r in Hk.
  destruct (@plain_key_not_inherited k Hk) as [_ Hp].
  rewrite rev_app_distr. cbn [rev app unflat_from_last falsy].
  rewrite Hp.
  rewrite unflat_from_last_nest.
  - rewrite rev_involutive. unfold nest. rewrite fold_right_app. reflexivity.
  - reflexivity.
  - rewrite forallb_forall in Hi |- *. intros x Hx. apply Hi.
    apply in_rev. exact Hx.
Qed.

Lemma Object_assign_nest (props : properties) (k0 : jsstring)
    (rest : list jsstring) (v : value) :
  forallb plain_key (k0 :: rest) = true ->
  Object_assign (Obj props) (unflat (k0 :: rest) v Undefined)
  = Obj (set props k0 (nest rest (default_values v))).
Proof.
  intros Hk. rewrite unflat_nest by (discriminate || exact Hk). reflexivity.
Qed.

(** A header whose first segment names no member of the target: the chain
    of the whole key is added, around the value for a table and around a
    one-element sequence of it for a table array. *)
Lemma deepAssignWithTable_fresh (props : properties) (k0 : jsstring)
    (rest : list jsstring) (type : BlockType) (v : value) :
  forallb plain_key (k0 :: rest) = true ->
  get props k0 = Undefined ->
  deepAssignWithTable (Obj props) type (k0 :: rest) v
  = inr (Obj (set props k0
                (nest rest (if is_Table type then default_values v
                            else Arr [v])))).
Proof.
  intros Hk Hget. pose proof Hk as Hk0. cbn [forallb] in Hk0.
  apply andb_prop in Hk0. destruct Hk0 as [Hk0 _].
  cbn [deepAssignWithTable]. rewrite (@inherited_plain (Obj props) k0 Hk0).
  cbn [property]. rewrite Hget.
  rewrite (@Object_assign_nest props k0 rest _ Hk).
  destruct type; reflexivity.
Qed.

(** ** The claims *)

(** C7: parse terminates on every input string.  Every loop and every
    recursive call of the parser consumes fuel, no repetition continues
    without consuming a character, and fuel that exceeds the length of the
    input by two is enough: the driver then returns or throws, and what it
    does no longer depends on the fuel. *)
Theorem parse_terminates (tomlString : jsstring) (fuel : nat) :
  length tomlString + 2 <= fuel ->
  ParserFactory (Toml fuel) tomlString <> Diverges
  /\ ParserFactory (Toml fuel) tomlString = parse tomlString.
Proof.
  intros Hf.
  assert (He : ParserFactory (Toml fuel) tomlString = parse tomlString).
  { unfold parse, ParserFactory.
    rewrite (@Toml_mono (enough_fuel tomlString) fuel Hf
               (newScanner tomlString)); [reflexivity | ].
    apply Toml_terminates. unfold enough_fuel. lia. }
  split; [ | exact He].
  rewrite He. apply parse_never_diverges.
Qed.

(** C9: parse throws only TOMLParseError.  Whatever the parser under the
    driver throws, the driver throws a TOMLParseError; parse returns or
    throws one on every input; the range error of an escape whose digits
    are not hexadecimal and a thrown value that is not an error both come
    out as one positioned TOMLParseError. *)
Theorem parse_throws_only_TOMLParseError :
  (forall (A : Type) (parser : Parser A) (tomlString : jsstring),
      match ParserFactory parser tomlString with
      | Throws e => exists message, e = TOMLParseError message
      | _ => True
      end)
  /\ (forall tomlString : jsstring,
         match parse tomlString with
         | Returns _ => True
         | Throws e => exists message, e = TOMLParseError message
         | Diverges => False
         end)
  /\ EscapeSequence (mkScanner bad_unicode_escape 5)
     = Throw (RangeError (str "Invalid code point NaN"))
         (mkScanner bad_unicode_escape 6)
  /\ parse bad_unicode_escape
     = Throws (TOMLParseError
                 (str "Parse error on line 1, column 6: Invalid code point NaN"))
  /\ ParserFactory (A := value) (throw NonError) (str "a")
     = Throws (TOMLParseError
                 (str "Parse error on line 1, column 0: [non-error thrown]")).
Proof.
  assert (Hall : forall (A : Type) (parser : Parser A) (tomlString : jsstring),
             match ParserFactory parser tomlString with
             | Throws e => exists message, e = TOMLParseError message
             | _ => True
             end).
  { intros A parser tomlString. unfold ParserFactory, parse_error.
    destruct (parser (newScanner tomlString)) as [[body|] s|e s|];
      try exact I; try (eexists; reflexivity).
    destruct (eof s); [exact I | eexists; reflexivity]. }
  split; [exact Hall | ].
  split.
  { intros tomlString. pose proof (parse_never_diverges tomlString).
    specialize (Hall value (Toml (enough_fuel tomlString)) tomlString).
    fold (parse tomlString) in Hall.
    destruct (parse tomlString); [exact I | exact Hall | congruence]. }
  repeat split; vm_compute; reflexivity.
Qed.

(** C2, amended: for every input string parse either returns the complete
    value tree, exactly when the top-level grammar matched and the scanner
    is at the end of the input, or throws a parse error whose message
    carries the line, counted from one, and the column, the number of
    characters after the last line break (counted from zero), of the final
    scanner position: with the message of the error the parser threw, or
    with the unexpected character when the grammar did not match or stopped
    before the end of the input. *)
Theorem parse_returns_or_throws (tomlString : jsstring) :
  match Toml (enough_fuel tomlString) (newScanner tomlString) with
  | Ret (success body) s =>
      if eof s then parse tomlString = Returns body
      else parse tomlString
           = Throws (TOMLParseError
                       (positioned (firstn (position s) tomlString)
                          (unexpected_character s)))
  | Ret failure s =>
      parse tomlString
      = Throws (TOMLParseError
                  (positioned (firstn (position s) tomlString)
                     (unexpected_character s)))
  | Throw e s =>
      parse tomlString
      = Throws (TOMLParseError
                  (positioned (firstn (position s) tomlString)
                     (exn_message (caught e))))
  | Diverge => False
  end.
Proof.
  pose proof (@Toml_terminates tomlString (enough_fuel tomlString)
                (Nat.le_refl _)) as Ht.
  unfold parse, ParserFactory.
  destruct (Toml (enough_fuel tomlString) (newScanner tomlString))
    as [[body|] s|e s|]; [ | | | congruence].
  - destruct (eof s); [reflexivity | ].
    rewrite parse_error_positioned. reflexivity.
  - rewrite parse_error_positioned. reflexivity.
  - rewrite parse_error_positioned. reflexivity.
Qed.

(** C4, amended: every parser function either returns Matched with the
    cursor moved forward, or returns NotMatched with the cursor at or after
    the place where it was when the parser was invoked (blanks that were
    skipped and characters that a recognizer scanned before it gave up stay
    consumed), or throws; the source is never changed. *)
Theorem parser_contracts (fuel : nat) :
  (forall (c : N) (literal : jsstring),
      parser_contract (character fuel (c :: literal)))
  /\ parser_contract (BareKey fuel)
  /\ parser_contract EscapeSequence
  /\ parser_contract (BasicString fuel)
  /\ parser_contract (LiteralString fuel)
  /\ parser_contract (MultilineBasicString fuel)
  /\ parser_contract (MultilineLiteralString fuel)
  /\ parser_contract (Symbols fuel)
  /\ parser_contract (DottedKey fuel)
  /\ parser_contract (Integer fuel)
  /\ parser_contract (Float fuel)
  /\ parser_contract (DateTime fuel)
  /\ parser_contract (LocalTime fuel)
  /\ parser_contract (ArrayValue fuel)
  /\ parser_contract (InlineTable fuel)
  /\ parser_contract (Value fuel)
  /\ parser_contract (Pair fuel)
  /\ parser_contract (Block fuel)
  /\ parser_contract (TableHeader fuel)
  /\ parser_contract (Table fuel)
  /\ parser_contract (TableArrayHeader fuel)
  /\ parser_contract (TableArray fuel)
  /\ parser_contract (Toml fuel).
Proof.
  repeat split.
  - intros c literal. eapply contract_of_sound, character_matched.
    simpl. lia.
  - eapply contract_of_sound, BareKey_sound.
  - eapply contract_of_sound, (EscapeSequence_sound 0 1).
  - eapply contract_of_sound, BasicString_sound.
  - eapply contract_of_sound, LiteralString_sound.
  - eapply contract_of_sound, MultilineBasicString_sound.
  - eapply contract_of_sound, MultilineLiteralString_sound.
  - eapply contract_of_sound, Symbols_sound.
  - eapply contract_of_sound, DottedKey_sound.
  - eapply contract_of_sound, Integer_sound.
  - eapply contract_of_sound, Float_sound.
  - eapply contract_of_sound, DateTime_sound.
  - eapply contract_of_sound, LocalTime_sound.
  - eapply contract_of_sound, ArrayValue_sound.
  - eapply contract_of_sound, InlineTable_sound.
  - eapply contract_of_sound, Value_sound.
  - eapply contract_of_sound, Pair_sound.
  - eapply contract_of_sound, Block_sound.
  - eapply contract_of_sound, TableHeader_sound.
  - eapply contract_of_sound, Table_sound.
  - eapply contract_of_sound, TableArrayHeader_sound.
  - eapply contract_of_sound, TableArray_sound.
  - eapply contract_of_sound, Toml_sound.
Qed.

(** C8: after the full skip of blanks and comments, InlineTable looks only
    at the character at offset one: when it is a closing brace InlineTable
    consumes two characters and matches with an empty mapping, whatever the
    current character is; parsing the text [a = x}] returns the mapping of
    [a] to an empty mapping. *)
Theorem InlineTable_empty_fast_path (fuel : nat) (s s' : Scanner) :
  nextUntilChar fuel opt_default s = Ret tt s' ->
  char s' 1 = Some 125%N ->
  InlineTable fuel s = Ret (success (Obj [])) (advance s' 2)
  /\ parse (str "a = x}") = Returns (Obj [(str "a", Obj [])]).
Proof.
  intros Hskip Hc. split.
  - unfold InlineTable, InlineTable_of. reduce.
    rewrite Hskip. cbv beta iota. rewrite Hc. reflexivity.
  - vm_compute. reflexivity.
Qed.


(** C10: the check for invalid blanks follows the inline skip as it
    follows the full one: after the spaces and tabs are skipped, a current
    character of the class of blanks that is no line break makes
    nextUntilChar throw the error that names it, as it does for a vertical
    tab and for a carriage return that no line feed follows. *)
Theorem nextUntilChar_inline_checks_whitespace (fuel : nat) (s s' : Scanner)
    (c : N) :
  skip_inline fuel s = Ret tt s' ->
  char s' 0 = Some c ->
  is_space c = true ->
  isCurrentCharEOL s' = false ->
  nextUntilChar fuel opt_inline s
  = Throw (TOMLParseError
             (str "Contains invalid whitespaces: `\u" ++ hexadecimal c
              ++ str "`")) s'
  /\ nextUntilChar 3 opt_inline (newScanner (SPACE :: VT :: str "x"))
     = Throw (TOMLParseError (str "Contains invalid whitespaces: `\ub`"))
         (mkScanner (SPACE :: VT :: str "x") 1)
  /\ nextUntilChar 3 opt_inline (newScanner (CR :: str "x"))
     = Throw (TOMLParseError (str "Contains invalid whitespaces: `\ud`"))
         (mkScanner (CR :: str "x") 0).
Proof.
  intros Hskip Hc Hsp Heol. split; [ | split; vm_compute; reflexivity].
  unfold nextUntilChar. reduce. change (inline opt_inline) with true.
  cbv iota. rewrite Hskip. cbv beta iota. rewrite Heol, Hc.
  cbn [test negb andb]. rewrite Hsp, Hc. reflexivity.
Qed.

(** C6: when the full skip stops on a character of the class of blanks
    that is no line break, nextUntilChar throws a structural error whose
    message names the code point in escaped form, and the parse of an input
    that starts this way fails with that message, as does the parse of a
    text with a vertical tab between two pairs. *)
Theorem nextUntilChar_full_rejects_whitespace (tomlString : jsstring)
    (s' : Scanner) (c : N) :
  skip_full (enough_fuel tomlString) true (newScanner tomlString) = Ret tt s' ->
  char s' 0 = Some c ->
  is_space c = true ->
  isCurrentCharEOL s' = false ->
  nextUntilChar (enough_fuel tomlString) opt_default (newScanner tomlString)
  = Throw (TOMLParseError
             (str "Contains invalid whitespaces: `\u" ++ hexadecimal c
              ++ str "`")) s'
  /\ parse tomlString
     = Throws (TOMLParseError
                 (positioned (firstn (position s') tomlString)
                    (str "Contains invalid whitespaces: `\u" ++ hexadecimal c
                     ++ str "`")))
  /\ parse (str "a = 1" ++ [LF; VT] ++ str "b = 2")
     = Throws (TOMLParseError
                 (str "Parse error on line 2, column 0: Contains invalid whitespaces: `\ub`")).
Proof.
  intros Hskip Hc Hsp Heol.
  assert (Hn : nextUntilChar (enough_fuel tomlString) opt_default
                 (newScanner tomlString)
               = Throw (TOMLParseError
                          (str "Contains invalid whitespaces: `\u"
                           ++ hexadecimal c ++ str "`")) s').
  { unfold nextUntilChar. reduce. change (inline opt_default) with false.
    change (comment opt_default) with true. cbv iota.
    rewrite Hskip. cbv beta iota. rewrite Heol, Hc.
    cbn [test negb andb]. rewrite Hsp, Hc. reflexivity. }
  split; [exact Hn | ].
  split; [ | vm_compute; reflexivity].
  assert (Hne : eof (newScanner tomlString) = false).
  { destruct tomlString as [|c0 rest]; [ | reflexivity].
    vm_compute in Hskip. injection Hskip as <-. discriminate. }
  unfold parse, ParserFactory, Toml, repeat. reduce.
  unfold enough_fuel at 1. rewrite Nat.add_comm. cbn [Nat.add repeat_loop].
  reduce. rewrite Hne. cbn [or]. reduce. unfold Block at 1. reduce.
  replace (S (S (length tomlString))) with (enough_fuel tomlString)
    by (unfold enough_fuel; lia).
  rewrite Hn. rewrite parse_error_positioned. reflexivity.
Qed.

(** C5, amended: in a multi-line basic string a newline (a line feed, or a
    carriage return and a line feed) right after the opening delimiter is
    trimmed; a backslash right before a line break (a line feed, or a
    carriage return and a line feed) makes the parser skip the line break
    and the spaces, tabs and line breaks after it, but no comment: the string
    goes on with the next character, a number sign included, unless that
    character is another blank of the class [\s] (a form feed, say, or a
    carriage return without a line feed), on which the parser throws the
    error of invalid whitespaces; a fourth quote right after the content is
    taken into the string before the three closing quotes are consumed, and
    only one is.  The two strings of the specification parse to [a], a line
    feed, [b] and to [ab]; a number sign after a line continuation stays in
    the string. *)
Theorem MultilineBasicString_content (fuel : nat)
    (a b brk ws tail more : jsstring) :
  forallb ordinary a = true ->
  forallb ordinary b = true ->
  brk = [LF] \/ brk = [CR; LF] ->
  blanks ws = true ->
  space_ahead b = false ->
  quote_ahead tail = false ->
  length a + length brk + length ws + length b + 4 <= fuel ->
  (let src := three DQUOTE ++ LF :: a ++ three DQUOTE ++ tail in
   MultilineBasicString fuel (newScanner src)
   = Ret (success a) (mkScanner src (7 + length a)))
  /\ (let src := three DQUOTE ++ CR :: LF :: a ++ three DQUOTE ++ tail in
      MultilineBasicString fuel (newScanner src)
      = Ret (success a) (mkScanner src (8 + length a)))
  /\ (let src := three DQUOTE ++ LF :: a ++ BACKSLASH :: brk ++ ws ++ b
                 ++ three DQUOTE ++ tail in
      MultilineBasicString fuel (newScanner src)
      = Ret (success (a ++ b))
          (mkScanner src
             (8 + length a + length brk + length ws + length b)))
  /\ (forall c : N,
        invalid_ahead (c :: more) = true ->
        let src := three DQUOTE ++ LF :: a ++ BACKSLASH :: brk ++ ws
                   ++ c :: more in
        MultilineBasicString fuel (newScanner src)
        = Throw (TOMLParseError (invalid_whitespace_message (Some c)))
            (mkScanner src (5 + length a + length brk + length ws)))
  /\ (let src := three DQUOTE ++ LF :: a ++ three DQUOTE ++ DQUOTE :: more in
      MultilineBasicString fuel (newScanner src)
      = Ret (success (a ++ [DQUOTE])) (mkScanner src (8 + length a)))
  /\ MultilineBasicString 8 (newScanner multiline_two_lines)
     = Ret (success (str "a" ++ LF :: str "b"))
         (mkScanner multiline_two_lines 9)
  /\ MultilineBasicString 8 (newScanner multiline_continuation)
     = Ret (success (str "ab")) (mkScanner multiline_continuation 10)
  /\ MultilineBasicString 12 (newScanner multiline_continuation_comment)
     = Ret (success (str "a#c" ++ LF :: str "b"))
         (mkScanner multiline_continuation_comment 15)
  /\ MultilineBasicString 12 (newScanner multiline_continuation_crlf)
     = Ret (success (str "ab")) (mkScanner multiline_continuation_crlf 15)
  /\ MultilineBasicString 12 (newScanner multiline_continuation_form_feed)
     = Throw (TOMLParseError (str "Contains invalid whitespaces: `\uc`"))
         (mkScanner multiline_continuation_form_feed 6).
Proof.
  intros Ha Hb Hbrk Hws Hsp Hq Hf.
  destruct fuel as [|f]; [lia | ].
  split; [ | split; [ | split; [ | split; [ | split;
    [ | repeat split; vm_compute; reflexivity]]]]].
  - intros src.
    pose proof (@MultilineBasicString_frame f (newScanner src) [LF]
                  (a ++ three DQUOTE ++ tail) tail a (4 + length a)) as H.
    rewrite Hq in H.
    replace (mkScanner src (7 + length a))
      with (advance (newScanner src) (4 + length a + 3))
      by (unfold advance, newScanner; simpl; f_equal; lia).
    apply H.
    + reflexivity.
    + left. reflexivity.
    + rewrite (@MultilineBasicString_loop_to_close a (S f) []
                 (advance (newScanner src) (3 + length [LF])) tail).
      * rewrite advance_advance. reflexivity.
      * rewrite rest_advance. reflexivity.
      * assumption.
      * lia.
    + rewrite rest_advance. unfold src.
      change (rest (newScanner (three DQUOTE ++ LF :: a ++ three DQUOTE ++ tail)))
        with ([DQUOTE; DQUOTE; DQUOTE; LF] ++ a ++ three DQUOTE ++ tail).
      rewrite skipn_app, skipn_all2 by (simpl; lia).
      simpl length.
      replace (4 + length a - 4) with (length a) by lia.
      rewrite skipn_app, skipn_all, Nat.sub_diag. reflexivity.
  - intros src.
    pose proof (@MultilineBasicString_frame f (newScanner src) [CR; LF]
                  (a ++ three DQUOTE ++ tail) tail a (5 + length a)) as H.
    rewrite Hq in H.
    replace (mkScanner src (8 + length a))
      with (advance (newScanner src) (5 + length a + 3))
      by (unfold advance, newScanner; simpl; f_equal; lia).
    apply H.
    + reflexivity.
    + right. reflexivity.
    + rewrite (@MultilineBasicString_loop_to_close a (S f) []
                 (advance (newScanner src) (3 + length [CR; LF])) tail).
      * rewrite advance_advance. reflexivity.
      * rewrite rest_advance. reflexivity.
      * assumption.
      * lia.
    + rewrite rest_advance. unfold src.
      change (rest (newScanner
                      (three DQUOTE ++ CR :: LF :: a ++ three DQUOTE ++ tail)))
        with ([DQUOTE; DQUOTE; DQUOTE; CR; LF] ++ a ++ three DQUOTE ++ tail).
      rewrite skipn_app, skipn_all2 by (simpl; lia).
      simpl length.
      replace (5 + length a - 5) with (length a) by lia.
      rewrite skipn_app, skipn_all, Nat.sub_diag. reflexivity.
  - intros src.
    pose proof (@MultilineBasicString_frame f (newScanner src) [LF]
                  (a ++ BACKSLASH :: brk ++ ws ++ b ++ three DQUOTE ++ tail)
                  tail (a ++ b)
                  (4 + (length a + 1 + length brk + length ws + length b)))
      as H.
    rewrite Hq in H.
    replace (mkScanner src (8 + length a + length brk + length ws + length b))
      with (advance (newScanner src)
              (4 + (length a + 1 + length brk + length ws + length b) + 3))
      by (unfold advance, newScanner; simpl; f_equal; lia).
    apply H.
    + reflexivity.
    + left. reflexivity.
    + rewrite (@MultilineBasicString_loop_continued a brk ws b (S f) []
                 (advance (newScanner src) (3 + length [LF])) tail);
        try assumption.
      * rewrite advance_advance. reflexivity.
      * rewrite rest_advance. reflexivity.
      * lia.
    + apply (@rest_after src
               ([DQUOTE; DQUOTE; DQUOTE; LF] ++ a
                ++ BACKSLASH :: brk ++ ws ++ b)).
      * unfold src. simpl. rewrite <- !app_assoc. simpl.
        rewrite <- !app_assoc. reflexivity.
      * rewrite !length_app. simpl. rewrite !length_app. lia.
  - intros c Hbad src.
    replace (mkScanner src (5 + length a + length brk + length ws))
      with (advance (advance (newScanner src) (3 + length [LF]))
              (length a + 1 + length brk + length ws))
      by (unfold advance, newScanner; simpl; f_equal; lia).
    apply (@MultilineBasicString_frame_throw f (newScanner src) _ [LF]
             (a ++ BACKSLASH :: brk ++ ws ++ c :: more)).
    + reflexivity.
    + left. reflexivity.
    + apply (@MultilineBasicString_loop_rejected a brk ws c more (S f) []
               (advance (newScanner src) (3 + length [LF])));
        try assumption.
      * rewrite rest_advance. reflexivity.
      * lia.
  - intros src.
    pose proof (@MultilineBasicString_frame f (newScanner src) [LF]
                  (a ++ three DQUOTE ++ DQUOTE :: more) (DQUOTE :: more) a
                  (4 + length a)) as H.
    change (quote_ahead (DQUOTE :: more)) with true in H.
    replace (mkScanner src (8 + length a))
      with (advance (newScanner src) (4 + length a + 4))
      by (unfold advance, newScanner; simpl; f_equal; lia).
    apply H.
    + reflexivity.
    + left. reflexivity.
    + rewrite (@MultilineBasicString_loop_to_close a (S f) []
                 (advance (newScanner src) (3 + length [LF]))
                 (DQUOTE :: more)).
      * rewrite advance_advance. reflexivity.
      * rewrite rest_advance. reflexivity.
      * assumption.
      * lia.
    + rewrite rest_advance. unfold src.
      change (rest (newScanner
                      (three DQUOTE ++ LF :: a ++ three DQUOTE
                       ++ DQUOTE :: more)))
        with ([DQUOTE; DQUOTE; DQUOTE; LF] ++ a ++ three DQUOTE
              ++ DQUOTE :: more).
      rewrite skipn_app, skipn_all2 by (simpl; lia).
      simpl length.
      replace (4 + length a - 4) with (length a) by lia.
      rewrite skipn_app, skipn_all, Nat.sub_diag. reflexivity.
Qed.

(** C1: the round trip does not hold for a not-a-number value.  The
    serializer prints infinities as [inf] and [-inf] but lets not-a-number
    through as [NaN], which the parser does not accept. *)
Theorem round_trip_fails_on_nan :
  parse (str "a = nan") = Returns (Obj [(str "a", Num NaN)])
  /\ stringify (Obj [(str "a", Num NaN)]) = inr (str "a = NaN" ++ [LF])
  /\ reparse (Obj [(str "a", Num NaN)])
     = Throws (TOMLParseError
                 (str "Parse error on line 1, column 4: Value of key/value pair is invalid data format")).
Proof. repeat split; vm_compute; reflexivity. Qed.

(** ** Further properties of the code *)

(** From here on a proof depends on the host's date constructor only when
    its statement does. *)
Local Set Default Proof Using "Type".

Lemma char_none (s : Scanner) (i : nat) :
  char s i = None <-> length (source s) <= position s + i.
Proof. unfold char. apply nth_error_None. Qed.

Lemma slice_length_exact (s : Scanner) (start stop : nat) :
  length (slice s start stop)
  = Nat.min (stop - start) (length (source s) - (position s + start)).
Proof. unfold slice. rewrite length_firstn, length_skipn. reflexivity. Qed.

(** X1: the scanner never reads outside the source.  [char] is undefined
    exactly at and behind the end, [eof] holds exactly when the current
    character is undefined, [slice] is cut at the end of the source, and at
    the end every slice is empty and the cursor is not on a line break. *)
Theorem Scanner_reads_within_bounds (s : Scanner) (index start stop : nat) :
  (char s index = None <-> length (source s) <= position s + index)
  /\ (eof s = true <-> char s 0 = None)
  /\ length (slice s start stop)
     = Nat.min (stop - start) (length (source s) - (position s + start))
  /\ (eof s = true -> slice s start stop = [] /\ isCurrentCharEOL s = false).
Proof.
  split; [apply char_none | ].
  split.
  { rewrite char_none, Nat.add_0_r. unfold eof. apply Nat.leb_le. }
  split; [apply slice_length_exact | ].
  intros H. apply eof_true in H.
  assert (E : forall a b, slice s a b = []).
  { intros a b. apply length_zero_iff_nil. rewrite slice_length_exact. lia. }
  split; [apply E | ].
  unfold isCurrentCharEOL. rewrite E.
  assert (C : char s 0 = None) by (apply char_none; lia).
  rewrite C. reflexivity.
Qed.

Lemma skip_comment_source (fuel : nat) (s s' : Scanner) :
  skip_comment fuel s = Ret tt s' -> source s' = source s.
Proof.
  revert s. induction fuel as [|f IH]; intros s; simpl; [discriminate | ].
  reduce. destruct (negb (isCurrentCharEOL s) && negb (eof s))%bool.
  - intros H. apply IH in H. exact H.
  - intros H. injection H as <-. reflexivity.
Qed.

Lemma skip_full_stops (fuel : nat) (with_comment : bool) (s s' : Scanner) :
  skip_full fuel with_comment s = Ret tt s' ->
  source s' = source s
  /\ (eof s' = true
      \/ (test whitespace (char s' 0) = false
          /\ isCurrentCharEOL s' = false
          /\ (with_comment && is_char HASH (char s' 0))%bool = false)).
Proof.
  revert s. induction fuel as [|f IH]; intros s; simpl; [discriminate | ].
  reduce. destruct (eof s) eqn:He.
  - intros H. injection H as <-. split; [reflexivity | left; exact He].
  - destruct (test whitespace (char s 0) || isCurrentCharEOL s)%bool eqn:Hb.
    + intros H. apply IH in H. exact H.
    + destruct (with_comment && is_char HASH (char s 0))%bool eqn:Hh.
      * destruct (skip_comment f s) as [[] s1| |] eqn:Hc; try discriminate.
        intros H. apply IH in H. apply skip_comment_source in Hc.
        destruct H as [Hs H]. split; [congruence | exact H].
      * intros H. injection H as <-. split; [reflexivity | right].
        apply orb_false_elim in Hb. destruct Hb as [Hw Heol].
        split; [exact Hw | split; [exact Heol | exact Hh]].
Qed.

(** X2: when the default skip ([nextUntilChar] without options: full mode,
    comments skipped) returns, the source is unchanged and the cursor is at
    the end of the input or on a character that is neither white space, nor a
    line break, nor the [#] that opens a comment. *)
Theorem nextUntilChar_stops_on_content (fuel : nat) (s s' : Scanner) :
  nextUntilChar fuel opt_default s = Ret tt s' ->
  source s' = source s
  /\ (eof s' = true
      \/ exists c, char s' 0 = Some c /\ is_space c = false /\ c <> HASH).
Proof.
  unfold nextUntilChar. reduce. change (inline opt_default) with false.
  change (comment opt_default) with true. cbv iota.
  destruct (skip_full fuel true s) as [[] s1| |] eqn:Hs; try discriminate.
  destruct (negb (isCurrentCharEOL s1) && test is_space (char s1 0))%bool
    eqn:Hbad; [discriminate | ].
  intros H. injection H as <-.
  apply skip_full_stops in Hs. destruct Hs as [Hsrc [He | (Hw & Heol & Hh)]].
  - split; [exact Hsrc | left; exact He].
  - split; [exact Hsrc | ].
    destruct (eof s1) eqn:He; [left; reflexivity | right].
    apply eof_false in He.
    destruct (char s1 0) as [c|] eqn:Hc.
    + exists c. split; [reflexivity | ]. rewrite Heol in Hbad. simpl in Hbad.
      split; [exact Hbad | ].
      intros ->. simpl in Hh. discriminate.
    + apply char_none in Hc. lia.
Qed.

Lemma lookup_nest (keys : list jsstring) (v : value) :
  lookup (nest keys v) keys = v.
Proof.
  unfold lookup. induction keys as [|k l IH]; simpl; [reflexivity | ].
  rewrite jseq_refl. exact IH.
Qed.

(** X3: for a non-empty dotted key [k1.k2...kn] of plain keys,
    [Utils.unflat(keys, v)] is the chain of one-member objects
    [{k1: {k2: ... {kn: v}}}] around [v], also around a falsy [v] such as
    [false], zero or the empty string; an undefined [v] is replaced by the
    default value of the parameter, an empty object.  Reading the members
    [k1], ..., [kn] in turn gives the innermost value back. *)
Theorem unflat_builds_nested_mapping (keys : list jsstring) (v : value) :
  keys <> [] ->
  forallb plain_key keys = true ->
  unflat keys v Undefined = nest keys (default_values v)
  /\ lookup (unflat keys v Undefined) keys = default_values v
  /\ unflat keys Undefined Undefined = nest keys (Obj [])
  /\ (v <> Undefined -> lookup (unflat keys v Undefined) keys = v).
Proof.
  intros H Hk. rewrite (@unflat_nest keys v H Hk).
  split; [reflexivity | ]. split; [apply lookup_nest | ].
  split; [exact (@unflat_nest keys Undefined H Hk) | ].
  intros Hv. rewrite lookup_nest. destruct v; try reflexivity. congruence.
Qed.

(** X4: [Utils.deepAssignWithTable] on a target that has no member under the
    first key of the header: the call succeeds and the target gains the
    nested chain of the whole key.  For a [[table]] header the chain ends in
    the value of the table, or in an empty object when that value is
    undefined; for a [[[table array]]] header it ends in a one-element array
    of the value.  Reading the key path gives that entry and every other
    member keeps its value. *)
Theorem deepAssignWithTable_fresh_key (props : properties) (k0 : jsstring)
    (rest : list jsstring) (type : BlockType) (v : value) :
  forallb plain_key (k0 :: rest) = true ->
  get props k0 = Undefined ->
  let entry := if is_Table type then default_values v else Arr [v] in
  deepAssignWithTable (Obj props) type (k0 :: rest) v
  = inr (Obj (set props k0 (nest rest entry)))
  /\ lookup (Obj (set props k0 (nest rest entry))) (k0 :: rest) = entry
  /\ (forall other, jseq k0 other = false ->
        get (set props k0 (nest rest entry)) other = get props other).
Proof.
  intros Hk Hget entry. split; [ | split].
  - exact (@deepAssignWithTable_fresh props k0 rest type v Hk Hget).
  - unfold lookup. cbn [fold_left property]. rewrite get_set_same.
    apply lookup_nest.
  - intros other Hne. apply get_set_other. exact Hne.
Qed.

(** X5: whenever [Utils.deepAssignWithTable] succeeds on an object, the
    result is an object again and only the member under the first key of the
    header can have changed: every member with another name has the value it
    had before, whichever of the four branches was taken. *)
Theorem deepAssignWithTable_keeps_other_keys (props : properties)
    (type : BlockType) (k0 : jsstring) (rest : list jsstring) (v : value)
    (target' : value) :
  forallb plain_key (k0 :: rest) = true ->
  deepAssignWithTable (Obj props) type (k0 :: rest) v = inr target' ->
  exists props',
    target' = Obj props'
    /\ forall other, jseq k0 other = false -> get props' other = get props other.
Proof.
  intros Hk. pose proof Hk as Hk0. cbn [forallb] in Hk0.
  apply andb_prop in Hk0. destruct Hk0 as [Hk0 _].
  cbn [deepAssignWithTable]. rewrite (@inherited_plain (Obj props) k0 Hk0).
  cbn [property].
  destruct (get props k0) as [ | s | n | b | d | items | sub | ] eqn:Hget;
    try discriminate.
  - rewrite (@Object_assign_nest props k0 rest _ Hk). intros H.
    injection H as <-.
    eexists. split; [reflexivity | ].
    intros other Hne. apply get_set_other. exact Hne.
  - destruct (deepAssignWithTable (DateV d) type rest v); [discriminate | ].
    intros H. injection H as <-. eexists. split; [reflexivity | ].
    intros other Hne. apply get_set_other. exact Hne.
  - destruct (is_TableArray type && Nat.eqb (length (k0 :: rest)) 1)%bool.
    + intros H. injection H as <-. eexists. split; [reflexivity | ].
      intros other Hne. apply get_set_other. exact Hne.
    + destruct (deepAssignWithTable (last_item items) type rest v);
        [discriminate | ].
      intros H. injection H as <-. eexists. split; [reflexivity | ].
      intros other Hne. apply get_set_other. exact Hne.
  - destruct (deepAssignWithTable (Obj sub) type rest v); [discriminate | ].
    intros H. injection H as <-. eexists. split; [reflexivity | ].
    intros other Hne. apply get_set_other. exact Hne.
Qed.

Lemma whitespace_is_space (c : N) : is_space c = false -> whitespace c = false.
Proof.
  unfold is_space, whitespace, between, SPACE, TAB.
  destruct (N.eqb_spec c 32) as [->|]; [discriminate | ].
  destruct (N.eqb_spec c 9) as [->|]; [discriminate | reflexivity].
Qed.

(** The inline skip runs over spaces and tabs. *)
Lemma skip_inline_blanks (ws : jsstring) (fuel : nat) (s : Scanner)
    (tail : jsstring) :
  rest s = ws ++ tail ->
  forallb whitespace ws = true ->
  skip_inline (length ws + fuel) s = skip_inline fuel (advance s (length ws)).
Proof.
  revert s. induction ws as [|c ws IH]; intros s Hr Hb.
  - simpl. rewrite advance_zero. reflexivity.
  - simpl in Hr, Hb. apply andb_prop in Hb. destruct Hb as [Hc Hb].
    assert (Hch : char s 0 = Some c) by (rewrite char_rest, Hr; reflexivity).
    simpl length. simpl Nat.add. cbn [skip_inline]. reduce.
    rewrite Hch, (@eof_rest s _ _ Hr). cbn [test]. rewrite Hc. cbn [andb negb].
    cbv iota.
    rewrite (IH (advance s 1) (@rest_advance_cons s _ _ Hr) Hb).
    rewrite advance_advance. reflexivity.
Qed.

(** Spaces and tabs in front of a character that is no blank. *)
Lemma nextUntilChar_inline_run (ws : jsstring) (fuel : nat) (s : Scanner)
    (c : N) (tail : jsstring) :
  rest s = ws ++ c :: tail ->
  forallb whitespace ws = true ->
  is_space c = false ->
  length ws < fuel ->
  nextUntilChar fuel opt_inline s = Ret tt (advance s (length ws)).
Proof.
  intros Hr Hb Hc Hf.
  replace fuel with (length ws + S (fuel - length ws - 1)) by lia.
  assert (Hstay := @nextUntilChar_stays (fuel - length ws - 1) opt_inline
                     (advance s (length ws)) c tail
                     (@rest_advance_app s ws (c :: tail) Hr) Hc eq_refl).
  unfold nextUntilChar in *. change (inline opt_inline) with true in *.
  cbv iota in *.
  unfold bind at 1. unfold bind at 1 in Hstay.
  rewrite (@skip_inline_blanks ws _ s _ Hr Hb). exact Hstay.
Qed.

Lemma BareKey_loop_run (key : jsstring) (fuel : nat) (acc : jsstring)
    (s : Scanner) (tail : jsstring) :
  rest s = key ++ tail ->
  forallb BARE_KEY key = true ->
  test BARE_KEY (hd_error tail) = false ->
  length key < fuel ->
  BareKey_loop fuel acc s = Ret (acc ++ key) (advance s (length key)).
Proof.
  revert fuel acc s. induction key as [|c key IH]; intros fuel acc s Hr Hb Ht Hf.
  - destruct fuel as [|f]; [simpl in Hf; lia | ]. simpl in Hr.
    cbn [BareKey_loop]. reduce. rewrite char_rest, Hr.
    destruct tail as [|d tail]; cbn [nth_error].
    + rewrite advance_zero, app_nil_r. reflexivity.
    + cbn [hd_error test] in Ht. rewrite Ht, advance_zero, app_nil_r.
      reflexivity.
  - destruct fuel as [|f]; [simpl in Hf; lia | ]. simpl in Hr, Hb, Hf.
    apply andb_prop in Hb. destruct Hb as [Hc Hb].
    cbn [BareKey_loop]. reduce. rewrite char_rest, Hr. cbn [nth_error].
    rewrite Hc.
    rewrite (IH f (acc ++ [c]) (advance s 1) (@rest_advance_cons s _ _ Hr) Hb Ht)
      by lia.
    rewrite advance_advance, <- app_assoc. reflexivity.
Qed.

Lemma BARE_KEY_range (c : N) : BARE_KEY c = true -> (45 <= c <= 122)%N.
Proof.
  unfold BARE_KEY, is_upper, is_lower, is_digit, between. intros H.
  rewrite ?orb_true_iff, ?andb_true_iff, ?N.leb_le, ?N.eqb_eq in H. lia.
Qed.

Lemma is_space_range (c : N) : is_space c = true -> (c <= 32 \/ 160 <= c)%N.
Proof.
  unfold is_space, between. intros H.
  rewrite ?orb_true_iff, ?andb_true_iff, ?N.leb_le, ?N.eqb_eq in H. lia.
Qed.

Lemma BARE_KEY_not_space (c : N) : BARE_KEY c = true -> is_space c = false.
Proof.
  intros H. apply BARE_KEY_range in H.
  destruct (is_space c) eqn:E; [ | reflexivity].
  apply is_space_range in E. lia.
Qed.

Lemma BareKey_reads (ws key : jsstring) (fuel : nat) (s : Scanner)
    (tail : jsstring) :
  rest s = ws ++ key ++ tail ->
  forallb whitespace ws = true ->
  key <> [] ->
  forallb BARE_KEY key = true ->
  test BARE_KEY (hd_error tail) = false ->
  length ws + length key < fuel ->
  BareKey fuel s = Ret (success key) (advance s (length ws + length key)).
Proof.
  intros Hr Hw Hne Hb Ht Hf.
  destruct key as [|c key]; [congruence | ].
  pose proof Hb as Hb'. simpl in Hb'. apply andb_prop in Hb'.
  destruct Hb' as [Hc _].
  unfold BareKey. unfold bind at 1.
  rewrite (@nextUntilChar_inline_run ws fuel s c (key ++ tail) Hr Hw
             (@BARE_KEY_not_space c Hc)) by lia.
  pose proof (@rest_advance_app s ws _ Hr) as Hr1.
  reduce. rewrite char_rest, Hr1. cbn [app nth_error test]. rewrite Hc.
  rewrite (@BareKey_loop_run (c :: key) fuel [] _ tail Hr1 Hb Ht) by lia.
  rewrite advance_advance. reflexivity.
Qed.

(** X6: [BareKey] skips the blanks and tabs before a key and reads the
    longest run of bare-key characters: when that run is not empty and is
    followed by the end of the input or by another character, the key is the
    whole run and the cursor is right behind it. *)
Theorem BareKey_reads_longest_run (ws key : jsstring) (fuel : nat)
    (s : Scanner) (tail : jsstring) :
  rest s = ws ++ key ++ tail ->
  forallb whitespace ws = true ->
  key <> [] ->
  forallb BARE_KEY key = true ->
  test BARE_KEY (hd_error tail) = false ->
  length ws + length key < fuel ->
  BareKey fuel s = Ret (success key) (advance s (length ws + length key)).
Proof. apply BareKey_reads. Qed.

(** No bare key in front of a character that is neither a blank nor a
    bare-key character. *)
Lemma BareKey_fails (fuel : nat) (s : Scanner) (c : N) (tail : jsstring) :
  rest s = c :: tail ->
  is_space c = false ->
  BARE_KEY c = false ->
  BareKey (S fuel) s = Ret failure s.
Proof.
  intros Hr Hs Hb. unfold BareKey. unfold bind at 1.
  rewrite (@nextUntilChar_stays fuel opt_inline s c tail Hr Hs eq_refl).
  reduce. rewrite char_rest, Hr. cbn [nth_error test]. rewrite Hb.
  reflexivity.
Qed.

Lemma LiteralString_loop_run (body : jsstring) (fuel : nat) (acc : jsstring)
    (s : Scanner) (tail : jsstring) :
  rest s = body ++ tail ->
  forallb literal_char body = true ->
  LiteralString_loop (length body + fuel) acc s
  = LiteralString_loop fuel (acc ++ body) (advance s (length body)).
Proof.
  revert acc s. induction body as [|c body IH]; intros acc s Hr Hb.
  - simpl. rewrite advance_zero, app_nil_r. reflexivity.
  - simpl in Hr, Hb. apply andb_prop in Hb. destruct Hb as [Hc Hb].
    unfold literal_char in Hc. apply andb_prop in Hc. destruct Hc as [Hq Hl].
    apply negb_true_iff in Hq, Hl.
    assert (Hch : char s 0 = Some c) by (rewrite char_rest, Hr; reflexivity).
    simpl length. simpl Nat.add. cbn [LiteralString_loop]. reduce.
    rewrite Hch, (@eof_rest s _ _ Hr). unfold is_char. cbn [test].
    rewrite (N.eqb_sym SQUOTE), Hq. cbn [negb andb]. cbv beta iota.
    rewrite Hch. cbn [test]. rewrite (N.eqb_sym LF), Hl. cbv beta iota.
    rewrite Hch.
    rewrite (IH (acc ++ chars (Some c)) (advance s 1)
               (@rest_advance_cons s _ _ Hr) Hb).
    rewrite advance_advance. cbn [chars]. rewrite <- app_assoc. reflexivity.
Qed.

Lemma LiteralString_opens (fuel : nat) (s : Scanner) (l : jsstring) :
  rest s = SQUOTE :: l ->
  LiteralString (S fuel) s
  = (acc <- LiteralString_loop (S fuel) [] ;;
     at_end <- peek eof ;;
     if at_end then throw (not_closed (str "Single-line") acc)
     else next 1 ;; ret (success acc)) (advance s 1).
Proof.
  intros Hr. unfold LiteralString. unfold bind at 1.
  rewrite (@nextUntilChar_stays fuel opt_inline s SQUOTE l Hr eq_refl eq_refl).
  unfold bind at 1, peek at 1. rewrite char_rest, Hr. cbn [nth_error].
  change (is_char SQUOTE (Some SQUOTE)) with true. cbv iota.
  unfold bind at 1, next at 1. reflexivity.
Qed.

Lemma eof_at_end (s : Scanner) : rest s = [] -> eof s = true.
Proof.
  unfold rest, eof. intros H. apply Nat.leb_le.
  apply (f_equal (@length N)) in H. rewrite length_skipn in H. simpl in H.
  lia.
Qed.

(** X10: a literal string ['...'] is read verbatim up to the closing
    apostrophe, with no escape processing; without a closing apostrophe
    before the end of the input the parser throws "not closed", and a line
    feed inside the string throws "cannot contain EOL", in both cases with
    the cursor on the offending place. *)
Theorem LiteralString_reads_verbatim (body tail : jsstring) (fuel : nat)
    (s : Scanner) :
  forallb literal_char body = true ->
  length body < fuel ->
  (rest s = SQUOTE :: body ++ SQUOTE :: tail ->
   LiteralString fuel s = Ret (success body) (advance s (length body + 2)))
  /\ (rest s = SQUOTE :: body ->
      LiteralString fuel s
      = Throw (not_closed (str "Single-line") body)
          (advance s (length body + 1)))
  /\ (rest s = SQUOTE :: body ++ LF :: tail ->
      LiteralString fuel s
      = Throw (TOMLParseError (str "Single-line string cannot contain EOL"))
          (advance s (length body + 1))).
Proof.
  intros Hb Hf.
  destruct fuel as [|f]; [lia | ].
  replace (S f) with (length body + S (f - length body)) by lia.
  split; [ | split]; intros Hr.
  - pose proof (@rest_advance_cons s _ _ Hr) as Hr1.
    pose proof (@rest_advance_app _ _ _ Hr1) as Hr2.
    replace (length body + S (f - length body))
      with (S (length body + (f - length body))) at 1 by lia.
    rewrite (@LiteralString_opens _ s _ Hr).
    replace (S (length body + (f - length body)))
      with (length body + S (f - length body)) by lia.
    unfold bind at 1.
    rewrite (@LiteralString_loop_run body _ [] _ _ Hr1 Hb).
    cbn [LiteralString_loop]. reduce.
    rewrite char_rest, Hr2. cbn [nth_error].
    change (is_char SQUOTE (Some SQUOTE)) with true. cbn [negb andb].
    cbv iota. rewrite (@eof_rest _ _ _ Hr2). cbv iota.
    rewrite !advance_advance. cbn [app]. f_equal. f_equal. lia.
  - pose proof (@rest_advance_cons s _ _ Hr) as Hr1.
    rewrite <- (app_nil_r body) in Hr1.
    pose proof (@rest_advance_app _ _ _ Hr1) as Hr2.
    replace (length body + S (f - length body))
      with (S (length body + (f - length body))) at 1 by lia.
    rewrite (@LiteralString_opens _ s _ Hr).
    replace (S (length body + (f - length body)))
      with (length body + S (f - length body)) by lia.
    unfold bind at 1.
    rewrite (@LiteralString_loop_run body _ [] _ _ Hr1 Hb).
    cbn [LiteralString_loop]. reduce.
    rewrite (@eof_at_end _ Hr2). rewrite andb_false_r. cbv iota.
    rewrite (@eof_at_end _ Hr2). cbv iota.
    rewrite !advance_advance. cbn [app]. f_equal. f_equal. lia.
  - pose proof (@rest_advance_cons s _ _ Hr) as Hr1.
    pose proof (@rest_advance_app _ _ _ Hr1) as Hr2.
    replace (length body + S (f - length body))
      with (S (length body + (f - length body))) at 1 by lia.
    rewrite (@LiteralString_opens _ s _ Hr).
    replace (S (length body + (f - length body)))
      with (length body + S (f - length body)) by lia.
    unfold bind at 1.
    rewrite (@LiteralString_loop_run body _ [] _ _ Hr1 Hb).
    cbn [LiteralString_loop]. reduce.
    rewrite char_rest, Hr2. cbn [nth_error].
    change (is_char SQUOTE (Some LF)) with false. cbn [negb andb].
    rewrite (@eof_rest _ _ _ Hr2). cbn [negb]. cbv beta iota.
    rewrite char_rest, Hr2. cbn [nth_error].
    change (is_char LF (Some LF)) with true. cbv beta iota.
    rewrite !advance_advance. f_equal. f_equal. lia.
Qed.

Lemma code_units_in (count : nat) (first c : N) :
  (first <= c < first + N.of_nat count)%N -> In c (code_units first count).
Proof.
  revert first. induction count as [|n IH]; intros first H; [lia | ].
  simpl. destruct (N.eq_dec first c) as [->|Hne]; [left; reflexivity | ].
  right. apply IH. lia.
Qed.

Lemma unicode_escape_table :
  forallb unicode_escape_decodes (code_units 0 (N.to_nat 65536)) = true.
Proof. vm_cast_no_check (eq_refl true). Qed.

Lemma unicode_escape_decoded (c : N) :
  (c < 65536)%N ->
  length (padStart 4 (hexadecimal c)) = 4
  /\ parseInt16 (padStart 4 (hexadecimal c)) = Some c.
Proof.
  intros H.
  assert (Hin : In c (code_units 0 (N.to_nat 65536))).
  { apply code_units_in. lia. }
  pose proof (proj1 (forallb_forall _ _) unicode_escape_table c Hin) as E.
  unfold unicode_escape_decodes in E. apply andb_prop in E.
  destruct E as [E1 E2]. apply Nat.eqb_eq in E1. split; [exact E1 | ].
  destruct (parseInt16 (padStart 4 (hexadecimal c))) as [x|];
    [ | discriminate].
  apply N.eqb_eq in E2. subst x. reflexivity.
Qed.

Lemma EscapeSequence_simple (s : Scanner) (letter c : N) (tail : jsstring) :
  In (letter, c) simple_escapes ->
  rest s = BACKSLASH :: letter :: tail ->
  EscapeSequence s = Ret (success [c]) (advance s 2).
Proof.
  intros Hin Hr.
  pose proof (@rest_advance_cons s _ _ Hr) as Hr1.
  unfold EscapeSequence. reduce. rewrite char_rest, Hr. cbn [nth_error].
  change (is_char BACKSLASH (Some BACKSLASH)) with true. cbv beta iota.
  rewrite char_rest, Hr1. cbn [nth_error].
  unfold simple_escapes in Hin. simpl in Hin.
  repeat (destruct Hin as [Hin|Hin];
          [injection Hin as <- <-;
           cbv [is_char test N.eqb Pos.eqb DQUOTE BACKSLASH orb];
           rewrite advance_advance; reflexivity | ]).
  contradiction.
Qed.

Lemma EscapeSequence_unicode (s : Scanner) (c : N) (tail : jsstring) :
  (c < 65536)%N ->
  rest s = unicode_escape c ++ tail ->
  EscapeSequence s = Ret (success [c]) (advance s 6).
Proof.
  intros Hc Hr.
  destruct (unicode_escape_decoded Hc) as [Hlen Hval].
  unfold unicode_escape in Hr. cbn [str list_ascii_of_string map app] in Hr.
  change (cu "\"%char) with BACKSLASH in Hr.
  change (cu "u"%char) with 117%N in Hr.
  pose proof (@rest_advance_cons s _ _ Hr) as Hr1.
  unfold EscapeSequence. reduce. rewrite char_rest, Hr. cbn [nth_error].
  change (is_char BACKSLASH (Some BACKSLASH)) with true. cbv beta iota.
  rewrite char_rest, Hr1. cbn [nth_error].
  change (is_char 98 (Some 117%N)) with false.
  change (is_char 116 (Some 117%N)) with false.
  change (is_char 110 (Some 117%N)) with false.
  change (is_char 102 (Some 117%N)) with false.
  change (is_char 114 (Some 117%N)) with false.
  change (is_char 117 (Some 117%N)) with true.
  cbn [orb]. cbv beta iota.
  assert (Hs : slice (advance s 1) 1 (1 + 4) = padStart 4 (hexadecimal c)).
  { change (slice (advance s 1) 1 (1 + 4))
      with (firstn 4 (rest (advance (advance s 1) 1))).
    rewrite (@rest_advance_cons _ _ _ Hr1), firstn_app, Hlen.
    change (4 - 4) with 0. rewrite firstn_O, app_nil_r.
    apply firstn_all2. lia. }
  rewrite Hs, Hval. unfold fromCodePoint.
  destruct (N.ltb_spec 1114111 c); [lia | ].
  destruct (N.ltb_spec c 65536); [ | lia].
  cbv beta iota. rewrite advance_advance. reflexivity.
Qed.

(** X7: [EscapeSequence] decodes the seven one-letter escapes (backspace,
    tab, line feed, form feed, carriage return, quote and backslash) to their
    character and, for every UTF-16 code unit, the six-character escape
    [\uXXXX] that the serializer writes for it back to that code unit; the
    cursor ends behind the escape. *)
Theorem EscapeSequence_decodes (s : Scanner) (tail : jsstring) :
  (forall letter c : N,
     In (letter, c) simple_escapes ->
     rest s = BACKSLASH :: letter :: tail ->
     EscapeSequence s = Ret (success [c]) (advance s 2))
  /\ (forall c : N,
        (c < 65536)%N ->
        rest s = unicode_escape c ++ tail ->
        EscapeSequence s = Ret (success [c]) (advance s 6)).
Proof.
  split.
  - intros letter c Hin Hr. exact (@EscapeSequence_simple s letter c tail Hin Hr).
  - intros c Hc Hr. exact (@EscapeSequence_unicode s c tail Hc Hr).
Qed.

(** One turn of the loop of a basic string on an escape sequence. *)
Lemma BasicString_loop_escape (fuel : nat) (acc : jsstring) (s : Scanner)
    (more body : jsstring) (n : nat) :
  rest s = BACKSLASH :: more ->
  EscapeSequence s = Ret (success body) (advance s n) ->
  BasicString_loop (S fuel) acc s
  = BasicString_loop fuel (acc ++ body) (advance s n).
Proof.
  intros Hr He. cbn [BasicString_loop]. reduce.
  rewrite char_rest, Hr, (@eof_rest s _ _ Hr). cbn [nth_error].
  change (is_char DQUOTE (Some BACKSLASH)) with false. cbn [negb andb].
  cbv beta iota. rewrite char_rest, Hr. cbn [nth_error].
  change (is_char LF (Some BACKSLASH)) with false. cbv beta iota.
  rewrite He. reflexivity.
Qed.

(** One turn of the loop on a character that stands for itself. *)
Lemma BasicString_loop_plain (fuel : nat) (acc : jsstring) (s : Scanner)
    (c : N) (more : jsstring) :
  rest s = c :: more ->
  N.eqb c DQUOTE = false ->
  N.eqb c BACKSLASH = false ->
  N.eqb c LF = false ->
  BasicString_loop (S fuel) acc s
  = BasicString_loop fuel (acc ++ [c]) (advance s 1).
Proof.
  intros Hr Hq Hb Hl.
  assert (Hch : char s 0 = Some c) by (rewrite char_rest, Hr; reflexivity).
  cbn [BasicString_loop]. reduce.
  rewrite Hch, (@eof_rest s _ _ Hr). unfold is_char at 1. cbn [test].
  rewrite (N.eqb_sym DQUOTE), Hq. cbn [negb andb]. cbv beta iota.
  rewrite Hch. unfold is_char at 1. cbn [test].
  rewrite (N.eqb_sym LF), Hl. cbv beta iota.
  unfold EscapeSequence. reduce. rewrite Hch. unfold is_char at 1.
  cbn [test]. rewrite (N.eqb_sym BACKSLASH), Hb. cbv beta iota.
  rewrite Hch. reflexivity.
Qed.

Lemma unicode_escape_length (c : N) :
  (c < 65536)%N -> length (unicode_escape c) = 6.
Proof.
  intros H. unfold unicode_escape. rewrite length_app.
  rewrite (proj1 (unicode_escape_decoded H)). reflexivity.
Qed.

Lemma unicode_escape_head (c : N) :
  exists more, unicode_escape c = BACKSLASH :: more.
Proof. eexists. reflexivity. Qed.

Lemma reads_back_simple (letter c : N) (r : jsstring) :
  In (letter, c) simple_escapes ->
  reads_back (BACKSLASH :: letter :: json_escape r) (c :: r).
Proof.
  intros Hin. exists [BACKSLASH; letter], [c], r, 1.
  split; [reflexivity | ]. split; [reflexivity | ].
  split; [simpl; lia | ]. split; [simpl; lia | ].
  intros fuel acc s more Hr.
  apply (@BasicString_loop_escape fuel acc s (letter :: more) [c] 2 Hr).
  apply (@EscapeSequence_simple s letter c more Hin Hr).
Qed.

Lemma reads_back_unicode (c : N) (r : jsstring) :
  (c < 65536)%N ->
  reads_back (unicode_escape c ++ json_escape r) (c :: r).
Proof.
  intros Hc. exists (unicode_escape c), [c], r, 1.
  split; [reflexivity | ]. split; [reflexivity | ].
  rewrite (unicode_escape_length Hc).
  split; [lia | ]. split; [simpl; lia | ].
  intros fuel acc s more Hr.
  destruct (unicode_escape_head c) as [u Hu].
  assert (Hr' : rest s = BACKSLASH :: u ++ more)
    by (rewrite Hr, Hu; reflexivity).
  apply (@BasicString_loop_escape fuel acc s (u ++ more) [c] 6 Hr').
  apply (@EscapeSequence_unicode s c more Hc Hr).
Qed.

Lemma reads_back_plain (c : N) (r : jsstring) :
  N.eqb c DQUOTE = false -> N.eqb c BACKSLASH = false ->
  N.eqb c LF = false ->
  reads_back (c :: json_escape r) (c :: r).
Proof.
  intros Hq Hb Hl. exists [c], [c], r, 1.
  split; [reflexivity | ]. split; [reflexivity | ].
  split; [simpl; lia | ]. split; [simpl; lia | ].
  intros fuel acc s more Hr.
  apply (@BasicString_loop_plain fuel acc s c more Hr Hq Hb Hl).
Qed.

Lemma reads_back_pair (c d : N) (r : jsstring) :
  is_high_surrogate c = true ->
  is_low_surrogate d = true ->
  reads_back (c :: d :: json_escape r) (c :: d :: r).
Proof.
  intros Hc Hd.
  unfold is_high_surrogate, is_low_surrogate, between in Hc, Hd.
  rewrite andb_true_iff, !N.leb_le in Hc, Hd.
  exists [c; d], [c; d], r, 2.
  split; [reflexivity | ]. split; [reflexivity | ].
  split; [simpl; lia | ]. split; [simpl; lia | ].
  intros fuel acc s more Hr. simpl Nat.add.
  rewrite (@BasicString_loop_plain (S fuel) acc s c (d :: more) Hr);
    try (apply N.eqb_neq; unfold DQUOTE, BACKSLASH, LF; lia).
  rewrite (@BasicString_loop_plain fuel (acc ++ [c]) (advance s 1) d
             more (@rest_advance_cons s _ _ Hr));
    try (apply N.eqb_neq; unfold DQUOTE, BACKSLASH, LF; lia).
  rewrite advance_advance, <- app_assoc. reflexivity.
Qed.

Lemma json_escape_step (c : N) (r : jsstring) :
  reads_back (json_escape (c :: r)) (c :: r).
Proof.
  cbn [json_escape].
  destruct (N.eqb_spec c DQUOTE) as [->|Hq].
  { apply reads_back_simple. simpl; auto 10. }
  destruct (N.eqb_spec c BACKSLASH) as [->|Hb].
  { apply reads_back_simple. simpl; auto 10. }
  destruct (N.eqb_spec c 8) as [->|H8].
  { apply (@reads_back_simple 98%N). simpl; auto 10. }
  destruct (N.eqb_spec c 12) as [->|H12].
  { apply (@reads_back_simple 102%N). simpl; auto 10. }
  destruct (N.eqb_spec c 10) as [->|H10].
  { apply (@reads_back_simple 110%N). simpl; auto 10. }
  destruct (N.eqb_spec c 13) as [->|H13].
  { apply (@reads_back_simple 114%N). simpl; auto 10. }
  destruct (N.eqb_spec c 9) as [->|H9].
  { apply (@reads_back_simple 116%N). simpl; auto 10. }
  destruct (N.ltb_spec c 32) as [H32|H32].
  { apply reads_back_unicode. lia. }
  destruct (is_high_surrogate c) eqn:Hh.
  { assert (Hc : (c < 65536)%N).
    { unfold is_high_surrogate, between in Hh.
      rewrite andb_true_iff, !N.leb_le in Hh. lia. }
    destruct r as [|d r'].
    - rewrite <- (app_nil_r (unicode_escape c)).
      apply (@reads_back_unicode c [] Hc).
    - destruct (is_low_surrogate d) eqn:Hd.
      + apply reads_back_pair; assumption.
      + apply reads_back_unicode. exact Hc. }
  destruct (is_low_surrogate c) eqn:Hlo.
  { apply reads_back_unicode.
    unfold is_low_surrogate, between in Hlo.
    rewrite andb_true_iff, !N.leb_le in Hlo. lia. }
  apply reads_back_plain; apply N.eqb_neq; assumption.
Qed.

(** The loop of a basic string reads back what JSON.stringify wrote. *)
Lemma BasicString_loop_json (n : nat) :
  forall (text : jsstring) (fuel : nat) (acc : jsstring) (s : Scanner)
         (tail : jsstring),
    length text <= n ->
    rest s = json_escape text ++ DQUOTE :: tail ->
    length (json_escape text) < fuel ->
    BasicString_loop fuel acc s
    = Ret (acc ++ text) (advance s (length (json_escape text))).
Proof.
  induction n as [|n IH]; intros text fuel acc s tail Hn Hr Hf.
  - destruct text; [ | simpl in Hn; lia].
    simpl in *. destruct fuel as [|f]; [lia | ].
    cbn [BasicString_loop]. reduce. rewrite char_rest, Hr. cbn [nth_error].
    change (is_char DQUOTE (Some DQUOTE)) with true. cbn [negb andb].
    cbv beta iota. rewrite advance_zero, app_nil_r. reflexivity.
  - destruct text as [|c r].
    + apply (IH [] fuel acc s tail); [simpl; lia | exact Hr | exact Hf].
    + destruct (json_escape_step c r)
        as (esc & decoded & r' & turns & E & D & Ht & Hl & Step).
      simpl length in Hl.
      rewrite E in Hr, Hf |- *. rewrite <- app_assoc in Hr.
      rewrite length_app in Hf |- *.
      replace fuel with (turns + (fuel - turns)) by lia.
      rewrite (Step _ acc s _ Hr).
      rewrite (IH r' (fuel - turns) (acc ++ decoded) (advance s (length esc))
                 tail).
      * rewrite advance_advance, <- app_assoc, D. reflexivity.
      * simpl length in Hn. lia.
      * apply (@rest_advance_app _ _ _ Hr).
      * lia.
Qed.

Lemma BasicString_reads_json (text tail : jsstring) (fuel : nat)
    (s : Scanner) :
  rest s = JSON_string text ++ tail ->
  length (JSON_string text) <= fuel ->
  BasicString fuel s
  = Ret (success text) (advance s (length (JSON_string text))).
Proof.
  unfold JSON_string, quoted. intros Hr Hf.
  cbn [app length] in Hr, Hf |- *. rewrite <- app_assoc in Hr.
  cbn [app] in Hr. rewrite length_app in Hf |- *. cbn [length] in Hf |- *.
  destruct fuel as [|f]; [lia | ].
  pose proof (@rest_advance_cons s _ _ Hr) as Hr1.
  pose proof (@rest_advance_app _ _ _ Hr1) as Hr2.
  unfold BasicString. unfold bind at 1.
  rewrite (@nextUntilChar_stays f opt_inline s DQUOTE _ Hr eq_refl eq_refl).
  reduce. rewrite char_rest, Hr. cbn [nth_error].
  change (is_char DQUOTE (Some DQUOTE)) with true. cbv beta iota.
  rewrite (@BasicString_loop_json (length text) text (S f) [] (advance s 1)
             tail (le_n _) Hr1) by lia.
  rewrite (@eof_rest _ _ _ Hr2). cbv beta iota.
  rewrite !advance_advance. cbn [app]. repeat f_equal; lia.
Qed.

(** X8: a basic string reads back what [JSON.stringify] writes: for every
    string of UTF-16 code units, control characters, quotes, backslashes and
    lone surrogates included, [BasicString] on the quoted and escaped text
    returns the string itself and leaves the cursor behind the closing
    quote, whatever follows. *)
Theorem BasicString_reads_JSON_stringify (text tail : jsstring) (fuel : nat)
    (s : Scanner) :
  rest s = JSON_string text ++ tail ->
  length (JSON_string text) <= fuel ->
  BasicString fuel s
  = Ret (success text) (advance s (length (JSON_string text))).
Proof. apply BasicString_reads_json. Qed.

Ltac cursor :=
  rewrite ?advance_advance;
  match goal with
  | |- Ret _ (advance ?s ?n) = Ret _ (advance ?s ?m) =>
      replace n with m; [reflexivity | simpl; lia]
  end.

Lemma joinKeys_cons (k : jsstring) (keys : list jsstring) :
  joinKeys (k :: keys) = key_text k ++ dotted keys.
Proof.
  unfold joinKeys. fold key_text. revert k.
  induction keys as [|k' keys IH]; intros k.
  - simpl. rewrite app_nil_r. reflexivity.
  - change (join_with (str ".") (map key_text (k :: k' :: keys)))
      with (key_text k ++ str "." ++ join_with (str ".")
                                       (map key_text (k' :: keys))).
    rewrite IH. reflexivity.
Qed.

Lemma key_text_nonempty (k : jsstring) : 0 < length (key_text k).
Proof.
  unfold key_text, needs_quotes.
  destruct (Nat.eqb_spec (length k) 0) as [E|E]; simpl.
  - unfold JSON_string, quoted. simpl. lia.
  - destruct (existsb _ k); [unfold JSON_string, quoted; simpl; lia | lia].
Qed.

Lemma dotted_length (keys : list jsstring) :
  length keys <= length (dotted keys).
Proof.
  induction keys as [|k keys IH]; [simpl; lia | ].
  unfold dotted in *. cbn [map concat length app].
  rewrite length_app. lia.
Qed.

Lemma bare_key_text (k : jsstring) :
  needs_quotes k = false -> k <> [] /\ forallb BARE_KEY k = true.
Proof.
  unfold needs_quotes. intros H. apply orb_false_elim in H.
  destruct H as [Hl He]. split.
  - intros ->. discriminate.
  - clear Hl. induction k as [|c k IH]; [reflexivity | ].
    simpl in He |- *. apply orb_false_elim in He. destruct He as [Hc He].
    apply negb_false_iff in Hc. rewrite Hc, (IH He). reflexivity.
Qed.

(** A key segment reads back one key as joinKeys wrote it. *)
Lemma key_segment_reads (k : jsstring) (fuel : nat) (s : Scanner)
    (tail : jsstring) :
  rest s = key_text k ++ tail ->
  test BARE_KEY (hd_error tail) = false ->
  length (key_text k) < fuel ->
  key_segment fuel s = Ret (success k) (advance s (length (key_text k))).
Proof.
  unfold key_text. intros Hr Ht Hf.
  destruct (needs_quotes k) eqn:Hq.
  - destruct fuel as [|f]; [lia | ].
    assert (Hr' : rest s = DQUOTE :: (json_escape k ++ [DQUOTE]) ++ tail)
      by exact Hr.
    unfold key_segment. cbn [or]. unfold bind at 1.
    rewrite (@BareKey_fails f s DQUOTE _ Hr' eq_refl eq_refl).
    cbn [ok]. cbv iota. unfold bind at 1.
    rewrite (@BasicString_reads_json k tail (S f) s Hr) by lia.
    reflexivity.
  - destruct (bare_key_text k Hq) as [Hne Hb].
    unfold key_segment. cbn [or]. unfold bind at 1.
    rewrite (@BareKey_reads [] k fuel s tail Hr eq_refl Hne Hb Ht)
      by (simpl; lia).
    reflexivity.
Qed.

Lemma key_text_head (k : jsstring) :
  exists c l, key_text k = c :: l /\ is_space c = false.
Proof.
  unfold key_text. destruct (needs_quotes k) eqn:Hq.
  - eexists DQUOTE, _. split; reflexivity.
  - destruct (bare_key_text k Hq) as [Hne Hb].
    destruct k as [|c k]; [congruence | ].
    exists c, k. split; [reflexivity | ].
    simpl in Hb. apply andb_prop in Hb. destruct Hb as [Hc _].
    apply BARE_KEY_not_space. exact Hc.
Qed.

(** The literal matcher on its literal and the spaces and tabs behind
    it. *)
Lemma character_reads (fuel : nat) (literal ws : jsstring) (s : Scanner)
    (c d : N) (l tail : jsstring) :
  literal = c :: l ->
  rest s = literal ++ ws ++ d :: tail ->
  is_space c = false ->
  forallb whitespace ws = true ->
  is_space d = false ->
  length ws < fuel ->
  character fuel literal s
  = Ret (success tt) (advance s (length literal + length ws)).
Proof.
  intros Hl Hr Hc Hw Hd Hf. unfold character. unfold bind at 1.
  destruct fuel as [|f]; [lia | ].
  assert (Hr' : rest s = c :: l ++ ws ++ d :: tail)
    by (rewrite Hr, Hl; reflexivity).
  rewrite (@nextUntilChar_stays f opt_inline s c _ Hr' Hc eq_refl).
  reduce. rewrite slice_rest, Hr, firstn_app, firstn_all, Nat.sub_diag.
  cbn [firstn]. rewrite app_nil_r, jseq_refl. cbv beta iota.
  rewrite (@nextUntilChar_inline_run ws (S f) (advance s (length literal))
             d tail (@rest_advance_app _ _ _ Hr) Hw Hd Hf).
  rewrite advance_advance. reflexivity.
Qed.

(** The literal matcher in front of another character: it skips the spaces
    and tabs and reports a non-match. *)
Lemma character_misses (fuel : nat) (literal : jsstring) (x : N)
    (ws : jsstring) (s : Scanner) (c : N) (tail : jsstring) :
  literal = [x] ->
  rest s = ws ++ c :: tail ->
  forallb whitespace ws = true ->
  is_space c = false ->
  c <> x ->
  length ws < fuel ->
  character fuel literal s = Ret failure (advance s (length ws)).
Proof.
  intros -> Hr Hw Hc Hx Hf. unfold character. unfold bind at 1.
  rewrite (@nextUntilChar_inline_run ws fuel s c tail Hr Hw Hc Hf).
  reduce. rewrite slice_rest, (@rest_advance_app _ _ _ Hr).
  cbn [length firstn jseq].
  destruct (N.eqb_spec c x) as [E|E]; [congruence | ]. reflexivity.
Qed.

(** The loop of join over the dotted keys that joinKeys wrote. *)
Lemma join_loop_keys (keys : list jsstring) :
  forall (fuel limit : nat) (out : list jsstring) (s : Scanner)
         (ws : jsstring) (c : N) (tail : jsstring),
    rest s = dotted keys ++ ws ++ c :: tail ->
    forallb whitespace ws = true ->
    is_space c = false ->
    BARE_KEY c = false ->
    c <> 46%N ->
    length (dotted keys) + length ws < limit ->
    length keys < fuel ->
    join_loop fuel (key_segment limit) (character limit (str ".")) (str ".")
      out s
    = Ret (out ++ keys) (advance s (length (dotted keys) + length ws)).
Proof.
  induction keys as [|k keys IH];
    intros fuel limit out s ws c tail Hr Hw Hc Hb Hdot Hl Hf.
  - simpl in Hr, Hl |- *. destruct fuel as [|f]; [lia | ].
    cbn [join_loop]. reduce.
    assert (He : eof s = false).
    { destruct ws as [|w ws']; [exact (@eof_rest s _ _ Hr) | ].
      exact (@eof_rest s _ _ Hr). }
    rewrite He. cbv beta iota.
    rewrite (@character_misses limit (str ".") 46%N ws s c tail eq_refl Hr Hw
               Hc Hdot Hl).
    cbn [ok]. cbv iota. rewrite app_nil_r. reflexivity.
  - destruct fuel as [|f]; [simpl in Hf; lia | ].
    unfold dotted in Hr, Hl |- *. cbn [map concat] in Hr, Hl |- *.
    fold (dotted keys) in Hr, Hl |- *.
    rewrite length_app in Hl |- *. cbn [length] in Hl |- *.
    rewrite <- !app_assoc in Hr. cbn [app] in Hr.
    destruct (key_text_head k) as (h & l & Hk & Hh).
    destruct limit as [|lim]; [lia | ].
    cbn [join_loop]. reduce.
    rewrite (@eof_rest s _ _ Hr). cbv beta iota.
    assert (Hr0 : rest s = str "." ++ h :: l ++ dotted keys ++ ws ++ c :: tail).
    { rewrite Hr, Hk. reflexivity. }
    rewrite (@character_reads (S lim) (str ".") [] s 46%N h [] _ eq_refl Hr0
               eq_refl eq_refl Hh) by (simpl; lia).
    cbn [ok]. cbv iota.
    assert (Hr1 : rest (advance s (length (str ".") + length (@nil N)))
                  = key_text k ++ dotted keys ++ ws ++ c :: tail).
    { change (length (str ".") + length (@nil N)) with (length (str ".")).
      rewrite (@rest_advance_app _ _ _ Hr0), Hk. reflexivity. }
    assert (Hnext : test BARE_KEY (hd_error (dotted keys ++ ws ++ c :: tail))
                    = false).
    { destruct keys as [|k' keys']; [ | reflexivity].
      simpl. destruct ws as [|w ws']; simpl; [exact Hb | ].
      simpl in Hw. apply andb_prop in Hw. destruct Hw as [Hw _].
      destruct (BARE_KEY w) eqn:E; [ | reflexivity].
      apply BARE_KEY_not_space in E. unfold whitespace, is_space, between,
        SPACE, TAB in *.
      apply orb_true_iff in Hw. destruct Hw as [Hw|Hw];
        apply N.eqb_eq in Hw; subst w; discriminate. }
    rewrite (@key_segment_reads k (S lim) _ _ Hr1 Hnext) by lia.
    rewrite (IH f (S lim) (out ++ [k]) _ ws c tail
               (@rest_advance_app _ _ _ Hr1) Hw Hc Hb Hdot)
      by (simpl in Hf; lia).
    rewrite <- app_assoc. cbn [app]. cursor.
Qed.

Lemma DottedKey_reads_joinKeys (keys : list jsstring) (fuel : nat)
    (s : Scanner) (ws : jsstring) (c : N) (tail : jsstring) :
  keys <> [] ->
  rest s = joinKeys keys ++ ws ++ c :: tail ->
  forallb whitespace ws = true ->
  is_space c = false ->
  BARE_KEY c = false ->
  c <> 46%N ->
  length (joinKeys keys) + length ws < fuel ->
  DottedKey fuel s
  = Ret (success keys) (advance s (length (joinKeys keys) + length ws)).
Proof.
  intros Hne Hr Hw Hc Hb Hdot Hf.
  destruct keys as [|k keys]; [congruence | ].
  rewrite joinKeys_cons in Hr, Hf |- *. rewrite <- app_assoc in Hr.
  rewrite length_app in Hf |- *.
  unfold DottedKey, join. fold (key_segment fuel). unfold bind at 1.
  assert (Hnext : test BARE_KEY (hd_error (dotted keys ++ ws ++ c :: tail))
                  = false).
  { destruct keys as [|k' keys']; [ | reflexivity].
    simpl. destruct ws as [|w ws']; simpl; [exact Hb | ].
    simpl in Hw. apply andb_prop in Hw. destruct Hw as [Hw _].
    destruct (BARE_KEY w) eqn:E; [ | reflexivity].
    apply BARE_KEY_not_space in E. unfold whitespace, is_space, between,
      SPACE, TAB in *.
    apply orb_true_iff in Hw. destruct Hw as [Hw|Hw];
      apply N.eqb_eq in Hw; subst w; discriminate. }
  rewrite (@key_segment_reads k fuel s _ Hr Hnext) by lia.
  unfold bind at 1.
  pose proof (dotted_length keys) as Hlen.
  rewrite (@join_loop_keys keys fuel fuel [k] _ ws c tail
             (@rest_advance_app _ _ _ Hr) Hw Hc Hb Hdot) by lia.
  reduce. cbn [app]. cursor.
Qed.

(** X17: [DottedKey] reads back what [joinKeys] of the serializer writes:
    for every non-empty list of keys (bare, or quoted and escaped when they
    need it, the empty key included), the text [joinKeys keys] followed by
    blanks and a character that can neither continue nor be part of a key
    parses to exactly [keys], with the cursor behind the blanks. *)
Theorem DottedKey_reads_joinKeys_output (keys : list jsstring) (fuel : nat)
    (s : Scanner) (ws : jsstring) (c : N) (tail : jsstring) :
  keys <> [] ->
  rest s = joinKeys keys ++ ws ++ c :: tail ->
  forallb whitespace ws = true ->
  is_space c = false ->
  BARE_KEY c = false ->
  c <> 46%N ->
  length (joinKeys keys) + length ws < fuel ->
  DottedKey fuel s
  = Ret (success keys) (advance s (length (joinKeys keys) + length ws)).
Proof. apply DottedKey_reads_joinKeys. Qed.

Lemma firstn_prefix (l tail : jsstring) :
  firstn (length l) (l ++ tail) = l.
Proof.
  rewrite firstn_app, firstn_all, Nat.sub_diag. simpl. apply app_nil_r.
Qed.

(** Symbols reads each of its literals, whatever follows. *)
Lemma Symbols_reads (literal : jsstring) (v : value) (fuel : nat)
    (s : Scanner) (tail : jsstring) :
  In (literal, v) symbolPairs ->
  rest s = literal ++ tail ->
  Symbols (S fuel) s = Ret (success v) (advance s (length literal)).
Proof.
  intros Hin Hr. unfold Symbols. unfold bind at 1.
  assert (Hstay : nextUntilChar (S fuel) opt_inline s = Ret tt s).
  { unfold symbolPairs in Hin. simpl in Hin.
    repeat (destruct Hin as [Hin|Hin];
            [injection Hin as <- <-;
             exact (@nextUntilChar_stays fuel opt_inline s _ _ Hr
                      eq_refl eq_refl) | ]).
    contradiction. }
  rewrite Hstay. reduce.
  match goal with
  | |- context [find ?f symbolPairs] =>
      assert (Hfind : find f symbolPairs = Some (literal, v))
  end.
  { unfold symbolPairs in *. simpl in Hin.
    repeat (destruct Hin as [Hin|Hin];
            [injection Hin as <- <-; cbn [find fst];
             rewrite ?slice_rest, Hr; reflexivity | ]).
    contradiction. }
  rewrite Hfind. reflexivity.
Qed.

(** X12: [Symbols] reads each of its eight literals ([true], [false],
    [inf], [+inf], [-inf], [nan], [+nan], [-nan]) as the value paired with
    it and moves the cursor behind the literal; it does not look at what
    follows the literal. *)
Theorem Symbols_reads_every_literal (literal : jsstring) (v : value)
    (fuel : nat) (s : Scanner) (tail : jsstring) :
  In (literal, v) symbolPairs ->
  rest s = literal ++ tail ->
  Symbols (S fuel) s = Ret (success v) (advance s (length literal)).
Proof. apply Symbols_reads. Qed.

(** The scanning loop reads the longest run of characters of its class. *)
Lemma scan_while_run (run : jsstring) (class : N -> bool) (fuel : nat)
    (acc : jsstring) (s : Scanner) (tail : jsstring) :
  rest s = run ++ tail ->
  forallb class run = true ->
  test class (hd_error tail) = false ->
  length run < fuel ->
  scan_while fuel class acc s = Ret (acc ++ run) (advance s (length run)).
Proof.
  revert fuel acc s. induction run as [|c run IH]; intros fuel acc s Hr Hb Ht Hf.
  - destruct fuel as [|f]; [simpl in Hf; lia | ]. simpl in Hr.
    cbn [scan_while]. reduce. rewrite char_rest, Hr.
    replace (nth_error tail 0) with (hd_error tail) by (destruct tail; reflexivity).
    rewrite Ht. cbn [andb]. cbv beta iota.
    rewrite advance_zero, app_nil_r. reflexivity.
  - destruct fuel as [|f]; [simpl in Hf; lia | ]. simpl in Hr, Hb, Hf.
    apply andb_prop in Hb. destruct Hb as [Hc Hb].
    cbn [scan_while]. reduce. rewrite char_rest, Hr, (@eof_rest s _ _ Hr).
    cbn [nth_error test]. rewrite Hc. cbn [andb negb]. cbv beta iota.
    rewrite (IH f (acc ++ chars (Some c)) (advance s 1)
               (@rest_advance_cons s _ _ Hr) Hb Ht) by lia.
    cbn [chars]. rewrite <- app_assoc. cursor.
Qed.

(** X13: a literal with the prefix [0x], [0o] or [0b] is not converted to
    a number: [Integer] returns its text as a string, prefix and underscores
    included, with the cursor behind the digits; with no digit behind the
    prefix it fails with the prefix consumed. *)
Theorem Integer_keeps_radix_literals (z r : N) (digits tail : jsstring)
    (fuel : nat) (s : Scanner) :
  radix_prefix [z; r] = true ->
  forallb is_hex_us digits = true ->
  test is_hex_us (hd_error tail) = false ->
  rest s = z :: r :: digits ++ tail ->
  length digits < fuel ->
  Integer fuel s
  = Ret (if Nat.eqb (length digits) 0 then failure
         else success (Str (z :: r :: digits)))
      (advance s (2 + length digits)).
Proof.
  intros Hp Hd Ht Hr Hf.
  assert (Hz : z = 48%N).
  { unfold radix_prefix in Hp. apply andb_prop in Hp. destruct Hp as [Hp _].
    apply N.eqb_eq in Hp. exact Hp. }
  destruct fuel as [|f]; [lia | ].
  unfold Integer. unfold bind at 1.
  rewrite (@nextUntilChar_stays f opt_inline s z _ Hr).
  2:{ subst z. reflexivity. }
  2:{ reflexivity. }
  reduce. rewrite slice_rest, Hr. cbn [firstn length Nat.eqb andb].
  rewrite Hp. cbv beta iota.
  assert (Hr2 : rest (advance s 2) = digits ++ tail).
  { rewrite rest_advance, Hr. reflexivity. }
  rewrite (@scan_while_run digits is_hex_us (S f) [] _ tail Hr2 Hd Ht Hf).
  cbn [app]. destruct (Nat.eqb (length digits) 0); cbv beta iota; cursor.
Qed.

Lemma take_while_all (class : N -> bool) (l : jsstring) :
  forallb class l = true -> take_while class l = l.
Proof.
  induction l as [|c l IH]; [reflexivity | ]. simpl. intros H.
  apply andb_prop in H. destruct H as [Hc H]. rewrite Hc, (IH H).
  reflexivity.
Qed.

Lemma filter_underscores (l : jsstring) :
  forallb is_digit_us l = true ->
  forallb is_digit (filter not_underscore l) = true.
Proof.
  induction l as [|c l IH]; [reflexivity | ]. simpl. intros H.
  apply andb_prop in H. destruct H as [Hc H].
  unfold not_underscore at 1. unfold is_digit_us in Hc.
  destruct (N.eqb c 95) eqn:E; simpl; [exact (IH H) | ].
  rewrite orb_false_r in Hc. rewrite Hc, (IH H). reflexivity.
Qed.

Lemma is_digit_range (c : N) : is_digit c = true -> (48 <= c <= 57)%N.
Proof.
  unfold is_digit, between. rewrite andb_true_iff, !N.leb_le.
  intros H. exact H.
Qed.

Lemma is_digit_us_not_space (c : N) :
  is_digit_us c = true -> is_space c = false /\ is_sign c = false.
Proof.
  unfold is_digit_us. intros H. apply orb_true_iff in H.
  destruct H as [H|H].
  - apply is_digit_range in H. split.
    + destruct (is_space c) eqn:E; [ | reflexivity].
      apply is_space_range in E. lia.
    + unfold is_sign. apply orb_false_iff.
      split; apply N.eqb_neq; lia.
  - apply N.eqb_eq in H. subst c. split; reflexivity.
Qed.

(** [parseInt] on an optional sign and decimal digits. *)
Lemma parseInt_digits (sign ds : jsstring) :
  sign = [] \/ sign = [43%N] \/ sign = [45%N] ->
  ds <> [] ->
  forallb is_digit ds = true ->
  parseInt (sign ++ ds) = Decimal (jseq sign [45%N]) (digits_to_N ds) 0.
Proof.
  intros Hs Hne Hd. unfold parseInt.
  assert (Hsplit : split_sign (sign ++ ds) = (jseq sign [45%N], ds)).
  { destruct Hs as [-> | [-> | ->]]; try reflexivity.
    destruct ds as [|c ds']; [congruence | ].
    simpl in Hd. apply andb_prop in Hd. destruct Hd as [Hc _].
    apply is_digit_range in Hc. cbn [app split_sign jseq].
    destruct (N.eqb_spec c 45); [lia | ].
    destruct (N.eqb_spec c 43); [lia | ]. reflexivity. }
  rewrite Hsplit, (take_while_all _ _ Hd).
  destruct ds; [congruence | reflexivity].
Qed.

(** X14: a decimal integer literal, an optional sign followed by digits and
    underscores with at least one digit, that denotes a safe integer (at
    most [2^53 - 1], so that the number read is exactly the integer
    written) is read as the number its digits denote once the underscores
    are removed (leading zeros are accepted), negative exactly when the sign
    is [-]; the cursor ends behind the literal. *)
Theorem Integer_reads_decimal (sign digits tail : jsstring) (fuel : nat)
    (s : Scanner) :
  sign = [] \/ sign = [43%N] \/ sign = [45%N] ->
  forallb is_digit_us digits = true ->
  filter not_underscore digits <> [] ->
  (digits_to_N (filter not_underscore digits) <= MAX_SAFE_INTEGER)%N ->
  test is_digit_us (hd_error tail) = false ->
  radix_prefix (firstn 2 (sign ++ digits ++ tail)) = false ->
  rest s = sign ++ digits ++ tail ->
  length digits < fuel ->
  Integer fuel s
  = Ret (success (Num (Decimal (jseq sign [45%N])
                         (digits_to_N (filter not_underscore digits)) 0)))
      (advance s (length sign + length digits)).
Proof.
  intros Hs Hd Hne _ Ht Hp Hr Hf.
  destruct digits as [|d digits']; [simpl in Hne; congruence | ].
  pose proof Hd as Hd0. cbn [forallb] in Hd0. apply andb_prop in Hd0.
  destruct Hd0 as [Hd1 _].
  destruct (is_digit_us_not_space _ Hd1) as [Hsp Hsg].
  destruct fuel as [|f]; [lia | ].
  assert (Hfirst : exists c l, rest s = c :: l /\ is_space c = false
                               /\ is_sign c = negb (jseq sign [])).
  { destruct Hs as [-> | [-> | ->]]; rewrite Hr; eexists _, _;
      (split; [reflexivity | ]); split; try reflexivity; assumption. }
  destruct Hfirst as (c & l & Hc & Hcs & Hsign).
  unfold Integer. unfold bind at 1.
  rewrite (@nextUntilChar_stays f opt_inline s c l Hc Hcs eq_refl).
  reduce. rewrite slice_rest, Hr, Hp, andb_false_r. cbv beta iota.
  rewrite char_rest, Hc. cbn [nth_error test]. rewrite Hsign.
  assert (Hsum : filter not_underscore (sign ++ d :: digits')
                 = sign ++ filter not_underscore (d :: digits')).
  { rewrite filter_app.
    destruct Hs as [-> | [-> | ->]]; reflexivity. }
  assert (Hacc : forall acc, acc = sign ++ d :: digits' ->
            (Nat.eqb (length acc) 0
             || Nat.eqb (length acc) 1 && test is_sign (hd_error acc))%bool
            = false).
  { intros acc ->. destruct Hs as [-> | [-> | ->]]; cbn [app length Nat.eqb
      hd_error test orb andb]; try reflexivity.
    rewrite Hsg. apply andb_false_r. }
  destruct Hs as [-> | [-> | ->]]; cbn [jseq negb]; cbv beta iota.
  - rewrite (@scan_while_run (d :: digits') is_digit_us (S f) [] s tail Hr Hd
               Ht Hf).
    rewrite (Hacc _ eq_refl). cbv beta iota. cbn [app].
    pose proof (@parseInt_digits [] _ (or_introl eq_refl) Hne
                  (filter_underscores _ Hd)) as Hint.
    cbn [app] in Hint. rewrite Hint. reflexivity.
  - injection (eq_trans (eq_sym Hc) Hr) as -> _. cbn [chars].
    rewrite (@scan_while_run (d :: digits') is_digit_us (S f) [43%N]
               (advance s 1) tail (@rest_advance_cons s _ _ Hr) Hd Ht Hf).
    rewrite (Hacc _ eq_refl). cbv beta iota. rewrite Hsum.
    rewrite (@parseInt_digits [43%N] _ (or_intror (or_introl eq_refl)) Hne
               (filter_underscores _ Hd)).
    cursor.
  - injection (eq_trans (eq_sym Hc) Hr) as -> _. cbn [chars].
    rewrite (@scan_while_run (d :: digits') is_digit_us (S f) [45%N]
               (advance s 1) tail (@rest_advance_cons s _ _ Hr) Hd Ht Hf).
    rewrite (Hacc _ eq_refl). cbv beta iota. rewrite Hsum.
    rewrite (@parseInt_digits [45%N] _ (or_intror (or_intror eq_refl)) Hne
               (filter_underscores _ Hd)).
    cursor.
Qed.

Lemma time_prefix_head (t : jsstring) :
  time_prefix t = true -> exists c l, t = c :: l /\ is_space c = false.
Proof.
  destruct t as [|c l]; [discriminate | ]. intros H.
  exists c, l. split; [reflexivity | ].
  do 7 (destruct l as [|? l]; [discriminate | ]).
  cbn [time_prefix] in H. unfold is_digit, between in H.
  rewrite ?andb_true_iff, ?N.leb_le, ?N.eqb_eq in H.
  destruct (is_space c) eqn:E; [ | reflexivity].
  apply is_space_range in E. lia.
Qed.

(** X15: [LocalTime] returns a local time as the text it read, not as a
    date and with no range check: the eight characters [dd:dd:dd] ([d] a
    digit) and, when a dot follows, the dot and all digits behind it. *)
Theorem LocalTime_keeps_the_text (t frac tail : jsstring) (fuel : nat)
    (s : Scanner) :
  time_prefix t = true ->
  length t = 8 ->
  forallb is_digit frac = true ->
  test is_digit (hd_error tail) = false ->
  length frac < fuel ->
  (rest s = t ++ tail ->
   is_char 46 (hd_error tail) = false ->
   LocalTime fuel s = Ret (success (Str t)) (advance s 8))
  /\ (rest s = t ++ 46%N :: frac ++ tail ->
      LocalTime fuel s
      = Ret (success (Str (t ++ 46%N :: frac)))
          (advance s (9 + length frac))).
Proof.
  intros Ht Hl Hd Hn Hf.
  destruct (time_prefix_head t Ht) as (c & l & E & Hc).
  destruct fuel as [|f]; [lia | ].
  assert (Hslice : forall more, firstn 8 (t ++ more) = t).
  { intros more. rewrite <- Hl. apply firstn_prefix. }
  split.
  - intros Hr Hdot.
    assert (Hr' : rest s = c :: l ++ tail) by (rewrite Hr, E; reflexivity).
    unfold LocalTime. unfold bind at 1.
    rewrite (@nextUntilChar_stays f opt_inline s c _ Hr' Hc eq_refl).
    reduce. rewrite slice_rest, Hr, Hslice, Ht. cbv beta iota.
    rewrite char_rest, rest_advance, Hr, <- Hl, skipn_app, skipn_all,
      Nat.sub_diag. cbn [app skipn].
    replace (nth_error tail 0) with (hd_error tail)
      by (destruct tail; reflexivity).
    rewrite Hdot. reflexivity.
  - intros Hr.
    assert (Hr' : rest s = c :: l ++ 46%N :: frac ++ tail)
      by (rewrite Hr, E; reflexivity).
    unfold LocalTime. unfold bind at 1.
    rewrite (@nextUntilChar_stays f opt_inline s c _ Hr' Hc eq_refl).
    reduce. rewrite slice_rest, Hr, Hslice, Ht. cbv beta iota.
    assert (Hr8 : rest (advance s 8) = 46%N :: frac ++ tail).
    { rewrite <- Hl. apply (@rest_advance_app _ _ _ Hr). }
    rewrite char_rest, Hr8. cbn [nth_error].
    change (is_char 46 (Some 46%N)) with true. cbv beta iota.
    rewrite (@scan_while_run frac is_digit (S f) [46%N] _ tail
               (@rest_advance_cons _ _ _ Hr8) Hd Hn Hf).
    cbn [app]. cursor.
Qed.

Lemma MultilineLiteralString_loop_run (body : jsstring) (fuel : nat)
    (acc : jsstring) (s : Scanner) (tail : jsstring) :
  rest s = body ++ tail ->
  forallb no_apostrophe body = true ->
  MultilineLiteralString_loop (length body + fuel) acc s
  = MultilineLiteralString_loop fuel (acc ++ body) (advance s (length body)).
Proof.
  revert acc s. induction body as [|c body IH]; intros acc s Hr Hb.
  - simpl. rewrite advance_zero, app_nil_r. reflexivity.
  - simpl in Hr, Hb. apply andb_prop in Hb. destruct Hb as [Hc Hb].
    unfold no_apostrophe in Hc. apply negb_true_iff in Hc.
    simpl length. simpl Nat.add. cbn [MultilineLiteralString_loop]. reduce.
    rewrite (@eof_rest s _ _ Hr), slice_rest, Hr. cbn [firstn three jseq].
    rewrite Hc. cbn [andb negb]. cbv beta iota.
    rewrite char_rest, Hr. cbn [nth_error].
    rewrite (IH (acc ++ chars (Some c)) (advance s 1)
               (@rest_advance_cons s _ _ Hr) Hb).
    rewrite advance_advance. cbn [chars]. rewrite <- app_assoc. reflexivity.
Qed.

(** X11: a multi-line literal string ['''...'''] is read verbatim: one line
    break right after the opening delimiter is dropped, nothing is escaped,
    and when a fourth apostrophe follows the content it belongs to the
    string, the closing delimiter being the last three. *)
Theorem MultilineLiteralString_reads_verbatim (newline body tail : jsstring)
    (fuel : nat) (s : Scanner) :
  newline = [] \/ newline = [LF] \/ newline = [CR; LF] ->
  (newline = [] ->
   test (fun c => N.eqb c LF || N.eqb c CR)%bool (hd_error body) = false) ->
  forallb no_apostrophe body = true ->
  rest s = three SQUOTE ++ newline ++ body ++ three SQUOTE ++ tail ->
  length body < fuel ->
  MultilineLiteralString fuel s
  = Ret (success (if is_char SQUOTE (hd_error tail) then body ++ [SQUOTE]
                  else body))
      (advance s (3 + length newline + length body
                  + (if is_char SQUOTE (hd_error tail) then 4 else 3))).
Proof.
  intros Hn Hfirst Hb Hr Hf.
  destruct fuel as [|f]; [lia | ].
  assert (Hr' : rest s = SQUOTE :: [SQUOTE; SQUOTE] ++ newline ++ body
                         ++ three SQUOTE ++ tail) by exact Hr.
  unfold MultilineLiteralString. unfold bind at 1.
  rewrite (@nextUntilChar_stays f opt_inline s SQUOTE _ Hr' eq_refl eq_refl).
  reduce. rewrite slice_rest, Hr. cbn [three app firstn jseq].
  change (N.eqb SQUOTE SQUOTE) with true. cbn [andb]. cbv beta iota.
  assert (Hr3 : rest (advance s 3) = newline ++ body ++ three SQUOTE ++ tail).
  { rewrite rest_advance, Hr. reflexivity. }
  assert (Htrim : trim_first_newline (advance s 3)
                  = Ret tt (advance s (3 + length newline))).
  { unfold trim_first_newline. reduce. rewrite char_rest, Hr3.
    destruct Hn as [-> | [-> | ->]].
    - specialize (Hfirst eq_refl). cbn [app length].
      destruct body as [|c body'].
      + cbn [app three nth_error is_char test].
        change (N.eqb LF SQUOTE) with false. cbv beta iota.
        rewrite slice_rest, Hr3. cbn [app three firstn jseq].
        change (N.eqb SQUOTE CR) with false. cbn [andb]. cbv beta iota.
        rewrite Nat.add_0_r. reflexivity.
      + cbn [hd_error test] in Hfirst. apply orb_false_elim in Hfirst.
        destruct Hfirst as [Hlf Hcr].
        cbn [app nth_error is_char test]. rewrite (N.eqb_sym LF), Hlf.
        cbv beta iota. rewrite slice_rest, Hr3. cbn [app].
        assert (Hj : jseq (firstn 2 (c :: body' ++ three SQUOTE ++ tail))
                       [CR; LF] = false).
        { destruct (body' ++ three SQUOTE ++ tail); cbn [firstn jseq];
            rewrite Hcr; reflexivity. }
        rewrite Hj. cbv beta iota. rewrite Nat.add_0_r. reflexivity.
    - cbn [app nth_error is_char test].
      change (N.eqb LF LF) with true. cbv beta iota.
      rewrite advance_advance. reflexivity.
    - cbn [app nth_error is_char test].
      change (N.eqb LF CR) with false. cbv beta iota.
      rewrite slice_rest, Hr3. cbn [app firstn jseq].
      change (N.eqb CR CR) with true. change (N.eqb LF LF) with true.
      cbn [andb]. cbv beta iota. rewrite advance_advance. reflexivity. }
  rewrite Htrim.
  assert (Hr4 : rest (advance s (3 + length newline))
                = body ++ three SQUOTE ++ tail).
  { rewrite <- advance_advance. apply (@rest_advance_app _ _ _ Hr3). }
  replace (S f) with (length body + S (f - length body)) by lia.
  rewrite (@MultilineLiteralString_loop_run body _ [] _ _ Hr4 Hb).
  pose proof (@rest_advance_app _ _ _ Hr4) as Hr5.
  cbn [MultilineLiteralString_loop]. reduce.
  rewrite slice_rest, Hr5. cbn [three app firstn jseq].
  change (N.eqb SQUOTE SQUOTE) with true. cbn [andb negb]. cbv beta iota.
  rewrite (@eof_rest _ _ _ Hr5). cbv beta iota.
  rewrite char_rest, Hr5. cbn [three app nth_error].
  destruct tail as [|q tail']; cbn [hd_error nth_error].
  - change (is_char SQUOTE None) with false. cbv beta iota. cursor.
  - destruct (is_char SQUOTE (Some q)); cbv beta iota; cursor.
Qed.

Lemma digits_to_N_app (ds : jsstring) (c : N) :
  digits_to_N (ds ++ [c]) = (digits_to_N ds * 10 + (c - 48))%N.
Proof. unfold digits_to_N. rewrite fold_left_app. reflexivity. Qed.

Lemma digit_char_digit (d : N) :
  (d < 10)%N -> is_digit (digit_char d) = true /\ (digit_char d - 48 = d)%N.
Proof.
  intros H. unfold digit_char. destruct (N.ltb_spec d 10) as [_|]; [ | lia].
  unfold is_digit, between. split; [ | lia].
  apply andb_true_intro. split; apply N.leb_le; lia.
Qed.

(** The digits that [render_digits] puts in front of its accumulator. *)
Lemma render_digits_decimal (fuel : nat) :
  forall (n : N) (acc : jsstring),
    fuel <> 0 ->
    (n < 2 ^ N.of_nat fuel)%N ->
    exists ds,
      render_digits fuel 10 n acc = ds ++ acc
      /\ forallb is_digit ds = true
      /\ digits_to_N ds = n
      /\ ds <> []
      /\ (n <> 0%N -> (10 ^ N.of_nat (length ds - 1) <= n)%N).
Proof.
  induction fuel as [|f IH]; intros n acc Hf Hn; [congruence | ].
  cbn [render_digits].
  assert (Hmod : (n mod 10 < 10)%N) by (apply N.mod_lt; lia).
  destruct (digit_char_digit Hmod) as [Hd Hv].
  destruct (N.ltb_spec n 10) as [Hsmall|Hbig].
  - exists [digit_char (n mod 10)]. split; [reflexivity | ].
    split; [cbn [forallb]; rewrite Hd; reflexivity | ].
    split.
    { unfold digits_to_N. cbn [fold_left]. rewrite Hv.
      rewrite N.mod_small by exact Hsmall. lia. }
    split; [discriminate | ].
    intros Hne. cbn [length]. simpl. lia.
  - assert (Hdiv : (n / 10 < 2 ^ N.of_nat f)%N).
    { rewrite Nat2N.inj_succ, N.pow_succ_r' in Hn.
      apply N.Div0.div_lt_upper_bound. lia. }
    assert (Hq : (n / 10 <> 0)%N).
    { intros Hz. apply N.div_small_iff in Hz; lia. }
    assert (Hf' : f <> 0).
    { intros ->. change (2 ^ N.of_nat 0)%N with 1%N in Hdiv. lia. }
    destruct (IH (n / 10)%N (digit_char (n mod 10) :: acc) Hf' Hdiv)
      as (ds & E & Hall & Hval & Hne & Hlen).
    exists (ds ++ [digit_char (n mod 10)]). split.
    { rewrite E, <- app_assoc. reflexivity. }
    split.
    { rewrite forallb_app, Hall. cbn [forallb]. rewrite Hd. reflexivity. }
    split.
    { rewrite digits_to_N_app, Hval, Hv.
      pose proof (N.div_mod n 10 ltac:(lia)). lia. }
    split.
    { destruct ds; discriminate. }
    intros _. rewrite length_app. cbn [length].
    replace (length ds + 1 - 1) with (S (length ds - 1))
      by (destruct ds; [congruence | simpl; lia]).
    rewrite Nat2N.inj_succ, N.pow_succ_r'.
    specialize (Hlen Hq).
    pose proof (N.div_mod n 10 ltac:(lia)). lia.
Qed.

Lemma decimal_digits (n : N) :
  exists ds,
    decimal n = ds
    /\ forallb is_digit ds = true
    /\ digits_to_N ds = n
    /\ ds <> []
    /\ (n <> 0%N -> (10 ^ N.of_nat (length ds - 1) <= n)%N).
Proof.
  unfold decimal, toStringRadix.
  assert (Hn : (n < 2 ^ N.of_nat (S (N.to_nat (N.log2 n))))%N).
  { rewrite Nat2N.inj_succ, N2Nat.id.
    destruct (N.eq_dec n 0) as [->|Hne]; [simpl; lia | ].
    apply N.log2_spec. lia. }
  destruct (@render_digits_decimal (S (N.to_nat (N.log2 n))) n []
              (Nat.neq_succ_0 _) Hn)
    as (ds & E & H).
  exists ds. rewrite E, app_nil_r. split; [reflexivity | exact H].
Qed.

Lemma decimal_length (n : N) :
  (n <= MAX_SAFE_INTEGER)%N -> length (decimal n) <= 16.
Proof.
  intros Hn. destruct (decimal_digits n) as (ds & E & _ & _ & Hne & Hlen).
  rewrite E. destruct (N.eq_dec n 0) as [->|Hz].
  - vm_compute in E. subst ds. simpl. lia.
  - specialize (Hlen Hz).
    destruct (Nat.le_gt_cases (length ds) 16) as [H|H]; [exact H | exfalso].
    assert (Hp : (10 ^ 16 <= 10 ^ N.of_nat (length ds - 1))%N)
      by (apply N.pow_le_mono_r; lia).
    unfold MAX_SAFE_INTEGER in Hn.
    change (10 ^ 16)%N with 10000000000000000%N in Hp. lia.
Qed.

Lemma drop_zeros (r : jsstring) :
  exists j, r = List.repeat 48%N j ++ drop_while (N.eqb 48) r.
Proof.
  induction r as [|c r (j & IH)]; [exists 0; reflexivity | ].
  cbn [drop_while]. destruct (N.eqb_spec 48 c) as [<-|Hne].
  - exists (S j). cbn [List.repeat app]. rewrite <- IH. reflexivity.
  - exists 0. reflexivity.
Qed.

Lemma strip_trailing_zeros_pads (l : jsstring) :
  strip_trailing_zeros l
  ++ List.repeat 48%N (length l - length (strip_trailing_zeros l))
  = l.
Proof.
  unfold strip_trailing_zeros.
  destruct (drop_zeros (rev l)) as (j & E).
  assert (El : l = rev (drop_while (N.eqb 48) (rev l)) ++ List.repeat 48%N j).
  { rewrite <- (rev_involutive l) at 1. rewrite E at 1.
    rewrite rev_app_distr, rev_repeat. reflexivity. }
  assert (Hlen : length l - length (rev (drop_while (N.eqb 48) (rev l))) = j).
  { rewrite El at 1. rewrite length_app, repeat_length. lia. }
  rewrite Hlen. symmetry. exact El.
Qed.

Lemma Number_toString_integer (negative : bool) (m : N) :
  (m <= MAX_SAFE_INTEGER)%N ->
  negative = false \/ m <> 0%N ->
  Number_toString (Decimal negative m 0) = integer_text negative m.
Proof.
  intros Hm Hz. unfold integer_text.
  destruct m as [|p].
  { destruct Hz as [-> | Hz]; [reflexivity | congruence]. }
  cbn [Number_toString]. f_equal.
  pose proof (decimal_length Hm) as Hlen.
  set (all := decimal (N.pos p)) in *.
  pose proof (strip_trailing_zeros_pads all) as Hpad.
  assert (Hs : length (strip_trailing_zeros all) <= length all).
  { rewrite <- Hpad at 2. rewrite length_app. lia. }
  rewrite Z.add_0_r.
  destruct (Z.leb_spec (Z.of_nat (length (strip_trailing_zeros all)))
              (Z.of_nat (length all))) as [_|H]; [ | lia].
  destruct (Z.leb_spec (Z.of_nat (length all)) 21) as [_|H]; [ | lia].
  cbn [andb].
  replace (Z.to_nat (Z.of_nat (length all)
                     - Z.of_nat (length (strip_trailing_zeros all))))
    with (length all - length (strip_trailing_zeros all)) by lia.
  exact Hpad.
Qed.

(** A numeral: digits, or a minus sign and digits. *)
Lemma is_digit_cases (c : N) :
  is_digit c = true ->
  is_space c = false /\ FLOAT c = true /\ END_OF_VALUE c = false
  /\ N.eqb c 45 = false /\ N.eqb c 43 = false /\ N.eqb c 95 = false
  /\ N.eqb c 58 = false /\ N.eqb DQUOTE c = false /\ N.eqb SQUOTE c = false
  /\ N.eqb c 73 = false.
Proof.
  intros H. pose proof (@is_digit_range c H) as R.
  unfold FLOAT, END_OF_VALUE, SPACE, TAB, CR, LF, HASH, DQUOTE, SQUOTE.
  rewrite H. cbn [orb].
  repeat match goal with
    | |- context [N.eqb ?a ?b] =>
        destruct (N.eqb_spec a b); [lia | ]
    end.
  cbn [orb]. repeat split.
  destruct (is_space c) eqn:Hs; [ | reflexivity].
  apply (@is_space_range c) in Hs. lia.
Qed.

Lemma date_prefix_shape (l : jsstring) :
  date_prefix l = true ->
  exists y1 y2 y3 y4 r,
    l = y1 :: y2 :: y3 :: y4 :: 45%N :: r
    /\ is_digit y1 = true /\ is_digit y2 = true /\ is_digit y3 = true
    /\ is_digit y4 = true.
Proof.
  unfold date_prefix.
  destruct l as [|y1 [|y2 [|y3 [|y4 [|d1 [|m1 [|m2 [|d2 [|a1 [|a2 r]]]]]]]]]];
    try discriminate.
  rewrite !andb_true_iff, !N.eqb_eq.
  intros (((((((((H1 & H2) & H3) & H4) & E) & _) & _) & _) & _) & _).
  subst d1. eexists y1, y2, y3, y4, _. repeat split; assumption.
Qed.

Lemma time_prefix_shape (l : jsstring) :
  time_prefix l = true ->
  exists h1 h2 r,
    l = h1 :: h2 :: 58%N :: r /\ is_digit h1 = true /\ is_digit h2 = true.
Proof.
  unfold time_prefix.
  destruct l as [|h1 [|h2 [|c1 [|m1 [|m2 [|c2 [|s1 [|s2 r]]]]]]]];
    try discriminate.
  rewrite !andb_true_iff, !N.eqb_eq.
  intros (((((((H1 & H2) & E) & _) & _) & _) & _) & _).
  subst c1. eexists h1, h2, _. repeat split; assumption.
Qed.

Ltac no_digit :=
  match goal with
  | H : is_digit ?c = true |- _ =>
      let c' := eval vm_compute in c in
      match c' with
      | Npos _ => vm_compute in H; discriminate H
      | N0 => vm_compute in H; discriminate H
      end
  | H : ?a = ?b :> N |- _ =>
      let a' := eval vm_compute in a in
      let b' := eval vm_compute in b in
      match a' with
      | Npos _ => match b' with Npos _ => vm_compute in H; discriminate H end
      end
  end.

Lemma digits_no_date (ds tail : jsstring) (n : nat) :
  forallb is_digit ds = true ->
  date_prefix (firstn (5 + n) (ds ++ LF :: tail)) = false.
Proof.
  intros Hd. destruct (date_prefix _) eqn:E; [exfalso | reflexivity].
  apply date_prefix_shape in E.
  destruct E as (y1 & y2 & y3 & y4 & r & E & H1 & H2 & H3 & H4).
  destruct ds as [|a [|b [|c [|d [|e ds]]]]]; cbn [app firstn Nat.add] in E;
    cbn [forallb] in Hd; rewrite ?andb_true_iff in Hd;
    injection E; intros; subst; try congruence; try no_digit.
  destruct Hd as (_ & _ & _ & _ & Hd & _). no_digit.
Qed.

Lemma digits_no_time (ds tail : jsstring) (n : nat) :
  forallb is_digit ds = true ->
  time_prefix (firstn (3 + n) (ds ++ LF :: tail)) = false.
Proof.
  intros Hd. destruct (time_prefix _) eqn:E; [exfalso | reflexivity].
  apply time_prefix_shape in E.
  destruct E as (h1 & h2 & r & E & H1 & H2).
  destruct ds as [|a [|b [|c ds]]]; cbn [app firstn Nat.add] in E;
    cbn [forallb] in Hd; rewrite ?andb_true_iff in Hd;
    injection E; intros; subst; try congruence; try no_digit.
  destruct Hd as (_ & _ & Hd & _). no_digit.
Qed.

(** The alternatives of Value in front of Float report a non-match on a
    numeral and leave the scanner where it is. *)
Lemma Symbols_misses (fuel : nat) (s : Scanner) (c : N) (l : jsstring) :
  rest s = c :: l ->
  is_space c = false ->
  forallb (fun pair : jsstring * value =>
             negb (jseq (firstn (length (fst pair)) (c :: l)) (fst pair)))
    symbolPairs = true ->
  Symbols (S fuel) s = Ret failure s.
Proof.
  intros Hr Hc Hno. unfold Symbols. unfold bind at 1.
  rewrite (@nextUntilChar_stays fuel opt_inline s c l Hr Hc eq_refl).
  reduce.
  match goal with
  | |- context [find ?f symbolPairs] =>
      assert (Hfind : find f symbolPairs = None)
  end.
  { unfold symbolPairs in *. cbn [find forallb fst] in *.
    rewrite !slice_rest, Hr.
    repeat match goal with
      | H : (negb ?x && _)%bool = true |- _ =>
          let H1 := fresh "H" in
          apply andb_prop in H; destruct H as [H1 H];
          apply negb_true_iff in H1; rewrite H1
      end.
    reflexivity. }
  rewrite Hfind. reflexivity.
Qed.

Lemma LocalTime_misses (fuel : nat) (s : Scanner) (c : N) (l : jsstring) :
  rest s = c :: l ->
  is_space c = false ->
  time_prefix (firstn 8 (c :: l)) = false ->
  LocalTime (S fuel) s = Ret failure s.
Proof.
  intros Hr Hc Hno. unfold LocalTime. unfold bind at 1.
  rewrite (@nextUntilChar_stays fuel opt_inline s c l Hr Hc eq_refl).
  reduce. rewrite slice_rest, Hr, Hno. reflexivity.
Qed.

Lemma digit_cases (c : N) :
  is_digit c = true ->
  In c [48; 49; 50; 51; 52; 53; 54; 55; 56; 57]%N.
Proof.
  intros H. pose proof (@is_digit_range _ H) as R.
  assert (E : (c = 48 \/ c = 49 \/ c = 50 \/ c = 51 \/ c = 52 \/ c = 53
               \/ c = 54 \/ c = 55 \/ c = 56 \/ c = 57)%N) by lia.
  simpl. repeat (destruct E as [E|E]; [subst c; auto 12 | ]).
  subst c. auto 12.
Qed.

Lemma numeral_no_symbol (c : N) (l : jsstring) :
  is_digit c = true
  \/ (c = 45%N /\ exists d l', l = d :: l' /\ is_digit d = true) ->
  forallb (fun pair : jsstring * value =>
             negb (jseq (firstn (length (fst pair)) (c :: l)) (fst pair)))
    symbolPairs = true.
Proof.
  intros [H | (-> & d & l' & -> & H)]; apply digit_cases in H; simpl in H;
    repeat (destruct H as [<-|H]; [reflexivity | ]); contradiction.
Qed.

Lemma skipn_step (A : Type) (p : nat) (l r : list A) (c : A) :
  skipn p l = c :: r -> nth_error l p = Some c /\ skipn (p + 1) l = r.
Proof.
  revert l. induction p as [|p IH]; intros l H.
  - simpl in H. subst l. split; reflexivity.
  - destruct l as [|x l]; [discriminate | ]. simpl in H.
    destruct (IH l H) as [H1 H2]. split; assumption.
Qed.

(** The lookahead of Float accepts a run of float characters that an end
    of value follows, without moving the scanner. *)
Lemma Float_lookahead_run (run : jsstring) :
  forall (fuel position : nat) (s : Scanner) (e : N) (tail : jsstring),
    skipn position (rest s) = run ++ e :: tail ->
    forallb (fun c => FLOAT c && negb (END_OF_VALUE c))%bool run = true ->
    END_OF_VALUE e = true ->
    length run < fuel ->
    Float_lookahead fuel position s = Ret true s.
Proof.
  induction run as [|c run IH]; intros fuel position s e tail Hr Hb He Hf.
  - destruct fuel as [|f]; [simpl in Hf; lia | ].
    destruct (@skipn_step _ _ _ _ _ Hr) as [Hc _].
    cbn [Float_lookahead]. reduce. rewrite char_rest, Hc, He. reflexivity.
  - destruct fuel as [|f]; [simpl in Hf; lia | ].
    cbn [app] in Hr. destruct (@skipn_step _ _ _ _ _ Hr) as [Hc Hr'].
    cbn [forallb] in Hb. apply andb_prop in Hb. destruct Hb as [Hcb Hb].
    apply andb_prop in Hcb. destruct Hcb as [Hfl Hend].
    apply negb_true_iff in Hend.
    cbn [Float_lookahead]. reduce. rewrite char_rest, Hc, Hend, Hfl.
    cbn [negb]. cbv beta iota.
    apply (IH f (position + 1) s e tail Hr' Hb He). simpl in Hf. lia.
Qed.

Lemma drop_while_all (class : N -> bool) (l : jsstring) :
  forallb class l = true -> drop_while class l = [].
Proof.
  induction l as [|c l IH]; [reflexivity | ]. simpl. intros H.
  apply andb_prop in H. destruct H as [Hc H]. rewrite Hc. exact (IH H).
Qed.

Lemma filter_digits (l : jsstring) :
  forallb is_digit l = true -> filter not_underscore l = l.
Proof.
  induction l as [|c l IH]; [reflexivity | ]. simpl. intros H.
  apply andb_prop in H. destruct H as [Hc H].
  destruct (@is_digit_cases _ Hc) as (_ & _ & _ & _ & _ & Hu & _).
  unfold not_underscore at 1. rewrite Hu, (IH H). reflexivity.
Qed.

(** [parseFloat] on an integer numeral. *)
Lemma parseFloat_integer (negative : bool) (ds : jsstring) :
  ds <> [] ->
  forallb is_digit ds = true ->
  parseFloat ((if negative then str "-" else []) ++ ds)
  = Decimal negative (digits_to_N ds) 0.
Proof.
  intros Hne Hd. destruct ds as [|d r]; [congruence | ].
  assert (Hd0 := Hd). cbn [forallb] in Hd0. apply andb_prop in Hd0.
  destruct Hd0 as [Hdig _].
  destruct (@is_digit_cases _ Hdig) as (_ & _ & _ & H45 & H43 & _ & _ & _ & _ & HI).
  unfold parseFloat.
  assert (Hsplit : split_sign ((if negative then str "-" else []) ++ d :: r)
                   = (negative, d :: r)).
  { destruct negative; [reflexivity | ].
    cbn [app split_sign]. rewrite H45, H43. reflexivity. }
  rewrite Hsplit.
  assert (HInf : jseq (firstn 8 (d :: r)) (str "Infinity") = false).
  { cbn [firstn jseq str list_ascii_of_string map].
    change (cu "I"%char) with 73%N. rewrite HI. reflexivity. }
  rewrite HInf, (@take_while_all _ _ Hd), (@drop_while_all _ _ Hd).
  rewrite app_nil_r. reflexivity.
Qed.

(** Float reads an integer numeral that a line feed follows. *)
Lemma Float_reads_integer (negative : bool) (ds tail : jsstring)
    (fuel : nat) (s : Scanner) :
  ds <> [] ->
  forallb is_digit ds = true ->
  rest s = (if negative then str "-" else []) ++ ds ++ LF :: tail ->
  length ds + 2 < fuel ->
  Float fuel s
  = Ret (success (Num (Decimal negative (digits_to_N ds) 0)))
      (advance s (length ((if negative then str "-" else []) ++ ds))).
Proof.
  intros Hne Hd Hr Hf.
  destruct fuel as [|f]; [lia | ].
  assert (Hfloat : forallb (fun c => FLOAT c && negb (END_OF_VALUE c))%bool ds
                   = true).
  { apply forallb_forall. intros c Hin.
    pose proof (proj1 (forallb_forall _ _) Hd c Hin) as Hc.
    destruct (@is_digit_cases _ Hc) as (_ & H1 & H2 & _).
    rewrite H1, H2. reflexivity. }
  assert (Hfl : forallb FLOAT ds = true).
  { apply forallb_forall. intros c Hin.
    pose proof (proj1 (forallb_forall _ _) Hd c Hin) as Hc.
    destruct (@is_digit_cases _ Hc) as (_ & H1 & _). exact H1. }
  assert (Hhead : exists c l, rest s = c :: l /\ is_space c = false).
  { destruct negative.
    - eexists _, _. split; [exact Hr | reflexivity].
    - destruct ds as [|d r]; [congruence | ].
      eexists _, _. split; [exact Hr | ].
      cbn [forallb] in Hd. apply andb_prop in Hd. destruct Hd as [Hc _].
      destruct (@is_digit_cases _ Hc) as (H1 & _). exact H1. }
  destruct Hhead as (c & l & Hcl & Hsp).
  unfold Float. unfold bind at 1.
  rewrite (@nextUntilChar_stays f opt_inline s c l Hcl Hsp eq_refl).
  unfold bind at 1.
  assert (Hlook : Float_lookahead (S f) 0 s = Ret true s).
  { apply (@Float_lookahead_run ((if negative then str "-" else []) ++ ds)
             (S f) 0 s LF tail).
    - cbn [skipn]. rewrite Hr, <- app_assoc. reflexivity.
    - rewrite forallb_app, Hfloat. destruct negative; reflexivity.
    - reflexivity.
    - rewrite length_app. destruct negative; simpl; lia. }
  rewrite Hlook. cbv beta iota.
  destruct negative.
  - cbn [app str list_ascii_of_string map] in Hr.
    change (cu "-"%char) with 45%N in Hr.
    unfold bind at 1. unfold peek at 1. rewrite char_rest, Hr.
    cbn [nth_error test is_sign N.eqb Pos.eqb orb]. cbv beta iota.
    unfold bind at 1. unfold bind at 1. unfold next at 1. unfold ret at 1.
    unfold bind at 1.
    rewrite (@scan_while_run ds FLOAT (S f) (chars (Some 45%N))
               (advance s 1) (LF :: tail)
               (@rest_advance_cons _ _ _ Hr) Hfl eq_refl ltac:(lia)).
    cbn [chars app length Nat.eqb]. cbv beta iota.
    cbn [filter]. change (not_underscore 45) with true. cbv beta iota.
    rewrite (@filter_digits _ Hd).
    change (45%N :: ds) with (str "-" ++ ds).
    rewrite (@parseFloat_integer true _ Hne Hd). cbn [isNaN]. cbv beta iota.
    unfold ret. cbn [app length str list_ascii_of_string map].
    rewrite advance_advance. reflexivity.
  - cbn [app] in Hr |- *.
    assert (Hsign : test is_sign (char s 0) = false).
    { rewrite char_rest, Hcl. cbn [nth_error test].
      destruct ds as [|d r]; [congruence | ].
      cbn [app] in Hr. rewrite Hcl in Hr. injection Hr as -> _.
      cbn [forallb] in Hd. apply andb_prop in Hd. destruct Hd as [Hc _].
      destruct (@is_digit_cases _ Hc) as (_ & _ & _ & H45 & H43 & _).
      unfold is_sign. rewrite H45, H43. reflexivity. }
    unfold bind at 1. unfold peek at 1. rewrite Hsign. cbv beta iota.
    unfold bind at 1. unfold ret at 1. unfold bind at 1.
    rewrite (@scan_while_run ds FLOAT (S f) [] s (LF :: tail)
               Hr Hfl eq_refl ltac:(lia)).
    cbn [app].
    assert (Hlen : Nat.eqb (length ds) 0 = false).
    { destruct ds; [congruence | reflexivity]. }
    rewrite Hlen. cbv beta iota.
    rewrite (@filter_digits _ Hd).
    pose proof (@parseFloat_integer false _ Hne Hd) as Hp.
    cbn [app] in Hp. rewrite Hp. cbn [isNaN]. cbv beta iota.
    reflexivity.
Qed.

Lemma DateTime_misses (fuel : nat) (s : Scanner) (c : N) (l : jsstring) :
  rest s = c :: l ->
  is_space c = false ->
  date_prefix (firstn 10 (c :: l)) = false ->
  DateTime (S fuel) s = Ret failure s.
Proof.
  intros Hr Hc Hno. unfold DateTime. unfold bind at 1.
  rewrite (@nextUntilChar_stays fuel opt_inline s c l Hr Hc eq_refl).
  reduce. rewrite slice_rest, Hr, Hno. reflexivity.
Qed.

(** The full skip at the end of the input. *)
Lemma nextUntilChar_at_end (fuel : nat) (options : SkipOptions) (s : Scanner) :
  rest s = [] ->
  nextUntilChar (S fuel) options s = Ret tt s.
Proof.
  intros Hr.
  assert (He : eof s = true) by (apply eof_at_end; exact Hr).
  assert (Hc : char s 0 = None) by (rewrite char_rest, Hr; reflexivity).
  assert (Heol : isCurrentCharEOL s = false).
  { unfold isCurrentCharEOL. rewrite Hc, slice_rest, Hr. reflexivity. }
  unfold nextUntilChar. reduce.
  destruct (inline options); cbn [skip_inline skip_full]; reduce.
  - rewrite Hc. cbn [test andb]. cbv beta iota. rewrite Heol, Hc.
    reflexivity.
  - rewrite He. cbv beta iota. rewrite Heol, Hc. reflexivity.
Qed.

(** The full skip over blanks that end the input. *)
Lemma nextUntilChar_blanks_to_end (ws : jsstring) (fuel : nat)
    (with_comment : bool) (s : Scanner) :
  rest s = ws ->
  forallb blank ws = true ->
  length ws < fuel ->
  nextUntilChar fuel (mkOptions false with_comment) s
  = Ret tt (advance s (length ws)).
Proof.
  intros Hr Hb Hf.
  replace fuel with (length ws + S (fuel - length ws - 1)) by lia.
  rewrite <- (app_nil_r ws) in Hr.
  pose proof (@nextUntilChar_at_end (fuel - length ws - 1)
                (mkOptions false with_comment) (advance s (length ws))
                (@rest_advance_app _ _ _ Hr)) as Hend.
  unfold nextUntilChar in *. cbn [inline comment] in *.
  unfold bind at 1. unfold bind at 1 in Hend.
  rewrite (@skip_full_blanks ws _ with_comment s [] Hr Hb). exact Hend.
Qed.

(** The recognizers of strings report a non-match, and stay where they are,
    in front of a character that is not their delimiter. *)
Lemma MultilineBasicString_misses (fuel : nat) (s : Scanner) (c : N)
    (l : jsstring) :
  rest s = c :: l ->
  is_space c = false ->
  jseq (firstn 3 (c :: l)) (three DQUOTE) = false ->
  MultilineBasicString (S fuel) s = Ret failure s.
Proof.
  intros Hr Hc Hq. unfold MultilineBasicString. unfold bind at 1.
  rewrite (@nextUntilChar_stays fuel opt_inline s c l Hr Hc eq_refl).
  reduce. rewrite slice_rest, Hr, Hq. reflexivity.
Qed.

Lemma MultilineLiteralString_misses (fuel : nat) (s : Scanner) (c : N)
    (l : jsstring) :
  rest s = c :: l ->
  is_space c = false ->
  jseq (firstn 3 (c :: l)) (three SQUOTE) = false ->
  MultilineLiteralString (S fuel) s = Ret failure s.
Proof.
  intros Hr Hc Hq. unfold MultilineLiteralString. unfold bind at 1.
  rewrite (@nextUntilChar_stays fuel opt_inline s c l Hr Hc eq_refl).
  reduce. rewrite slice_rest, Hr, Hq. reflexivity.
Qed.

Lemma BasicString_misses (fuel : nat) (s : Scanner) (c : N) (l : jsstring) :
  rest s = c :: l ->
  is_space c = false ->
  N.eqb DQUOTE c = false ->
  BasicString (S fuel) s = Ret failure s.
Proof.
  intros Hr Hc Hq. unfold BasicString. unfold bind at 1.
  rewrite (@nextUntilChar_stays fuel opt_inline s c l Hr Hc eq_refl).
  reduce. rewrite char_rest, Hr. cbn [nth_error is_char test]. rewrite Hq.
  reflexivity.
Qed.

Lemma LiteralString_misses (fuel : nat) (s : Scanner) (c : N) (l : jsstring) :
  rest s = c :: l ->
  is_space c = false ->
  N.eqb SQUOTE c = false ->
  LiteralString (S fuel) s = Ret failure s.
Proof.
  intros Hr Hc Hq. unfold LiteralString. unfold bind at 1.
  rewrite (@nextUntilChar_stays fuel opt_inline s c l Hr Hc eq_refl).
  reduce. rewrite char_rest, Hr. cbn [nth_error is_char test]. rewrite Hq.
  reflexivity.
Qed.

(** What JSON.stringify writes for a string never starts with a quote. *)
Lemma json_escape_head (c : N) (r : jsstring) :
  exists h l, json_escape (c :: r) = h :: l /\ N.eqb h DQUOTE = false.
Proof.
  cbn [json_escape].
  repeat match goal with
    | |- context [if N.eqb c ?x then _ else _] =>
        destruct (N.eqb_spec c x); [eexists _, _; split; reflexivity | ]
    end.
  destruct (N.ltb c 32); [eexists _, _; split; reflexivity | ].
  assert (Hq : N.eqb c DQUOTE = false) by (apply N.eqb_neq; assumption).
  destruct (is_high_surrogate c).
  - destruct r as [|d r']; [eexists _, _; split; reflexivity | ].
    destruct (is_low_surrogate d); eexists _, _; split;
      try reflexivity; exact Hq.
  - destruct (is_low_surrogate c); eexists _, _; split;
      try reflexivity; exact Hq.
Qed.

(** Value reads back a string that JSON.stringify wrote at the end of a
    line. *)
Lemma Value_reads_string (text tail : jsstring) (fuel : nat) (s : Scanner) :
  rest s = JSON_string text ++ LF :: tail ->
  length (JSON_string text) + 1 < fuel ->
  Value fuel s
  = Ret (success (Str text)) (advance s (length (JSON_string text))).
Proof.
  intros Hr Hf.
  assert (Hlen : 2 <= length (JSON_string text)).
  { unfold JSON_string, quoted. cbn [length]. rewrite length_app. simpl. lia. }
  destruct fuel as [|[|f]]; [lia | lia | ].
  assert (Hr' : rest s = DQUOTE :: (json_escape text ++ [DQUOTE]) ++ LF :: tail)
    by exact Hr.
  assert (Hthree : jseq (firstn 3 (DQUOTE :: (json_escape text ++ [DQUOTE])
                                   ++ LF :: tail)) (three DQUOTE) = false).
  { destruct text as [|c r]; [reflexivity | ].
    destruct (json_escape_head c r) as (h & l & E & Hh). rewrite E.
    cbn [app firstn three jseq]. rewrite Hh. cbn [andb].
    apply andb_false_r. }
  cbn [Value or]. unfold string_value. unfold bind at 1.
  unfold bind at 1.
  rewrite (@MultilineBasicString_misses f s DQUOTE _ Hr' eq_refl Hthree).
  cbn [ok]. cbv beta iota. unfold ret at 1. cbn [ok]. cbv beta iota.
  unfold bind at 1. unfold bind at 1.
  rewrite (@MultilineLiteralString_misses f s DQUOTE _ Hr' eq_refl eq_refl).
  cbv beta iota. unfold ret at 1. cbn [ok]. cbv beta iota.
  unfold bind at 1. unfold bind at 1.
  rewrite (@BasicString_reads_json text (LF :: tail) (S f) s Hr) by lia.
  reflexivity.
Qed.

Lemma key_text_first (k : jsstring) :
  exists c l, key_text k = c :: l /\ (c = DQUOTE \/ BARE_KEY c = true).
Proof.
  unfold key_text. destruct (needs_quotes k) eqn:Hq.
  - eexists DQUOTE, _. split; [reflexivity | left; reflexivity].
  - destruct (bare_key_text k Hq) as [Hne Hb].
    destruct k as [|c k]; [congruence | ].
    exists c, k. split; [reflexivity | right].
    simpl in Hb. apply andb_prop in Hb. apply Hb.
Qed.

Lemma joinKeys_first (keys : list jsstring) :
  keys <> [] ->
  exists c l, joinKeys keys = c :: l /\ (c = DQUOTE \/ BARE_KEY c = true).
Proof.
  intros Hne. destruct keys as [|k keys]; [congruence | ].
  rewrite joinKeys_cons. destruct (key_text_first k) as (c & l & E & H).
  exists c, (l ++ dotted keys). rewrite E. split; [reflexivity | exact H].
Qed.

Lemma key_start (c : N) :
  c = DQUOTE \/ BARE_KEY c = true ->
  is_space c = false /\ N.eqb c HASH = false /\ N.eqb 91 c = false.
Proof.
  intros [-> | H]; [repeat split | ].
  split; [apply BARE_KEY_not_space; exact H | ].
  split; apply N.eqb_neq; intros E; subst c; discriminate H.
Qed.

(** A key/value pair as the serializer declares it. *)
Lemma Pair_reads_declaration (keys : list jsstring) (vtext : jsstring)
    (v : value) (c : N) (l tail : jsstring) (fuel : nat) (s : Scanner) :
  keys <> [] ->
  forallb plain_key keys = true ->
  default_values v = v ->
  rest s = declaration keys ++ vtext ++ tail ->
  vtext = c :: l ->
  is_space c = false ->
  Value fuel (advance s (length (declaration keys)))
  = Ret (success v) (advance s (length (declaration keys) + length vtext)) ->
  length (declaration keys) < fuel ->
  Pair fuel s
  = Ret (success (nest keys v))
      (advance s (length (declaration keys) + length vtext)).
Proof.
  intros Hne Hk Hdef Hr Hv Hc Hval Hf.
  unfold declaration in *. rewrite length_app in Hf, Hval |- *.
  change (length (str " = ")) with 3 in Hf, Hval |- *.
  rewrite <- app_assoc in Hr.
  unfold Pair, Pair_of, kv. unfold bind at 1.
  assert (Hr0 : rest s = joinKeys keys ++ [SPACE] ++ 61%N
                         :: (SPACE :: vtext ++ tail)) by exact Hr.
  rewrite (@DottedKey_reads_joinKeys keys fuel s [SPACE] 61%N _ Hne Hr0
             eq_refl eq_refl eq_refl) by (try discriminate; simpl; lia).
  assert (Hr1 : rest (advance s (length (joinKeys keys) + length [SPACE]))
                = str "=" ++ [SPACE] ++ c :: l ++ tail).
  { rewrite <- advance_advance.
    rewrite (@rest_advance_app _ _ _
               (@rest_advance_app _ _ _ Hr0)), Hv. reflexivity. }
  unfold bind at 1.
  rewrite (@character_reads fuel (str "=") [SPACE] _ 61%N c [] _ eq_refl Hr1
             eq_refl eq_refl Hc) by (simpl; lia).
  cbn [ok]. cbv beta iota. unfold bind at 1.
  rewrite !advance_advance.
  replace (length (joinKeys keys) + length [SPACE]
           + (length (str "=") + length [SPACE]))
    with (length (joinKeys keys) + 3) by (simpl; lia).
  rewrite Hval. rewrite (@unflat_nest keys v Hne Hk), Hdef. reflexivity.
Qed.

(** The full skip over blanks in front of content. *)
Lemma nextUntilChar_blanks_run (ws : jsstring) (fuel : nat)
    (with_comment : bool) (s : Scanner) (c : N) (tail : jsstring) :
  rest s = ws ++ c :: tail ->
  forallb blank ws = true ->
  is_space c = false ->
  (with_comment && N.eqb c HASH)%bool = false ->
  length ws < fuel ->
  nextUntilChar fuel (mkOptions false with_comment) s
  = Ret tt (advance s (length ws)).
Proof.
  intros Hr Hb Hc Hh Hf.
  replace fuel with (length ws + S (fuel - length ws - 1)) by lia.
  pose proof (@nextUntilChar_stays (fuel - length ws - 1)
                (mkOptions false with_comment) (advance s (length ws)) c tail
                (@rest_advance_app _ _ _ Hr) Hc Hh) as Hstay.
  unfold nextUntilChar in *. cbn [inline comment] in *.
  unfold bind at 1. unfold bind at 1 in Hstay.
  rewrite (@skip_full_blanks ws _ with_comment s _ Hr Hb). exact Hstay.
Qed.

Lemma integer_text_head (negative : bool) (m : N) :
  exists c l,
    integer_text negative m = c :: l
    /\ is_space c = false /\ N.eqb DQUOTE c = false
    /\ N.eqb SQUOTE c = false
    /\ (is_digit c = true
        \/ (c = 45%N /\ exists d l', l = d :: l' /\ is_digit d = true)).
Proof.
  unfold integer_text.
  destruct (decimal_digits m) as (ds & -> & Hd & _ & Hne & _).
  destruct ds as [|d r]; [congruence | ].
  cbn [forallb] in Hd. apply andb_prop in Hd. destruct Hd as [Hc _].
  destruct negative.
  - eexists 45%N, _. split; [reflexivity | ].
    repeat split; try reflexivity. right. split; [reflexivity | ].
    exists d, r. split; [reflexivity | exact Hc].
  - eexists d, _. split; [reflexivity | ].
    destruct (@is_digit_cases _ Hc)
      as (H1 & _ & _ & _ & _ & _ & _ & H2 & H3 & _).
    repeat split; try assumption. left. exact Hc.
Qed.

Lemma scalar_text_head (v : value) :
  scalar v = true ->
  exists c l, scalar_text v = c :: l /\ is_space c = false.
Proof.
  destruct v as [ | text | [ | negative | negative m e ] | [|] | | | | ];
    try discriminate;
    intros _; try (eexists _, _; split; reflexivity).
  - destruct negative; eexists _, _; split; reflexivity.
  - cbn [scalar_text].
    destruct (integer_text_head negative m) as (c & l & E & H & _).
    exists c, l. split; assumption.
Qed.

(** Value reads an integer numeral at the end of a line, through Float. *)
Lemma Value_reads_integer (negative : bool) (m : N) (tail : jsstring)
    (fuel : nat) (s : Scanner) :
  rest s = integer_text negative m ++ LF :: tail ->
  length (integer_text negative m) + 3 < fuel ->
  Value fuel s
  = Ret (success (Num (Decimal negative m 0)))
      (advance s (length (integer_text negative m))).
Proof.
  intros Hr Hf.
  destruct (integer_text_head negative m)
    as (c & l & E & Hc & Hd & Hq & Hnum).
  destruct (decimal_digits m) as (ds & Eds & Hds & Hval & Hne & _).
  destruct fuel as [|[|f]]; [lia | lia | ].
  assert (Hr' : rest s = c :: l ++ LF :: tail) by (rewrite Hr, E; reflexivity).
  assert (Hnodate : date_prefix (firstn 10 (c :: l ++ LF :: tail)) = false).
  { unfold integer_text in E. rewrite Eds in E. destruct negative.
    - injection E as <- _.
      destruct (date_prefix _) eqn:D; [exfalso | reflexivity].
      apply date_prefix_shape in D.
      destruct D as (y1 & y2 & y3 & y4 & r & D & H1 & _).
      cbn [firstn] in D. injection D as <- _. no_digit.
    - cbn [app] in E.
      change (c :: l ++ LF :: tail) with ((c :: l) ++ LF :: tail).
      rewrite <- E. apply (@digits_no_date ds tail 5 Hds). }
  assert (Hnotime : time_prefix (firstn 8 (c :: l ++ LF :: tail)) = false).
  { unfold integer_text in E. rewrite Eds in E. destruct negative.
    - injection E as <- _.
      destruct (time_prefix _) eqn:D; [exfalso | reflexivity].
      apply time_prefix_shape in D.
      destruct D as (h1 & h2 & r & D & H1 & _).
      cbn [firstn] in D. injection D as <- _. no_digit.
    - cbn [app] in E.
      change (c :: l ++ LF :: tail) with ((c :: l) ++ LF :: tail).
      rewrite <- E. apply (@digits_no_time ds tail 5 Hds). }
  assert (Hnosym := @numeral_no_symbol c (l ++ LF :: tail)).
  cbn [Value or]. unfold string_value. unfold bind at 1.
  unfold bind at 1.
  rewrite (@MultilineBasicString_misses f s c _ Hr' Hc).
  2:{ cbn [firstn three jseq]. rewrite N.eqb_sym, Hd. reflexivity. }
  cbv beta iota. unfold ret at 1. cbn [ok]. cbv beta iota.
  unfold bind at 1. unfold bind at 1.
  rewrite (@MultilineLiteralString_misses f s c _ Hr' Hc).
  2:{ cbn [firstn three jseq]. rewrite N.eqb_sym, Hq. reflexivity. }
  cbv beta iota. unfold ret at 1. cbn [ok]. cbv beta iota.
  unfold bind at 1. unfold bind at 1.
  rewrite (@BasicString_misses f s c _ Hr' Hc Hd).
  cbv beta iota. unfold ret at 1. cbn [ok]. cbv beta iota.
  unfold bind at 1. unfold bind at 1.
  rewrite (@LiteralString_misses f s c _ Hr' Hc Hq).
  cbv beta iota. unfold ret at 1. cbn [ok]. cbv beta iota.
  unfold bind at 1.
  rewrite (@Symbols_misses f s c _ Hr' Hc).
  2:{ apply Hnosym. destruct Hnum as [H | (-> & d & l' & -> & H)].
      - left. exact H.
      - right. split; [reflexivity | ]. exists d, (l' ++ LF :: tail).
        split; [reflexivity | exact H]. }
  cbn [ok]. cbv beta iota. unfold bind at 1.
  rewrite (@DateTime_misses f s c _ Hr' Hc Hnodate).
  cbn [ok]. cbv beta iota. unfold bind at 1.
  rewrite (@LocalTime_misses f s c _ Hr' Hc Hnotime).
  cbn [ok]. cbv beta iota. unfold bind at 1.
  unfold integer_text in Hr, Hf |- *. rewrite Eds in Hr, Hf |- *.
  rewrite <- app_assoc in Hr. rewrite length_app in Hf.
  rewrite (@Float_reads_integer negative ds tail (S f) s Hne Hds Hr
             ltac:(lia)).
  rewrite Hval. reflexivity.
Qed.

Lemma Value_reads_symbol (literal : jsstring) (v : value) (c : N)
    (l tail : jsstring) (fuel : nat) (s : Scanner) :
  In (literal, v) symbolPairs ->
  literal = c :: l ->
  is_space c = false ->
  N.eqb DQUOTE c = false ->
  N.eqb SQUOTE c = false ->
  rest s = literal ++ tail ->
  1 < fuel ->
  Value fuel s = Ret (success v) (advance s (length literal)).
Proof.
  intros Hin Hl Hc Hd Hq Hr Hf.
  destruct fuel as [|[|f]]; [lia | lia | ].
  assert (Hr' : rest s = c :: l ++ tail) by (rewrite Hr, Hl; reflexivity).
  cbn [Value or]. unfold string_value. unfold bind at 1.
  unfold bind at 1.
  rewrite (@MultilineBasicString_misses f s c _ Hr' Hc).
  2:{ cbn [firstn three jseq]. rewrite N.eqb_sym, Hd. reflexivity. }
  cbv beta iota. unfold ret at 1. cbn [ok]. cbv beta iota.
  unfold bind at 1. unfold bind at 1.
  rewrite (@MultilineLiteralString_misses f s c _ Hr' Hc).
  2:{ cbn [firstn three jseq]. rewrite N.eqb_sym, Hq. reflexivity. }
  cbv beta iota. unfold ret at 1. cbn [ok]. cbv beta iota.
  unfold bind at 1. unfold bind at 1.
  rewrite (@BasicString_misses f s c _ Hr' Hc Hd).
  cbv beta iota. unfold ret at 1. cbn [ok]. cbv beta iota.
  unfold bind at 1. unfold bind at 1.
  rewrite (@LiteralString_misses f s c _ Hr' Hc Hq).
  cbv beta iota. unfold ret at 1. cbn [ok]. cbv beta iota.
  unfold bind at 1.
  rewrite (@Symbols_reads literal v f s tail Hin Hr).
  reflexivity.
Qed.

Lemma Value_reads_scalar (v : value) (tail : jsstring) (fuel : nat)
    (s : Scanner) :
  scalar v = true ->
  rest s = scalar_text v ++ LF :: tail ->
  length (scalar_text v) + 3 < fuel ->
  Value fuel s = Ret (success v) (advance s (length (scalar_text v))).
Proof.
  intros Hv Hr Hf.
  destruct v as [ | text | [ | negative | negative m e ] | [|] | | | | ];
    try discriminate.
  - cbn [scalar_text] in Hr, Hf.
    apply (@Value_reads_string text tail fuel s Hr). lia.
  - destruct negative.
    + apply (@Value_reads_symbol (str "-inf") _ 45%N (str "inf") (LF :: tail)
               fuel s);
        try reflexivity; try exact Hr; [simpl; auto 10 | simpl in Hf; lia].
    + apply (@Value_reads_symbol (str "inf") _ 105%N (str "nf") (LF :: tail)
               fuel s);
        try reflexivity; try exact Hr; [simpl; auto 10 | simpl in Hf; lia].
  - cbn [scalar] in Hv. rewrite !andb_true_iff in Hv.
    destruct Hv as [[He _] _]. apply Z.eqb_eq in He. subst e.
    cbn [scalar_text] in Hr, Hf |- *.
    apply (@Value_reads_integer negative m tail fuel s Hr Hf).
  - apply (@Value_reads_symbol (str "true") _ 116%N (str "rue") (LF :: tail)
               fuel s);
      try reflexivity; try exact Hr; [simpl; auto 10 | simpl in Hf; lia].
  - apply (@Value_reads_symbol (str "false") _ 102%N (str "alse") (LF :: tail)
               fuel s);
      try reflexivity; try exact Hr; [simpl; auto 10 | simpl in Hf; lia].
Qed.

Lemma scalar_document_head (props : properties) :
  props <> [] ->
  exists c l, scalar_document props = c :: l
              /\ is_space c = false /\ N.eqb c HASH = false.
Proof.
  intros Hne. destruct props as [|[k v] props]; [congruence | ].
  unfold scalar_document, scalar_line, declaration. cbn [map concat fst snd].
  destruct (@joinKeys_first [k] ltac:(discriminate)) as (c & l & E & H).
  rewrite E. destruct (key_start H) as (Hs & Hh & _).
  eexists c, _. split; [reflexivity | ]. split; assumption.
Qed.

Lemma scalar_default (v : value) : scalar v = true -> default_values v = v.
Proof. destruct v; try discriminate; reflexivity. Qed.

(** The loop of repeat over the lines of a table of scalars. *)
Lemma repeat_loop_lines (props : properties) :
  forall (fuel limit : nat) (acc : list value) (s : Scanner),
    forallb (fun kv => scalar (snd kv)) props = true ->
    forallb (fun kv => plain_key (fst kv)) props = true ->
    rest s = scalar_document props ->
    length (scalar_document props) + 1 < limit ->
    length props + 1 < fuel ->
    repeat_loop fuel (Pair limit) acc s
    = Ret (acc ++ map record props)
        (advance s (length (scalar_document props))).
Proof.
  induction props as [|[k v] props IH];
    intros fuel limit acc s Hv Hk Hr Hl Hf.
  - destruct fuel as [|f]; [simpl in Hf; lia | ].
    cbn [repeat_loop]. reduce. rewrite (eof_at_end _ Hr). cbv beta iota.
    cbn [map scalar_document concat length]. rewrite app_nil_r, advance_zero.
    reflexivity.
  - cbn [forallb snd] in Hv. apply andb_prop in Hv. destruct Hv as [Hs Hv].
    cbn [forallb fst] in Hk. apply andb_prop in Hk. destruct Hk as [Hk0 Hk].
    assert (Hkeys : forallb plain_key [k] = true)
      by (cbn [forallb]; rewrite Hk0; reflexivity).
    unfold scalar_document in Hr, Hl |- *. cbn [map concat] in Hr, Hl |- *.
    fold (scalar_document props) in Hr, Hl |- *.
    unfold scalar_line in Hr, Hl |- *. cbn [fst snd] in Hr, Hl |- *.
    rewrite <- !app_assoc in Hr. cbn [app] in Hr.
    rewrite !length_app in Hl |- *. cbn [length] in Hl |- *.
    destruct (scalar_text_head v Hs) as (c & l & Ht & Hc).
    destruct fuel as [|f]; [simpl in Hf; lia | ].
    assert (He : eof s = false).
    { destruct (@joinKeys_first [k] ltac:(discriminate)) as (h & t & E & _).
      unfold declaration in Hr. rewrite E in Hr.
      exact (@eof_rest s _ _ Hr). }
    assert (Hr1 : rest (advance s (length (declaration [k])))
                  = scalar_text v ++ LF :: scalar_document props)
      by apply (@rest_advance_app _ _ _ Hr).
    assert (Hdecl : 3 <= length (declaration [k])).
    { unfold declaration. rewrite length_app. simpl. lia. }
    assert (Hval := @Value_reads_scalar v (scalar_document props) limit _
                      Hs Hr1 ltac:(lia)).
    rewrite advance_advance in Hval.
    assert (Hpair := @Pair_reads_declaration [k] (scalar_text v) v c l
                       (LF :: scalar_document props) limit s
                       ltac:(discriminate) Hkeys (scalar_default v Hs)
                       Hr Ht Hc Hval ltac:(lia)).
    cbn [repeat_loop]. reduce. rewrite He. cbv beta iota. rewrite Hpair.
    assert (Hr2 : rest (advance s (length (declaration [k])
                                   + length (scalar_text v)))
                  = [LF] ++ scalar_document props).
    { rewrite <- advance_advance.
      apply (@rest_advance_app _ _ _ Hr1). }
    assert (Hskip : nextUntilChar f opt_default
                      (advance s (length (declaration [k])
                                  + length (scalar_text v)))
                    = Ret tt (advance s (length (declaration [k])
                                         + length (scalar_text v) + 1))).
    { change opt_default with (mkOptions false true).
      destruct props as [|kv props'].
      - rewrite (@nextUntilChar_blanks_to_end [LF] f true _ Hr2 eq_refl)
          by (simpl in *; lia).
        rewrite advance_advance. reflexivity.
      - destruct (@scalar_document_head (kv :: props') ltac:(discriminate))
          as (h & t & E & Hh & Hhash).
        rewrite E in Hr2.
        rewrite (@nextUntilChar_blanks_run [LF] f true _ h t Hr2 eq_refl Hh)
          by (simpl in *; try lia; exact Hhash).
        rewrite advance_advance. reflexivity. }
    rewrite Hskip.
    rewrite (IH f limit (acc ++ [nest [k] v])
               (advance s (length (declaration [k]) + length (scalar_text v)
                           + 1)) Hv Hk).
    + rewrite <- app_assoc. cbn [app map record fst snd nest fold_right].
      cursor.
    + rewrite <- advance_advance. rewrite rest_advance, Hr2. reflexivity.
    + lia.
    + simpl in Hf. lia.
Qed.

Lemma jseq_sym (a b : jsstring) : jseq a b = jseq b a.
Proof.
  revert b. induction a as [|x a IH]; destruct b as [|y b]; simpl;
    try reflexivity.
  rewrite IH, N.eqb_sym. reflexivity.
Qed.

Lemma get_absent (props : properties) (k : jsstring) :
  existsb (jseq k) (map fst props) = false -> get props k = Undefined.
Proof.
  induction props as [|[k' v] props IH]; simpl; [reflexivity | ].
  intros H. apply orb_false_elim in H. destruct H as [Hk H].
  rewrite jseq_sym, Hk. apply IH. exact H.
Qed.

Lemma set_absent (props : properties) (k : jsstring) (v : value) :
  existsb (jseq k) (map fst props) = false ->
  set props k v = props ++ [(k, v)].
Proof.
  induction props as [|[k' w] props IH]; simpl; [reflexivity | ].
  intros H. apply orb_false_elim in H. destruct H as [Hk H].
  rewrite jseq_sym, Hk, (IH H). reflexivity.
Qed.

Lemma distinct_absent (acc : properties) (k : jsstring) (v : value)
    (l : properties) :
  distinct (map fst (acc ++ (k, v) :: l)) = true ->
  existsb (jseq k) (map fst acc) = false.
Proof.
  induction acc as [|[k' w] acc IH]; simpl; [reflexivity | ].
  intros H. apply andb_prop in H. destruct H as [Hk H].
  apply negb_true_iff in Hk. rewrite map_app, existsb_app in Hk.
  apply orb_false_elim in Hk. destruct Hk as [_ Hk]. simpl in Hk.
  apply orb_false_elim in Hk. destruct Hk as [Hk _].
  rewrite jseq_sym, Hk. apply IH. exact H.
Qed.

(** Merging the records of distinct keys, one after the other, collects
    them in their order. *)
Lemma fold_deepMerge_records (props : properties) :
  forall acc : properties,
    distinct (map fst (acc ++ props)) = true ->
    fold_left deepMerge (map record props) (Obj acc) = Obj (acc ++ props).
Proof.
  induction props as [|[k v] props IH]; intros acc Hd.
  - simpl. rewrite app_nil_r. reflexivity.
  - pose proof (distinct_absent _ _ _ _ Hd) as Hk.
    cbn [map fold_left record fst snd deepMerge].
    rewrite (get_absent _ _ Hk), (set_absent _ _ v Hk).
    rewrite (IH (acc ++ [(k, v)])); rewrite <- app_assoc; [reflexivity | ].
    exact Hd.
Qed.

Lemma deepMerge_distinct (props : properties) :
  distinct (map fst props) = true ->
  deepMerge (Obj []) (Obj props) = Obj props.
Proof.
  intros Hd. cbn [deepMerge get]. f_equal.
  match goal with
  | |- ?entries props [] = _ =>
      assert (G : forall l acc,
                 distinct (map fst (acc ++ l)) = true ->
                 entries l acc = acc ++ l)
  end.
  { induction l as [|[k v] l IH]; intros acc H.
    - rewrite app_nil_r. reflexivity.
    - pose proof (distinct_absent _ _ _ _ H) as Hk.
      cbn [get]. rewrite (set_absent _ _ v Hk).
      rewrite (IH (acc ++ [(k, v)])); rewrite <- app_assoc;
        [reflexivity | exact H]. }
  apply (G props []). exact Hd.
Qed.

Lemma scalar_document_length (props : properties) :
  length props <= length (scalar_document props).
Proof.
  induction props as [|kv props IH]; [simpl; lia | ].
  unfold scalar_document in *. cbn [map concat length].
  rewrite length_app. unfold scalar_line at 1. rewrite !length_app.
  change (length [LF]) with 1. lia.
Qed.

(** The parser reads the document of a table of scalars back. *)
Lemma Toml_reads_scalars (props : properties) (fuel : nat) (s : Scanner) :
  props <> [] ->
  distinct (map fst props) = true ->
  forallb (fun kv => scalar (snd kv)) props = true ->
  forallb (fun kv => plain_key (fst kv)) props = true ->
  rest s = scalar_document props ->
  length (scalar_document props) + 1 < fuel ->
  Toml fuel s
  = Ret (success (Obj props)) (advance s (length (scalar_document props))).
Proof.
  intros Hne Hd Hv Hk Hr Hf.
  destruct (scalar_document_head Hne) as (h & t & E & Hs & Hhash).
  pose proof (scalar_document_length props) as Hlen.
  assert (Hp : 0 < length props)
    by (destruct props; [congruence | simpl; lia]).
  assert (Hr0 : rest s = h :: t) by (rewrite Hr; exact E).
  assert (Hlast : rest (advance s (length (scalar_document props))) = []).
  { rewrite <- (app_nil_r (scalar_document props)) in Hr.
    apply (@rest_advance_app _ _ _ Hr). }
  destruct fuel as [|[|f]]; try lia.
  assert (Hrecords : map record props <> []).
  { destruct props; [congruence | discriminate]. }
  assert (Hblock : Block (S (S f)) s
                   = Ret (success (mkBlock Block_t [] (Obj props)))
                       (advance s (length (scalar_document props)))).
  { unfold Block. unfold bind at 1.
    rewrite (@nextUntilChar_stays (S f) opt_default s h _ Hr0 Hs).
    2:{ cbn [comment opt_default andb]. exact Hhash. }
    unfold merge, repeat. unfold bind at 1. unfold bind at 1.
    unfold bind at 1.
    rewrite (@repeat_loop_lines props (S (S f)) (S (S f)) [] s Hv Hk Hr)
      by lia.
    cbn [app]. destruct (map record props) as [|r rs] eqn:Er;
      [congruence | ].
    cbn [length Nat.eqb]. cbv beta iota. unfold ret at 1. unfold ret at 1.
    rewrite <- Er. rewrite (@fold_deepMerge_records props [] Hd).
    reflexivity. }
  unfold Toml, repeat. unfold bind at 1. unfold bind at 1.
  cbn [repeat_loop]. reduce. rewrite (@eof_rest s _ _ Hr0). cbv beta iota.
  cbn [or]. unfold bind at 1. rewrite Hblock. cbn [ok]. cbv beta iota.
  unfold ret at 1.
  rewrite (@nextUntilChar_at_end f opt_default _ Hlast).
  destruct f as [|f']; [lia | ]. cbn [repeat_loop]. reduce.
  rewrite (eof_at_end _ Hlast). cbv beta iota. cbn [app length Nat.eqb].
  cbv beta iota. cbn [Toml_fold block_type block_value].
  rewrite (deepMerge_distinct _ Hd). reflexivity.
Qed.

Lemma parse_reads_scalars (props : properties) :
  props <> [] ->
  distinct (map fst props) = true ->
  forallb (fun kv => scalar (snd kv)) props = true ->
  forallb (fun kv => plain_key (fst kv)) props = true ->
  parse (scalar_document props) = Returns (Obj props).
Proof.
  intros Hne Hd Hv Hk. unfold parse, ParserFactory, enough_fuel.
  rewrite (@Toml_reads_scalars props _ (newScanner (scalar_document props))
             Hne Hd Hv Hk (rest_newScanner _)) by lia.
  assert (He : eof (advance (newScanner (scalar_document props))
                      (length (scalar_document props))) = true).
  { unfold eof, advance, newScanner. simpl. apply Nat.leb_refl. }
  rewrite He. reflexivity.
Qed.

Lemma inline_declaration_scalar (k : jsstring) (v : value) :
  scalar v = true ->
  isSimplySerializable v = true
  /\ inline_declaration k v = inr [scalar_declaration (k, v)].
Proof.
  destruct v as [ | text | [ | [|] | negative m e ] | b | | | | ];
    try discriminate;
    try (intros _; split; reflexivity).
  cbn [scalar]. rewrite !andb_true_iff, orb_true_iff, !negb_true_iff.
  intros [[He Hm] Hz]. apply Z.eqb_eq in He. subst e. apply N.leb_le in Hm.
  split; [reflexivity | ].
  cbn [inline_declaration]. unfold numberDeclaration, scalar_declaration.
  cbn [fst snd scalar_text].
  rewrite (@Number_toString_integer negative m Hm).
  - reflexivity.
  - destruct Hz as [Hz | Hz]; [left; exact Hz | right].
    apply N.eqb_neq. exact Hz.
Qed.

Lemma printObject_scalars (props : properties) (keys : list jsstring) :
  forallb (fun kv => scalar (snd kv)) props = true ->
  printObject (Obj props) keys
  = inr (map scalar_declaration props ++ [[]]).
Proof.
  intros Hv. cbn [printObject].
  match goal with
  | |- append_lines (?inlineProps props)
         (append_lines (?multilineProps props) _) = _ =>
      assert (Hi : inlineProps props = inr (map scalar_declaration props));
      [ | assert (Hm : multilineProps props = inr []) ]
  end.
  - induction props as [|[k v] props IH]; [reflexivity | ].
    cbn [forallb snd] in Hv. apply andb_prop in Hv. destruct Hv as [Hs Hv].
    destruct (@inline_declaration_scalar k v Hs) as [Hser Hdecl].
    rewrite Hser, Hdecl, (IH Hv). reflexivity.
  - clear Hi. induction props as [|[k v] props IH]; [reflexivity | ].
    cbn [forallb snd] in Hv. apply andb_prop in Hv. destruct Hv as [Hs Hv].
    destruct (@inline_declaration_scalar k v Hs) as [Hser Hdecl].
    rewrite Hser, (IH Hv). reflexivity.
  - rewrite Hi, Hm. reflexivity.
Qed.

Lemma scalar_declaration_head (kv : jsstring * value) :
  exists c l, scalar_declaration kv = c :: l /\ N.eqb 91 c = false.
Proof.
  unfold scalar_declaration, declaration.
  destruct (@joinKeys_first [fst kv] ltac:(discriminate)) as (c & l & E & H).
  rewrite E. destruct (key_start H) as (_ & _ & Hb).
  eexists c, _. split; [reflexivity | exact Hb].
Qed.

Lemma format_headers_plain (lines : list jsstring) :
  forallb (fun l => negb (is_table_header l)) lines = true ->
  format_headers lines = lines.
Proof.
  induction lines as [|l lines IH]; [reflexivity | ].
  cbn [forallb]. intros H. apply andb_prop in H. destruct H as [Hl H].
  apply negb_true_iff in Hl. cbn [format_headers]. rewrite Hl, (IH H).
  reflexivity.
Qed.

Lemma format_scalar_lines (props : properties) :
  format_blanks (format_headers (map scalar_declaration props ++ [[]]))
  = map scalar_declaration props ++ [[]].
Proof.
  rewrite format_headers_plain.
  - induction props as [|kv props IH]; [reflexivity | ].
    cbn [map app format_blanks].
    destruct (scalar_declaration_head kv) as (c & l & E & _).
    destruct (map scalar_declaration props ++ [[]]) as [|following more] eqn:R.
    + destruct (map scalar_declaration props); discriminate.
    + rewrite E. cbn [jseq andb]. cbv iota. rewrite <- E, IH. reflexivity.
  - rewrite forallb_app. cbn [forallb]. rewrite andb_true_r.
    apply forallb_forall. intros l Hin. apply in_map_iff in Hin.
    destruct Hin as (kv & <- & _).
    destruct (scalar_declaration_head kv) as (c & t & E & Hc).
    rewrite E. unfold is_table_header. cbn [nth_error is_char test].
    rewrite Hc. reflexivity.
Qed.

Lemma join_scalar_lines (props : properties) :
  join_with [LF] (map scalar_declaration props ++ [[]])
  = scalar_document props.
Proof.
  induction props as [|kv props IH]; [reflexivity | ].
  cbn [map app]. unfold scalar_document. cbn [map concat].
  fold (scalar_document props). rewrite <- IH.
  destruct (map scalar_declaration props ++ [[]]) as [|following more] eqn:R.
  - destruct (map scalar_declaration props); discriminate.
  - cbn [join_with]. unfold scalar_line, scalar_declaration.
    rewrite <- !app_assoc. reflexivity.
Qed.

Lemma stringify_scalars (props : properties) :
  forallb (fun kv => scalar (snd kv)) props = true ->
  stringify (Obj props) = inr (scalar_document props).
Proof.
  intros Hv. unfold stringify. rewrite (@printObject_scalars props [] Hv).
  rewrite format_scalar_lines, join_scalar_lines. reflexivity.
Qed.

(** X23: round trip through the serializer and the parser for flat tables:
    for a non-empty table with distinct own-property keys (of any characters,
    the empty key included) whose values are strings, booleans, infinities
    or safe integers, [stringify] writes one [key = value] line per member
    and [parse] of that text returns the table, members in the same
    order. *)
Theorem parse_stringify_scalars (props : properties) :
  props <> [] ->
  distinct (map fst props) = true ->
  forallb (fun kv => plain_key (fst kv) && scalar (snd kv))%bool props
  = true ->
  stringify (Obj props) = inr (scalar_document props)
  /\ reparse (Obj props) = Returns (Obj props).
Proof.
  intros Hne Hd Hv.
  assert (Hs : forallb (fun kv => scalar (snd kv)) props = true).
  { apply forallb_forall. intros kv Hin.
    pose proof (proj1 (forallb_forall _ _) Hv kv Hin) as H.
    apply andb_prop in H. apply H. }
  assert (Hk : forallb (fun kv => plain_key (fst kv)) props = true).
  { apply forallb_forall. intros kv Hin.
    pose proof (proj1 (forallb_forall _ _) Hv kv Hin) as H.
    apply andb_prop in H. apply H. }
  pose proof (@stringify_scalars props Hs) as Ht.
  split; [exact Ht | ].
  unfold reparse. rewrite Ht.
  apply parse_reads_scalars; assumption.
Qed.

Lemma primitive_not_array (v : value) :
  isPrimitive v = true -> isArray v = false.
Proof. destruct v; simpl; congruence. Qed.

Lemma forallb_same (A : Type) (f g : A -> bool) (l : list A) :
  (forall x, f x = g x) -> forallb f l = forallb g l.
Proof.
  intros H. induction l as [|x l IH]; simpl; [reflexivity | ].
  rewrite H, IH. reflexivity.
Qed.

(** The loop of [#doGetTypeOfArray] finds no element of another kind. *)
Lemma uniform_elements (p : bool) (others : list value) :
  existsb (fun x => negb (Bool.eqb p (isPrimitive x)) || isArray x)%bool others
  = negb (forallb (fun x => Bool.eqb p (isPrimitive x) && negb (isArray x))%bool
            others).
Proof.
  induction others as [|x l IH]; simpl; [reflexivity | ].
  rewrite IH. destruct (Bool.eqb p (isPrimitive x)), (isArray x); simpl;
    try reflexivity.
Qed.

Lemma uniform_primitive (others : list value) :
  forallb (fun x => Bool.eqb true (isPrimitive x) && negb (isArray x))%bool
    others
  = forallb isPrimitive others.
Proof.
  apply forallb_same. intros x. destruct x; reflexivity.
Qed.

Lemma uniform_table (others : list value) :
  forallb (fun x => Bool.eqb false (isPrimitive x) && negb (isArray x))%bool
    others
  = forallb neither_primitive_nor_array others.
Proof.
  apply forallb_same. intros x. destruct x; reflexivity.
Qed.

(** X20: the serializer classifies an array as [ONLY_PRIMITIVE] exactly when
    every element is a string, number, boolean or date (the empty array
    included), and as [ONLY_OBJECT_EXCLUDING_ARRAY] exactly when it is not
    empty and no element is a primitive or an array: its elements are
    tables, or [undefined] or [null], which are classified like tables;
    every other array is [MIXED]. *)
Theorem getTypeOfArray_classifies (arr : list value) :
  (getTypeOfArray arr = ONLY_PRIMITIVE <-> forallb isPrimitive arr = true)
  /\ (getTypeOfArray arr = ONLY_OBJECT_EXCLUDING_ARRAY
      <-> arr <> [] /\ forallb neither_primitive_nor_array arr = true).
Proof.
  destruct arr as [|first others].
  { simpl. split; split; try (intros; reflexivity); try discriminate;
      intros [H _]; congruence. }
  unfold getTypeOfArray. cbn [forallb]. rewrite uniform_elements.
  destruct first; cbn [isPrimitive isArray neither_primitive_nor_array negb andb];
    rewrite ?uniform_primitive, ?uniform_table;
    try (destruct (forallb isPrimitive others); cbn [negb];
         split; split; try (intros; reflexivity); try discriminate;
         intros [_ H]; discriminate);
    try (destruct (forallb neither_primitive_nor_array others); cbn [negb];
         split; split; try (intros; reflexivity); try discriminate;
         try (intros _; split; [discriminate | reflexivity]);
         intros [_ H]; discriminate).
Qed.

Lemma format_blanks_keeps (l : jsstring) (more : list jsstring) :
  jseq l [] = false ->
  format_blanks (l :: more) = l :: format_blanks more.
Proof.
  intros H. cbn [format_blanks]. destruct more as [|following more'].
  - reflexivity.
  - rewrite H. reflexivity.
Qed.

Lemma format_blanks_nonempty (l : jsstring) (more : list jsstring) :
  format_blanks (l :: more) <> [].
Proof.
  revert l. induction more as [|x more IH]; intros l; [discriminate | ].
  cbn [format_blanks]. destruct (jseq l [] && jseq x [])%bool;
    [apply IH | discriminate].
Qed.

Lemma filter_blank (l : jsstring) (more : list jsstring) :
  filter not_blank (l :: more)
  = if jseq l [] then filter not_blank more else l :: filter not_blank more.
Proof. cbn [filter]. unfold not_blank at 1. destruct (jseq l []); reflexivity. Qed.

(** X21: the last pass of [#format] leaves no two adjacent blank lines,
    keeps every line that is not blank, in order, and never drops the last
    line. *)
Theorem format_blanks_leaves_single_blanks (out : list jsstring) :
  no_double_blank (format_blanks out) = true
  /\ filter not_blank (format_blanks out) = filter not_blank out
  /\ last (format_blanks out) [] = last out [].
Proof.
  induction out as [|l rest IH]; [repeat split | ].
  destruct IH as (IH1 & IH2 & IH3).
  destruct rest as [|following more]; [repeat split | ].
  pose proof (@format_blanks_nonempty following more) as Hne.
  assert (Hcons : forall fb,
            fb <> [] ->
            (jseq l [] = true -> exists m, fb = following :: m
                                           /\ jseq following [] = false) ->
            no_double_blank fb = true ->
            no_double_blank (l :: fb) = true
            /\ last (l :: fb) [] = last fb []).
  { intros [|f m] Hfb Hhead Hfb1; [congruence | ]. split; [ | reflexivity].
    cbn [no_double_blank]. cbn [no_double_blank] in Hfb1. rewrite Hfb1.
    destruct (jseq l []); [ | reflexivity].
    destruct (Hhead eq_refl) as (m' & E & Ef). injection E as -> _.
    rewrite Ef. reflexivity. }
  rewrite !(filter_blank l).
  destruct (jseq l []) eqn:El; [destruct (jseq following []) eqn:Ef | ].
  - assert (E : format_blanks (l :: following :: more)
                = format_blanks (following :: more)).
    { cbn [format_blanks]. rewrite El, Ef. reflexivity. }
    rewrite E. repeat split; assumption.
  - assert (E : format_blanks (l :: following :: more)
                = l :: format_blanks (following :: more)).
    { cbn [format_blanks]. rewrite El, Ef. reflexivity. }
    rewrite E, (filter_blank l), El.
    destruct (Hcons _ Hne) as [H1 H2]; [ | exact IH1 | ].
    + intros _. exists (format_blanks more). split; [ | reflexivity].
      apply (@format_blanks_keeps following more Ef).
    + split; [exact H1 | ]. split; [exact IH2 | ]. rewrite H2. exact IH3.
  - rewrite (@format_blanks_keeps l (following :: more) El),
      (filter_blank l), El, IH2.
    destruct (Hcons _ Hne) as [H1 H2];
      [intros H; discriminate H | exact IH1 | ].
    split; [exact H1 | ]. split; [reflexivity | ]. rewrite H2. exact IH3.
Qed.

Lemma sequence_total (A : Type) (l : list (exn + A)) :
  Forall (fun x => exists a, x = inr a) l ->
  exists parts, sequence l = inr parts.
Proof.
  induction 1 as [|x l [a ->] _ [parts IH]]; [exists []; reflexivity | ].
  exists (a :: parts). unfold sequence in *. cbn [fold_right].
  rewrite IH. reflexivity.
Qed.

Lemma printAsInlineValue_total :
  forall v, defined v = true -> exists text, printAsInlineValue v = inr text.
Proof.
  fix IH 1. intros [ | s | n | b | d | items | props | ] Hd;
    try discriminate; try (eexists; reflexivity).
  - cbn [printAsInlineValue].
    assert (H : exists parts,
               sequence (map printAsInlineValue items) = inr parts).
    { apply sequence_total. cbn [defined] in Hd.
      induction items as [|x items IHitems]; [constructor | ].
      cbn [forallb] in Hd. apply andb_prop in Hd. destruct Hd as [Hx Hd].
      constructor; [apply IH; exact Hx | apply IHitems; exact Hd]. }
    destruct H as [parts ->]. eexists. reflexivity.
  - cbn [printAsInlineValue].
    match goal with
    | |- context [sequence (?members props)] =>
        assert (H : exists parts, sequence (members props) = inr parts)
    end.
    { apply sequence_total. cbn [defined] in Hd.
      induction props as [|[k w] props IHprops]; [constructor | ].
      apply andb_prop in Hd. destruct Hd as [Hw Hd].
      constructor; [ | apply IHprops; exact Hd].
      destruct (IH w Hw) as [text ->]. eexists. reflexivity. }
    destruct H as [parts ->]. eexists. reflexivity.
Qed.

Lemma append_lines_total (a b : exn + list jsstring) :
  (exists x, a = inr x) -> (exists y, b = inr y) ->
  exists z, append_lines a b = inr z.
Proof. intros [x ->] [y ->]. eexists. reflexivity. Qed.

Lemma inline_declaration_total (prop : jsstring) (v : value) :
  defined v = true -> exists lines, inline_declaration prop v = inr lines.
Proof.
  intros Hd. destruct v as [ | s | n | b | d | items | props | ];
    try (eexists; reflexivity).
  cbn [inline_declaration].
  destruct (getTypeOfArray items); try (eexists; reflexivity);
    destruct (printAsInlineValue_total (Arr items) Hd) as [text H];
    cbn [printAsInlineValue] in H;
    destruct (sequence (map printAsInlineValue items));
    try discriminate; eexists; reflexivity.
Qed.

(** Induction over a value and the values inside it. *)
Lemma value_induction (P : value -> Prop) :
  P Undefined ->
  (forall s, P (Str s)) ->
  (forall n, P (Num n)) ->
  (forall b, P (Bool b)) ->
  (forall d, P (DateV d)) ->
  (forall items, Forall P items -> P (Arr items)) ->
  (forall props, Forall (fun kv => P (snd kv)) props -> P (Obj props)) ->
  P Null ->
  forall v, P v.
Proof.
  intros HU HS HN HB HD HA HO HNull.
  exact (fix go (v : value) : P v :=
           match v with
           | Undefined => HU
           | Str s => HS s
           | Num n => HN n
           | Bool b => HB b
           | DateV d => HD d
           | Arr items =>
               HA items
                 ((fix all (l : list value) : Forall P l :=
                     match l with
                     | [] => Forall_nil P
                     | x :: r => Forall_cons x (go x) (all r)
                     end) items)
           | Obj props =>
               HO props
                 ((fix all (l : properties)
                     : Forall (fun kv => P (snd kv)) l :=
                     match l with
                     | [] => Forall_nil _
                     | (k, w) :: r =>
                         @Forall_cons _ (fun kv => P (snd kv)) (k, w) r
                           (go w) (all r)
                     end) props)
           | Null => HNull
           end).
Qed.

Lemma printObject_prints (v : value) : prints v.
Proof.
  induction v as [ | s | n | b | d | items IH | props IH | ]
    using value_induction; intros Hd;
    try discriminate;
    try (split; [intros keys; eexists; reflexivity | discriminate]).
  - split; [intros keys; eexists; reflexivity | ].
    intros items' E. injection E as <-. cbn [defined] in Hd.
    induction items as [|x items IHitems]; [constructor | ].
    cbn [forallb] in Hd. apply andb_prop in Hd. destruct Hd as [Hx Hd].
    inversion IH as [|? ? Px Prest]; subst.
    constructor; [apply (Px Hx) | apply IHitems; assumption].
  - split; [ | discriminate]. intros keys.
    cbn [printObject]. cbn [defined] in Hd.
    apply append_lines_total; [ | apply append_lines_total;
                                  [ | eexists; reflexivity] ].
    + clear IH. induction props as [|[k w] props IHprops];
        [eexists; reflexivity | ].
      apply andb_prop in Hd. destruct Hd as [Hw Hd].
      apply append_lines_total; [ | apply IHprops; exact Hd].
      destruct (isSimplySerializable w); [ | eexists; reflexivity].
      apply inline_declaration_total. exact Hw.
    + induction props as [|[k w] props IHprops]; [eexists; reflexivity | ].
      apply andb_prop in Hd. destruct Hd as [Hw Hd].
      inversion IH as [|? ? Pw Prest]; subst.
      apply append_lines_total; [ | apply IHprops; assumption].
      destruct (isSimplySerializable w); [eexists; reflexivity | ].
      cbn [snd] in Pw. destruct (Pw Hw) as [Hprint Helements].
      destruct w as [ | s | n | b | d | items | sub | ];
        try (eexists; reflexivity).
      * specialize (Helements items eq_refl).
        clear Pw Hprint Hw IH IHprops Prest Hd.
        induction Helements as [|x items Hx _ IHitems];
          [eexists; reflexivity | ].
        apply append_lines_total; [eexists; reflexivity | ].
        apply append_lines_total; [apply Hx | exact IHitems].
      * apply append_lines_total; [eexists; reflexivity | ].
        apply Hprint.
Qed.

(** X22: [stringify] never throws on a table that is built, at any depth,
    from strings, numbers, booleans, dates, arrays and tables only, that is,
    in which no member and no array element is [undefined] or [null]: it
    returns a text. *)
Theorem stringify_never_throws (props : properties) :
  defined (Obj props) = true ->
  exists text, stringify (Obj props) = inr text.
Proof.
  intros Hd. unfold stringify.
  destruct (proj1 (@printObject_prints (Obj props) Hd) []) as [lines ->].
  eexists. reflexivity.
Qed.

Lemma rest_at_end (s : Scanner) : eof s = true -> rest s = [].
Proof.
  intros H. apply eof_true in H. unfold rest. apply skipn_all2. exact H.
Qed.

(** The literal matcher at the end of the input. *)
Lemma character_at_end (fuel : nat) (literal : jsstring) (s : Scanner) :
  rest s = [] ->
  literal <> [] ->
  character (S fuel) literal s = Ret failure s.
Proof.
  intros Hr Hl. unfold character. unfold bind at 1.
  rewrite (@nextUntilChar_at_end fuel opt_inline s Hr).
  reduce. rewrite slice_rest, Hr, firstn_nil.
  destruct literal; [congruence | reflexivity].
Qed.

(** No construct of the grammar starts at the end of the input. *)
Lemma Block_at_end (fuel : nat) (s : Scanner) :
  rest s = [] -> Block (S (S fuel)) s = Ret failure s.
Proof.
  intros Hr. unfold Block. unfold bind at 1.
  rewrite (@nextUntilChar_at_end (S fuel) opt_default s Hr).
  unfold merge, repeat. unfold bind at 1. unfold bind at 1. unfold bind at 1.
  cbn [repeat_loop]. reduce. rewrite (eof_at_end _ Hr). reflexivity.
Qed.

Lemma Table_at_end (fuel : nat) (s : Scanner) :
  rest s = [] -> Table (S fuel) s = Ret failure s.
Proof.
  intros Hr. unfold Table. unfold bind at 1.
  rewrite (@nextUntilChar_at_end fuel opt_default s Hr).
  unfold TableHeader, surround. unfold bind at 1. unfold bind at 1.
  rewrite (@character_at_end fuel (str "[") s Hr) by discriminate.
  reflexivity.
Qed.

Lemma TableArray_at_end (fuel : nat) (s : Scanner) :
  rest s = [] -> TableArray (S fuel) s = Ret failure s.
Proof.
  intros Hr. unfold TableArray. unfold bind at 1.
  rewrite (@nextUntilChar_at_end fuel opt_default s Hr).
  unfold TableArrayHeader, surround. unfold bind at 1. unfold bind at 1.
  rewrite (@character_at_end fuel (str "[[") s Hr) by discriminate.
  reflexivity.
Qed.

(** Toml on an input that the full skip consumes entirely. *)
Lemma Toml_without_content (fuel : nat) (s s' : Scanner) :
  nextUntilChar (S (S fuel)) opt_default s = Ret tt s' ->
  eof s' = true ->
  Toml (S (S fuel)) s = Ret failure (if eof s then s else s').
Proof.
  intros Hskip Hend. pose proof (rest_at_end _ Hend) as Hr'.
  assert (Hblock : Block (S (S fuel)) s = Ret failure s').
  { unfold Block. unfold bind at 1. rewrite Hskip.
    unfold merge, repeat. unfold bind at 1. unfold bind at 1.
    unfold bind at 1. cbn [repeat_loop]. reduce.
    rewrite Hend. reflexivity. }
  unfold Toml, repeat. unfold bind at 1. unfold bind at 1.
  cbn [repeat_loop]. reduce.
  destruct (eof s) eqn:He; cbv beta iota; [reflexivity | ].
  cbn [or]. unfold bind at 1. rewrite Hblock. cbn [ok]. cbv beta iota.
  unfold bind at 1. rewrite (@TableArray_at_end _ s' Hr'). cbn [ok].
  cbv beta iota. unfold bind at 1. rewrite (@Table_at_end _ s' Hr').
  reflexivity.
Qed.

(** X18: a document without content is rejected: when the input holds only
    blanks, line breaks and comments (the default skip from the start runs to
    the end of the input), [parse] throws "Unexpected character" at the
    position of the end of the input, and returns no empty table. *)
Theorem parse_rejects_documents_without_content (doc : jsstring)
    (fuel : nat) (s' : Scanner) :
  nextUntilChar fuel opt_default (newScanner doc) = Ret tt s' ->
  eof s' = true ->
  parse doc
  = Throws (TOMLParseError
              (positioned doc (str "Unexpected character: " ++ quoted []))).
Proof.
  intros Hskip Hend.
  pose proof (rest_at_end _ Hend) as Hr'.
  assert (HF : nextUntilChar (S (S (length doc))) opt_default (newScanner doc)
               = Ret tt s').
  { destruct (Nat.le_ge_cases fuel (S (S (length doc)))) as [Hle|Hge].
    - rewrite (@nextUntilChar_mono fuel _ opt_default Hle (newScanner doc));
        [exact Hskip | rewrite Hskip; discriminate].
    - rewrite <- Hskip. symmetry.
      apply (@nextUntilChar_mono _ fuel opt_default Hge (newScanner doc)).
      intros Hd. pose proof (nextUntilChar_sound (S (S (length doc)))
                               opt_default (newScanner doc)) as Hs.
      rewrite Hd in Hs. unfold remaining in Hs. simpl in Hs. lia. }
  assert (Hsrc : source s' = doc /\ length doc <= position s').
  { pose proof (nextUntilChar_sound fuel opt_default (newScanner doc)) as Hs.
    rewrite Hskip in Hs. destruct Hs as (Hs & _ & _). simpl in Hs.
    split; [exact Hs | ]. apply eof_true in Hend. rewrite Hs in Hend.
    exact Hend. }
  destruct Hsrc as [Hsrc Hpos].
  assert (Hthrow : forall s, rest s = [] -> source s = doc ->
            length doc <= position s ->
            Throws (parse_error doc s (unexpected_character s))
            = Throws (TOMLParseError
                        (positioned doc (str "Unexpected character: "
                                         ++ quoted [])))
              :> result value).
  { intros s Hr Hs Hp. rewrite parse_error_positioned.
    rewrite (firstn_all2 _ Hp). unfold unexpected_character.
    rewrite char_rest, Hr. reflexivity. }
  unfold parse, ParserFactory, enough_fuel.
  replace (length doc + 2) with (S (S (length doc))) by lia.
  rewrite (@Toml_without_content _ _ _ HF Hend).
  destruct (eof (newScanner doc)) eqn:He.
  - apply Hthrow; [apply rest_at_end; exact He | reflexivity | ].
    apply eof_true in He. exact He.
  - apply (Hthrow s' Hr' Hsrc Hpos).
Qed.

Lemma BasicString_loop_plain_run (body : jsstring) (fuel : nat)
    (acc : jsstring) (s : Scanner) (tail : jsstring) :
  rest s = body ++ tail ->
  forallb plain_char body = true ->
  BasicString_loop (length body + fuel) acc s
  = BasicString_loop fuel (acc ++ body) (advance s (length body)).
Proof.
  revert acc s. induction body as [|c body IH]; intros acc s Hr Hb.
  - simpl. rewrite advance_zero, app_nil_r. reflexivity.
  - simpl in Hr, Hb. apply andb_prop in Hb. destruct Hb as [Hc Hb].
    unfold plain_char in Hc. apply andb_prop in Hc. destruct Hc as [Hc Hl].
    apply andb_prop in Hc. destruct Hc as [Hq Hbs].
    apply negb_true_iff in Hq, Hbs, Hl.
    simpl length. simpl Nat.add.
    rewrite (@BasicString_loop_plain _ acc s c _ Hr Hq Hbs Hl).
    rewrite (IH (acc ++ [c]) (advance s 1) (@rest_advance_cons s _ _ Hr) Hb).
    rewrite advance_advance, <- app_assoc. reflexivity.
Qed.

Lemma BasicString_opens (fuel : nat) (s : Scanner) (l : jsstring) :
  rest s = DQUOTE :: l ->
  BasicString (S fuel) s
  = (acc <- BasicString_loop (S fuel) [] ;;
     at_end <- peek eof ;;
     if at_end then throw (not_closed (str "Single-line") acc)
     else next 1 ;; ret (success acc)) (advance s 1).
Proof.
  intros Hr. unfold BasicString. unfold bind at 1.
  rewrite (@nextUntilChar_stays fuel opt_inline s DQUOTE l Hr eq_refl eq_refl).
  unfold bind at 1, peek at 1. rewrite char_rest, Hr. cbn [nth_error].
  change (is_char DQUOTE (Some DQUOTE)) with true. cbv iota.
  unfold bind at 1, next at 1. reflexivity.
Qed.

(** X9: the errors of a basic string ["..."]: the end of the input before
    the closing quote throws "not closed", a line feed in the string throws
    "cannot contain EOL", and a backslash followed by a character that is no
    escape letter throws "Invalid escape sequence" with that character. *)
Theorem BasicString_errors (body tail : jsstring) (x : N) (fuel : nat)
    (s : Scanner) :
  forallb plain_char body = true ->
  length body < fuel ->
  (rest s = DQUOTE :: body ->
   BasicString fuel s
   = Throw (not_closed (str "Single-line") body)
       (advance s (length body + 1)))
  /\ (rest s = DQUOTE :: body ++ LF :: tail ->
      BasicString fuel s
      = Throw (TOMLParseError (str "Single-line string cannot contain EOL"))
          (advance s (length body + 1)))
  /\ (rest s = DQUOTE :: body ++ BACKSLASH :: x :: tail ->
      escape_letter x = false ->
      BasicString fuel s
      = Throw (TOMLParseError (str "Invalid escape sequence: "
                               ++ [BACKSLASH; x]))
          (advance s (length body + 2))).
Proof.
  intros Hb Hf.
  destruct fuel as [|f]; [lia | ].
  assert (Hrun : forall s1 rest1,
            rest s1 = body ++ rest1 ->
            BasicString_loop (S f) [] s1
            = BasicString_loop (S (f - length body)) body
                (advance s1 (length body))).
  { intros s1 rest1 Hr1.
    replace (S f) with (length body + S (f - length body)) at 1 by lia.
    apply (@BasicString_loop_plain_run body _ [] s1 rest1 Hr1 Hb). }
  split; [ | split].
  - intros Hr. pose proof (@rest_advance_cons s _ _ Hr) as Hr1.
    rewrite <- (app_nil_r body) in Hr1.
    pose proof (@rest_advance_app _ _ _ Hr1) as Hr2.
    rewrite (@BasicString_opens f s _ Hr). unfold bind at 1.
    rewrite (Hrun _ _ Hr1). cbn [BasicString_loop]. reduce.
    rewrite (eof_at_end _ Hr2), andb_false_r. cbv beta iota.
    rewrite (eof_at_end _ Hr2). cbv beta iota.
    rewrite !advance_advance. f_equal. f_equal. lia.
  - intros Hr. pose proof (@rest_advance_cons s _ _ Hr) as Hr1.
    pose proof (@rest_advance_app _ _ _ Hr1) as Hr2.
    rewrite (@BasicString_opens f s _ Hr). unfold bind at 1.
    rewrite (Hrun _ _ Hr1). cbn [BasicString_loop]. reduce.
    rewrite char_rest, Hr2, (@eof_rest _ _ _ Hr2). cbn [nth_error].
    change (is_char DQUOTE (Some LF)) with false. cbn [negb andb].
    cbv beta iota. rewrite char_rest, Hr2. cbn [nth_error].
    change (is_char LF (Some LF)) with true. cbv beta iota.
    rewrite !advance_advance. f_equal. f_equal. lia.
  - intros Hr Hx. pose proof (@rest_advance_cons s _ _ Hr) as Hr1.
    pose proof (@rest_advance_app _ _ _ Hr1) as Hr2.
    pose proof (@rest_advance_cons _ _ _ Hr2) as Hr3.
    rewrite (@BasicString_opens f s _ Hr). unfold bind at 1.
    rewrite (Hrun _ _ Hr1). cbn [BasicString_loop]. reduce.
    rewrite char_rest, Hr2, (@eof_rest _ _ _ Hr2). cbn [nth_error].
    change (is_char DQUOTE (Some BACKSLASH)) with false. cbn [negb andb].
    cbv beta iota. rewrite char_rest, Hr2. cbn [nth_error].
    change (is_char LF (Some BACKSLASH)) with false. cbv beta iota.
    unfold EscapeSequence. reduce. rewrite char_rest, Hr2. cbn [nth_error].
    change (is_char BACKSLASH (Some BACKSLASH)) with true. cbv beta iota.
    rewrite char_rest, Hr3. cbn [nth_error].
    unfold escape_letter, simple_escapes in Hx. cbn [existsb fst] in Hx.
    repeat match goal with
      | H : (_ || _)%bool = false |- _ =>
          apply orb_false_elim in H; destruct H
      end.
    unfold is_char. cbn [test].
    repeat match goal with
      | H : N.eqb _ x = false |- _ => rewrite H
      end.
    cbn [orb]. cbv beta iota. cbn [chars].
    rewrite !advance_advance. f_equal. f_equal. lia.
Qed.

(** The inline skip in front of a line feed. *)
Lemma nextUntilChar_stays_at_line_end (fuel : nat) (s : Scanner)
    (l : jsstring) :
  rest s = LF :: l ->
  nextUntilChar (S fuel) opt_inline s = Ret tt s.
Proof.
  intros Hr.
  assert (Hc : char s 0 = Some LF) by (rewrite char_rest, Hr; reflexivity).
  unfold nextUntilChar. reduce. cbn [inline opt_inline skip_inline]. reduce.
  rewrite Hc. cbn [test whitespace]. cbv beta iota.
  change (whitespace LF) with false. cbn [andb]. cbv beta iota.
  unfold isCurrentCharEOL. rewrite Hc. reflexivity.
Qed.

(** The literal matcher at a line end or at the end of the input. *)
Lemma character_misses_line_end (fuel : nat) (literal : jsstring)
    (s : Scanner) (tail : jsstring) :
  rest s = tail ->
  tail = [] \/ (exists l, tail = LF :: l) ->
  jseq (firstn (length literal) tail) literal = false ->
  character (S fuel) literal s = Ret failure s.
Proof.
  intros Hr Ht Hl. unfold character. unfold bind at 1.
  assert (Hstay : nextUntilChar (S fuel) opt_inline s = Ret tt s).
  { destruct Ht as [-> | [l ->]].
    - apply nextUntilChar_at_end. exact Hr.
    - apply (@nextUntilChar_stays_at_line_end fuel s l Hr). }
  rewrite Hstay. reduce. rewrite slice_rest, Hr, Hl. reflexivity.
Qed.

(** X19: a bare key at the start of a document that is followed by the end
    of the input or a line feed, with no [=], is an error: [parse] throws
    the message that the key/value pair has no [=], positioned behind the
    key. *)
Theorem parse_rejects_key_without_value (key tail : jsstring) :
  key <> [] ->
  forallb BARE_KEY key = true ->
  tail = [] \/ (exists l, tail = LF :: l) ->
  parse (key ++ tail)
  = Throws (TOMLParseError
              (positioned key (str "key/value pair doesn't have "
                               ++ quoted (str "=")))).
Proof.
  intros Hne Hb Ht.
  set (doc := key ++ tail).
  set (s0 := newScanner doc).
  assert (Hr : rest s0 = [] ++ key ++ tail) by reflexivity.
  assert (Hhd : test BARE_KEY (hd_error tail) = false).
  { destruct Ht as [-> | [l ->]]; reflexivity. }
  assert (Hex : exists c key', key = c :: key')
    by (destruct key; [congruence | eauto]).
  destruct Hex as (c & key' & Ek).
  assert (Hc : BARE_KEY c = true).
  { rewrite Ek in Hb. simpl in Hb. apply andb_prop in Hb. apply Hb. }
  destruct (key_start (or_intror Hc)) as (Hsp & Hhash & _).
  assert (Hr0 : rest s0 = c :: key' ++ tail).
  { unfold s0, doc. rewrite rest_newScanner, Ek. reflexivity. }
  assert (Hlen : length doc = length key + length tail).
  { unfold doc. apply length_app. }
  set (F := length doc + 2).
  assert (Hend : rest (advance s0 (length key)) = tail).
  { apply (@rest_advance_app s0 key tail). exact Hr. }
  assert (Hkey : DottedKey F s0 = Ret (success [key]) (advance s0 (length key))).
  { unfold DottedKey, join. unfold bind at 1. cbn [or]. unfold bind at 1.
    rewrite (@BareKey_reads [] key F s0 tail Hr eq_refl) ; try assumption.
    2:{ unfold F. simpl. lia. }
    cbn [ok]. cbv beta iota. unfold ret at 1. cbn [Nat.add length].
    unfold bind at 1. unfold F. rewrite Nat.add_comm. cbn [Nat.add join_loop].
    reduce.
    destruct Ht as [Et | [l Et]].
    - rewrite (eof_at_end _ (eq_trans Hend Et)). reflexivity.
    - rewrite (@eof_rest _ LF l (eq_trans Hend Et)). cbv beta iota.
      rewrite (@character_misses_line_end _ (str ".") _ tail Hend
                 (or_intror (ex_intro _ l Et))).
      + reflexivity.
      + rewrite Et. reflexivity. }
  assert (Hpair : Pair F s0
                  = Throw (TOMLParseError
                             (str "key/value pair doesn't have "
                              ++ quoted (str "=")))
                      (advance s0 (length key))).
  { unfold Pair, Pair_of, kv. unfold bind at 1. rewrite Hkey.
    unfold bind at 1. unfold F. rewrite Nat.add_comm. cbn [Nat.add].
    rewrite (@character_misses_line_end _ (str "=") _ tail Hend Ht).
    - reflexivity.
    - destruct Ht as [-> | [l ->]]; reflexivity. }
  unfold parse, ParserFactory, enough_fuel. fold doc. fold F.
  fold s0.
  assert (Htoml : Toml F s0
                  = Throw (TOMLParseError
                             (str "key/value pair doesn't have "
                              ++ quoted (str "=")))
                      (advance s0 (length key))).
  { unfold Toml, repeat. unfold bind at 1. unfold bind at 1.
    unfold F at 1. rewrite Nat.add_comm. cbn [Nat.add repeat_loop]. reduce.
    rewrite (@eof_rest s0 _ _ Hr0). cbv beta iota. cbn [or].
    unfold bind at 1. unfold Block. unfold bind at 1.
    replace (S (S (length doc))) with F by (unfold F; lia).
    unfold F at 1. rewrite Nat.add_comm. cbn [Nat.add].
    rewrite (@nextUntilChar_stays _ opt_default s0 c _ Hr0 Hsp).
    2:{ cbn [comment opt_default andb]. exact Hhash. }
    unfold merge, repeat. unfold bind at 1. unfold bind at 1.
    unfold bind at 1.
    replace (S (S (length doc))) with F by (unfold F; lia).
    unfold F at 1. rewrite Nat.add_comm. cbn [Nat.add repeat_loop]. reduce.
    rewrite (@eof_rest s0 _ _ Hr0). cbv beta iota.
    replace (S (S (length doc))) with F by (unfold F; lia).
    fold (Pair F). rewrite Hpair. reflexivity. }
  rewrite Htoml. rewrite parse_error_positioned.
  cbn [caught instanceofError exn_message position advance s0 newScanner
       Nat.add].
  unfold doc. rewrite firstn_prefix. reflexivity.
Qed.

(** DateTime on a date and the date characters behind it. *)
Lemma DateTime_reads (d more tail : jsstring)
    (fuel : nat) (s : Scanner) :
  date_prefix d = true ->
  length d = 10 ->
  forallb is_date_char more = true ->
  test is_date_char (hd_error tail) = false ->
  rest s = d ++ more ++ tail ->
  length more < fuel ->
  DateTime fuel s
  = match newDate (trim (d ++ more)) with
    | Some date =>
        Ret (success (DateV date)) (advance s (10 + length more))
    | None =>
        Throw (TOMLParseError (str "Invalid date string "
                               ++ quoted (d ++ more)))
          (advance s (10 + length more))
    end.
Proof.
  intros Hd Hl Hm Ht Hr Hf.
  destruct fuel as [|f]; [lia | ].
  assert (Hhead : exists c l, d = c :: l /\ is_space c = false).
  { destruct d as [|c l]; [discriminate | ]. exists c, l.
    split; [reflexivity | ].
    do 9 (destruct l as [|? l]; [discriminate | ]).
    cbn [date_prefix] in Hd. unfold is_digit, between in Hd.
    rewrite ?andb_true_iff, ?N.leb_le, ?N.eqb_eq in Hd.
    destruct (is_space c) eqn:E; [ | reflexivity].
    apply is_space_range in E. lia. }
  destruct Hhead as (c & l & E & Hc).
  assert (Hr' : rest s = c :: l ++ more ++ tail) by (rewrite Hr, E; reflexivity).
  unfold DateTime. unfold bind at 1.
  rewrite (@nextUntilChar_stays f opt_inline s c _ Hr' Hc eq_refl).
  reduce. rewrite slice_rest, Hr, <- Hl, firstn_prefix, Hd. cbv beta iota.
  rewrite (@scan_while_run more is_date_char (S f) [] _ tail
             (@rest_advance_app _ _ _ Hr) Hm Ht Hf).
  cbn [app]. destruct (newDate (trim (d ++ more))); cbv beta iota;
    rewrite advance_advance; reflexivity.
Qed.

(** X16: [DateTime] does not interpret a date itself: when the input starts
    with [dddd-dd-dd] it takes that text and every following digit, space,
    [T], [Z], [.], [:] or [-] (so it stops at a [+]), hands the trimmed text
    to the host's [Date] constructor, and throws "Invalid date string" when
    the host rejects it. *)
Theorem DateTime_hands_the_text_to_the_host (d more tail : jsstring)
    (fuel : nat) (s : Scanner) :
  date_prefix d = true ->
  length d = 10 ->
  forallb is_date_char more = true ->
  test is_date_char (hd_error tail) = false ->
  rest s = d ++ more ++ tail ->
  length more < fuel ->
  DateTime fuel s
  = match newDate (trim (d ++ more)) with
    | Some date =>
        Ret (success (DateV date)) (advance s (10 + length more))
    | None =>
        Throw (TOMLParseError (str "Invalid date string "
                               ++ quoted (d ++ more)))
          (advance s (10 + length more))
    end.
Proof. apply DateTime_reads. Qed.

(** A pair does not start with a bracket: the key parsers report a
    non-match and the scanner stays where it is. *)
Lemma Pair_misses_bracket (fuel : nat) (s : Scanner) (more : jsstring) :
  rest s = 91%N :: more ->
  Pair (S fuel) s = Ret failure s.
Proof.
  intros Hr. unfold Pair, Pair_of, kv, DottedKey, join.
  unfold bind at 1. unfold bind at 1. cbn [or]. unfold bind at 1.
  rewrite (@BareKey_fails fuel s 91%N more Hr eq_refl eq_refl).
  cbn [ok]. cbv beta iota. unfold bind at 1.
  rewrite (@BasicString_misses fuel s 91%N more Hr eq_refl eq_refl).
  cbn [ok]. cbv beta iota. unfold bind at 1.
  rewrite (@LiteralString_misses fuel s 91%N more Hr eq_refl eq_refl).
  reflexivity.
Qed.

Lemma line_feeds_blank (ws : jsstring) :
  forallb (N.eqb LF) ws = true -> forallb blank ws = true.
Proof.
  intros H. apply forallb_forall. intros c Hin.
  pose proof (proj1 (forallb_forall _ _) H c Hin) as E.
  apply N.eqb_eq in E. subst c. reflexivity.
Qed.

(** The loop of repeat over the lines of a table of scalars that blank
    lines and a header follow: it stops in front of the bracket. *)
Lemma repeat_loop_lines_then (props : properties) :
  forall (fuel limit : nat) (acc : list value) (s : Scanner)
         (ws more : jsstring),
    forallb (fun kv => scalar (snd kv)) props = true ->
    forallb (fun kv => plain_key (fst kv)) props = true ->
    rest s = scalar_document props ++ ws ++ 91%N :: more ->
    forallb (N.eqb LF) ws = true ->
    (props = [] -> ws = []) ->
    length (scalar_document props) + length ws + 1 < limit ->
    length (scalar_document props) + length ws + 1 < fuel ->
    repeat_loop fuel (Pair limit) acc s
    = Ret (acc ++ map record props)
        (advance s (length (scalar_document props) + length ws)).
Proof.
  induction props as [|[k v] props IH];
    intros fuel limit acc s ws more Hv Hk Hr Hws Hnil Hl Hf.
  - rewrite (Hnil eq_refl) in *. cbn [scalar_document map concat app] in *.
    destruct fuel as [|f]; [simpl in Hf; lia | ].
    destruct limit as [|limit]; [simpl in Hl; lia | ].
    cbn [repeat_loop]. reduce. rewrite (@eof_rest s _ _ Hr). cbv beta iota.
    rewrite (@Pair_misses_bracket limit s more Hr).
    cbn [length]. rewrite app_nil_r, advance_zero. reflexivity.
  - cbn [forallb snd] in Hv. apply andb_prop in Hv. destruct Hv as [Hs Hv].
    cbn [forallb fst] in Hk. apply andb_prop in Hk. destruct Hk as [Hk0 Hk].
    assert (Hkeys : forallb plain_key [k] = true)
      by (cbn [forallb]; rewrite Hk0; reflexivity).
    unfold scalar_document in Hr, Hl, Hf |- *.
    cbn [map concat] in Hr, Hl, Hf |- *.
    fold (scalar_document props) in Hr, Hl, Hf |- *.
    unfold scalar_line in Hr, Hl, Hf |- *. cbn [fst snd] in Hr, Hl, Hf |- *.
    rewrite <- !app_assoc in Hr. cbn [app] in Hr.
    rewrite !length_app in Hl, Hf |- *. cbn [length] in Hl, Hf |- *.
    destruct (scalar_text_head v Hs) as (c & l & Ht & Hc).
    destruct fuel as [|f]; [simpl in Hf; lia | ].
    assert (He : eof s = false).
    { destruct (@joinKeys_first [k] ltac:(discriminate)) as (h & t & E & _).
      unfold declaration in Hr. rewrite E in Hr.
      exact (@eof_rest s _ _ Hr). }
    assert (Hr1 : rest (advance s (length (declaration [k])))
                  = scalar_text v
                    ++ LF :: scalar_document props ++ ws ++ 91%N :: more)
      by apply (@rest_advance_app _ _ _ Hr).
    assert (Hdecl : 3 <= length (declaration [k])).
    { unfold declaration. rewrite length_app. simpl. lia. }
    assert (Hval := @Value_reads_scalar v _ limit _
                      Hs Hr1 ltac:(lia)).
    rewrite advance_advance in Hval.
    assert (Hpair := @Pair_reads_declaration [k] (scalar_text v) v c l
                       _ limit s
                       ltac:(discriminate) Hkeys (@scalar_default v Hs)
                       Hr Ht Hc Hval ltac:(lia)).
    cbn [repeat_loop]. reduce. rewrite He. cbv beta iota. rewrite Hpair.
    set (skip := LF :: match props with [] => ws | _ => [] end).
    set (ws' := match props with [] => @nil N | _ => ws end).
    assert (Hr2 : rest (advance s (length (declaration [k])
                                   + length (scalar_text v)))
                  = skip ++ scalar_document props ++ ws' ++ 91%N :: more).
    { rewrite <- advance_advance.
      rewrite (@rest_advance_app _ _ _ Hr1).
      subst skip ws'. destruct props; reflexivity. }
    assert (Hskipb : forallb blank skip = true).
    { subst skip. cbn [forallb]. change (blank LF) with true. cbn [andb].
      destruct props; [apply line_feeds_blank; exact Hws | reflexivity]. }
    assert (Hlen : length skip + length ws' = 1 + length ws).
    { subst skip ws'. destruct props; simpl; lia. }
    assert (Hhead : exists h t,
               scalar_document props ++ ws' ++ 91%N :: more = h :: t
               /\ is_space h = false /\ N.eqb h HASH = false).
    { destruct props as [|kv props'].
      - subst ws'. eexists _, _. split; [reflexivity | ].
        split; reflexivity.
      - destruct (@scalar_document_head (kv :: props') ltac:(discriminate))
          as (h & t & E & Hh & Hhash).
        rewrite E. eexists _, _. split; [reflexivity | ].
        split; assumption. }
    destruct Hhead as (h & t & Eh & Hh & Hhash).
    assert (Hws' : forallb (N.eqb LF) ws' = true).
    { subst ws'. destruct props; [reflexivity | exact Hws]. }
    assert (Hnil' : props = [] -> ws' = []).
    { intros ->. reflexivity. }
    clearbody skip ws'.
    rewrite Eh in Hr2.
    assert (Hskip : nextUntilChar f opt_default
                      (advance s (length (declaration [k])
                                  + length (scalar_text v)))
                    = Ret tt (advance s (length (declaration [k])
                                         + length (scalar_text v)
                                         + length skip))).
    { change opt_default with (mkOptions false true).
      rewrite (@nextUntilChar_blanks_run skip f true _ h t Hr2 Hskipb Hh)
        by (try exact Hhash; lia).
      rewrite advance_advance. reflexivity. }
    rewrite Hskip.
    rewrite (IH f limit (acc ++ [nest [k] v])
               (advance s (length (declaration [k]) + length (scalar_text v)
                           + length skip)) ws' more Hv Hk).
    + rewrite <- app_assoc. cbn [app map record fst snd nest fold_right].
      cursor.
    + rewrite <- advance_advance.
      rewrite (@rest_advance_app _ _ _ Hr2). symmetry. exact Eh.
    + exact Hws'.
    + exact Hnil'.
    + lia.
    + lia.
Qed.

(** The literal matcher on its literal at the end of a line. *)
Lemma character_reads_line_end (fuel : nat) (literal : jsstring)
    (s : Scanner) (c : N) (l tail : jsstring) :
  literal = c :: l ->
  rest s = literal ++ LF :: tail ->
  is_space c = false ->
  character (S fuel) literal s = Ret (success tt) (advance s (length literal)).
Proof.
  intros Hl Hr Hc. unfold character. unfold bind at 1.
  assert (Hr' : rest s = c :: l ++ LF :: tail)
    by (rewrite Hr, Hl; reflexivity).
  rewrite (@nextUntilChar_stays fuel opt_inline s c _ Hr' Hc eq_refl).
  reduce. rewrite slice_rest, Hr, firstn_prefix, jseq_refl.
  rewrite (@nextUntilChar_stays_at_line_end fuel _ tail
             (@rest_advance_app _ _ _ Hr)).
  reflexivity.
Qed.

(** The header of a table as the serializer writes it. *)
Lemma TableHeader_reads (keys : list jsstring) (fuel : nat) (s : Scanner)
    (tail : jsstring) :
  keys <> [] ->
  rest s = header keys ++ LF :: tail ->
  length (header keys) < fuel ->
  TableHeader fuel s = Ret (success keys) (advance s (length (header keys))).
Proof.
  intros Hne Hr Hf. unfold header in *.
  rewrite !length_app in Hf |- *.
  change (length (str "[")) with 1 in Hf |- *.
  change (length (str "]")) with 1 in Hf |- *.
  rewrite <- !app_assoc in Hr.
  destruct (joinKeys_first Hne) as (c & l & E & Hc).
  destruct (key_start Hc) as (Hsp & _ & _).
  destruct fuel as [|f]; [lia | ].
  unfold TableHeader, surround. unfold bind at 1.
  assert (Hr0 : rest s = str "[" ++ [] ++ c :: l ++ str "]" ++ LF :: tail).
  { rewrite Hr, E. reflexivity. }
  rewrite (@character_reads (S f) (str "[") [] s 91%N c [] _ eq_refl Hr0
             eq_refl eq_refl Hsp) by (simpl; lia).
  cbn [ok]. cbv beta iota. unfold bind at 1.
  assert (Hr1 : rest (advance s (length (str "[") + length (@nil N)))
                = joinKeys keys ++ [] ++ 93%N :: LF :: tail).
  { change (length (str "[") + length (@nil N)) with 1.
    rewrite rest_advance, Hr. reflexivity. }
  rewrite (@DottedKey_reads_joinKeys keys (S f) _ [] 93%N _ Hne Hr1
             eq_refl eq_refl eq_refl) by (try discriminate; simpl; lia).
  unfold bind at 1.
  pose proof (@rest_advance_app _ _ _ Hr1) as Hr2. cbn [app] in Hr2.
  change (length (@nil N)) with 0 in Hr2 |- *.
  repeat rewrite Nat.add_0_r in Hr2. repeat rewrite Nat.add_0_r.
  rewrite (@character_reads_line_end f (str "]") _ 93%N [] tail eq_refl Hr2
             eq_refl).
  cbn [ok]. cbv beta iota. unfold ret.
  cursor.
Qed.

(** Block on the lines of a table of scalars. *)
Lemma Block_reads_lines (props : properties) (tail : jsstring) (n : nat)
    (fuel : nat) (s : Scanner) :
  props <> [] ->
  distinct (map fst props) = true ->
  forallb (fun kv => scalar (snd kv)) props = true ->
  forallb (fun kv => plain_key (fst kv)) props = true ->
  rest s = scalar_document props ++ tail ->
  stop tail n ->
  length (scalar_document props) + n + 1 < fuel ->
  Block fuel s
  = Ret (success (mkBlock Block_t [] (Obj props)))
      (advance s (length (scalar_document props) + n)).
Proof.
  intros Hne Hd Hv Hk Hr Hstop Hf.
  destruct (scalar_document_head Hne) as (h & t & E & Hs & Hhash).
  assert (Hr0 : rest s = h :: t ++ tail) by (rewrite Hr, E; reflexivity).
  destruct fuel as [|f]; [lia | ].
  assert (Hrecords : map record props <> []).
  { destruct props; [congruence | discriminate]. }
  assert (Hloop : repeat_loop (S f) (Pair (S f)) [] s
                  = Ret ([] ++ map record props)
                      (advance s (length (scalar_document props) + n))).
  { destruct Hstop as [[-> ->] | (ws & more & -> & Hws & ->)].
    - rewrite app_nil_r in Hr. rewrite Nat.add_0_r.
      pose proof (scalar_document_length props) as Hlen.
      apply (@repeat_loop_lines props (S f) (S f) [] s Hv Hk Hr);
        lia.
    - apply (@repeat_loop_lines_then props (S f) (S f) [] s ws more Hv Hk Hr
               Hws); try lia.
      intros ->. congruence. }
  unfold Block. unfold bind at 1.
  rewrite (@nextUntilChar_stays f opt_default s h _ Hr0 Hs).
  2:{ cbn [comment opt_default andb]. exact Hhash. }
  unfold merge, repeat. unfold bind at 1. unfold bind at 1.
  unfold bind at 1. rewrite Hloop.
  cbn [app]. destruct (map record props) as [|r rs] eqn:Er;
    [congruence | ].
  cbn [length Nat.eqb]. cbv beta iota. unfold ret at 1. unfold ret at 1.
  rewrite <- Er. rewrite (@fold_deepMerge_records props [] Hd).
  reflexivity.
Qed.

(** Block in front of a header or at the end of the input. *)
Lemma Block_misses_bracket (fuel : nat) (s : Scanner) (ws more : jsstring) :
  rest s = ws ++ 91%N :: more ->
  forallb (N.eqb LF) ws = true ->
  length ws + 1 < fuel ->
  Block fuel s = Ret failure (advance s (length ws)).
Proof.
  intros Hr Hws Hf. destruct fuel as [|[|f]]; try lia.
  unfold Block. unfold bind at 1.
  change opt_default with (mkOptions false true).
  rewrite (@nextUntilChar_blanks_run ws (S (S f)) true s 91%N more Hr
             (line_feeds_blank _ Hws) eq_refl eq_refl) by lia.
  unfold merge, repeat. unfold bind at 1. unfold bind at 1.
  unfold bind at 1. cbn [repeat_loop]. reduce.
  pose proof (@rest_advance_app _ _ _ Hr) as Hr1.
  rewrite (@eof_rest _ _ _ Hr1). cbv beta iota.
  rewrite (@Pair_misses_bracket (S f) _ more Hr1). reflexivity.
Qed.

(** The literal matcher in front of another text. *)
Lemma character_misses_here (fuel : nat) (literal : jsstring) (s : Scanner)
    (c : N) (l : jsstring) :
  rest s = c :: l ->
  is_space c = false ->
  jseq (firstn (length literal) (c :: l)) literal = false ->
  character (S fuel) literal s = Ret failure s.
Proof.
  intros Hr Hc Hl. unfold character. unfold bind at 1.
  rewrite (@nextUntilChar_stays fuel opt_inline s c l Hr Hc eq_refl).
  reduce. rewrite slice_rest, Hr, Hl. reflexivity.
Qed.

(** The header of a table array does not match the header of a table. *)
Lemma TableArray_misses_header (fuel : nat) (s : Scanner) (c : N)
    (more : jsstring) :
  rest s = 91%N :: c :: more ->
  N.eqb c 91 = false ->
  TableArray (S fuel) s = Ret failure s.
Proof.
  intros Hr Hc. unfold TableArray. unfold bind at 1.
  rewrite (@nextUntilChar_stays fuel opt_default s 91%N _ Hr eq_refl eq_refl).
  unfold TableArrayHeader, surround. unfold bind at 1. unfold bind at 1.
  rewrite (@character_misses_here fuel (str "[[") s 91%N _ Hr eq_refl).
  - reflexivity.
  - cbn [length str list_ascii_of_string map firstn jseq].
    change (cu "["%char) with 91%N. cbn [N.eqb Pos.eqb andb].
    rewrite Hc. reflexivity.
Qed.

Lemma header_head (keys : list jsstring) :
  keys <> [] ->
  exists c l, header keys = 91%N :: c :: l /\ N.eqb c 91 = false.
Proof.
  intros Hne. unfold header.
  destruct (joinKeys_first Hne) as (c & l & E & Hc).
  destruct (key_start Hc) as (_ & _ & Hb).
  rewrite E. eexists c, _. split; [reflexivity | ].
  rewrite N.eqb_sym. exact Hb.
Qed.

(** Table on a section that the serializer wrote. *)
Lemma Table_reads_section (k : jsstring) (sub : properties)
    (tail : jsstring) (n : nat) (fuel : nat) (s : Scanner) :
  distinct (map fst sub) = true ->
  forallb (fun kv => scalar (snd kv)) sub = true ->
  forallb (fun kv => plain_key (fst kv)) sub = true ->
  rest s = section_text (k, sub) ++ tail ->
  stop tail n ->
  length (section_text (k, sub)) + n + 1 < fuel ->
  Table fuel s
  = Ret (success (table_record (k, sub)))
      (advance s (length (section_text (k, sub)) + n)).
Proof.
  intros Hd Hv Hk Hr Hstop Hf.
  unfold section_text, table_record in *. cbn [fst snd] in *.
  rewrite length_app in Hf |- *. cbn [length] in Hf |- *.
  rewrite <- app_assoc in Hr. cbn [app] in Hr.
  destruct (@header_head [k] ltac:(discriminate)) as (c & l & Eh & Hc).
  assert (Hr0 : rest s = 91%N :: c :: l ++ LF :: scalar_document sub ++ tail).
  { rewrite Hr, Eh. reflexivity. }
  destruct fuel as [|[|f]]; try lia.
  unfold Table. unfold bind at 1.
  rewrite (@nextUntilChar_stays (S f) opt_default s 91%N _ Hr0 eq_refl
             eq_refl).
  unfold bind at 1.
  rewrite (@TableHeader_reads [k] (S (S f)) s _ ltac:(discriminate) Hr)
    by lia.
  pose proof (@rest_advance_app _ _ _ Hr) as Hr1.
  unfold bind at 1.
  change opt_default with (mkOptions false true).
  destruct sub as [|kv sub'].
  - cbn [scalar_document map concat app length] in *.
    destruct Hstop as [[-> ->] | (ws & more & -> & Hws & ->)].
    + rewrite (@nextUntilChar_blanks_to_end [LF] (S (S f)) true _ Hr1
                 eq_refl) by (simpl; lia).
      unfold bind at 1.
      assert (Hr2 : rest (advance (advance s (length (header [k])))
                            (length [LF])) = []).
      { rewrite <- (app_nil_r [LF]) in Hr1.
        apply (@rest_advance_app _ _ _ Hr1). }
      rewrite (@Block_at_end f _ Hr2).
      unfold ret. cbn [block_or_empty]. cursor.
    + assert (Hr1' : rest (advance s (length (header [k])))
                     = (LF :: ws) ++ 91%N :: more) by exact Hr1.
      rewrite (@nextUntilChar_blanks_run (LF :: ws) (S (S f)) true _ 91%N
                 more Hr1') by (try reflexivity; simpl in *; try lia;
                               rewrite (line_feeds_blank _ Hws);
                               reflexivity).
      unfold bind at 1.
      pose proof (@rest_advance_app _ _ _ Hr1') as Hr2.
      rewrite (@Block_misses_bracket (S (S f)) _ [] more Hr2 eq_refl)
        by (simpl; lia).
      unfold ret. cbn [block_or_empty]. cursor.
  - destruct (@scalar_document_head (kv :: sub') ltac:(discriminate))
      as (h & t & E & Hh & Hhash).
    assert (Hr1' : rest (advance s (length (header [k])))
                   = [LF] ++ h :: t ++ tail).
    { rewrite Hr1, E. reflexivity. }
    rewrite (@nextUntilChar_blanks_run [LF] (S (S f)) true _ h _ Hr1'
               eq_refl Hh) by (try exact Hhash; simpl; lia).
    unfold bind at 1.
    assert (Hr2 : rest (advance (advance s (length (header [k])))
                          (length [LF]))
                  = scalar_document (kv :: sub') ++ tail).
    { rewrite (@rest_advance_app _ _ _ Hr1'), E. reflexivity. }
    rewrite (@Block_reads_lines (kv :: sub') tail n (S (S f)) _
               ltac:(discriminate) Hd Hv Hk Hr2 Hstop) by lia.
    unfold ret. cbn [block_or_empty block_value]. cursor.
Qed.

Lemma sections_text_stop (tables : list (jsstring * properties)) :
  exists n,
    stop (sections_text tables) n
    /\ length (sections_text tables) = n + length (sections_at tables)
    /\ n <= 1.
Proof.
  destruct tables as [|[k sub] others].
  - exists 0. split; [left; split; reflexivity | ]. split; [reflexivity | lia].
  - exists 1. split; [ | split; [reflexivity | lia]].
    right. cbn [sections_text]. unfold section_text. cbn [fst snd].
    destruct (@header_head [k] ltac:(discriminate)) as (c & l & Eh & _).
    rewrite Eh. eexists [LF], _. split; [reflexivity | ].
    split; reflexivity.
Qed.

(** The loop of Toml over the sections of a document. *)
Lemma repeat_loop_sections (tables : list (jsstring * properties)) :
  forall (fuel limit : nat) (acc : list BlockRecord) (s : Scanner)
         (ws : jsstring),
    forallb section_ok tables = true ->
    rest s = ws ++ sections_at tables ->
    forallb (N.eqb LF) ws = true ->
    (tables = [] -> ws = []) ->
    length ws + length (sections_at tables) + 1 < limit ->
    length ws + length (sections_at tables) + 1 < fuel ->
    repeat_loop fuel (or [Block limit; TableArray limit; Table limit]) acc s
    = Ret (acc ++ map table_record tables)
        (advance s (length ws + length (sections_at tables))).
Proof.
  induction tables as [|[k sub] others IH];
    intros fuel limit acc s ws Hok Hr Hws Hnil Hl Hf.
  - rewrite (Hnil eq_refl) in *. cbn [sections_at app length] in *.
    destruct fuel as [|f]; [lia | ].
    cbn [repeat_loop]. reduce. rewrite (eof_at_end _ Hr). cbv beta iota.
    rewrite app_nil_r, advance_zero. reflexivity.
  - cbn [forallb] in Hok. apply andb_prop in Hok. destruct Hok as [Ht Hok].
    unfold section_ok in Ht. cbn [snd] in Ht. apply andb_prop in Ht.
    destruct Ht as [Hd Hv]. apply andb_prop in Hd. destruct Hd as [Hd Hk].
    cbn [sections_at] in Hr, Hl, Hf |- *.
    rewrite length_app in Hl, Hf |- *.
    destruct (sections_text_stop others) as (n & Hstop & Hlen & Hn).
    destruct (@header_head [k] ltac:(discriminate)) as (c & l & Eh & Hc).
    assert (Hr0 : rest s
                  = ws ++ 91%N :: c :: l ++ LF :: scalar_document sub
                          ++ sections_text others).
    { rewrite Hr. unfold section_text. cbn [fst snd]. rewrite Eh.
      rewrite <- !app_assoc. reflexivity. }
    assert (He : eof s = false).
    { destruct ws as [|w ws']; exact (@eof_rest s _ _ Hr0). }
    pose proof (@rest_advance_app _ _ _ Hr0) as Hr1.
    assert (Hr1' : rest (advance s (length ws))
                   = section_text (k, sub) ++ sections_text others).
    { rewrite Hr1. unfold section_text. cbn [fst snd]. rewrite Eh.
      rewrite <- !app_assoc. reflexivity. }
    destruct fuel as [|f]; [lia | ].
    destruct limit as [|limit]; [lia | ].
    assert (Hor : or [Block (S limit); TableArray (S limit);
                      Table (S limit)] s
                  = Ret (success (table_record (k, sub)))
                      (advance (advance s (length ws))
                         (length (section_text (k, sub)) + n))).
    { cbn [or]. unfold bind at 1.
      rewrite (@Block_misses_bracket (S limit) s ws _ Hr0 Hws) by lia.
      cbn [ok]. cbv beta iota. unfold bind at 1.
      rewrite (@TableArray_misses_header limit _ c _ Hr1 Hc).
      cbn [ok]. cbv beta iota. unfold bind at 1.
      rewrite (@Table_reads_section k sub (sections_text others) n (S limit)
                 _ Hd Hv Hk Hr1' Hstop) by lia.
      reflexivity. }
    cbn [repeat_loop]. reduce. rewrite He. cbv beta iota. rewrite Hor.
    destruct f as [|f]; [lia | ].
    assert (Hr2 : rest (advance (advance s (length ws))
                          (length (section_text (k, sub)) + n))
                  = sections_at others).
    { rewrite <- advance_advance. rewrite rest_advance.
      rewrite (@rest_advance_app _ _ _ Hr1').
      destruct others as [|t' others'].
      - destruct Hstop as [[E ->] | (ws' & more & E & Hws' & ->)];
          [reflexivity | destruct ws'; discriminate].
      - cbn [sections_text length] in Hlen |- *.
        assert (n = 1) by (cbn [sections_at] in Hlen; lia). subst n.
        reflexivity. }
    assert (Hstay : nextUntilChar (S f) opt_default
                      (advance (advance s (length ws))
                         (length (section_text (k, sub)) + n))
                    = Ret tt (advance (advance s (length ws))
                                (length (section_text (k, sub)) + n))).
    { destruct others as [|[k' sub'] others'].
      - apply nextUntilChar_at_end. exact Hr2.
      - cbn [sections_at] in Hr2. unfold section_text in Hr2.
        cbn [fst snd] in Hr2.
        destruct (@header_head [k'] ltac:(discriminate))
          as (c' & l' & Eh' & _).
        rewrite Eh' in Hr2.
        apply (@nextUntilChar_stays f opt_default _ 91%N _ Hr2 eq_refl
                 eq_refl). }
    rewrite Hstay.
    rewrite (IH (S f) (S limit) (acc ++ [table_record (k, sub)]) _ []
               Hok Hr2 eq_refl (fun _ => eq_refl)).
    + rewrite <- app_assoc. cbn [app map length]. rewrite Hlen. cursor.
    + cbn [length]. lia.
    + cbn [length]. pose proof (length_zero_iff_nil (section_text (k, sub))).
      assert (3 <= length (section_text (k, sub))).
      { unfold section_text, header. cbn [fst snd].
        rewrite !length_app. simpl. lia. }
      lia.
Qed.

Lemma forallb_map (A B : Type) (f : A -> B) (p : B -> bool) (l : list A) :
  forallb p (map f l) = forallb (fun x => p (f x)) l.
Proof.
  induction l as [|x l IH]; [reflexivity | ]. cbn [map forallb].
  rewrite IH. reflexivity.
Qed.

(** A table of scalars under distinct plain keys makes a section that the
    parser reads back. *)
Lemma plain_table_ok (t : jsstring * properties) :
  plain_table (snd t) = true -> section_ok t = true.
Proof.
  unfold plain_table, section_ok. intros H. apply andb_prop in H.
  destruct H as [H1 H2]. rewrite H1. cbn [andb].
  apply andb_true_intro. split; apply forallb_forall; intros kv Hkv;
    pose proof (proj1 (forallb_forall _ _) H2 kv Hkv) as H;
    apply andb_prop in H; apply H.
Qed.

(** The fold of Toml over the records of sections with fresh keys adds one
    member per section. *)
Lemma Toml_fold_tables (tables : list (jsstring * properties)) :
  forall props : properties,
    distinct (map fst (props ++ map table_entry tables)) = true ->
    forallb plain_key (map fst tables) = true ->
    Toml_fold (map table_record tables) (Obj props)
    = inr (Obj (props ++ map table_entry tables)).
Proof.
  induction tables as [|[k sub] others IH]; intros props Hd Hp.
  - cbn [map Toml_fold]. rewrite app_nil_r. reflexivity.
  - cbn [map] in Hd. unfold table_entry at 1 in Hd. cbn [fst snd] in Hd.
    pose proof (distinct_absent _ _ _ _ Hd) as Hk.
    cbn [map forallb fst] in Hp. apply andb_prop in Hp.
    destruct Hp as [Hp0 Hp].
    assert (Hkeys : forallb plain_key [k] = true)
      by (cbn [forallb]; rewrite Hp0; reflexivity).
    cbn [map Toml_fold table_record block_type block_key block_value fst snd].
    rewrite (@deepAssignWithTable_fresh props k [] Table_t (Obj sub) Hkeys
               (get_absent _ _ Hk)).
    cbn [is_Table nest fold_right default_values].
    rewrite (set_absent _ _ (Obj sub) Hk).
    rewrite (IH (props ++ [(k, Obj sub)]));
      [ rewrite <- app_assoc; reflexivity
      | rewrite <- app_assoc; exact Hd
      | exact Hp ].
Qed.

Lemma sections_text_length (tables : list (jsstring * properties)) :
  tables <> [] ->
  sections_text tables = [LF] ++ sections_at tables.
Proof. destruct tables; [congruence | reflexivity]. Qed.

(** The parser reads the document of a table of scalars and tables of
    scalars back. *)
Lemma Toml_reads_tables (tops : properties)
    (tables : list (jsstring * properties)) (fuel : nat) (s : Scanner) :
  tops <> [] \/ tables <> [] ->
  distinct (map fst (tops ++ map table_entry tables)) = true ->
  forallb (fun kv => scalar (snd kv)) tops = true ->
  forallb (fun kv => plain_key (fst kv)) tops = true ->
  forallb plain_key (map fst tables) = true ->
  forallb section_ok tables = true ->
  rest s = table_document tops tables ->
  length (table_document tops tables) + 1 < fuel ->
  Toml fuel s
  = Ret (success (Obj (tops ++ map table_entry tables)))
      (advance s (length (table_document tops tables))).
Proof.
  intros Hne Hd Hv Hk Hkt Hok Hr Hf. unfold table_document in *.
  rewrite length_app in Hf |- *.
  destruct (sections_text_stop tables) as (n & Hstop & Hlen & Hn).
  unfold Toml, repeat. unfold bind at 1. unfold bind at 1.
  destruct tops as [|top tops'].
  - destruct Hne as [Hne | Hne]; [congruence | ].
    cbn [scalar_document map concat app length] in *.
    rewrite (sections_text_length Hne) in Hr, Hf |- *.
    rewrite length_app in Hf |- *.
    rewrite (@repeat_loop_sections tables fuel fuel [] s [LF] Hok Hr eq_refl)
      by (try lia; intros E; congruence).
    cbn [app]. destruct (map table_record tables) as [|r rs] eqn:Er.
    { destruct tables; [congruence | discriminate]. }
    cbn [length Nat.eqb]. cbv beta iota. unfold ret at 1.
    rewrite <- Er. rewrite (@Toml_fold_tables tables [] Hd Hkt).
    reflexivity.
  - assert (Hdt : distinct (map fst (top :: tops')) = true).
    { clear - Hd. revert Hd. generalize (top :: tops') as l.
      induction l as [|[k v] l IH]; [reflexivity | ].
      cbn [map app fst distinct]. intros H. apply andb_prop in H.
      destruct H as [Hk H]. rewrite (IH H), andb_true_r.
      apply negb_true_iff in Hk. apply negb_true_iff.
      rewrite map_app, existsb_app in Hk. apply orb_false_elim in Hk.
      apply Hk. }
    destruct (@scalar_document_head (top :: tops') ltac:(discriminate))
      as (h & t & E & Hh & Hhash).
    assert (He : eof s = false).
    { rewrite E in Hr. exact (@eof_rest s _ _ Hr). }
    assert (Hdoc : 1 <= length (scalar_document (top :: tops'))).
    { rewrite E. simpl. lia. }
    assert (Hblock := @Block_reads_lines (top :: tops') (sections_text tables)
                        n fuel s ltac:(discriminate) Hdt Hv Hk Hr Hstop
                        ltac:(lia)).
    destruct fuel as [|f]; [lia | ].
    cbn [repeat_loop]. reduce. rewrite He. cbv beta iota.
    cbn [or]. unfold bind at 1. rewrite Hblock. cbn [ok]. cbv beta iota.
    unfold ret at 1.
    assert (Hr2 : rest (advance s (length (scalar_document (top :: tops'))
                                   + n))
                  = sections_at tables).
    { rewrite <- advance_advance. rewrite rest_advance.
      rewrite (@rest_advance_app _ _ _ Hr).
      destruct tables as [|t' others'].
      - destruct Hstop as [[_ ->] | (ws' & more & E' & _ & _)];
          [reflexivity | destruct ws'; discriminate].
      - cbn [sections_text length] in Hlen |- *.
        assert (n = 1) by (cbn [sections_at] in Hlen; lia). subst n.
        reflexivity. }
    destruct f as [|f]; [lia | ].
    assert (Hstay : nextUntilChar (S f) opt_default
                      (advance s (length (scalar_document (top :: tops'))
                                  + n))
                    = Ret tt (advance s
                                (length (scalar_document (top :: tops'))
                                 + n))).
    { destruct tables as [|[k' sub'] others'].
      - apply nextUntilChar_at_end. exact Hr2.
      - cbn [sections_at] in Hr2. unfold section_text in Hr2.
        cbn [fst snd] in Hr2.
        destruct (@header_head [k'] ltac:(discriminate))
          as (c' & l' & Eh' & _).
        rewrite Eh' in Hr2.
        apply (@nextUntilChar_stays f opt_default _ 91%N _ Hr2 eq_refl
                 eq_refl). }
    rewrite Hstay.
    fold (or [Block (S (S f)); TableArray (S (S f)); Table (S (S f))]).
    rewrite (@repeat_loop_sections tables (S f) (S (S f)) _ _ [] Hok Hr2
               eq_refl (fun _ => eq_refl)) by (cbn [length]; lia).
    cbn [app length Nat.eqb]. cbv beta iota.
    cbn [Toml_fold block_type block_value].
    rewrite (deepMerge_distinct _ Hdt).
    rewrite (@Toml_fold_tables tables (top :: tops') Hd Hkt).
    rewrite Hlen. cursor.
Qed.

(** The lines of a table of scalars and tables of scalars. *)
Lemma printObject_tables (tops : properties)
    (tables : list (jsstring * properties)) :
  forallb (fun kv => scalar (snd kv)) tops = true ->
  forallb section_ok tables = true ->
  printObject (Obj (tops ++ map table_entry tables)) []
  = inr (map scalar_declaration tops
         ++ concat (map section_lines tables) ++ [[]]).
Proof.
  intros Hv Hok. cbn [printObject app].
  match goal with
  | |- append_lines (?inlineProps _) (append_lines (?multilineProps _) _) = _ =>
      assert (Hi : inlineProps (tops ++ map table_entry tables)
                   = inr (map scalar_declaration tops));
      [ | assert (Hm : multilineProps (tops ++ map table_entry tables)
                       = inr (concat (map section_lines tables))) ]
  end.
  - clear Hok. induction tops as [|[k v] tops IH].
    + cbn [app map]. induction tables as [|[k sub] others IH];
        [reflexivity | ].
      cbn [map table_entry fst snd isSimplySerializable].
      rewrite IH. reflexivity.
    + cbn [forallb snd] in Hv. apply andb_prop in Hv. destruct Hv as [Hs Hv].
      destruct (@inline_declaration_scalar k v Hs) as [Hser Hdecl].
      cbn [app]. rewrite Hser, Hdecl, (IH Hv). reflexivity.
  - clear Hi. induction tops as [|[k v] tops IH].
    + cbn [app]. clear Hv. induction tables as [|[k sub] others IH];
        [reflexivity | ].
      cbn [forallb] in Hok. apply andb_prop in Hok.
      destruct Hok as [Ht Hok]. unfold section_ok in Ht. cbn [snd] in Ht.
      apply andb_prop in Ht. destruct Ht as [_ Hsub].
      cbn [map table_entry fst snd isSimplySerializable app].
      rewrite (IH Hok).
      rewrite (@printObject_scalars sub [k] Hsub).
      cbn [append_lines concat section_lines fst snd app].
      rewrite <- !app_assoc. reflexivity.
    + cbn [forallb snd] in Hv. apply andb_prop in Hv. destruct Hv as [Hs Hv].
      destruct (@inline_declaration_scalar k v Hs) as [Hser Hdecl].
      cbn [app]. rewrite Hser, (IH Hv). reflexivity.
  - rewrite Hi, Hm. reflexivity.
Qed.

Lemma scalar_declaration_plain (kv : jsstring * value) :
  is_table_header (scalar_declaration kv) = false
  /\ jseq (scalar_declaration kv) [] = false.
Proof.
  destruct (scalar_declaration_head kv) as (c & l & E & Hc).
  rewrite E. unfold is_table_header. cbn [nth_error is_char test jseq].
  rewrite Hc. split; reflexivity.
Qed.

Lemma format_headers_declarations (props : properties)
    (lines : list jsstring) :
  format_headers (map scalar_declaration props ++ lines)
  = map scalar_declaration props ++ format_headers lines.
Proof.
  induction props as [|kv props IH]; [reflexivity | ].
  cbn [map app format_headers].
  destruct (scalar_declaration_plain kv) as [Hh _].
  rewrite Hh, IH. reflexivity.
Qed.

Lemma format_blanks_declarations (props : properties)
    (lines : list jsstring) :
  lines <> [] ->
  format_blanks (map scalar_declaration props ++ lines)
  = map scalar_declaration props ++ format_blanks lines.
Proof.
  intros Hne. induction props as [|kv props IH]; [reflexivity | ].
  cbn [map app format_blanks].
  destruct (scalar_declaration_plain kv) as [_ He].
  destruct (map scalar_declaration props ++ lines) as [|following more] eqn:R.
  - destruct (map scalar_declaration props); cbn [app] in R; congruence.
  - rewrite He. cbn [andb]. cbv iota. rewrite IH. reflexivity.
Qed.

(** The lines of the sections start with an empty line. *)
Lemma section_lines_head (tables : list (jsstring * properties)) :
  exists more, concat (map section_lines tables) ++ [[]] = [] :: more.
Proof.
  destruct tables as [|t others]; eexists; reflexivity.
Qed.

Lemma header_line (k : jsstring) :
  is_table_header (header [k]) = true /\ jseq (header [k]) [] = false.
Proof.
  destruct (@header_head [k] ltac:(discriminate)) as (c & l & E & Hc).
  rewrite E. unfold is_table_header. cbn [nth_error is_char test jseq].
  rewrite (N.eqb_sym 91 c), Hc. split; reflexivity.
Qed.

Lemma format_headers_line (l : jsstring) (lines : list jsstring) :
  is_table_header l = false ->
  format_headers (l :: lines) = l :: format_headers lines.
Proof. intros H. cbn [format_headers]. rewrite H. reflexivity. Qed.

Lemma format_headers_member (l following : jsstring)
    (lines : list jsstring) :
  jseq following [] = false ->
  format_headers (l :: following :: lines)
  = l :: format_headers (following :: lines).
Proof.
  intros H. cbn [format_headers]. destruct (is_table_header l);
    [ | reflexivity].
  destruct lines; [reflexivity | ]. rewrite H. reflexivity.
Qed.

Lemma format_headers_empty (l : jsstring) (lines : list jsstring) :
  format_headers (l :: [] :: [] :: lines)
  = l :: format_headers ([] :: [] :: lines).
Proof.
  cbn [format_headers]. destruct (is_table_header l); [ | reflexivity].
  rewrite firstn_nil.
  assert (Hno : jseq [] (removelast l ++ str ".") = false)
    by (destruct (removelast l); reflexivity).
  rewrite Hno, andb_false_r. reflexivity.
Qed.

(** The first pass of [#format] keeps every header of these sections. *)
Lemma format_headers_sections (tables : list (jsstring * properties)) :
  format_headers (concat (map section_lines tables) ++ [[]])
  = concat (map section_lines tables) ++ [[]].
Proof.
  induction tables as [|[k sub] others IH]; [reflexivity | ].
  cbn [map concat]. unfold section_lines at 1 3. cbn [fst snd].
  rewrite <- !app_assoc. cbn [app].
  rewrite (@format_headers_line [] _ eq_refl). f_equal.
  destruct (section_lines_head others) as (more & E).
  destruct sub as [|kv sub'].
  - cbn [map app]. rewrite E in IH |- *.
    rewrite format_headers_empty.
    rewrite (@format_headers_line [] _ eq_refl), IH. reflexivity.
  - cbn [map app].
    destruct (scalar_declaration_plain kv) as [Hk He].
    rewrite (@format_headers_member _ _ _ He). f_equal.
    change (scalar_declaration kv
            :: map scalar_declaration sub'
               ++ [] :: concat (map section_lines others) ++ [[]])
      with (map scalar_declaration (kv :: sub')
            ++ [] :: concat (map section_lines others) ++ [[]]).
    rewrite format_headers_declarations.
    rewrite (@format_headers_line [] _ eq_refl), IH. reflexivity.
Qed.

Lemma format_blanks_line (l : jsstring) (lines : list jsstring) :
  jseq l [] = false ->
  lines <> [] ->
  format_blanks (l :: lines) = l :: format_blanks lines.
Proof.
  intros H Hne. destruct lines as [|following lines]; [congruence | ].
  cbn [format_blanks]. rewrite H. reflexivity.
Qed.

Lemma format_blanks_before (l following : jsstring)
    (lines : list jsstring) :
  jseq following [] = false ->
  format_blanks (l :: following :: lines)
  = l :: format_blanks (following :: lines).
Proof.
  intros H. cbn [format_blanks]. rewrite H, andb_false_r. reflexivity.
Qed.

(** The second pass of [#format] drops the empty line at the end of each
    section. *)
Lemma format_blanks_sections (tables : list (jsstring * properties)) :
  format_blanks (concat (map section_lines tables) ++ [[]])
  = concat (map section_kept tables) ++ [[]].
Proof.
  induction tables as [|[k sub] others IH]; [reflexivity | ].
  cbn [map concat]. unfold section_lines at 1, section_kept at 1.
  cbn [fst snd]. rewrite <- !app_assoc. cbn [app].
  destruct (header_line k) as [_ He].
  rewrite (@format_blanks_before _ _ _ He). f_equal.
  rewrite (@format_blanks_line _ _ He).
  2:{ destruct (map scalar_declaration sub); discriminate. }
  f_equal.
  rewrite format_blanks_declarations by discriminate. f_equal.
  destruct (section_lines_head others) as (more & E).
  rewrite E in IH |- *. cbn [format_blanks jseq andb]. cbv iota.
  exact IH.
Qed.

Lemma join_with_lines (lines : list jsstring) :
  join_with [LF] (lines ++ [[]]) = concat (map (fun l => l ++ [LF]) lines).
Proof.
  induction lines as [|l lines IH]; [reflexivity | ].
  cbn [app map concat]. rewrite <- IH.
  destruct (lines ++ [[]]) as [|following more] eqn:R.
  - destruct lines; discriminate.
  - cbn [join_with]. rewrite <- app_assoc. reflexivity.
Qed.

Lemma declarations_text (props : properties) :
  concat (map (fun l => l ++ [LF]) (map scalar_declaration props))
  = scalar_document props.
Proof.
  induction props as [|kv props IH]; [reflexivity | ].
  cbn [map concat]. rewrite IH. unfold scalar_document. cbn [map concat].
  unfold scalar_line, scalar_declaration. rewrite <- !app_assoc.
  reflexivity.
Qed.

Lemma sections_kept_text (tables : list (jsstring * properties)) :
  concat (map (fun l => l ++ [LF]) (concat (map section_kept tables)))
  = sections_text tables.
Proof.
  induction tables as [|[k sub] others IH]; [reflexivity | ].
  cbn [map concat sections_text]. rewrite map_app, concat_app.
  etransitivity; [apply f_equal; exact IH | ].
  unfold section_kept, section_text. cbn [fst snd app map concat].
  rewrite <- (declarations_text sub), <- !app_assoc. reflexivity.
Qed.

(** What the serializer writes for a table of scalars and tables of
    scalars. *)
Lemma stringify_tables (tops : properties)
    (tables : list (jsstring * properties)) :
  forallb (fun kv => scalar (snd kv)) tops = true ->
  forallb section_ok tables = true ->
  stringify (Obj (tops ++ map table_entry tables))
  = inr (table_document tops tables).
Proof.
  intros Hv Hok. unfold stringify.
  rewrite (@printObject_tables tops tables Hv Hok).
  rewrite format_headers_declarations, format_headers_sections.
  rewrite format_blanks_declarations.
  2:{ destruct (section_lines_head tables) as (more & E). rewrite E.
      discriminate. }
  rewrite format_blanks_sections, app_assoc, join_with_lines.
  rewrite map_app, concat_app. unfold table_document.
  rewrite <- (declarations_text tops), <- (sections_kept_text tables).
  reflexivity.
Qed.

Lemma parse_reads_tables (tops : properties)
    (tables : list (jsstring * properties)) :
  tops <> [] \/ tables <> [] ->
  distinct (map fst (tops ++ map table_entry tables)) = true ->
  forallb (fun kv => scalar (snd kv)) tops = true ->
  forallb (fun kv => plain_key (fst kv)) tops = true ->
  forallb plain_key (map fst tables) = true ->
  forallb section_ok tables = true ->
  parse (table_document tops tables)
  = Returns (Obj (tops ++ map table_entry tables)).
Proof.
  intros Hne Hd Hv Hk Hkt Hok.
  unfold parse, ParserFactory, enough_fuel.
  rewrite (@Toml_reads_tables tops tables _
             (newScanner (table_document tops tables))
             Hne Hd Hv Hk Hkt Hok (rest_newScanner _)) by lia.
  assert (He : eof (advance (newScanner (table_document tops tables))
                      (length (table_document tops tables))) = true).
  { unfold eof, advance, newScanner. simpl. apply Nat.leb_refl. }
  rewrite He. reflexivity.
Qed.

(** X24: round trip through the serializer and the parser for tables with
    sub-tables: for a table whose members are scalars (strings, booleans,
    infinities, safe integers) followed by tables of such scalars, under
    distinct keys, [stringify] writes the scalar members, then one
    [[key]] section per sub-table behind a blank line, and [parse] of that
    text returns the table (empty sub-tables included). *)
Theorem parse_stringify_tables (tops : properties)
    (tables : list (jsstring * properties)) :
  tops <> [] \/ tables <> [] ->
  distinct (map fst tops ++ map fst tables) = true ->
  forallb plain_key (map fst tops ++ map fst tables) = true ->
  forallb (fun kv => scalar (snd kv)) tops = true ->
  forallb (fun t => plain_table (snd t)) tables = true ->
  stringify (Obj (tops ++ map table_entry tables))
  = inr (table_document tops tables)
  /\ reparse (Obj (tops ++ map table_entry tables))
     = Returns (Obj (tops ++ map table_entry tables)).
Proof.
  intros Hne Hd Hp Hv Ht.
  assert (Hok : forallb section_ok tables = true).
  { apply forallb_forall. intros t Hin.
    pose proof (proj1 (forallb_forall _ _) Ht t Hin) as H.
    exact (@plain_table_ok t H). }
  assert (Hd' : distinct (map fst (tops ++ map table_entry tables)) = true).
  { rewrite map_app, map_map. exact Hd. }
  rewrite forallb_app in Hp. apply andb_prop in Hp. destruct Hp as [Hk Hkt].
  rewrite forallb_map in Hk.
  pose proof (@stringify_tables tops tables Hv Hok) as Hs.
  split; [exact Hs | ].
  unfold reparse. rewrite Hs.
  apply (@parse_reads_tables tops tables Hne Hd' Hv Hk Hkt Hok).
Qed.

Lemma fields_table :
  (forallb (field_ok 2) (code_units 0 (N.to_nat 100))
   && forallb (field_ok 3) (code_units 0 (N.to_nat 1000))
   && forallb (fun y => field_ok 4 y && Nat.eqb (length (decimal y)) 4)
        (code_units 1000 (N.to_nat 9000)))%bool = true.
Proof. vm_compute. reflexivity. Qed.

Lemma field_digits (width : nat) (x : N) :
  (width = 2 /\ (x < 100)%N) \/ (width = 3 /\ (x < 1000)%N) ->
  length (padStart width (decimal x)) = width
  /\ forallb is_digit (padStart width (decimal x)) = true.
Proof.
  pose proof fields_table as T. rewrite !andb_true_iff in T.
  destruct T as [[T2 T3] _].
  intros [[-> H] | [-> H]].
  - assert (Hin : In x (code_units 0 (N.to_nat 100))) by (apply code_units_in; rewrite N2Nat.id; lia).
    pose proof (proj1 (forallb_forall _ _) T2 x Hin) as E.
    unfold field_ok in E. apply andb_prop in E. destruct E as [E1 E2].
    apply Nat.eqb_eq in E1. split; assumption.
  - assert (Hin : In x (code_units 0 (N.to_nat 1000))) by (apply code_units_in; rewrite N2Nat.id; lia).
    pose proof (proj1 (forallb_forall _ _) T3 x Hin) as E.
    unfold field_ok in E. apply andb_prop in E. destruct E as [E1 E2].
    apply Nat.eqb_eq in E1. split; assumption.
Qed.

Lemma year_digits (y : N) :
  (1000 <= y <= 9999)%N ->
  length (decimal y) = 4 /\ forallb is_digit (decimal y) = true.
Proof.
  pose proof fields_table as T. rewrite !andb_true_iff in T.
  destruct T as [_ T4]. intros H.
  assert (Hin : In y (code_units 1000 (N.to_nat 9000))) by (apply code_units_in; rewrite N2Nat.id; lia).
  pose proof (proj1 (forallb_forall _ _) T4 y Hin) as E. cbv beta in E.
  unfold field_ok in E. rewrite !andb_true_iff in E.
  destruct E as [[_ E2] E3]. apply Nat.eqb_eq in E3.
  split; [exact E3 | ].
  unfold padStart in E2. rewrite E3 in E2. exact E2.
Qed.

Lemma digits_date_chars (l : jsstring) :
  forallb is_digit l = true -> forallb is_date_char l = true.
Proof.
  intros H. apply forallb_forall. intros c Hin.
  pose proof (proj1 (forallb_forall _ _) H c Hin) as Hc.
  unfold is_date_char. rewrite Hc, orb_true_r. reflexivity.
Qed.

Lemma trim_inner (c z : N) (l : jsstring) :
  is_space c = false ->
  is_space z = false ->
  trim (c :: l ++ [z]) = c :: l ++ [z].
Proof.
  intros Hc Hz. unfold trim. cbn [drop_while]. rewrite Hc.
  change (c :: l ++ [z]) with ((c :: l) ++ [z]).
  rewrite rev_app_distr. cbn [rev app drop_while]. rewrite Hz.
  change (z :: rev l ++ [c]) with ([z] ++ rev (c :: l)).
  rewrite rev_app_distr, rev_involutive. reflexivity.
Qed.

(** The text of a date: ten characters that pass the test of DateTime,
    and thirteen date characters behind them. *)
Lemma printDate_parts (d : Date) :
  printable_date d = true ->
  exists date time,
    printDate d = date ++ time
    /\ length date = 10 /\ date_prefix date = true
    /\ length time = 13 /\ forallb is_date_char time = true
    /\ trim (date ++ time) = date ++ time.
Proof.
  unfold printable_date. rewrite !andb_true_iff, !N.leb_le.
  intros ((((((((Hy1 & Hy2) & Hmo) & Hd1) & Hd2) & Hh) & Hmi) & Hs) & Hms).
  destruct (@year_digits (UTCFullYear d) (conj Hy1 Hy2)) as [Ly Dy].
  destruct (@field_digits 2 (UTCMonth d + 1)%N) as [Lmo Dmo]; [left; lia | ].
  destruct (@field_digits 2 (UTCDate d)) as [Lda Dda]; [left; lia | ].
  destruct (@field_digits 2 (UTCHours d)) as [Lho Dho]; [left; lia | ].
  destruct (@field_digits 2 (UTCMinutes d)) as [Lmi Dmi]; [left; lia | ].
  destruct (@field_digits 2 (UTCSeconds d)) as [Lse Dse]; [left; lia | ].
  destruct (@field_digits 3 (UTCMilliseconds d)) as [Lms Dms];
    [right; lia | ].
  unfold printDate.
  destruct (decimal (UTCFullYear d)) as [|y1 [|y2 [|y3 [|y4 [|? ?]]]]];
    try discriminate Ly.
  destruct (padStart 2 (decimal (UTCMonth d + 1))) as [|m1 [|m2 [|? ?]]];
    try discriminate Lmo.
  destruct (padStart 2 (decimal (UTCDate d))) as [|d1 [|d2 [|? ?]]];
    try discriminate Lda.
  destruct (padStart 3 (decimal (UTCMilliseconds d)))
    as [|f1 [|f2 [|f3 [|? ?]]]];
    try discriminate Lms.
  set (hours := padStart 2 (decimal (UTCHours d))) in *.
  set (minutes := padStart 2 (decimal (UTCMinutes d))) in *.
  set (seconds := padStart 2 (decimal (UTCSeconds d))) in *.
  cbn [forallb] in Dy, Dmo, Dda, Dms.
  assert (Y1 : is_digit y1 = true) by (bools; assumption).
  assert (F3 : is_digit f3 = true) by (bools; assumption).
  exists [y1; y2; y3; y4; 45; m1; m2; 45; d1; d2]%N,
         (str "T" ++ hours ++ str ":" ++ minutes ++ str ":" ++ seconds
          ++ str "." ++ [f1; f2; f3]).
  split; [reflexivity | ]. split; [reflexivity | ].
  split.
  { cbn [date_prefix]. bools.
    repeat match goal with
      | H : is_digit ?c = true |- context [is_digit ?c] => rewrite H
      end.
    reflexivity. }
  split.
  { rewrite !length_app, Lho, Lmi, Lse. reflexivity. }
  split.
  { rewrite !forallb_app, (digits_date_chars _ Dho),
      (digits_date_chars _ Dmi), (digits_date_chars _ Dse).
    cbn [forallb str list_ascii_of_string map]. unfold is_date_char. bools.
    repeat match goal with
      | H : is_digit ?c = true |- context [is_digit ?c] => rewrite H
      end.
    rewrite !orb_true_r. reflexivity. }
  destruct (@is_digit_cases _ Y1) as (Hsp1 & _).
  destruct (@is_digit_cases _ F3) as (Hsp3 & _).
  cbn [app].
  match goal with
  | |- trim (y1 :: ?l) = _ =>
      assert (E : l = removelast l ++ [f3])
  end.
  { rewrite !app_comm_cons, !app_assoc.
    change [f1; f2; f3] with ([f1; f2] ++ [f3]).
    rewrite !app_assoc, removelast_last. reflexivity. }
  rewrite E. apply trim_inner; assumption.
Qed.

(** X25: the text that the serializer writes for a date with a four-digit
    year, [YYYY-MM-DDTHH:MM:SS.mmm] in UTC and without a time zone
    designator, is read by [Value] through [DateTime] as a whole: these 23
    characters are what the host's [Date] constructor receives, and its
    answer is the parsed value (an error when it rejects the text). *)
Theorem Value_reads_printDate (d : Date) (tail : jsstring) (fuel : nat)
    (s : Scanner) :
  printable_date d = true ->
  test is_date_char (hd_error tail) = false ->
  rest s = printDate d ++ tail ->
  24 < fuel ->
  length (printDate d) = 23
  /\ Value fuel s
     = match newDate (printDate d) with
       | Some date => Ret (success (DateV date)) (advance s 23)
       | None =>
           Throw (TOMLParseError (str "Invalid date string "
                                  ++ quoted (printDate d)))
             (advance s 23)
       end.
Proof.
  intros Hd Ht Hr Hf.
  destruct (printDate_parts d Hd)
    as (date & time & E & Ldate & Hprefix & Ltime & Htime & Htrim).
  split; [rewrite E, length_app, Ldate, Ltime; reflexivity | ].
  assert (Hdate : DateTime (fuel - 1) s
                  = match newDate (trim (date ++ time)) with
                    | Some v =>
                        Ret (success (DateV v)) (advance s (10 + length time))
                    | None =>
                        Throw (TOMLParseError (str "Invalid date string "
                                               ++ quoted (date ++ time)))
                          (advance s (10 + length time))
                    end).
  { apply (@DateTime_reads date time tail (fuel - 1) s Hprefix Ldate
             Htime Ht).
    - rewrite Hr, E, <- app_assoc. reflexivity.
    - lia. }
  rewrite Htrim, Ltime, <- E in Hdate. change (10 + 13) with 23 in Hdate.
  destruct (date_prefix_shape _ Hprefix)
    as (y1 & y2 & y3 & y4 & r & Edate & Y1 & _).
  destruct (@is_digit_cases _ Y1)
    as (Hc & _ & _ & _ & _ & _ & _ & Hq & Hsq & _).
  assert (Hr' : rest s = y1 :: (y2 :: y3 :: y4 :: 45%N :: r) ++ time ++ tail).
  { rewrite Hr, E, Edate, <- app_assoc. reflexivity. }
  destruct fuel as [|[|f]]; [lia | lia | ].
  replace (S (S f) - 1) with (S f) in Hdate by lia.
  cbn [Value or]. unfold string_value. unfold bind at 1.
  unfold bind at 1.
  rewrite (@MultilineBasicString_misses f s y1 _ Hr' Hc).
  2:{ cbn [firstn three jseq]. rewrite N.eqb_sym, Hq. reflexivity. }
  cbv beta iota. unfold ret at 1. cbn [ok]. cbv beta iota.
  unfold bind at 1. unfold bind at 1.
  rewrite (@MultilineLiteralString_misses f s y1 _ Hr' Hc).
  2:{ cbn [firstn three jseq]. rewrite N.eqb_sym, Hsq. reflexivity. }
  cbv beta iota. unfold ret at 1. cbn [ok]. cbv beta iota.
  unfold bind at 1. unfold bind at 1.
  rewrite (@BasicString_misses f s y1 _ Hr' Hc Hq).
  cbv beta iota. unfold ret at 1. cbn [ok]. cbv beta iota.
  unfold bind at 1. unfold bind at 1.
  rewrite (@LiteralString_misses f s y1 _ Hr' Hc Hsq).
  cbv beta iota. unfold ret at 1. cbn [ok]. cbv beta iota.
  unfold bind at 1.
  rewrite (@Symbols_misses f s y1 _ Hr' Hc).
  2:{ apply numeral_no_symbol. left. exact Y1. }
  cbn [ok]. cbv beta iota. unfold bind at 1.
  rewrite Hdate. destruct (newDate (printDate d)); reflexivity.
Qed.

(** The header of an array of tables as the serializer writes it. *)
Lemma TableArrayHeader_reads (keys : list jsstring) (fuel : nat)
    (s : Scanner) (tail : jsstring) :
  keys <> [] ->
  rest s = headerGroup keys ++ LF :: tail ->
  length (headerGroup keys) < fuel ->
  TableArrayHeader fuel s
  = Ret (success keys) (advance s (length (headerGroup keys))).
Proof.
  intros Hne Hr Hf. unfold headerGroup in *.
  rewrite !length_app in Hf |- *.
  change (length (str "[[")) with 2 in Hf |- *.
  change (length (str "]]")) with 2 in Hf |- *.
  rewrite <- !app_assoc in Hr.
  destruct (joinKeys_first Hne) as (c & l & E & Hc).
  destruct (key_start Hc) as (Hsp & _ & _).
  destruct fuel as [|f]; [lia | ].
  unfold TableArrayHeader, surround. unfold bind at 1.
  assert (Hr0 : rest s = str "[[" ++ [] ++ c :: l ++ str "]]" ++ LF :: tail).
  { rewrite Hr, E. reflexivity. }
  rewrite (@character_reads (S f) (str "[[") [] s 91%N c [91%N] _ eq_refl
             Hr0 eq_refl eq_refl Hsp) by (simpl; lia).
  cbn [ok]. cbv beta iota. unfold bind at 1.
  assert (Hr1 : rest (advance s (length (str "[[") + length (@nil N)))
                = joinKeys keys ++ [] ++ 93%N :: 93%N :: LF :: tail).
  { change (length (str "[[") + length (@nil N)) with 2.
    rewrite rest_advance, Hr. reflexivity. }
  rewrite (@DottedKey_reads_joinKeys keys (S f) _ [] 93%N _ Hne Hr1
             eq_refl eq_refl eq_refl) by (try discriminate; simpl; lia).
  unfold bind at 1.
  pose proof (@rest_advance_app _ _ _ Hr1) as Hr2. cbn [app] in Hr2.
  change (length (@nil N)) with 0 in Hr2 |- *.
  repeat rewrite Nat.add_0_r in Hr2. repeat rewrite Nat.add_0_r.
  rewrite (@character_reads_line_end f (str "]]") _ 93%N [93%N] tail eq_refl
             Hr2 eq_refl).
  cbn [ok]. cbv beta iota. unfold ret.
  cursor.
Qed.

Lemma part_header_head (p : part) :
  exists l, part_header p = 91%N :: l
            /\ (fst p = false ->
                exists c l', l = c :: l' /\ N.eqb c 91 = false).
Proof.
  destruct p as [[|] [k sub]]; unfold part_header; cbn [fst snd].
  - eexists. split; [reflexivity | discriminate].
  - destruct (@header_head [k] ltac:(discriminate)) as (c & l & E & Hc).
    rewrite E. eexists. split; [reflexivity | ]. intros _.
    exists c, l. split; [reflexivity | exact Hc].
Qed.

(** The members behind a header, up to the next header or the end. *)
Lemma section_body (T : BlockType) (key : list jsstring) (sub : properties)
    (tail : jsstring) (n : nat) (fuel : nat) (s : Scanner) :
  distinct (map fst sub) = true ->
  forallb (fun kv => scalar (snd kv)) sub = true ->
  forallb (fun kv => plain_key (fst kv)) sub = true ->
  rest s = LF :: scalar_document sub ++ tail ->
  stop tail n ->
  1 + length (scalar_document sub) + n + 1 < fuel ->
  (nextUntilChar fuel opt_default ;;
   block <- Block fuel ;;
   ret (success (mkBlock T key (block_or_empty block)))) s
  = Ret (success (mkBlock T key (Obj sub)))
      (advance s (1 + length (scalar_document sub) + n)).
Proof.
  intros Hd Hv Hk Hr1 Hstop Hf.
  destruct fuel as [|[|f]]; try lia.
  unfold bind at 1.
  change opt_default with (mkOptions false true).
  destruct sub as [|kv sub'].
  - cbn [scalar_document map concat app length] in *.
    destruct Hstop as [[-> ->] | (ws & more & -> & Hws & ->)].
    + rewrite (@nextUntilChar_blanks_to_end [LF] (S (S f)) true _ Hr1
                 eq_refl) by (simpl; lia).
      unfold bind at 1.
      assert (Hr2 : rest (advance s (length [LF])) = []).
      { rewrite <- (app_nil_r [LF]) in Hr1.
        apply (@rest_advance_app _ _ _ Hr1). }
      rewrite (@Block_at_end f _ Hr2).
      unfold ret. cbn [block_or_empty]. cursor.
    + assert (Hr1' : rest s = (LF :: ws) ++ 91%N :: more) by exact Hr1.
      rewrite (@nextUntilChar_blanks_run (LF :: ws) (S (S f)) true _ 91%N
                 more Hr1') by (try reflexivity; simpl in *; try lia;
                               rewrite (line_feeds_blank _ Hws);
                               reflexivity).
      unfold bind at 1.
      pose proof (@rest_advance_app _ _ _ Hr1') as Hr2.
      rewrite (@Block_misses_bracket (S (S f)) _ [] more Hr2 eq_refl)
        by (simpl; lia).
      unfold ret. cbn [block_or_empty]. cursor.
  - destruct (@scalar_document_head (kv :: sub') ltac:(discriminate))
      as (h & t & E & Hh & Hhash).
    assert (Hr1' : rest s = [LF] ++ h :: t ++ tail).
    { rewrite Hr1, E. reflexivity. }
    rewrite (@nextUntilChar_blanks_run [LF] (S (S f)) true _ h _ Hr1'
               eq_refl Hh) by (try exact Hhash; simpl; lia).
    unfold bind at 1.
    assert (Hr2 : rest (advance s (length [LF]))
                  = scalar_document (kv :: sub') ++ tail).
    { rewrite (@rest_advance_app _ _ _ Hr1'), E. reflexivity. }
    rewrite (@Block_reads_lines (kv :: sub') tail n (S (S f)) _
               ltac:(discriminate) Hd Hv Hk Hr2 Hstop) by lia.
    unfold ret. cbn [block_or_empty block_value]. cursor.
Qed.

(** TableArray on a section that the serializer wrote. *)
Lemma TableArray_reads_section (k : jsstring) (sub : properties)
    (tail : jsstring) (n : nat) (fuel : nat) (s : Scanner) :
  distinct (map fst sub) = true ->
  forallb (fun kv => scalar (snd kv)) sub = true ->
  forallb (fun kv => plain_key (fst kv)) sub = true ->
  rest s = part_text (true, (k, sub)) ++ tail ->
  stop tail n ->
  length (part_text (true, (k, sub))) + n + 1 < fuel ->
  TableArray fuel s
  = Ret (success (part_record (true, (k, sub))))
      (advance s (length (part_text (true, (k, sub))) + n)).
Proof.
  intros Hd Hv Hk Hr Hstop Hf.
  unfold part_text, part_header, part_record in *. cbn [fst snd] in *.
  rewrite length_app in Hf |- *. cbn [length] in Hf |- *.
  rewrite <- app_assoc in Hr. cbn [app] in Hr.
  assert (Hr0 : rest s = 91%N :: 91%N :: joinKeys [k] ++ str "]]"
                         ++ LF :: scalar_document sub ++ tail).
  { rewrite Hr. unfold headerGroup. rewrite <- !app_assoc. reflexivity. }
  destruct fuel as [|f]; [lia | ].
  unfold TableArray. unfold bind at 1.
  rewrite (@nextUntilChar_stays f opt_default s 91%N _ Hr0 eq_refl eq_refl).
  unfold bind at 1.
  rewrite (@TableArrayHeader_reads [k] (S f) s _ ltac:(discriminate) Hr)
    by lia.
  pose proof (@rest_advance_app _ _ _ Hr) as Hr1.
  rewrite (@section_body TableArray_t [k] sub tail n (S f) _ Hd Hv Hk Hr1
             Hstop) by lia.
  cursor.
Qed.

Lemma parts_text_stop (l : list part) :
  exists n,
    stop (parts_text l) n
    /\ length (parts_text l) = n + length (parts_at l)
    /\ n <= 1.
Proof.
  destruct l as [|p others].
  - exists 0. split; [left; split; reflexivity | ]. split; [reflexivity | lia].
  - exists 1. split; [ | split; [reflexivity | lia]].
    right. cbn [parts_text]. unfold part_text.
    destruct (part_header_head p) as (l & Eh & _).
    rewrite Eh. eexists [LF], _. split; [reflexivity | ].
    split; reflexivity.
Qed.

(** One round of the loop of Toml on a section. *)
Lemma or_reads_part (p : part) (ws tail : jsstring) (n : nat) (limit : nat)
    (s : Scanner) :
  part_ok p = true ->
  rest s = ws ++ part_text p ++ tail ->
  forallb (N.eqb LF) ws = true ->
  stop tail n ->
  length ws + length (part_text p) + n + 1 < limit ->
  or [Block limit; TableArray limit; Table limit] s
  = Ret (success (part_record p))
      (advance (advance s (length ws)) (length (part_text p) + n)).
Proof.
  intros Hok Hr Hws Hstop Hl.
  unfold part_ok, section_ok in Hok. apply andb_prop in Hok.
  destruct Hok as [Hd Hv]. apply andb_prop in Hd. destruct Hd as [Hd Hk].
  destruct (part_header_head p) as (l & Eh & Hhead).
  assert (Hr0 : rest s = ws ++ 91%N :: l ++ LF :: scalar_document (snd (snd p))
                            ++ tail).
  { rewrite Hr. unfold part_text. rewrite Eh, <- !app_assoc. reflexivity. }
  pose proof (@rest_advance_app _ _ _ Hr) as Hr1.
  destruct limit as [|limit]; [lia | ].
  cbn [or]. unfold bind at 1.
  rewrite (@Block_misses_bracket (S limit) s ws _ Hr0 Hws) by lia.
  cbn [ok]. cbv beta iota. unfold bind at 1.
  destruct p as [[|] [k sub]]; cbn [fst snd] in *.
  - rewrite (@TableArray_reads_section k sub tail n (S limit) _ Hd Hv Hk Hr1
               Hstop) by lia.
    reflexivity.
  - destruct (Hhead eq_refl) as (c & l' & -> & Hc).
    pose proof (@rest_advance_app _ _ _ Hr0) as Hr1'.
    rewrite (@TableArray_misses_header limit _ c _ Hr1' Hc).
    cbn [ok]. cbv beta iota. unfold bind at 1.
    rewrite (@Table_reads_section k sub tail n (S limit) _ Hd Hv Hk
               Hr1 Hstop) by (unfold part_text, part_header in Hl;
                          unfold section_text; cbn [fst snd] in *; lia).
    reflexivity.
Qed.

(** The loop of Toml over the sections of a document. *)
Lemma repeat_loop_parts (l : list part) :
  forall (fuel limit : nat) (acc : list BlockRecord) (s : Scanner)
         (ws : jsstring),
    forallb part_ok l = true ->
    rest s = ws ++ parts_at l ->
    forallb (N.eqb LF) ws = true ->
    (l = [] -> ws = []) ->
    length ws + length (parts_at l) + 1 < limit ->
    length ws + length (parts_at l) + 1 < fuel ->
    repeat_loop fuel (or [Block limit; TableArray limit; Table limit]) acc s
    = Ret (acc ++ map part_record l)
        (advance s (length ws + length (parts_at l))).
Proof.
  induction l as [|p others IH];
    intros fuel limit acc s ws Hok Hr Hws Hnil Hl Hf.
  - rewrite (Hnil eq_refl) in *. cbn [parts_at app length] in *.
    destruct fuel as [|f]; [lia | ].
    cbn [repeat_loop]. reduce. rewrite (eof_at_end _ Hr). cbv beta iota.
    rewrite app_nil_r, advance_zero. reflexivity.
  - cbn [forallb] in Hok. apply andb_prop in Hok. destruct Hok as [Hp Hok].
    cbn [parts_at] in Hr, Hl, Hf |- *.
    rewrite length_app in Hl, Hf |- *.
    destruct (parts_text_stop others) as (n & Hstop & Hlen & Hn).
    destruct (part_header_head p) as (h & Eh & _).
    assert (Hr0 : rest s = ws ++ 91%N :: h ++ LF
                            :: scalar_document (snd (snd p))
                            ++ parts_text others).
    { rewrite Hr. unfold part_text. rewrite Eh, <- !app_assoc.
      reflexivity. }
    assert (He : eof s = false).
    { destruct ws as [|w ws']; exact (@eof_rest s _ _ Hr0). }
    assert (Hsize : 3 <= length (part_text p)).
    { unfold part_text, part_header, header, headerGroup.
      destruct (fst p); rewrite !length_app; simpl; lia. }
    pose proof (@or_reads_part p ws (parts_text others) n limit s Hp Hr Hws
                  Hstop ltac:(lia)) as Hor.
    destruct fuel as [|f]; [lia | ].
    cbn [repeat_loop]. reduce. rewrite He. cbv beta iota. rewrite Hor.
    destruct f as [|f]; [lia | ].
    assert (Hr2 : rest (advance (advance s (length ws))
                          (length (part_text p) + n))
                  = parts_at others).
    { rewrite <- advance_advance. rewrite rest_advance.
      rewrite (@rest_advance_app _ _ _ (@rest_advance_app _ _ _ Hr)).
      destruct others as [|p' others'].
      - destruct Hstop as [[E ->] | (ws' & more & E & Hws' & ->)];
          [reflexivity | destruct ws'; discriminate].
      - cbn [parts_text length] in Hlen |- *.
        assert (n = 1) by (cbn [parts_at] in Hlen; lia). subst n.
        reflexivity. }
    assert (Hstay : nextUntilChar (S f) opt_default
                      (advance (advance s (length ws))
                         (length (part_text p) + n))
                    = Ret tt (advance (advance s (length ws))
                                (length (part_text p) + n))).
    { destruct others as [|p' others'].
      - apply nextUntilChar_at_end. exact Hr2.
      - cbn [parts_at] in Hr2. unfold part_text in Hr2.
        destruct (part_header_head p') as (h' & Eh' & _).
        rewrite Eh' in Hr2.
        apply (@nextUntilChar_stays f opt_default _ 91%N _ Hr2 eq_refl
                 eq_refl). }
    rewrite Hstay.
    rewrite (IH (S f) limit (acc ++ [part_record p]) _ []
               Hok Hr2 eq_refl (fun _ => eq_refl)).
    + rewrite <- app_assoc. cbn [app map length]. rewrite Hlen. cursor.
    + cbn [length]. lia.
    + cbn [length]. lia.
Qed.

Lemma get_last (props : properties) (k : jsstring) (v : value) :
  existsb (jseq k) (map fst props) = false ->
  get (props ++ [(k, v)]) k = v.
Proof.
  intros H. rewrite <- (set_absent _ _ v H). apply get_set_same.
Qed.

Lemma set_last (props : properties) (k : jsstring) (v w : value) :
  existsb (jseq k) (map fst props) = false ->
  set (props ++ [(k, v)]) k w = props ++ [(k, w)].
Proof.
  induction props as [|[k' x] props IH]; simpl.
  - intros _. rewrite jseq_refl. reflexivity.
  - intros H. apply orb_false_elim in H. destruct H as [Hk H].
    rewrite jseq_sym, Hk, (IH H). reflexivity.
Qed.

Lemma Toml_fold_app (a b : list BlockRecord) (body : value) :
  Toml_fold (a ++ b) body
  = match Toml_fold a body with
    | inl e => inl e
    | inr body' => Toml_fold b body'
    end.
Proof.
  revert body. induction a as [|r a IH]; intros body; [reflexivity | ].
  cbn [app Toml_fold]. destruct (block_type r).
  - apply IH.
  - destruct (deepAssignWithTable _ _ _ _); [reflexivity | apply IH].
  - destruct (deepAssignWithTable _ _ _ _); [reflexivity | apply IH].
Qed.

(** The later elements of an array of tables are pushed onto the array
    that the first element created. *)
Lemma Toml_fold_pushes (k : jsstring) (others : list properties) :
  forall (props : properties) (items : list value),
    existsb (jseq k) (map fst props) = false ->
    Toml_fold (map (fun sub => part_record (true, (k, sub))) others)
      (Obj (props ++ [(k, Arr items)]))
    = inr (Obj (props ++ [(k, Arr (items ++ map Obj others))])).
Proof.
  induction others as [|sub others IH]; intros props items Hk.
  - cbn [map Toml_fold]. rewrite app_nil_r. reflexivity.
  - cbn [map Toml_fold part_record block_type block_key block_value fst snd].
    cbn [deepAssignWithTable].
    rewrite (@inherited_own (props ++ [(k, Arr items)]) k)
      by (rewrite (@get_last _ _ _ Hk); discriminate).
    cbn [property]. rewrite (@get_last _ _ _ Hk).
    cbn [is_TableArray length Nat.eqb andb store].
    rewrite (@set_last _ _ _ _ Hk), (IH props _ Hk), <- app_assoc.
    reflexivity.
Qed.

Lemma Toml_fold_entry (e : entry) (props : properties) :
  existsb (jseq (entry_key e)) (map fst props) = false ->
  plain_key (entry_key e) = true ->
  Toml_fold (map part_record (parts_of e)) (Obj props)
  = inr (Obj (props ++ [entry_member e])).
Proof.
  intros Hk Hp. destruct e as [k sub | k first others];
    cbn [entry_key] in Hk, Hp; unfold entry_member;
    cbn [entry_key entry_value parts_of map];
    assert (Hkeys : forallb plain_key [k] = true)
      by (cbn [forallb]; rewrite Hp; reflexivity).
  - cbn [Toml_fold part_record block_type block_key block_value fst snd].
    rewrite (@deepAssignWithTable_fresh props k [] Table_t (Obj sub) Hkeys
               (get_absent _ _ Hk)).
    cbn [is_Table nest fold_right default_values].
    rewrite (set_absent _ _ (Obj sub) Hk). reflexivity.
  - cbn [Toml_fold part_record block_type block_key block_value fst snd].
    rewrite (@deepAssignWithTable_fresh props k [] TableArray_t (Obj first)
               Hkeys (get_absent _ _ Hk)).
    cbn [is_Table nest fold_right].
    rewrite (set_absent _ _ _ Hk), map_map.
    apply (@Toml_fold_pushes k others props [Obj first] Hk).
Qed.

(** The fold of Toml over the records of sections with fresh keys adds one
    member per table or array of tables. *)
Lemma Toml_fold_entries (entries : list entry) :
  forall props : properties,
    distinct (map fst (props ++ map entry_member entries)) = true ->
    forallb plain_key (map entry_key entries) = true ->
    Toml_fold (map part_record (parts entries)) (Obj props)
    = inr (Obj (props ++ map entry_member entries)).
Proof.
  induction entries as [|e entries IH]; intros props Hd Hp.
  - cbn [parts map concat Toml_fold]. rewrite app_nil_r. reflexivity.
  - cbn [map] in Hd. unfold entry_member at 1 in Hd.
    pose proof (distinct_absent _ _ _ _ Hd) as Hk.
    cbn [map forallb] in Hp. apply andb_prop in Hp. destruct Hp as [Hp0 Hp].
    unfold parts. cbn [map concat]. fold (parts entries).
    rewrite map_app, Toml_fold_app, (@Toml_fold_entry e props Hk Hp0).
    rewrite (IH (props ++ [entry_member e]));
      [ rewrite <- app_assoc; reflexivity
      | rewrite <- app_assoc; exact Hd
      | exact Hp ].
Qed.

Lemma parts_ok (entries : list entry) :
  forallb entry_ok entries = true -> forallb part_ok (parts entries) = true.
Proof.
  induction entries as [|e entries IH]; [reflexivity | ].
  cbn [forallb]. intros H. apply andb_prop in H. destruct H as [He H].
  unfold parts. cbn [map concat]. fold (parts entries).
  rewrite forallb_app, (IH H), andb_true_r.
  destruct e as [k sub | k first others]; unfold entry_ok in He;
    cbn [entry_tables entry_key parts_of] in *.
  - cbn [forallb] in *. exact He.
  - revert He. generalize (first :: others). intros l.
    induction l as [|o l IHo]; [reflexivity | ].
    cbn [forallb map]. intros H2. apply andb_prop in H2.
    destruct H2 as [H1 H2]. apply andb_true_intro. split.
    + exact H1.
    + exact (IHo H2).
Qed.

Lemma parts_text_at (l : list part) :
  l <> [] -> parts_text l = [LF] ++ parts_at l.
Proof. destruct l; [congruence | reflexivity]. Qed.

Lemma parts_nonempty (entries : list entry) :
  entries <> [] -> parts entries <> [].
Proof.
  destruct entries as [|e entries]; [congruence | ]. intros _.
  unfold parts. cbn [map concat].
  destruct e; cbn [parts_of map app]; discriminate.
Qed.

Lemma distinct_prefix (a b : list jsstring) :
  distinct (a ++ b) = true -> distinct a = true.
Proof.
  induction a as [|k a IH]; [reflexivity | ].
  cbn [app distinct]. intros H. apply andb_prop in H.
  destruct H as [Hk H]. rewrite (IH H), andb_true_r.
  apply negb_true_iff in Hk. apply negb_true_iff.
  rewrite existsb_app in Hk. apply orb_false_elim in Hk. apply Hk.
Qed.

(** The parser reads the document of a table of scalars, tables and arrays
    of tables back. *)
Lemma Toml_reads_entries (tops : properties) (entries : list entry)
    (fuel : nat) (s : Scanner) :
  tops <> [] \/ entries <> [] ->
  distinct (map fst (tops ++ map entry_member entries)) = true ->
  forallb (fun kv => scalar (snd kv)) tops = true ->
  forallb (fun kv => plain_key (fst kv)) tops = true ->
  forallb plain_key (map entry_key entries) = true ->
  forallb entry_ok entries = true ->
  rest s = entries_document tops entries ->
  length (entries_document tops entries) + 1 < fuel ->
  Toml fuel s
  = Ret (success (Obj (tops ++ map entry_member entries)))
      (advance s (length (entries_document tops entries))).
Proof.
  intros Hne Hd Hv Hk Hke He Hr Hf. unfold entries_document in *.
  pose proof (parts_ok _ He) as Hok.
  rewrite length_app in Hf |- *.
  destruct (parts_text_stop (parts entries)) as (n & Hstop & Hlen & Hn).
  unfold Toml, repeat. unfold bind at 1. unfold bind at 1.
  destruct tops as [|top tops'].
  - destruct Hne as [Hne | Hne]; [congruence | ].
    pose proof (parts_nonempty Hne) as Hparts.
    cbn [scalar_document map concat app length] in *.
    rewrite (parts_text_at Hparts) in Hr, Hf |- *.
    rewrite length_app in Hf |- *.
    rewrite (@repeat_loop_parts (parts entries) fuel fuel [] s [LF] Hok Hr
               eq_refl) by (try lia; intros E; congruence).
    cbn [app]. destruct (map part_record (parts entries)) as [|r rs] eqn:Er.
    { destruct (parts entries); [congruence | discriminate]. }
    cbn [length Nat.eqb]. cbv beta iota. unfold ret at 1.
    rewrite <- Er. rewrite (@Toml_fold_entries entries [] Hd Hke).
    reflexivity.
  - assert (Hdt : distinct (map fst (top :: tops')) = true).
    { rewrite map_app in Hd. exact (distinct_prefix _ _ Hd). }
    destruct (@scalar_document_head (top :: tops') ltac:(discriminate))
      as (h & t & E & Hh & Hhash).
    assert (Hhe : eof s = false).
    { rewrite E in Hr. exact (@eof_rest s _ _ Hr). }
    assert (Hdoc : 1 <= length (scalar_document (top :: tops'))).
    { rewrite E. simpl. lia. }
    assert (Hblock := @Block_reads_lines (top :: tops')
                        (parts_text (parts entries))
                        n fuel s ltac:(discriminate) Hdt Hv Hk Hr Hstop
                        ltac:(lia)).
    destruct fuel as [|f]; [lia | ].
    cbn [repeat_loop]. reduce. rewrite Hhe. cbv beta iota.
    cbn [or]. unfold bind at 1. rewrite Hblock. cbn [ok]. cbv beta iota.
    unfold ret at 1.
    assert (Hr2 : rest (advance s (length (scalar_document (top :: tops'))
                                   + n))
                  = parts_at (parts entries)).
    { rewrite <- advance_advance. rewrite rest_advance.
      rewrite (@rest_advance_app _ _ _ Hr).
      destruct (parts entries) as [|p' others'].
      - destruct Hstop as [[_ ->] | (ws' & more & E' & _ & _)];
          [reflexivity | destruct ws'; discriminate].
      - cbn [parts_text length] in Hlen |- *.
        assert (n = 1) by (cbn [parts_at] in Hlen; lia). subst n.
        reflexivity. }
    destruct f as [|f]; [lia | ].
    assert (Hstay : nextUntilChar (S f) opt_default
                      (advance s (length (scalar_document (top :: tops'))
                                  + n))
                    = Ret tt (advance s
                                (length (scalar_document (top :: tops'))
                                 + n))).
    { destruct (parts entries) as [|p' others'].
      - apply nextUntilChar_at_end. exact Hr2.
      - cbn [parts_at] in Hr2. unfold part_text in Hr2.
        destruct (part_header_head p') as (h' & Eh' & _).
        rewrite Eh' in Hr2.
        apply (@nextUntilChar_stays f opt_default _ 91%N _ Hr2 eq_refl
                 eq_refl). }
    rewrite Hstay.
    fold (or [Block (S (S f)); TableArray (S (S f)); Table (S (S f))]).
    rewrite (@repeat_loop_parts (parts entries) (S f) (S (S f)) _ _ [] Hok
               Hr2 eq_refl (fun _ => eq_refl)) by (cbn [length]; lia).
    cbn [app length Nat.eqb]. cbv beta iota.
    cbn [Toml_fold block_type block_value].
    rewrite (deepMerge_distinct _ Hdt).
    rewrite (@Toml_fold_entries entries (top :: tops') Hd Hke).
    rewrite Hlen. cursor.
Qed.

Lemma parse_reads_entries (tops : properties) (entries : list entry) :
  tops <> [] \/ entries <> [] ->
  distinct (map fst (tops ++ map entry_member entries)) = true ->
  forallb (fun kv => scalar (snd kv)) tops = true ->
  forallb (fun kv => plain_key (fst kv)) tops = true ->
  forallb plain_key (map entry_key entries) = true ->
  forallb entry_ok entries = true ->
  parse (entries_document tops entries)
  = Returns (Obj (tops ++ map entry_member entries)).
Proof.
  intros Hne Hd Hv Hk Hke Hok.
  unfold parse, ParserFactory, enough_fuel.
  rewrite (@Toml_reads_entries tops entries _
             (newScanner (entries_document tops entries))
             Hne Hd Hv Hk Hke Hok (rest_newScanner _)) by lia.
  assert (He : eof (advance (newScanner (entries_document tops entries))
                      (length (entries_document tops entries))) = true).
  { unfold eof, advance, newScanner. simpl. apply Nat.leb_refl. }
  rewrite He. reflexivity.
Qed.

Lemma tables_type (first : properties) (others : list properties) :
  getTypeOfArray (map Obj (first :: others)) = ONLY_OBJECT_EXCLUDING_ARRAY.
Proof.
  unfold getTypeOfArray. cbn [map isArray isPrimitive].
  assert (H : existsb (fun x => negb (Bool.eqb false (isPrimitive x))
                                || isArray x)%bool (map Obj others) = false).
  { induction others as [|o others IH]; [reflexivity | ].
    cbn [map existsb isPrimitive isArray Bool.eqb negb orb]. exact IH. }
  rewrite H. reflexivity.
Qed.

Lemma entry_not_inline (e : entry) :
  isSimplySerializable (entry_value e) = false.
Proof.
  destruct e as [k sub | k first others]; [reflexivity | ].
  cbn [entry_value isSimplySerializable].
  change (map Obj (first :: others)) with (map Obj (first :: others)).
  rewrite tables_type. reflexivity.
Qed.

(** The lines of a table of scalars, tables and arrays of tables. *)
Lemma printObject_entries (tops : properties) (entries : list entry) :
  forallb (fun kv => scalar (snd kv)) tops = true ->
  forallb entry_ok entries = true ->
  printObject (Obj (tops ++ map entry_member entries)) []
  = inr (map scalar_declaration tops
         ++ concat (map part_lines (parts entries)) ++ [[]]).
Proof.
  intros Hv Hok. cbn [printObject app].
  match goal with
  | |- append_lines (?inlineProps _) (append_lines (?multilineProps _) _) = _ =>
      assert (Hi : inlineProps (tops ++ map entry_member entries)
                   = inr (map scalar_declaration tops));
      [ | assert (Hm : multilineProps (tops ++ map entry_member entries)
                       = inr (concat (map part_lines (parts entries)))) ]
  end.
  - clear Hok. induction tops as [|[k v] tops IH].
    + cbn [app map]. induction entries as [|e others IH];
        [reflexivity | ].
      cbn [map]. unfold entry_member at 1.
      rewrite (entry_not_inline e), IH. reflexivity.
    + cbn [forallb snd] in Hv. apply andb_prop in Hv. destruct Hv as [Hs Hv].
      destruct (@inline_declaration_scalar k v Hs) as [Hser Hdecl].
      cbn [app]. rewrite Hser, Hdecl, (IH Hv). reflexivity.
  - clear Hi. induction tops as [|[k v] tops IH].
    + cbn [app]. clear Hv. induction entries as [|e others IH];
        [reflexivity | ].
      cbn [forallb] in Hok. apply andb_prop in Hok.
      destruct Hok as [Ht Hok].
      cbn [map]. unfold entry_member at 1.
      rewrite (entry_not_inline e), (IH Hok).
      unfold parts. cbn [map concat]. fold (parts others).
      rewrite map_app, concat_app.
      destruct e as [k sub | k first others'].
      * unfold entry_ok in Ht. cbn [entry_tables entry_key forallb] in Ht.
        rewrite andb_true_r in Ht. unfold section_ok in Ht. cbn [snd] in Ht.
        apply andb_prop in Ht. destruct Ht as [_ Hsub].
        cbn [entry_value entry_key app].
        rewrite (@printObject_scalars sub [k] Hsub).
        cbn [append_lines parts_of map concat part_lines part_header
             fst snd app].
        rewrite <- !app_assoc. reflexivity.
      * unfold entry_ok in Ht. cbn [entry_tables entry_key] in Ht.
        cbn [entry_value entry_key app parts_of].
        revert Ht. generalize (first :: others'). intros l Ht.
        match goal with
        | |- append_lines (?each _) _ = _ =>
            assert (He : each (map Obj l)
                         = inr (concat (map part_lines
                                  (map (fun sub => (true, (k, sub))) l))))
        end.
        { induction l as [|o l IHl]; [reflexivity | ].
          cbn [forallb] in Ht. apply andb_prop in Ht.
          destruct Ht as [Ho Ht]. unfold section_ok in Ho. cbn [snd] in Ho.
          apply andb_prop in Ho. destruct Ho as [_ Hsub].
          cbn [map]. rewrite (IHl Ht).
          rewrite (@printObject_scalars o [k] Hsub).
          cbn [append_lines concat part_lines part_header fst snd app].
          rewrite <- !app_assoc. reflexivity. }
        rewrite He. reflexivity.
    + cbn [forallb snd] in Hv. apply andb_prop in Hv. destruct Hv as [Hs Hv].
      destruct (@inline_declaration_scalar k v Hs) as [Hser Hdecl].
      cbn [app]. rewrite Hser, (IH Hv). reflexivity.
  - rewrite Hi, Hm. reflexivity.
Qed.

(** The lines of the sections start with an empty line. *)
Lemma part_lines_head (l : list part) :
  exists more, concat (map part_lines l) ++ [[]] = [] :: more.
Proof.
  destruct l as [|p others]; eexists; reflexivity.
Qed.

Lemma part_header_line (p : part) : jseq (part_header p) [] = false.
Proof.
  destruct (part_header_head p) as (h & E & _). rewrite E. reflexivity.
Qed.

(** The first pass of [#format] keeps every header of these sections: the
    line behind a header is a declaration or, for an empty table, is followed
    by another empty line. *)
Lemma format_headers_parts (l : list part) :
  format_headers (concat (map part_lines l) ++ [[]])
  = concat (map part_lines l) ++ [[]].
Proof.
  induction l as [|[group [k sub]] others IH]; [reflexivity | ].
  cbn [map concat]. unfold part_lines at 1 3. cbn [fst snd].
  rewrite <- !app_assoc. cbn [app].
  rewrite (@format_headers_line [] _ eq_refl). f_equal.
  destruct (part_lines_head others) as (more & E).
  destruct sub as [|kv sub'].
  - cbn [map app]. rewrite E in IH |- *.
    rewrite format_headers_empty.
    rewrite (@format_headers_line [] _ eq_refl), IH. reflexivity.
  - cbn [map app].
    destruct (scalar_declaration_plain kv) as [Hk He].
    rewrite (@format_headers_member _ _ _ He). f_equal.
    change (scalar_declaration kv
            :: map scalar_declaration sub'
               ++ [] :: concat (map part_lines others) ++ [[]])
      with (map scalar_declaration (kv :: sub')
            ++ [] :: concat (map part_lines others) ++ [[]]).
    rewrite format_headers_declarations.
    rewrite (@format_headers_line [] _ eq_refl), IH. reflexivity.
Qed.

(** The second pass of [#format] drops the empty line at the end of each
    section. *)
Lemma format_blanks_parts (l : list part) :
  format_blanks (concat (map part_lines l) ++ [[]])
  = concat (map part_kept l) ++ [[]].
Proof.
  induction l as [|p others IH]; [reflexivity | ].
  cbn [map concat]. unfold part_lines at 1, part_kept at 1.
  rewrite <- !app_assoc. cbn [app].
  pose proof (part_header_line p) as He.
  rewrite (@format_blanks_before _ _ _ He). f_equal.
  rewrite (@format_blanks_line _ _ He).
  2:{ destruct (map scalar_declaration (snd (snd p))); discriminate. }
  f_equal.
  rewrite format_blanks_declarations by discriminate. f_equal.
  destruct (part_lines_head others) as (more & E).
  rewrite E in IH |- *. cbn [format_blanks jseq andb]. cbv iota.
  exact IH.
Qed.

Lemma parts_kept_text (l : list part) :
  concat (map (fun l => l ++ [LF]) (concat (map part_kept l)))
  = parts_text l.
Proof.
  induction l as [|p others IH]; [reflexivity | ].
  cbn [map concat parts_text]. rewrite map_app, concat_app.
  etransitivity; [apply f_equal; exact IH | ].
  unfold part_kept, part_text. cbn [app map concat].
  rewrite <- (declarations_text (snd (snd p))), <- !app_assoc. reflexivity.
Qed.

(** What the serializer writes for a table of scalars, tables and arrays of
    tables. *)
Lemma stringify_entries (tops : properties) (entries : list entry) :
  forallb (fun kv => scalar (snd kv)) tops = true ->
  forallb entry_ok entries = true ->
  stringify (Obj (tops ++ map entry_member entries))
  = inr (entries_document tops entries).
Proof.
  intros Hv Hok. unfold stringify.
  rewrite (@printObject_entries tops entries Hv Hok).
  rewrite format_headers_declarations, format_headers_parts.
  rewrite format_blanks_declarations.
  2:{ destruct (part_lines_head (parts entries)) as (more & E). rewrite E.
      discriminate. }
  rewrite format_blanks_parts, app_assoc, join_with_lines.
  rewrite map_app, concat_app. unfold entries_document.
  rewrite <- (declarations_text tops), <- (parts_kept_text (parts entries)).
  reflexivity.
Qed.

(** X26: round trip through the serializer and the parser for arrays of
    tables: for a table whose members are scalars (strings, booleans,
    infinities, safe integers) followed by tables of such scalars and
    non-empty arrays of such tables, under distinct keys, [stringify] writes
    the scalar members, then behind a blank line each one [[key]] section
    per table and one [[[key]]] section per element of an array, and [parse]
    of that text returns the table, the elements of every array in their
    order (empty tables included). *)
Theorem parse_stringify_table_arrays (tops : properties)
    (entries : list entry) :
  tops <> [] \/ entries <> [] ->
  distinct (map fst tops ++ map entry_key entries) = true ->
  forallb plain_key (map fst tops ++ map entry_key entries) = true ->
  forallb (fun kv => scalar (snd kv)) tops = true ->
  forallb (fun e => forallb plain_table (entry_tables e)) entries = true ->
  stringify (Obj (tops ++ map entry_member entries))
  = inr (entries_document tops entries)
  /\ reparse (Obj (tops ++ map entry_member entries))
     = Returns (Obj (tops ++ map entry_member entries)).
Proof.
  intros Hne Hd Hp Hv Ht.
  assert (Hok : forallb entry_ok entries = true).
  { apply forallb_forall. intros e Hin.
    pose proof (proj1 (forallb_forall _ _) Ht e Hin) as He.
    unfold entry_ok. apply forallb_forall. intros sub Hsub.
    pose proof (proj1 (forallb_forall _ _) He sub Hsub) as H.
    exact (@plain_table_ok (entry_key e, sub) H). }
  assert (Hd' : distinct (map fst (tops ++ map entry_member entries)) = true).
  { rewrite map_app, map_map. exact Hd. }
  rewrite forallb_app in Hp. apply andb_prop in Hp. destruct Hp as [Hk Hke].
  rewrite forallb_map in Hk.
  pose proof (@stringify_entries tops entries Hv Hok) as Hs.
  split; [exact Hs | ].
  unfold reparse. rewrite Hs.
  apply (@parse_reads_entries tops entries Hne Hd' Hv Hk Hke Hok).
Qed.

End Grammar.

(** ** Closed instances *)

(** The column of the error for the empty input is zero, which a column
    counted from one never is. *)
Lemma column_counts_from_zero :
  parse isoDate []
  = Throws (TOMLParseError
              (str "Parse error on line 1, column 0: Unexpected character: "
               ++ quoted []))
  /\ error_column [] <> S (since_newline [] 0).
Proof. split; [vm_compute; reflexivity | vm_compute; discriminate]. Qed.

(** The literal matcher skips the blank in front of [x] and then reports a
    non-match, with the cursor behind the blank. *)
Lemma character_failure_moves_cursor :
  ~ cursor_untouched_on_failure (character 3 (str "=")).
Proof.
  intros H.
  specialize (H (newScanner (str " x")) (mkScanner (str " x") 1)).
  assert (E : character 3 (str "=") (newScanner (str " x"))
              = Ret failure (mkScanner (str " x") 1))
    by (vm_compute; reflexivity).
  specialize (H E). discriminate H.
Qed.

(** After a line continuation the skip stops on the number sign, where a
    skip of blanks and comments would go on to the next line, and the
    comment ends up in the string. *)
Lemma line_continuation_keeps_comments :
  nextUntilChar 12 opt_nocomment (mkScanner multiline_continuation_comment 5)
  = Ret tt (mkScanner multiline_continuation_comment 8)
  /\ nextUntilChar 12 opt_default (mkScanner multiline_continuation_comment 5)
     = Ret tt (mkScanner multiline_continuation_comment 11)
  /\ MultilineBasicString 12 (newScanner multiline_continuation_comment)
     = Ret (success (str "a#c" ++ LF :: str "b"))
         (mkScanner multiline_continuation_comment 15)
  /\ str "a#c" ++ LF :: str "b" <> str "ab".
Proof.
  repeat split; try (vm_compute; reflexivity). vm_compute. discriminate.
Qed.

Lemma MultilineBasicString_content_witness :
  MultilineBasicString 20
    (newScanner (three DQUOTE ++ LF :: str "x" ++ BACKSLASH :: [CR; LF]
                 ++ (SPACE :: CR :: LF :: [TAB]) ++ str "#c"
                 ++ three DQUOTE ++ []))
  = Ret (success (str "x" ++ str "#c"))
      (mkScanner (three DQUOTE ++ LF :: str "x" ++ BACKSLASH :: [CR; LF]
                  ++ (SPACE :: CR :: LF :: [TAB]) ++ str "#c"
                  ++ three DQUOTE ++ [])
         (8 + length (str "x") + length [CR; LF]
          + length (SPACE :: CR :: LF :: [TAB]) + length (str "#c"))).
Proof.
  refine (proj1 (proj2 (proj2
            (@MultilineBasicString_content 20 (str "x") (str "#c")
               [CR; LF] (SPACE :: CR :: LF :: [TAB]) [] [] _ _ _ _ _ _ _))));
    [ reflexivity | reflexivity | right; reflexivity | reflexivity
    | reflexivity | reflexivity | vm_compute; lia ].
Defined.

Lemma parse_terminates_witness :
  length two_bins + 2 <= 60
  /\ ParserFactory (Toml isoDate 60) two_bins <> Diverges
  /\ ParserFactory (Toml isoDate 60) two_bins = parse isoDate two_bins.
Proof.
  assert (H : length two_bins + 2 <= 60) by (vm_compute; lia).
  split; [exact H | exact (@parse_terminates isoDate two_bins 60 H)].
Defined.

Lemma InlineTable_empty_fast_path_witness :
  InlineTable isoDate 5 (newScanner (str "x}"))
  = Ret (success (Obj [])) (mkScanner (str "x}") 2)
  /\ parse isoDate (str "a = x}") = Returns (Obj [(str "a", Obj [])]).
Proof.
  apply (@InlineTable_empty_fast_path isoDate 5 (newScanner (str "x}"))
           (newScanner (str "x}"))); reflexivity.
Defined.


Lemma nextUntilChar_inline_checks_whitespace_witness :
  nextUntilChar 3 opt_inline (newScanner (SPACE :: VT :: str "x"))
  = Throw (TOMLParseError
             (str "Contains invalid whitespaces: `\u" ++ hexadecimal VT
              ++ str "`"))
      (mkScanner (SPACE :: VT :: str "x") 1).
Proof.
  apply (@nextUntilChar_inline_checks_whitespace 3
           (newScanner (SPACE :: VT :: str "x"))
           (mkScanner (SPACE :: VT :: str "x") 1) VT);
    reflexivity.
Defined.

Lemma nextUntilChar_full_rejects_whitespace_witness :
  parse isoDate (SPACE :: LF :: VT :: str "a = 1")
  = Throws (TOMLParseError
              (positioned [SPACE; LF]
                 (str "Contains invalid whitespaces: `\u" ++ hexadecimal VT
                  ++ str "`"))).
Proof.
  apply (@nextUntilChar_full_rejects_whitespace isoDate
           (SPACE :: LF :: VT :: str "a = 1")
           (mkScanner (SPACE :: LF :: VT :: str "a = 1") 2) VT);
    reflexivity.
Defined.

(** ** Instances of the further properties *)

Lemma nextUntilChar_stops_on_content_witness :
  source (mkScanner (str " # c" ++ LF :: str "k") 5)
  = source (newScanner (str " # c" ++ LF :: str "k"))
  /\ (eof (mkScanner (str " # c" ++ LF :: str "k") 5) = true
      \/ exists c,
           char (mkScanner (str " # c" ++ LF :: str "k") 5) 0 = Some c
           /\ is_space c = false /\ c <> HASH).
Proof.
  apply (@nextUntilChar_stops_on_content 10
           (newScanner (str " # c" ++ LF :: str "k"))
           (mkScanner (str " # c" ++ LF :: str "k") 5)).
  reflexivity.
Defined.

Lemma unflat_builds_nested_mapping_witness :
  unflat [str "a"; str "b"] (Bool false) Undefined
  = nest [str "a"; str "b"] (default_values (Bool false))
  /\ lookup (unflat [str "a"; str "b"] (Bool false) Undefined)
       [str "a"; str "b"]
     = default_values (Bool false)
  /\ unflat [str "a"; str "b"] Undefined Undefined
     = nest [str "a"; str "b"] (Obj [])
  /\ (Bool false <> Undefined ->
      lookup (unflat [str "a"; str "b"] (Bool false) Undefined)
        [str "a"; str "b"]
      = Bool false).
Proof.
  apply (@unflat_builds_nested_mapping [str "a"; str "b"] (Bool false));
    [discriminate | reflexivity].
Defined.

Lemma deepAssignWithTable_fresh_key_witness :
  deepAssignWithTable (Obj [(str "x", Bool true)]) Table_t
    [str "a"; str "b"] Undefined
  = inr (Obj (set [(str "x", Bool true)] (str "a")
                (nest [str "b"] (Obj []))))
  /\ lookup (Obj (set [(str "x", Bool true)] (str "a")
                    (nest [str "b"] (Obj []))))
       [str "a"; str "b"]
     = Obj []
  /\ (forall other, jseq (str "a") other = false ->
        get (set [(str "x", Bool true)] (str "a")
               (nest [str "b"] (Obj []))) other
        = get [(str "x", Bool true)] other).
Proof.
  apply (@deepAssignWithTable_fresh_key [(str "x", Bool true)] (str "a")
           [str "b"] Table_t Undefined);
    reflexivity.
Defined.

Lemma deepAssignWithTable_keeps_other_keys_witness :
  exists props',
    Obj [(str "x", Bool true);
         (str "a", Arr [Obj []; Obj [(str "b", Obj [])]])]
    = Obj props'
    /\ forall other, jseq (str "a") other = false ->
         get props' other
         = get [(str "x", Bool true); (str "a", Arr [Obj []; Obj []])] other.
Proof.
  apply (@deepAssignWithTable_keeps_other_keys
           [(str "x", Bool true); (str "a", Arr [Obj []; Obj []])]
           Table_t (str "a") [str "b"] (Obj [])
           (Obj [(str "x", Bool true);
                 (str "a", Arr [Obj []; Obj [(str "b", Obj [])]])]));
    reflexivity.
Defined.

Lemma BareKey_reads_longest_run_witness :
  BareKey 10 (newScanner (str "  " ++ str "ab-1" ++ str " = 1"))
  = Ret (success (str "ab-1"))
      (advance (newScanner (str "  " ++ str "ab-1" ++ str " = 1"))
         (length (str "  ") + length (str "ab-1"))).
Proof.
  apply (@BareKey_reads_longest_run (str "  ") (str "ab-1") 10
           (newScanner (str "  " ++ str "ab-1" ++ str " = 1")) (str " = 1"));
    try reflexivity; [discriminate | vm_compute; lia].
Defined.

Lemma EscapeSequence_decodes_witness :
  EscapeSequence (newScanner (BACKSLASH :: 110%N :: str "x"))
  = Ret (success [10%N]) (advance (newScanner (BACKSLASH :: 110%N :: str "x")) 2)
  /\ EscapeSequence (newScanner (unicode_escape 955 ++ str "x"))
     = Ret (success [955%N])
         (advance (newScanner (unicode_escape 955 ++ str "x")) 6).
Proof.
  split.
  - apply (proj1 (@EscapeSequence_decodes
                    (newScanner (BACKSLASH :: 110%N :: str "x")) (str "x"))
             110%N 10%N);
      [right; right; left; reflexivity | reflexivity].
  - apply (proj2 (@EscapeSequence_decodes
                    (newScanner (unicode_escape 955 ++ str "x")) (str "x"))
             955%N);
      [reflexivity | reflexivity].
Defined.

Lemma BasicString_reads_JSON_stringify_witness :
  BasicString 20
    (newScanner (JSON_string [97; DQUOTE; LF; 56832; 98]%N ++ str " # c"))
  = Ret (success [97; DQUOTE; LF; 56832; 98]%N)
      (advance
         (newScanner (JSON_string [97; DQUOTE; LF; 56832; 98]%N ++ str " # c"))
         (length (JSON_string [97; DQUOTE; LF; 56832; 98]%N))).
Proof.
  apply (@BasicString_reads_JSON_stringify [97; DQUOTE; LF; 56832; 98]%N
           (str " # c") 20
           (newScanner (JSON_string [97; DQUOTE; LF; 56832; 98]%N
                        ++ str " # c")));
    [reflexivity | vm_compute; lia].
Defined.

Lemma BasicString_errors_witness :
  BasicString 5 (newScanner (DQUOTE :: str "ab"))
  = Throw (not_closed (str "Single-line") (str "ab"))
      (advance (newScanner (DQUOTE :: str "ab")) (length (str "ab") + 1))
  /\ BasicString 5 (newScanner (DQUOTE :: str "ab" ++ LF :: str "c"))
     = Throw (TOMLParseError (str "Single-line string cannot contain EOL"))
         (advance (newScanner (DQUOTE :: str "ab" ++ LF :: str "c"))
            (length (str "ab") + 1))
  /\ BasicString 5
       (newScanner (DQUOTE :: str "ab" ++ BACKSLASH :: 120%N :: str "c"))
     = Throw (TOMLParseError (str "Invalid escape sequence: "
                              ++ [BACKSLASH; 120%N]))
         (advance
            (newScanner (DQUOTE :: str "ab" ++ BACKSLASH :: 120%N :: str "c"))
            (length (str "ab") + 2)).
Proof.
  assert (Hbody : forallb plain_char (str "ab") = true) by reflexivity.
  assert (Hfuel : length (str "ab") < 5) by (vm_compute; lia).
  split; [ | split].
  - apply (proj1 (@BasicString_errors (str "ab") (str "c") 120%N 5
                    (newScanner (DQUOTE :: str "ab")) Hbody Hfuel)).
    reflexivity.
  - apply (proj1 (proj2 (@BasicString_errors (str "ab") (str "c") 120%N 5
                           (newScanner (DQUOTE :: str "ab" ++ LF :: str "c"))
                           Hbody Hfuel))).
    reflexivity.
  - apply (proj2 (proj2 (@BasicString_errors (str "ab") (str "c") 120%N 5
                           (newScanner (DQUOTE :: str "ab" ++ BACKSLASH
                                        :: 120%N :: str "c"))
                           Hbody Hfuel)));
      reflexivity.
Defined.

Lemma LiteralString_reads_verbatim_witness :
  LiteralString 9 (newScanner (SQUOTE :: str "C:\n" ++ SQUOTE :: str " # c"))
  = Ret (success (str "C:\n"))
      (advance (newScanner (SQUOTE :: str "C:\n" ++ SQUOTE :: str " # c"))
         (length (str "C:\n") + 2))
  /\ LiteralString 9 (newScanner (SQUOTE :: str "C:\n"))
     = Throw (not_closed (str "Single-line") (str "C:\n"))
         (advance (newScanner (SQUOTE :: str "C:\n")) (length (str "C:\n") + 1))
  /\ LiteralString 9 (newScanner (SQUOTE :: str "C:\n" ++ LF :: str " # c"))
     = Throw (TOMLParseError (str "Single-line string cannot contain EOL"))
         (advance (newScanner (SQUOTE :: str "C:\n" ++ LF :: str " # c"))
            (length (str "C:\n") + 1)).
Proof.
  assert (Hbody : forallb literal_char (str "C:\n") = true) by reflexivity.
  assert (Hfuel : length (str "C:\n") < 9) by (vm_compute; lia).
  split; [ | split].
  - apply (proj1 (@LiteralString_reads_verbatim (str "C:\n") (str " # c") 9
                    (newScanner (SQUOTE :: str "C:\n" ++ SQUOTE :: str " # c"))
                    Hbody Hfuel)).
    reflexivity.
  - apply (proj1 (proj2 (@LiteralString_reads_verbatim (str "C:\n")
                           (str " # c") 9
                           (newScanner (SQUOTE :: str "C:\n")) Hbody Hfuel))).
    reflexivity.
  - apply (proj2 (proj2 (@LiteralString_reads_verbatim (str "C:\n")
                           (str " # c") 9
                           (newScanner (SQUOTE :: str "C:\n" ++ LF
                                        :: str " # c"))
                           Hbody Hfuel))).
    reflexivity.
Defined.

Lemma MultilineLiteralString_reads_verbatim_witness :
  MultilineLiteralString 9
    (newScanner (three SQUOTE ++ [LF] ++ str "a\b" ++ three SQUOTE
                 ++ [SQUOTE]))
  = Ret (success (str "a\b" ++ [SQUOTE]))
      (advance
         (newScanner (three SQUOTE ++ [LF] ++ str "a\b" ++ three SQUOTE
                      ++ [SQUOTE]))
         (3 + length [LF] + length (str "a\b") + 4)).
Proof.
  apply (@MultilineLiteralString_reads_verbatim [LF] (str "a\b") [SQUOTE] 9
           (newScanner (three SQUOTE ++ [LF] ++ str "a\b" ++ three SQUOTE
                        ++ [SQUOTE])));
    [right; left; reflexivity | discriminate | reflexivity | reflexivity
    | vm_compute; lia].
Defined.

Lemma Symbols_reads_every_literal_witness :
  Symbols 3 (newScanner (str "-inf" ++ str "x"))
  = Ret (success (Num (Infinity true)))
      (advance (newScanner (str "-inf" ++ str "x")) (length (str "-inf"))).
Proof.
  apply (@Symbols_reads_every_literal (str "-inf") (Num (Infinity true)) 2
           (newScanner (str "-inf" ++ str "x")) (str "x"));
    [do 4 right; left; reflexivity | reflexivity].
Defined.

Lemma Integer_keeps_radix_literals_witness :
  Integer 9 (newScanner (48 :: 120 :: str "fF_0" ++ str " #")%N)
  = Ret (success (Str (48 :: 120 :: str "fF_0")%N))
      (advance (newScanner (48 :: 120 :: str "fF_0" ++ str " #")%N)
         (2 + length (str "fF_0"))).
Proof.
  apply (@Integer_keeps_radix_literals 48%N 120%N (str "fF_0") (str " #") 9
           (newScanner (48 :: 120 :: str "fF_0" ++ str " #")%N));
    try reflexivity.
  vm_compute. lia.
Defined.

Lemma Integer_reads_decimal_witness :
  Integer 9 (newScanner ([45%N] ++ str "01_000" ++ []))
  = Ret (success (Num (Decimal true 1000 0)))
      (advance (newScanner ([45%N] ++ str "01_000" ++ []))
         (length [45%N] + length (str "01_000"))).
Proof.
  apply (@Integer_reads_decimal [45%N] (str "01_000") [] 9
           (newScanner ([45%N] ++ str "01_000" ++ [])));
    [right; right; reflexivity | reflexivity | discriminate
    | apply N.leb_le; reflexivity | reflexivity | reflexivity | reflexivity
    | vm_compute; lia].
Defined.

Lemma LocalTime_keeps_the_text_witness :
  LocalTime 9 (newScanner (str "99:99:99" ++ str " # c"))
  = Ret (success (Str (str "99:99:99")))
      (advance (newScanner (str "99:99:99" ++ str " # c")) 8)
  /\ LocalTime 9 (newScanner (str "07:32:00" ++ 46%N :: str "5000" ++ []))
     = Ret (success (Str (str "07:32:00" ++ 46%N :: str "5000")))
         (advance (newScanner (str "07:32:00" ++ 46%N :: str "5000" ++ []))
            (9 + length (str "5000"))).
Proof.
  assert (Hnone : length (@nil N) < 9) by (simpl; lia).
  assert (Hfrac : length (str "5000") < 9) by (vm_compute; lia).
  split.
  - apply (proj1 (@LocalTime_keeps_the_text (str "99:99:99") [] (str " # c") 9
                    (newScanner (str "99:99:99" ++ str " # c"))
                    eq_refl eq_refl eq_refl eq_refl Hnone));
      reflexivity.
  - apply (proj2 (@LocalTime_keeps_the_text (str "07:32:00") (str "5000") []
                    9
                    (newScanner (str "07:32:00" ++ 46%N :: str "5000" ++ []))
                    eq_refl eq_refl eq_refl eq_refl Hfrac));
      reflexivity.
Defined.

Lemma DateTime_hands_the_text_to_the_host_witness :
  DateTime isoDate 20
    (newScanner (str "1979-05-27" ++ str "T07:32:00Z" ++ str "+1"))
  = match isoDate (trim (str "1979-05-27" ++ str "T07:32:00Z")) with
    | Some date =>
        Ret (success (DateV date))
          (advance
             (newScanner (str "1979-05-27" ++ str "T07:32:00Z" ++ str "+1"))
             (10 + length (str "T07:32:00Z")))
    | None =>
        Throw (TOMLParseError
                 (str "Invalid date string "
                  ++ quoted (str "1979-05-27" ++ str "T07:32:00Z")))
          (advance
             (newScanner (str "1979-05-27" ++ str "T07:32:00Z" ++ str "+1"))
             (10 + length (str "T07:32:00Z")))
    end.
Proof.
  apply (@DateTime_hands_the_text_to_the_host isoDate (str "1979-05-27")
           (str "T07:32:00Z") (str "+1") 20
           (newScanner (str "1979-05-27" ++ str "T07:32:00Z" ++ str "+1")));
    try reflexivity.
  vm_compute. lia.
Defined.

Lemma DottedKey_reads_joinKeys_output_witness :
  DottedKey 30
    (newScanner (joinKeys [str "a"; str "b c"; []] ++ [SPACE]
                 ++ 61%N :: str " 1"))
  = Ret (success [str "a"; str "b c"; []])
      (advance
         (newScanner (joinKeys [str "a"; str "b c"; []] ++ [SPACE]
                      ++ 61%N :: str " 1"))
         (length (joinKeys [str "a"; str "b c"; []]) + length [SPACE])).
Proof.
  apply (@DottedKey_reads_joinKeys_output [str "a"; str "b c"; []] 30
           (newScanner (joinKeys [str "a"; str "b c"; []] ++ [SPACE]
                        ++ 61%N :: str " 1"))
           [SPACE] 61%N (str " 1"));
    try reflexivity; [discriminate | discriminate | vm_compute; lia].
Defined.

Lemma parse_rejects_documents_without_content_witness :
  parse isoDate (str " # only a comment" ++ [LF])
  = Throws (TOMLParseError
              (positioned (str " # only a comment" ++ [LF])
                 (str "Unexpected character: " ++ quoted []))).
Proof.
  apply (@parse_rejects_documents_without_content isoDate
           (str " # only a comment" ++ [LF]) 30
           (mkScanner (str " # only a comment" ++ [LF]) 18));
    reflexivity.
Defined.

Lemma parse_rejects_key_without_value_witness :
  parse isoDate (str "name" ++ LF :: str "x = 1")
  = Throws (TOMLParseError
              (positioned (str "name")
                 (str "key/value pair doesn't have " ++ quoted (str "=")))).
Proof.
  apply (@parse_rejects_key_without_value isoDate (str "name")
           (LF :: str "x = 1"));
    [discriminate | reflexivity | right; exists (str "x = 1"); reflexivity].
Defined.

Lemma stringify_never_throws_witness :
  exists text,
    stringify (Obj [(str "a", Arr [Num NaN; Obj []; Arr []]);
                    (str "b", Obj [(str "c", Arr [Obj [(str "d", Str [])]])])])
    = inr text.
Proof.
  apply (@stringify_never_throws
           [(str "a", Arr [Num NaN; Obj []; Arr []]);
            (str "b", Obj [(str "c", Arr [Obj [(str "d", Str [])]])])]).
  reflexivity.
Defined.

Lemma parse_stringify_scalars_witness :
  stringify (Obj [([], Str [DQUOTE; LF]); (str "b c", Bool true);
                  (str "inf", Num (Infinity true));
                  (str "n", Num (Decimal true 1024 0))])
  = inr (scalar_document [([], Str [DQUOTE; LF]); (str "b c", Bool true);
                          (str "inf", Num (Infinity true));
                          (str "n", Num (Decimal true 1024 0))])
  /\ reparse isoDate (Obj [([], Str [DQUOTE; LF]); (str "b c", Bool true);
                           (str "inf", Num (Infinity true));
                           (str "n", Num (Decimal true 1024 0))])
     = Returns (Obj [([], Str [DQUOTE; LF]); (str "b c", Bool true);
                     (str "inf", Num (Infinity true));
                     (str "n", Num (Decimal true 1024 0))]).
Proof.
  apply (@parse_stringify_scalars isoDate
           [([], Str [DQUOTE; LF]); (str "b c", Bool true);
            (str "inf", Num (Infinity true));
            (str "n", Num (Decimal true 1024 0))]);
    [discriminate | reflexivity | reflexivity].
Defined.

Lemma parse_stringify_tables_witness :
  stringify
    (Obj ([(str "title", Str (str "x")); (str "n", Num (Decimal false 7 0))]
          ++ map table_entry
               [(str "owner", [(str "name", Str (str "Tom"));
                               (str "ok", Bool true)]);
                (str "none", [])]))
  = inr (table_document
           [(str "title", Str (str "x")); (str "n", Num (Decimal false 7 0))]
           [(str "owner", [(str "name", Str (str "Tom"));
                           (str "ok", Bool true)]);
            (str "none", [])])
  /\ reparse isoDate
       (Obj ([(str "title", Str (str "x"));
              (str "n", Num (Decimal false 7 0))]
             ++ map table_entry
                  [(str "owner", [(str "name", Str (str "Tom"));
                                  (str "ok", Bool true)]);
                   (str "none", [])]))
     = Returns
         (Obj ([(str "title", Str (str "x"));
                (str "n", Num (Decimal false 7 0))]
               ++ map table_entry
                    [(str "owner", [(str "name", Str (str "Tom"));
                                    (str "ok", Bool true)]);
                     (str "none", [])])).
Proof.
  apply (@parse_stringify_tables isoDate
           [(str "title", Str (str "x")); (str "n", Num (Decimal false 7 0))]
           [(str "owner", [(str "name", Str (str "Tom"));
                           (str "ok", Bool true)]);
            (str "none", [])]);
    [left; discriminate | reflexivity | reflexivity | reflexivity
    | reflexivity].
Defined.

Lemma Value_reads_printDate_witness :
  length (printDate (mkDate 1979 4 27 7 32 0 0)) = 23
  /\ Value isoDate 30
       (newScanner (printDate (mkDate 1979 4 27 7 32 0 0) ++ [LF]))
     = match isoDate (printDate (mkDate 1979 4 27 7 32 0 0)) with
       | Some date =>
           Ret (success (DateV date))
             (advance
                (newScanner (printDate (mkDate 1979 4 27 7 32 0 0) ++ [LF]))
                23)
       | None =>
           Throw (TOMLParseError
                    (str "Invalid date string "
                     ++ quoted (printDate (mkDate 1979 4 27 7 32 0 0))))
             (advance
                (newScanner (printDate (mkDate 1979 4 27 7 32 0 0) ++ [LF]))
                23)
       end.
Proof.
  apply (@Value_reads_printDate isoDate (mkDate 1979 4 27 7 32 0 0) [LF] 30
           (newScanner (printDate (mkDate 1979 4 27 7 32 0 0) ++ [LF])));
    try reflexivity.
  lia.
Defined.

Lemma parse_stringify_table_arrays_witness :
  stringify
    (Obj ([(str "title", Str (str "x"))]
          ++ map entry_member
               [ArrayOf (str "fruit")
                  [(str "name", Str (str "apple")); (str "n", Num (Decimal false 2 0))]
                  [[]; [(str "name", Str (str "plum"))]];
                TableOf (str "owner") [(str "ok", Bool true)]]))
  = inr (entries_document
           [(str "title", Str (str "x"))]
           [ArrayOf (str "fruit")
              [(str "name", Str (str "apple")); (str "n", Num (Decimal false 2 0))]
              [[]; [(str "name", Str (str "plum"))]];
            TableOf (str "owner") [(str "ok", Bool true)]])
  /\ reparse isoDate
       (Obj ([(str "title", Str (str "x"))]
             ++ map entry_member
                  [ArrayOf (str "fruit")
                     [(str "name", Str (str "apple")); (str "n", Num (Decimal false 2 0))]
                     [[]; [(str "name", Str (str "plum"))]];
                   TableOf (str "owner") [(str "ok", Bool true)]]))
     = Returns
         (Obj ([(str "title", Str (str "x"))]
               ++ map entry_member
                    [ArrayOf (str "fruit")
                       [(str "name", Str (str "apple")); (str "n", Num (Decimal false 2 0))]
                       [[]; [(str "name", Str (str "plum"))]];
                     TableOf (str "owner") [(str "ok", Bool true)]])).
Proof.
  apply (@parse_stringify_table_arrays isoDate
           [(str "title", Str (str "x"))]
           [ArrayOf (str "fruit")
              [(str "name", Str (str "apple")); (str "n", Num (Decimal false 2 0))]
              [[]; [(str "name", Str (str "plum"))]];
            TableOf (str "owner") [(str "ok", Bool true)]]);
    [left; discriminate | reflexivity | reflexivity | reflexivity
    | reflexivity].
Defined.
